(** * Verification of the baseline deblender utilities (BaselineUtils.cc)

    A shallow embedding of the pixel-level routines of
    [lsst::meas::deblender::BaselineUtils] together with the properties
    established about them.

    Modelling conventions.
    - A C++ [int] that holds a coordinate, a length or a counter is a [Z].
      Where the code multiplies coordinate differences in [int] before it
      converts to [double] (the stray-flux weights), the 32-bit result is
      written out with its two's-complement wrap-around ([i32]).  The
      unsigned 16-bit pixels of the distance transform wrap around as well
      ([u16]).
    - A dense image is a bounding box together with a function from parent
      coordinates to pixel values; [get_local] and [get0] translate the two
      addressing modes of the image library.
    - A span set is the sorted list of its spans; iterators into it are
      integer positions.
    - Outcomes of fallible code are values of [Res]: a normal result, a thrown
      exception, an out-of-range memory access (undefined behaviour) or an
      exhausted iteration budget of the model. *)

From Stdlib Require Import ZArith List Bool Lia Sorted FinFun QArith Qcanon.
From Stdlib Require Import SpecFloat.
Import ListNotations.
Close Scope Qc_scope.
Close Scope Q_scope.
Open Scope Z_scope.

(** ** Outcomes *)

Inductive ExcKind : Type := LengthError | RuntimeError.

Inductive Res (A : Type) : Type :=
  | Ok (a : A)
  | Throw (e : ExcKind)
  | Undef
  | OutOfFuel.

Arguments Ok {A} a.
Arguments Throw {A} e.
Arguments Undef {A}.
Arguments OutOfFuel {A}.

Definition bind {A B : Type} (m : Res A) (k : A -> Res B) : Res B :=
  match m with
  | Ok a => k a
  | Throw e => Throw e
  | Undef => Undef
  | OutOfFuel => OutOfFuel
  end.

Notation "x <- m ;; k" := (bind m (fun x => k))
  (at level 61, m at next level, right associativity).

(** ** Spans, span sets and footprints *)

Record Span : Type := mkSpan { sp_y : Z; sp_x0 : Z; sp_x1 : Z }.

(** [Span::contains(x, y)] *)
Definition span_contains (s : Span) (x y : Z) : bool :=
  (sp_x0 s <=? x) && (x <=? sp_x1 s) && (y =? sp_y s).

(** [Span::operator<]: lexicographic on (y, x0, x1); this is [span_compare]. *)
Definition span_compare (a b : Span) : bool :=
  if sp_y a <? sp_y b then true
  else if sp_y b <? sp_y a then false
  else if sp_x0 a <? sp_x0 b then true
  else if sp_x0 b <? sp_x0 a then false
  else sp_x1 a <? sp_x1 b.

Definition SpanSet := list Span.

(** Pixel membership in a list of spans. *)
Definition spans_contain (l : list Span) (x y : Z) : bool :=
  existsb (fun s => span_contains s x y) l.

(** The invariant of a [SpanSet]: every span is a non-empty run and the
    spans are strictly ordered without overlap. *)
Definition span_ok (s : Span) : bool := sp_x0 s <=? sp_x1 s.

Definition span_before (a b : Span) : bool :=
  (sp_y a <? sp_y b) || ((sp_y a =? sp_y b) && (sp_x1 a <? sp_x0 b)).

Fixpoint spanset_ok (l : list Span) : bool :=
  match l with
  | [] => true
  | a :: r =>
      span_ok a &&
      match r with
      | [] => true
      | b :: _ => span_before a b
      end && spanset_ok r
  end.

Record Footprint : Type := mkFootprint {
  fp_spans : SpanSet;
  fp_peaks : list (Z * Z)
}.

Definition foot_contains (f : Footprint) (x y : Z) : bool :=
  spans_contain (fp_spans f) x y.

(** Modelled from the spec: the [SpanSet] constructor of the footprint
    library, which is not part of this repository.  The spec makes it
    "responsible for sorting and coalescing contiguous pixels in the same
    row"; spans are sorted with [Span::operator<] and a span that starts
    inside or right after the previous run of its row is merged into it. *)
Fixpoint insert_span (s : Span) (l : list Span) : list Span :=
  match l with
  | [] => [s]
  | h :: t => if span_compare s h then s :: l else h :: insert_span s t
  end.

Definition sort_spans (l : list Span) : list Span :=
  fold_right insert_span [] l.

Fixpoint coalesce (cur : Span) (l : list Span) : list Span :=
  match l with
  | [] => [cur]
  | s :: r =>
      if (sp_y s =? sp_y cur) && (sp_x0 s <=? sp_x1 cur + 1) then
        coalesce (mkSpan (sp_y cur) (sp_x0 cur)
                         (Z.max (sp_x1 cur) (sp_x1 s))) r
      else cur :: coalesce s r
  end.

Definition make_SpanSet (l : list Span) : SpanSet :=
  match sort_spans l with
  | [] => []
  | a :: r => coalesce a r
  end.

(** Iterator dereference: a position outside [0, size) is an out-of-range
    read. *)
Definition span_at (spans : SpanSet) (i : Z) : Res Span :=
  if (0 <=? i) && (i <? Z.of_nat (length spans)) then
    match nth_error spans (Z.to_nat i) with
    | Some s => Ok s
    | None => Undef
    end
  else Undef.

(** [std::upper_bound(begin, end, target, span_compare)]: the position of the
    first span greater than [target] in a sorted range. *)
Fixpoint upper_bound (spans : SpanSet) (target : Span) : Z :=
  match spans with
  | [] => 0
  | s :: r => if span_compare target s then 0 else 1 + upper_bound r target
  end.

(** ** Symmetrizer *)

Section Symmetrizer.

Variable spans : SpanSet.
Variables cx cy : Z.

(** [RelativeSpanIterator]: a position in [spans] walked forward or
    backward, read in coordinates relative to (cx, cy). *)
Record RelativeSpanIterator : Type := mkRSI {
  it_real : Z;
  it_forward : bool
}.

Definition it_incr (it : RelativeSpanIterator) : RelativeSpanIterator :=
  if it_forward it then mkRSI (it_real it + 1) true
  else mkRSI (it_real it - 1) false.

Definition it_eqb (a b : RelativeSpanIterator) : bool :=
  (it_real a =? it_real b) && Bool.eqb (it_forward a) (it_forward b).

Definition notDone (it : RelativeSpanIterator) : bool :=
  if it_forward it then it_real it <? Z.of_nat (length spans)
  else 0 <=? it_real it.

Definition it_dxlo (it : RelativeSpanIterator) : Res Z :=
  s <- span_at spans (it_real it) ;;
  Ok (if it_forward it then sp_x0 s - cx else cx - sp_x1 s).

Definition it_dxhi (it : RelativeSpanIterator) : Res Z :=
  s <- span_at spans (it_real it) ;;
  Ok (if it_forward it then sp_x1 s - cx else cx - sp_x0 s).

Definition it_dy (it : RelativeSpanIterator) : Res Z :=
  s <- span_at spans (it_real it) ;;
  Ok (Z.abs (sp_y s - cy)).

(** Number of positions left before the iterator is done. *)
Definition it_left (it : RelativeSpanIterator) : nat :=
  if it_forward it then Z.to_nat (Z.of_nat (length spans) - it_real it)
  else Z.to_nat (it_real it + 1).

(** [for (e = it; e.notDone(); ++e) if (e.dy() != dy) break;]
    The counter is the number of positions left, so it reaches zero exactly
    when [notDone] fails. *)
Fixpoint row_end (k : nat) (e : RelativeSpanIterator) (dy : Z)
  : Res RelativeSpanIterator :=
  match k with
  | O => Ok e
  | S k' =>
      if notDone e then
        d <- it_dy e ;;
        if negb (d =? dy) then Ok e else row_end k' (it_incr e) dy
      else Ok e
  end.

(** [while ((it != e) && (it.dxhi() < lo)) it++;]
    The counter is the distance from [it] to [e]. *)
Fixpoint advance_past (k : nat) (it e : RelativeSpanIterator) (lo : Z)
  : Res RelativeSpanIterator :=
  match k with
  | O => Ok it
  | S k' =>
      if negb (it_eqb it e) then
        h <- it_dxhi it ;;
        if h <? lo then advance_past k' (it_incr it) e lo else Ok it
      else Ok it
  end.

Definition it_dist (a b : RelativeSpanIterator) : nat :=
  Z.to_nat (Z.abs (it_real b - it_real a)).

(** The main loop of [symmetrizeFootprint]; [tmp] is [tmpSpans]. *)
Fixpoint sym_loop (fuel : nat) (fwd back : RelativeSpanIterator) (dy : Z)
         (tmp : list Span) : Res (list Span) :=
  match fuel with
  | O => OutOfFuel
  | S fuel' =>
      if notDone fwd && notDone back then
        let fy := cy + dy in
        let by_ := cy - dy in
        fdxlo <- it_dxlo fwd ;;
        bdxlo <- it_dxlo back ;;
        fend <- row_end (it_left fwd) fwd dy ;;
        bend <- row_end (it_left back) back dy ;;
        fb <- (if fdxlo <? bdxlo then
                 f <- advance_past (it_dist fwd fend) fwd fend bdxlo ;;
                 Ok (f, back)
               else if bdxlo <? fdxlo then
                 b <- advance_past (it_dist back bend) back bend fdxlo ;;
                 Ok (fwd, b)
               else Ok (fwd, back)) ;;
        let fwd := fst fb in
        let back := snd fb in
        if it_eqb back bend || it_eqb fwd fend then
          sym_loop fuel' fend bend (dy + 1) tmp
        else
          flo <- it_dxlo fwd ;;
          blo <- it_dxlo back ;;
          fhi <- it_dxhi fwd ;;
          bhi <- it_dxhi back ;;
          let dxlo := Z.max flo blo in
          let dxhi := Z.min fhi bhi in
          let tmp :=
            if dxlo <=? dxhi then
              tmp ++ [mkSpan fy (cx + dxlo) (cx + dxhi);
                      mkSpan by_ (cx - dxhi) (cx - dxlo)]
            else tmp in
          let fb := if fhi <? bhi then (it_incr fwd, back)
                    else (fwd, it_incr back) in
          let fwd := fst fb in
          let back := snd fb in
          if it_eqb back bend || it_eqb fwd fend then
            sym_loop fuel' fend bend (dy + 1) tmp
          else
            sym_loop fuel' fwd back dy tmp
      else Ok tmp
  end.

(** Locating the span that contains the peak; [None] is the logged
    failure that makes [symmetrizeFootprint] return a null pointer. *)
Definition find_peakspan : Res (option Z) :=
  let target := mkSpan cy cx cx in
  let peakspan := upper_bound spans target in
  if peakspan =? 0 then
    sp <- span_at spans peakspan ;;
    if negb (span_contains sp cx cy) then Ok None else Ok (Some peakspan)
  else
    let peakspan := peakspan - 1 in
    sp <- span_at spans peakspan ;;
    if negb (span_contains sp cx cy) then
      let peakspan := peakspan + 1 in
      sp <- span_at spans peakspan ;;
      if negb (span_contains sp cx cy) then Ok None
      else Ok (Some peakspan)
    else Ok (Some peakspan).

(** Iteration budget of the model for the main loop: every iteration
    either consumes a span or moves to the next row distance. *)
Definition sym_fuel : nat :=
  Z.to_nat (Z.of_nat (length spans)
            + Z.max 0 (sp_y (last spans (mkSpan 0 0 0))
                       - sp_y (hd (mkSpan 0 0 0) spans)) + 3).

End Symmetrizer.

(** [symmetrizeFootprint(foot, cx, cy)]: [Ok None] is the null pointer;
    the emitted spans are handed to the [SpanSet] constructor, the peak list
    of the result is empty. *)
Definition symmetrizeFootprint (foot : Footprint) (cx cy : Z)
  : Res (option Footprint) :=
  let spans := fp_spans foot in
  ps <- find_peakspan spans cx cy ;;
  match ps with
  | None => Ok None
  | Some peakspan =>
      tmp <- sym_loop spans cx cy (sym_fuel spans)
               (mkRSI peakspan true) (mkRSI peakspan false) 0 [] ;;
      Ok (Some (mkFootprint (make_SpanSet tmp) []))
  end.


(** ** Integer boxes

    [Box2I] of the geometry library: an inclusive integer rectangle.  The
    empty box is kept in the canonical form the library uses (minimum (0,0),
    dimensions (0,0)). *)

Record Box2I : Type := mkBox { minX : Z; minY : Z; maxX : Z; maxY : Z }.

Definition box_empty : Box2I := mkBox 0 0 (-1) (-1).

Definition isEmpty (b : Box2I) : bool :=
  (maxX b <? minX b) || (maxY b <? minY b).

Definition getWidth (b : Box2I) : Z := maxX b - minX b + 1.
Definition getHeight (b : Box2I) : Z := maxY b - minY b + 1.

(** [Box2I::contains(Point2I)] *)
Definition box_contains_pt (b : Box2I) (x y : Z) : bool :=
  (minX b <=? x) && (x <=? maxX b) && (minY b <=? y) && (y <=? maxY b).

(** [Box2I::contains(Box2I)]: an empty box is contained in every box. *)
Definition box_contains (b o : Box2I) : bool :=
  isEmpty o ||
  ((minX b <=? minX o) && (minY b <=? minY o) &&
   (maxX o <=? maxX b) && (maxY o <=? maxY b)).

(** [Box2I::clip]: intersection, the empty box if there is none. *)
Definition box_clip (b o : Box2I) : Box2I :=
  if isEmpty b then b
  else if isEmpty o then box_empty
  else
    let r := mkBox (Z.max (minX b) (minX o)) (Z.max (minY b) (minY o))
                   (Z.min (maxX b) (maxX o)) (Z.min (maxY b) (maxY o)) in
    if isEmpty r then box_empty else r.

(** [Box2I::include(Point2I)] *)
Definition box_include (b : Box2I) (x y : Z) : Box2I :=
  if isEmpty b then mkBox x y x y
  else mkBox (Z.min (minX b) x) (Z.min (minY b) y)
             (Z.max (maxX b) x) (Z.max (maxY b) y).

(** Bounding box of a span set ([SpanSet::getBBox], [Footprint::getBBox]). *)
Definition spans_bbox (l : SpanSet) : Box2I :=
  fold_left (fun b s =>
               box_include (box_include b (sp_x0 s) (sp_y s))
                           (sp_x1 s) (sp_y s))
            l box_empty.

Definition getBBox (f : Footprint) : Box2I := spans_bbox (fp_spans f).

(** [n] consecutive integers starting at [a]. *)
Definition zseq (a n : Z) : list Z :=
  map (fun k => a + Z.of_nat k) (seq 0 (Z.to_nat n)).

(** The pixels of a box in raster order: rows bottom to top, each row left
    to right. *)
Definition box_pixels (b : Box2I) : list (Z * Z) :=
  flat_map (fun y => map (fun x => (x, y)) (zseq (minX b) (getWidth b)))
           (zseq (minY b) (getHeight b)).

(** The pixels of a span and of a span set in iteration order. *)
Definition span_pixels (s : Span) : list (Z * Z) :=
  map (fun x => (x, sp_y s)) (zseq (sp_x0 s) (sp_x1 s - sp_x0 s + 1)).

Definition spans_pixels (l : SpanSet) : list (Z * Z) :=
  flat_map span_pixels l.

(** ** Images

    A dense image: its bounding box in parent coordinates and its pixels,
    addressed by parent coordinates.  Only the pixels inside the box exist
    in the C++ buffer; [im_read] and [im_write] are the accesses through
    unchecked iterators and locators, which are undefined outside it. *)

Record Image (T : Type) : Type := mkImage {
  im_bbox : Box2I;
  im_pix : Z -> Z -> T
}.

Arguments mkImage {T} _ _.
Arguments im_bbox {T} _.
Arguments im_pix {T} _ _ _.

(** [new Image(bbox)] / [*img = v]: a constant image. *)
Definition im_const {T : Type} (b : Box2I) (v : T) : Image T :=
  mkImage b (fun _ _ => v).

(** [Image::get0(x, y)], parent coordinates. *)
Definition get0 {T : Type} (img : Image T) (x y : Z) : T := im_pix img x y.

(** Local (buffer) coordinates: [img(px, py)], [xy_at(px, py)],
    [row_begin(py) + px]. *)
Definition get_local {T : Type} (img : Image T) (px py : Z) : T :=
  im_pix img (minX (im_bbox img) + px) (minY (im_bbox img) + py).

Definition im_set {T : Type} (img : Image T) (x y : Z) (v : T) : Image T :=
  mkImage (im_bbox img)
          (fun x' y' => if (x' =? x) && (y' =? y) then v
                        else im_pix img x' y').

Definition set_local {T : Type} (img : Image T) (px py : Z) (v : T)
  : Image T :=
  im_set img (minX (im_bbox img) + px) (minY (im_bbox img) + py) v.

Definition im_read {T : Type} (img : Image T) (x y : Z) : Res T :=
  if box_contains_pt (im_bbox img) x y then Ok (im_pix img x y) else Undef.

Definition im_write {T : Type} (img : Image T) (x y : Z) (v : T)
  : Res (Image T) :=
  if box_contains_pt (im_bbox img) x y then Ok (im_set img x y v)
  else Undef.

(** Modelled from the spec: [SpanSet::setImage(img, val)] of the footprint
    library ("stamp value on pixels").  Pixels of the span set outside the
    image are not stamped; the properties below are stated for span sets
    inside the image, where no other reading of the library is possible. *)
Definition setImage {T : Type} (spans : SpanSet) (img : Image T) (val : T)
  : Image T :=
  mkImage (im_bbox img)
          (fun x y => if spans_contain spans x y
                         && box_contains_pt (im_bbox img) x y
                      then val else im_pix img x y).

(** ** Pixel arithmetic

    The class is generic in the pixel type; the translation unit
    instantiates it for [float].  The arithmetic of [ImagePixelT],
    [VariancePixelT] and [double] is a parameter: every operation the
    routines apply is a field of [PixelArith], and the routines are
    translated operation by operation, conversions included. *)

Class PixelArith : Type := {
  pixel : Type;                       (* ImagePixelT *)
  variance : Type;                    (* VariancePixelT *)
  dbl : Type;                         (* double *)
  pixel_of_Z : Z -> pixel;            (* conversion of an integer constant *)
  variance_of_Z : Z -> variance;
  padd : pixel -> pixel -> pixel;
  pdiv : pixel -> pixel -> pixel;
  pltb : pixel -> pixel -> bool;      (* a < b *)
  pleb : pixel -> pixel -> bool;      (* a <= b *)
  peqb : pixel -> pixel -> bool;      (* a == b *)
  dbl_of_pixel : pixel -> dbl;
  pixel_of_dbl : dbl -> pixel;
  dbl_of_Z : Z -> dbl;
  dbl_lit_0_3 : dbl;                  (* the literal 0.3 *)
  dadd : dbl -> dbl -> dbl;
  dsub : dbl -> dbl -> dbl;
  dmul : dbl -> dbl -> dbl;
  ddiv : dbl -> dbl -> dbl;
  dltb : dbl -> dbl -> bool;
  deqb : dbl -> dbl -> bool;
  lround : dbl -> Z
}.

Section PixelOps.
Context {A : PixelArith}.

Definition p0 : pixel := pixel_of_Z 0.

(** [std::max(a, b)] is [(a < b) ? b : a]; [std::min(a, b)] is
    [(b < a) ? b : a]. *)
Definition pmax (a b : pixel) : pixel := if pltb a b then b else a.
Definition pmin (a b : pixel) : pixel := if pltb b a then b else a.
Definition dmin (a b : dbl) : dbl := if dltb b a then b else a.

(** A masked image: image, mask and variance planes over one box. *)
Record MaskedImage : Type := mkMaskedImage {
  mi_bbox : Box2I;
  mi_image : Z -> Z -> pixel;
  mi_mask : Z -> Z -> Z;
  mi_variance : Z -> Z -> variance
}.

Definition getImage (m : MaskedImage) : Image pixel :=
  mkImage (mi_bbox m) (mi_image m).
Definition getMask (m : MaskedImage) : Image Z :=
  mkImage (mi_bbox m) (mi_mask m).

(** [new MaskedImageT(dimensions)] followed by [setXY0]: all planes zero. *)
Definition mi_zero (b : Box2I) : MaskedImage :=
  mkMaskedImage b (fun _ _ => p0) (fun _ _ => 0)
                (fun _ _ => variance_of_Z 0).

Definition mi_set (m : MaskedImage) (x y : Z)
           (v : pixel) (mk : Z) (vr : variance) : MaskedImage :=
  mkMaskedImage (mi_bbox m)
    (fun x' y' => if (x' =? x) && (y' =? y) then v else mi_image m x' y')
    (fun x' y' => if (x' =? x) && (y' =? y) then mk else mi_mask m x' y')
    (fun x' y' => if (x' =? x) && (y' =? y) then vr
                  else mi_variance m x' y').

End PixelOps.

(** ** Helpers for loops over fallible steps and unchecked vectors *)

Fixpoint foldM {S X : Type} (f : S -> X -> Res S) (l : list X) (s : S)
  : Res S :=
  match l with
  | [] => Ok s
  | x :: r => s' <- f s x ;; foldM f r s'
  end.

Fixpoint mapM {X Y : Type} (f : X -> Res Y) (l : list X) : Res (list Y) :=
  match l with
  | [] => Ok []
  | x :: r => y <- f x ;; ys <- mapM f r ;; Ok (y :: ys)
  end.

(** [v[i]] on a [std::vector] or a C array: unchecked, undefined outside
    the range. *)
Definition vec_get {T : Type} (l : list T) (i : nat) : Res T :=
  match nth_error l i with
  | Some v => Ok v
  | None => Undef
  end.

Fixpoint upd_nth {T : Type} (l : list T) (i : nat) (v : T) : list T :=
  match l, i with
  | [], _ => []
  | _ :: r, O => v :: r
  | a :: r, S i' => a :: upd_nth r i' v
  end.

Definition vec_set {T : Type} (l : list T) (i : nat) (v : T)
  : Res (list T) :=
  if (i <? length l)%nat then Ok (upd_nth l i v) else Undef.

(** The value of a 32-bit [int] expression: two's-complement wrap-around
    into [-2^31, 2^31), with 2^31 = 2147483648 and 2^32 = 4294967296. *)
Definition i32 (z : Z) : Z := (z + 2147483648) mod 4294967296 - 2147483648.

(** ** Nearest-label transform ([nearestFootprint]) *)

(** Conversion to [std::uint16_t]. *)
Definition u16 (z : Z) : Z := z mod 65536.

(** [nil = 0xffff] *)
Definition nil_label : Z := 65535.

(** The stamping loop: footprint [i] writes its index into [argmin] and 1
    into [dist]. *)
Fixpoint stamp_foots (foots : list Footprint) (i : Z)
         (argmin dist : Image Z) : Image Z * Image Z :=
  match foots with
  | [] => (argmin, dist)
  | foot :: r =>
      stamp_foots r (i + 1)
                  (setImage (fp_spans foot) argmin (u16 i))
                  (setImage (fp_spans foot) dist (u16 1))
  end.

(** [ndist = dim(nx, ny) + 1; if (ndist < dim(0,0)) { ... }] for the
    neighbour at local position (nx, ny) of the pixel at (x, y). *)
Definition relax (st : Image Z * Image Z) (x y nx ny : Z)
  : Image Z * Image Z :=
  let '(dist, argmin) := st in
  let ndist := u16 (get_local dist nx ny + 1) in
  if ndist <? get_local dist x y then
    (set_local dist x y ndist,
     set_local argmin x y (get_local argmin nx ny))
  else (dist, argmin).

(** Body of the sweep from bottom left to top right. *)
Definition forward_step (width height : Z) (st : Image Z * Image Z)
           (p : Z * Z) : Image Z * Image Z :=
  let '(dist, argmin) := st in
  let '(x, y) := p in
  if get_local dist x y =? 1 then
    (set_local dist x y 0, argmin)
  else
    let st := (set_local dist x y (u16 (width + height)),
               set_local argmin x y nil_label) in
    let st := if 0 <? y then relax st x y x (y - 1) else st in
    if 0 <? x then relax st x y (x - 1) y else st.

(** Body of the sweep from top right to bottom left. *)
Definition backward_step (width height : Z) (st : Image Z * Image Z)
           (p : Z * Z) : Image Z * Image Z :=
  let '(x, y) := p in
  let st := if y + 1 <? height then relax st x y x (y + 1) else st in
  if x + 1 <? width then relax st x y (x + 1) y else st.

(** Local raster of a [width] x [height] buffer. *)
Definition raster (width height : Z) : list (Z * Z) :=
  box_pixels (mkBox 0 0 (width - 1) (height - 1)).

(** [nearestFootprint(foots, argmin, dist)]; the result is the pair
    (dist, argmin) the routine leaves in its two output images. *)
Definition nearestFootprint (foots : list Footprint)
           (argmin dist : Image Z) : Image Z * Image Z :=
  let argmin := im_const (im_bbox argmin) 0 in
  let dist := im_const (im_bbox dist) 0 in
  let '(argmin, dist) := stamp_foots foots 0 argmin dist in
  let height := getHeight (im_bbox dist) in
  let width := getWidth (im_bbox dist) in
  let st := fold_left (forward_step width height)
                      (raster width height) (dist, argmin) in
  fold_left (backward_step width height)
            (rev (raster width height)) st.

(** Manhattan distance. *)
Definition L1 (px py qx qy : Z) : Z := Z.abs (px - qx) + Z.abs (py - qy).

(** ** Flux apportionment *)

Definition ASSIGN_STRAYFLUX : Z := 1.
Definition STRAYFLUX_TO_POINT_SOURCES_WHEN_NECESSARY : Z := 2.
Definition STRAYFLUX_TO_POINT_SOURCES_ALWAYS : Z := 4.
Definition STRAYFLUX_R_TO_FOOTPRINT : Z := 8.
Definition STRAYFLUX_NEAREST_FOOTPRINT : Z := 16.
Definition STRAYFLUX_TRIM : Z := 32.

(** [(options & flag)] used as a condition. *)
Definition flag_set (options flag : Z) : bool :=
  negb (Z.land options flag =? 0).

Section Apportion.
Context {A : PixelArith}.

(** One pixel of a heavy footprint: position, image value, mask, variance.
    The heavy footprint of a template is the sequence of its pixels in
    the order of its parallel arrays, which is the order of insertion. *)
Record StrayPix : Type := mkStrayPix {
  st_y : Z;
  st_x : Z;
  st_image : pixel;
  st_mask : Z;
  st_variance : variance
}.

Definition HeavyFootprint := list StrayPix.

Definition d0 : dbl := dbl_of_Z 0.
Definition d1 : dbl := dbl_of_Z 1.

Definition mi_read (m : MaskedImage) (x y : Z)
  : Res (pixel * Z * variance) :=
  if box_contains_pt (mi_bbox m) x y
  then Ok (mi_image m x y, mi_mask m x y, mi_variance m x y)
  else Undef.

(** [_get_contrib_r_to_footprint(x, y, tfoot)]; [mindx * mindx + dy * dy]
    is an [int] expression, converted to [double] afterwards. *)
Definition get_contrib_r_to_footprint (x y : Z) (tfoot : Footprint)
  : dbl :=
  let minr2 :=
    fold_left
      (fun minr2 sp =>
         let dx := i32 (sp_x0 sp - x) in
         let mindx :=
           if 0 <=? dx then dx
           else
             let dx := i32 (x - sp_x1 sp) in
             if 0 <=? dx then dx else 0 in
         let dy := i32 (sp_y sp - y) in
         dmin minr2 (dbl_of_Z (i32 (i32 (mindx * mindx) + i32 (dy * dy)))))
      (fp_spans tfoot) (dbl_of_Z (10 ^ 12)) in
  ddiv d1 (dadd d1 minr2).

Section FindStrayFlux.
Variable foot : Footprint.
Variable tsum : Image pixel.
Variable img : MaskedImage.
Variable strayFluxOptions : Z.
Variable tfoots : list Footprint.
Variable ispsf : list bool.
Variables pkx pky : list Z.
Variable clipStrayFluxFraction : dbl.

Definition always : bool :=
  flag_set strayFluxOptions STRAYFLUX_TO_POINT_SOURCES_ALWAYS.

Definition templates : list nat := seq 0 (length tfoots).

(** [(!ptsrcs) && ispsf.size() && ispsf[i]] *)
Definition skip_ptsrc (ptsrcs : bool) (i : nat) : Res bool :=
  if negb ptsrcs && negb (length ispsf =? 0)%nat then vec_get ispsf i
  else Ok false.

(** The footprint list handed to [nearestFootprint]: point sources are
    replaced by an empty footprint unless they always take stray flux. *)
Definition footlist : Res (list Footprint) :=
  if negb always && negb (length ispsf =? 0)%nat then
    mapM (fun i =>
            psf <- vec_get ispsf i ;;
            if psf then Ok (mkFootprint [] [])
            else vec_get tfoots i)
         templates
  else Ok tfoots.

(** The image [nearest], allocated and filled only under
    [STRAYFLUX_NEAREST_FOOTPRINT]. *)
Definition nearest_image : Res (option (Image Z)) :=
  if flag_set strayFluxOptions STRAYFLUX_NEAREST_FOOTPRINT then
    fl <- footlist ;;
    let sumbb := im_bbox tsum in
    Ok (Some (snd (nearestFootprint fl (im_const sumbb 0)
                                    (im_const sumbb 0))))
  else Ok None.

(** [1. / (1. + dx*dx + dy*dy)]: each product is an [int], converted to
    [double] when it is added. *)
Definition peak_weight (px py x y : Z) : dbl :=
  let dx := i32 (px - x) in
  let dy := i32 (py - y) in
  ddiv d1 (dadd (dadd d1 (dbl_of_Z (i32 (dx * dx))))
                (dbl_of_Z (i32 (dy * dy)))).

(** The three ways of filling [contrib] for the stray pixel (x, y). *)
Definition init_contrib (nearest : option (Image Z)) (x y : Z)
  : Res (list dbl) :=
  if flag_set strayFluxOptions STRAYFLUX_R_TO_FOOTPRINT then
    Ok (repeat (dbl_of_Z (-1)) (length tfoots))
  else if flag_set strayFluxOptions STRAYFLUX_NEAREST_FOOTPRINT then
    match nearest with
    | Some nr =>
        i <- im_read nr x y ;;
        vec_set (repeat d0 (length tfoots)) (Z.to_nat i) d1
    | None => Undef
    end
  else
    mapM (fun i =>
            px <- vec_get pkx i ;;
            py <- vec_get pky i ;;
            Ok (peak_weight px py x y))
         templates.

(** [if (contrib[i] == -1.0) contrib[i] = _get_contrib_r_to_footprint(..)] *)
Definition just_in_time (x y : Z) (contrib : list dbl) (i : nat)
  : Res (list dbl) :=
  c <- vec_get contrib i ;;
  if deqb c (dbl_of_Z (-1)) then
    t <- vec_get tfoots i ;;
    vec_set contrib i (get_contrib_r_to_footprint x y t)
  else Ok contrib.

(** Round 1: sum the contributions, skipping point sources unless they
    take part. *)
Fixpoint round1 (ptsrcs : bool) (x y : Z) (idx : list nat)
         (contrib : list dbl) (csum : dbl) : Res (list dbl * dbl) :=
  match idx with
  | [] => Ok (contrib, csum)
  | i :: rest =>
      skip <- skip_ptsrc ptsrcs i ;;
      if skip then round1 ptsrcs x y rest contrib csum
      else
        contrib <- just_in_time x y contrib i ;;
        c <- vec_get contrib i ;;
        round1 ptsrcs x y rest contrib (dadd csum c)
  end.

(** The second pass, taken when nothing was collected and point sources
    may step in. *)
Fixpoint round2 (x y : Z) (idx : list nat)
         (contrib : list dbl) (csum : dbl) : Res (list dbl * dbl) :=
  match idx with
  | [] => Ok (contrib, csum)
  | i :: rest =>
      contrib <- just_in_time x y contrib i ;;
      c <- vec_get contrib i ;;
      round2 x y rest contrib (dadd csum c)
  end.

(** Dropping the small contributions and summing the others. *)
Fixpoint clip_loop (ptsrcs : bool) (strayclip : dbl) (idx : list nat)
         (contrib : list dbl) (csum : dbl) : Res (list dbl * dbl) :=
  match idx with
  | [] => Ok (contrib, csum)
  | i :: rest =>
      skip <- skip_ptsrc ptsrcs i ;;
      if skip then
        contrib <- vec_set contrib i d0 ;;
        clip_loop ptsrcs strayclip rest contrib csum
      else
        c <- vec_get contrib i ;;
        if dltb c strayclip then
          contrib <- vec_set contrib i d0 ;;
          clip_loop ptsrcs strayclip rest contrib csum
        else clip_loop ptsrcs strayclip rest contrib (dadd csum c)
    end.

(** Recording the pixel with every template that keeps a share. *)
Fixpoint assign_loop (x y : Z) (v : pixel * Z * variance) (csum : dbl)
         (idx : list nat) (contrib : list dbl)
         (strays : list (list StrayPix)) : Res (list (list StrayPix)) :=
  match idx with
  | [] => Ok strays
  | i :: rest =>
      c <- vec_get contrib i ;;
      if deqb c d0 then assign_loop x y v csum rest contrib strays
      else
        let p := dmul (ddiv c csum) (dbl_of_pixel (fst (fst v))) in
        cur <- vec_get strays i ;;
        strays <- vec_set strays i
                    (cur ++ [mkStrayPix y x (pixel_of_dbl p)
                                        (snd (fst v)) (snd v)]) ;;
        assign_loop x y v csum rest contrib strays
  end.

(** Body of the loop over the pixels of the parent footprint. *)
Definition stray_pixel (nearest : option (Image Z))
           (strays : list (list StrayPix)) (p : Z * Z)
  : Res (list (list StrayPix)) :=
  let '(x, y) := p in
  ts <- im_read tsum x y ;;
  if pltb p0 ts then Ok strays
  else
    v <- mi_read img x y ;;
    if pleb (fst (fst v)) p0 then Ok strays
    else
      contrib <- init_contrib nearest x y ;;
      r1 <- round1 always x y templates contrib d0 ;;
      r2 <- (if deqb (snd r1) d0
                && flag_set strayFluxOptions
                            STRAYFLUX_TO_POINT_SOURCES_WHEN_NECESSARY
             then
               r <- round2 x y templates (fst r1) (snd r1) ;;
               Ok (true, r)
             else Ok (always, r1)) ;;
      let ptsrcs := fst r2 in
      let strayclip := dmul clipStrayFluxFraction (snd (snd r2)) in
      r3 <- clip_loop ptsrcs strayclip templates (fst (snd r2)) d0 ;;
      assign_loop x y v (snd r3) templates (fst r3) strays.

(** [_find_stray_flux]: the heavy footprints pushed onto [strays], one
    per template, [None] being the null pointer of a template that
    received no stray pixel. *)
Definition find_stray_flux : Res (list (option HeavyFootprint)) :=
  nearest <- nearest_image ;;
  acc <- foldM (stray_pixel nearest) (spans_pixels (fp_spans foot))
               (repeat [] (length tfoots)) ;;
  Ok (map (fun l => match l with
                    | [] => None
                    | _ :: _ => Some l
                    end) acc).
End FindStrayFlux.

(** One template added into [tsum] over the clipped box [tbb]. *)
Definition sum_one_template (tsum timg : Image pixel) : Image pixel :=
  let tbb := box_clip (im_bbox timg) (im_bbox tsum) in
  fold_left
    (fun ts p =>
       let '(x, y) := p in
       im_set ts x y (padd (im_pix ts x y) (pmax p0 (im_pix timg x y))))
    (box_pixels tbb) tsum.

(** [_sum_templates(timgs, tsum)] *)
Definition sum_templates (timgs : list (Image pixel)) (tsum : Image pixel)
  : Image pixel :=
  fold_left sum_one_template timgs tsum.

(** Body of the inner loop that fills one flux portion. *)
Definition portion_pixel (img : MaskedImage) (tsum timg : Image pixel)
           (port : MaskedImage) (p : Z * Z) : Res MaskedImage :=
  let '(x, y) := p in
  if peqb (im_pix tsum x y) p0 then Ok port
  else
    let frac :=
      dbl_of_pixel (pdiv (pmax p0 (im_pix timg x y)) (im_pix tsum x y)) in
    v <- mi_read img x y ;;
    Ok (mi_set port x y
               (pixel_of_dbl (dmul (dbl_of_pixel (fst (fst v))) frac))
               (snd (fst v)) (snd v)).

Definition make_portion (img : MaskedImage) (tsum timg : Image pixel)
  : Res MaskedImage :=
  let port := mi_zero (im_bbox timg) in
  let tbb := box_clip (im_bbox timg) (im_bbox tsum) in
  foldM (portion_pixel img tsum timg) (box_pixels tbb) port.

(** The containment checks at the head of [apportionFlux], made once per
    template. *)
Fixpoint check_bboxes (img : MaskedImage) (foot : Footprint)
           (pairs : list (Image pixel * Footprint)) : Res unit :=
    match pairs with
    | [] => Ok tt
    | (timg, tfoot) :: r =>
        if negb (box_contains (im_bbox timg) (getBBox tfoot)) then
          Throw RuntimeError
        else if negb (box_contains (mi_bbox img) (getBBox foot)) then
          Throw RuntimeError
        else check_bboxes img foot r
    end.

(** [apportionFlux]: the flux portions, the heavy footprints appended to
    [strays] and the final contents of the template sum. *)
Definition apportionFlux (img : MaskedImage) (foot : Footprint)
           (timgs : list (Image pixel)) (tfoots : list Footprint)
           (tsum : option (Image pixel)) (ispsf : list bool)
           (pkx pky : list Z) (strayFluxOptions : Z)
           (clipStrayFluxFraction : dbl)
  : Res (list MaskedImage * list (option HeavyFootprint) * Image pixel) :=
  if negb (length timgs =? length tfoots)%nat then Throw LengthError
  else
    _ <- check_bboxes img foot (combine timgs tfoots) ;;
    let findStrayFlux := flag_set strayFluxOptions ASSIGN_STRAYFLUX in
    let fbb := getBBox foot in
    let tsum := match tsum with
                | Some t => t
                | None => im_const fbb p0
                end in
    if negb (box_contains (im_bbox tsum) (getBBox foot)) then
      Throw RuntimeError
    else
      let tsum := sum_templates timgs tsum in
      portions <- mapM (make_portion img tsum) timgs ;;
      if findStrayFlux then
        if (0 <? length ispsf)%nat
           && negb (length ispsf =? length timgs)%nat then
          Throw LengthError
        else if negb (length pkx =? length timgs)%nat
                || negb (length pky =? length timgs)%nat then
          Throw LengthError
        else
          strays <- find_stray_flux foot tsum img strayFluxOptions tfoots
                      ispsf pkx pky clipStrayFluxFraction ;;
          Ok (portions, strays, tsum)
      else Ok (portions, [], tsum).

End Apportion.

(** ** Median filter and monotonic shader *)

Section Filters.
Context {A : PixelArith}.

Definition read_local {T : Type} (img : Image T) (px py : Z) : Res T :=
  im_read img (minX (im_bbox img) + px) (minY (im_bbox img) + py).

Definition write_local {T : Type} (img : Image T) (px py : Z) (v : T)
  : Res (Image T) :=
  im_write img (minX (im_bbox img) + px) (minY (im_bbox img) + py) v.

(** [std::nth_element(vals, vals + k, vals + n)] followed by [vals[k]]:
    the element of rank [k] in the order of [operator<]. *)
Fixpoint insert_pixel (v : pixel) (l : list pixel) : list pixel :=
  match l with
  | [] => [v]
  | h :: t => if pltb v h then v :: l else h :: insert_pixel v t
  end.

Definition sort_pixels (l : list pixel) : list pixel :=
  fold_right insert_pixel [] l.

Definition nth_element (vals : list pixel) (k : nat) : pixel :=
  nth k (sort_pixels vals) p0.

(** The cached window offsets [locs], row by row. *)
Definition window (halfsize : Z) : list (Z * Z) :=
  let S := halfsize * 2 + 1 in
  flat_map (fun i => map (fun j => (j - halfsize, i - halfsize))
                         (zseq 0 S))
           (zseq 0 S).

(** Copy of the pixels [x0 .. x0 + n - 1] of local row [y]. *)
Definition copy_run (img : Image pixel) (y x0 n : Z) (out : Image pixel)
  : Res (Image pixel) :=
  foldM (fun out x =>
           v <- read_local img x y ;;
           write_local out x y v)
        (zseq x0 n) out.

(** [medianFilter(img, out, halfsize)]; the result is the final [out].
    A negative [halfsize] leaves the window table empty while its entries
    are read, and an image narrower than the window lets the row locator
    run past its end; both are undefined. *)
Definition medianFilter (img out : Image pixel) (halfsize : Z)
  : Res (Image pixel) :=
  let S := halfsize * 2 + 1 in
  let SS := S * S in
  let W := getWidth (im_bbox img) in
  let H := getHeight (im_bbox img) in
  if halfsize <? 0 then Undef
  else
    out <- foldM
             (fun out y =>
                if W - halfsize <? halfsize then Undef
                else
                  foldM
                    (fun out x =>
                       vals <- mapM (fun o => read_local img (x + fst o)
                                                         (y + snd o))
                                    (window halfsize) ;;
                       write_local out x y
                                   (nth_element vals (Z.to_nat (SS / 2))))
                    (zseq halfsize (W - 2 * halfsize)) out)
             (zseq halfsize (H - 2 * halfsize)) out ;;
    (* grumble grumble margins *)
    out <- foldM
             (fun out y =>
                let iy := if halfsize <=? y then H - 1 - (y - halfsize)
                          else y in
                copy_run img iy 0 W out)
             (zseq 0 (2 * halfsize)) out ;;
    foldM
      (fun out y =>
         out <- copy_run img y 0 halfsize out ;;
         copy_run img y ((W - 1) - halfsize) halfsize out)
      (zseq halfsize (H - 2 * halfsize)) out.

(** *** makeMonotonic *)

(** [img(psx, psy) = std::min(img(psx, psy), pix)], local coordinates. *)
Definition shade (img : Image pixel) (psx psy : Z) (pix : pixel)
  : Image pixel :=
  set_local img psx psy (pmin (get_local img psx psy) pix).

Section Shadow.
Variables cx cy ix0 iy0 iW iH : Z.

(** The shadow of the ring pixel (x, y) on a vertical edge of the box:
    columns [x + sign(x) * shx] for [shx] in 1..S. *)
Definition cast_vertical (x y : Z) (pix : pixel) (img : Image pixel)
  : Image pixel :=
  let ds0 := dsub (ddiv (dbl_of_Z y) (dbl_of_Z x)) dbl_lit_0_3 in
  let ds1 := dadd ds0 (dmul (dbl_of_Z 2) dbl_lit_0_3) in
  fold_left
    (fun img shx =>
       let xsign := if 0 <? x then 1 else -1 in
       let psx := cx + x + xsign * shx - ix0 in
       if (psx <? 0) || (iW <=? psx) then img
       else
         let lo := lround (dmul (dbl_of_Z shx) ds0) in
         let hi := lround (dmul (dbl_of_Z shx) ds1) in
         fold_left
           (fun img shy =>
              let psy := cy + y + xsign * shy - iy0 in
              if (psy <? 0) || (iH <=? psy) then img
              else shade img psx psy pix)
           (zseq lo (hi - lo + 1)) img)
    (zseq 1 5) img.

(** The same on a horizontal edge: rows [y + sign(y) * shy]. *)
Definition cast_horizontal (x y : Z) (pix : pixel) (img : Image pixel)
  : Image pixel :=
  let ds0 := dsub (ddiv (dbl_of_Z x) (dbl_of_Z y)) dbl_lit_0_3 in
  let ds1 := dadd ds0 (dmul (dbl_of_Z 2) dbl_lit_0_3) in
  fold_left
    (fun img shy =>
       let ysign := if 0 <? y then 1 else -1 in
       let psy := cy + y + ysign * shy - iy0 in
       if (psy <? 0) || (iH <=? psy) then img
       else
         let lo := lround (dmul (dbl_of_Z shy) ds0) in
         let hi := lround (dmul (dbl_of_Z shy) ds1) in
         fold_left
           (fun img shx =>
              let psx := cx + x + ysign * shx - ix0 in
              if (psx <? 0) || (iW <=? psx) then img
              else shade img psx psy pix)
           (zseq lo (hi - lo + 1)) img)
    (zseq 1 5) img.

(** The walk round the ring of half-length [L]: [n] steps are left,
    [i] is the step counter, (x, y) the position relative to the peak
    and (dx, dy) the current direction. *)
Fixpoint ring_walk (shadowing : Image pixel) (L : Z) (n : nat)
         (i x y dx dy : Z) (img : Image pixel) : Image pixel :=
  match n with
  | O => img
  | S n' =>
      let leg := i / (2 * L) in
      let turn := i mod (2 * L) =? 0 in
      let dx := if turn then (leg mod 2) * (-1 + 2 * (leg / 2))
                else dx in
      let dy := if turn then ((leg + 1) mod 2) * (1 - 2 * (leg / 2))
                else dy in
      let px := cx + x - ix0 in
      let py := cy + y - iy0 in
      let img :=
        if (px <? 0) || (iW <=? px) || (py <? 0) || (iH <=? py) then img
        else
          let pix := get_local shadowing px py in
          if dx =? 0 then cast_vertical x y pix img
          else cast_horizontal x y pix img in
      ring_walk shadowing L n' (i + 1) (x + dx) (y + dy) dx dy img
  end.

(** One chunk: the rings [s .. s + 4], all shadowed from [shadowing]. *)
Definition chunk (shadowing : Image pixel) (s : Z) (img : Image pixel)
  : Image pixel :=
  fold_left
    (fun img p =>
       let L := s + p in
       ring_walk shadowing L (Z.to_nat (8 * L)) 0 L (- L) 0 0 img)
    (zseq 0 5) img.

(** [for (s = 0; s < max(DW, DH); s += S)]; [k] bounds the number of
    chunks from above, [shadowing] is refreshed after each chunk. *)
Fixpoint chunks (k : nat) (s M : Z) (shadowing img : Image pixel)
  : Image pixel :=
  match k with
  | O => img
  | S k' =>
      if s <? M then
        let img := chunk shadowing s img in
        chunks k' (s + 5) M img img
      else img
  end.
End Shadow.

(** [makeMonotonic(img, peak)] with the peak at (cx, cy). *)
Definition makeMonotonic (img : Image pixel) (cx cy : Z) : Image pixel :=
  let ix0 := minX (im_bbox img) in
  let iy0 := minY (im_bbox img) in
  let iW := getWidth (im_bbox img) in
  let iH := getHeight (im_bbox img) in
  let DW := Z.max (cx - ix0) (ix0 + iW - cx) in
  let DH := Z.max (cy - iy0) (iy0 + iH - cy) in
  let M := Z.max DW DH in
  chunks cx cy ix0 iy0 iW iH (Z.to_nat M) 0 M img img.

End Filters.

(** ** Symmetric template *)

(** Modelled from the spec: [SpanSet::copyImage(src, dst)] of the footprint
    library ("copy src -> dst over this span set"). *)
Definition copyImage {T : Type} (spans : SpanSet) (src dst : Image T)
  : Image T :=
  mkImage (im_bbox dst)
          (fun x y => if spans_contain spans x y
                         && box_contains_pt (im_bbox src) x y
                         && box_contains_pt (im_bbox dst) x y
                      then im_pix src x y else im_pix dst x y).

Section Template.
Context {A : PixelArith}.

(** The search for a pixel of the symmetric footprint that carries the
    EDGE bit; it stops at the first one. *)
Fixpoint any_edge (mask : Image Z) (edgebit : Z) (pix : list (Z * Z))
  : Res bool :=
  match pix with
  | [] => Ok false
  | (x, y) :: r =>
      m <- im_read mask x y ;;
      if negb (Z.land m edgebit =? 0) then Ok true
      else any_edge mask edgebit r
  end.

(** The inner loop over a span [fwd] and its partner [back], walked in
    opposite directions. *)
Definition template_row (theimg : Image pixel) (minZero : bool)
           (fwd back : Span) (target : Image pixel) : Res (Image pixel) :=
  let fy := sp_y fwd in
  let by_ := sp_y back in
  foldM (fun target k =>
           let fx := sp_x0 fwd + k in
           let bx := sp_x1 back - k in
           pixf <- im_read theimg fx fy ;;
           pixb <- im_read theimg bx by_ ;;
           let pix := pmin pixf pixb in
           let pix := if minZero then pmax pix p0 else pix in
           target <- im_write target fx fy pix ;;
           im_write target bx by_ pix)
        (zseq 0 (sp_x1 fwd - sp_x0 fwd + 1)) target.

(** [for (; fwd <= back; fwd++, back--)] over the positions [i] and [j];
    [k] bounds the number of iterations from above. *)
Fixpoint template_loop (k : nat) (theimg : Image pixel) (minZero : bool)
         (spans : SpanSet) (i j : Z) (target : Image pixel)
  : Res (Image pixel) :=
  match k with
  | O => Ok target
  | S k' =>
      if i <=? j then
        fwd <- span_at spans i ;;
        back <- span_at spans j ;;
        target <- template_row theimg minZero fwd back target ;;
        template_loop k' theimg minZero spans (i + 1) (j - 1) target
      else Ok target
  end.

(** Growth of the bounding box by the span ends whose mirror image falls
    outside the box of the original footprint. *)
Definition grow_bbox (cx cy : Z) (imbb : Box2I) (ospans : SpanSet)
           (bb : Box2I) : Box2I :=
  fold_left
    (fun bb sp =>
       let y := sp_y sp in
       let ym := cy + (cy - y) in
       let x := sp_x0 sp in
       let xm := cx + (cx - x) in
       let bb := if negb (box_contains_pt imbb xm ym)
                 then box_include bb x y else bb in
       let x := sp_x1 sp in
       let xm := cx + (cx - x) in
       if negb (box_contains_pt imbb xm ym)
       then box_include bb x y else bb)
    ospans bb.

(** One original span: the part whose mirror image is out of bounds is
    copied from the input image and added to the footprint. *)
Definition patch_span (cx cy : Z) (imbb : Box2I) (img : MaskedImage)
           (st : Image pixel * list Span) (sp : Span)
  : Res (Image pixel * list Span) :=
  let y := sp_y sp in
  let x0 := sp_x0 sp in
  let x1 := sp_x1 sp in
  let ym := cy + (cy - y) in
  let xm0 := cx + (cx - x0) in
  let xm1 := cx + (cx - x1) in
  let in0 := box_contains_pt imbb xm0 ym in
  let in1 := box_contains_pt imbb xm1 ym in
  if in0 && in1 then Ok st
  else
    let x0 := if in0 then cx + (cx - (minX imbb - 1)) else x0 in
    let x1 := if in1 then cx + (cx - (maxX imbb + 1)) else x1 in
    target <- foldM (fun t x =>
                       v <- mi_read img x y ;;
                       im_write t x y (fst (fst v)))
                    (zseq x0 (x1 - x0 + 1)) (fst st) ;;
    Ok (target, snd st ++ [mkSpan y x0 x1]).

(** [buildSymmetricTemplate]: the template image, the symmetric footprint
    and the flag [*patchedEdges]; [None] is a null pointer.  [edgebit] is
    the bit mask of the mask plane "EDGE"; the peak is (cx, cy). *)
Definition buildSymmetricTemplate (img : MaskedImage) (foot : Footprint)
           (cx cy : Z) (sigma1 : dbl) (minZero patchEdge : bool)
           (edgebit : Z)
  : Res (option (Image pixel) * option Footprint * bool) :=
  if negb (box_contains (mi_bbox img) (getBBox foot)) then
    Throw LengthError
  else
    sf <- symmetrizeFootprint foot cx cy ;;
    match sf with
    | None => Ok (None, None, false)
    | Some sfoot =>
        if negb (box_contains (mi_bbox img) (getBBox sfoot)) then
          Throw LengthError
        else
          let spans := fp_spans sfoot in
          touchesEdge <-
            (if patchEdge
             then any_edge (getMask img) edgebit (spans_pixels spans)
             else Ok false) ;;
          let theimg := getImage img in
          targetimg <-
            template_loop (length spans) theimg minZero spans
                          0 (Z.of_nat (length spans) - 1)
                          (im_const (getBBox sfoot) p0) ;;
          if touchesEdge then
            let imbb := getBBox foot in
            let bb := grow_bbox cx cy imbb (fp_spans foot)
                                (getBBox sfoot) in
            let targetimg2 := copyImage spans targetimg (im_const bb p0) in
            r <- foldM (patch_span cx cy imbb img) (fp_spans foot)
                       (targetimg2, spans) ;;
            Ok (Some (fst r),
                Some (mkFootprint (make_SpanSet (snd r))
                                  (fp_peaks sfoot)),
                true)
          else Ok (Some targetimg, Some sfoot, false)
    end.

End Template.

(** ** Exact rational arithmetic

    The instance of the pixel arithmetic in which no operation rounds: all
    three number types are the rationals.  It agrees with IEEE arithmetic
    whenever the values that occur are exactly representable (small
    integers, halves, ...), which is the case in the concrete runs evaluated
    below; a division by zero yields 0 here. *)

Definition Qc_ltb (a b : Qc) : bool :=
  match (a ?= b)%Qc with Lt => true | _ => false end.

Definition Qc_leb (a b : Qc) : bool :=
  match (a ?= b)%Qc with Gt => false | _ => true end.

Definition Qc_of_Z (z : Z) : Qc := Q2Qc (inject_Z z).

(** [lround]: to the nearest integer, halfway cases away from zero. *)
Definition Qc_lround (q : Qc) : Z :=
  let n := Qnum (this q) in
  let d := Zpos (Qden (this q)) in
  if 0 <=? n then (2 * n + d) / (2 * d)
  else - ((2 * (- n) + d) / (2 * d)).

#[export] Instance ExactArith : PixelArith := {|
  pixel := Qc;
  variance := Qc;
  dbl := Qc;
  pixel_of_Z := Qc_of_Z;
  variance_of_Z := Qc_of_Z;
  padd := Qcplus;
  pdiv := Qcdiv;
  pltb := Qc_ltb;
  pleb := Qc_leb;
  peqb := Qc_eq_bool;
  dbl_of_pixel := fun q => q;
  pixel_of_dbl := fun q => q;
  dbl_of_Z := Qc_of_Z;
  dbl_lit_0_3 := Q2Qc (3 # 10);
  dadd := Qcplus;
  dsub := Qcminus;
  dmul := Qcmult;
  ddiv := Qcdiv;
  dltb := Qc_ltb;
  deqb := Qc_eq_bool;
  lround := Qc_lround
|}.

(** ** Concrete inputs used in the evaluated runs *)

Definition c9_foot : Footprint :=
  mkFootprint [mkSpan 0 0 3; mkSpan 1 0 4] [].

(** An image whose box is the bounding box of [c9_foot]. *)
Definition c9_image : MaskedImage :=
  mkMaskedImage (mkBox 0 0 4 1) (fun _ _ => Qc_of_Z 0) (fun _ _ => 0)
                (fun _ _ => Qc_of_Z 0).

(** ** Specification vocabulary for the symmetrizer *)
Definition dflt_span : Span := mkSpan 0 0 0.
Definition spanZ (spans : SpanSet) (i : Z) : Span := nth (Z.to_nat i) spans dflt_span.
Definition before (a b : Span) : Prop :=
  sp_y a < sp_y b \/ (sp_y a = sp_y b /\ sp_x1 a < sp_x0 b).

(** Order of the spans of one row by their first column. *)
Definition le0 (a b : Span) : Prop :=
  sp_y a < sp_y b \/ (sp_y a = sp_y b /\ sp_x0 a <= sp_x0 b).


Section SymSpec.
Variable spans : SpanSet.
Variables cx cy : Z.
Variable pk : Z.

(** A forward span [i] and a backward span [j] at the same row distance
    from the peak that both cover the relative column [dx]. *)
Definition sym_pair (i j dx : Z) : Prop :=
  pk <= i < Z.of_nat (length spans) /\ 0 <= j <= pk /\
  sp_y (spanZ spans i) - cy = cy - sp_y (spanZ spans j) /\
  sp_x0 (spanZ spans i) - cx <= dx <= sp_x1 (spanZ spans i) - cx /\
  cx - sp_x1 (spanZ spans j) <= dx <= cx - sp_x0 (spanZ spans j).

Definition sym_sound (tmp : list Span) : Prop :=
  forall s, In s tmp -> forall x, sp_x0 s <= x <= sp_x1 s ->
    spans_contain spans x (sp_y s) = true /\
    spans_contain spans (2 * cx - x) (2 * cy - sp_y s) = true.

Definition sym_complete (f b : Z) (tmp : list Span) : Prop :=
  forall i j dx, sym_pair i j dx ->
    (f <= i /\ j <= b) \/
    (spans_contain tmp (cx + dx) (sp_y (spanZ spans i)) = true /\
     spans_contain tmp (cx - dx) (sp_y (spanZ spans j)) = true).

Definition sym_inv (f b dy : Z) (tmp : list Span) : Prop :=
  pk <= f <= Z.of_nat (length spans) /\ -1 <= b <= pk /\ 0 <= dy /\
  (forall i, f <= i < Z.of_nat (length spans) ->
             dy <= sp_y (spanZ spans i) - cy) /\
  (forall j, 0 <= j <= b -> dy <= cy - sp_y (spanZ spans j)) /\
  sym_sound tmp /\ sym_complete f b tmp.

Definition sym_measure (f b dy : Z) : Z :=
  (Z.of_nat (length spans) - f) + (b + 1)
  + Z.max 0 (sp_y (spanZ spans (Z.of_nat (length spans) - 1)) - cy + 1 - dy).

(** The two spans pushed for an overlap [lo, hi] at row distance [dy]. *)
Definition sym_emit (dy lo hi : Z) (tmp : list Span) : list Span :=
  if lo <=? hi then
    tmp ++ [mkSpan (cy + dy) (cx + lo) (cx + hi);
            mkSpan (cy - dy) (cx - hi) (cx - lo)]
  else tmp.
End SymSpec.


(** ** Specification vocabulary and inputs for the flux routines *)

Section SumSpec.
Context {A : PixelArith}.

(** What [_sum_templates] leaves at the pixel (x, y): the templates whose
    clipped box covers the pixel are added, in order, to the value [init]
    the pixel held before. *)
Definition template_sum_at (sumbb : Box2I) (timgs : list (Image pixel))
           (x y : Z) (init : pixel) : pixel :=
  fold_left
    (fun acc timg =>
       if box_contains_pt (box_clip (im_bbox timg) sumbb) x y
       then padd acc (pmax p0 (im_pix timg x y)) else acc)
    timgs init.
End SumSpec.

Definition c6_box : Box2I := mkBox 0 0 0 0.
Definition c6_template : Image Qc := im_const c6_box (Qc_of_Z 1).
Definition c6_tsum : Image Qc := im_const c6_box (Qc_of_Z 5).


(** The pixel (x, y) of an image that a fallible routine returns. *)
Definition res_get {T : Type} (r : Res (Image T)) (x y : Z) : Res T :=
  img <- r ;; Ok (im_pix img x y).

Definition c7_box : Box2I := mkBox 0 0 2 2.
Definition c7_img : Image Qc :=
  mkImage c7_box (fun x y => Qc_of_Z (x + 3 * y + 1)).
Definition c7_out : Image Qc := im_const c7_box (Qc_of_Z 0).

Definition c8_img : MaskedImage :=
  mkMaskedImage (mkBox 0 0 0 0) (fun _ _ => Qc_of_Z 1) (fun _ _ => 0)
                (fun _ _ => Qc_of_Z 1).
Definition c8_foot : Footprint := mkFootprint [mkSpan 5 5 5] [].


(** ** Specification vocabulary and input for the monotonic shader *)

Section MonoSpec.
Context {A : PixelArith}.

(** [a <= b] for pixel values, from the strict comparison of the code. *)
Definition ple (a b : pixel) : Prop := a = b \/ pltb a b = true.

(** What every stage of [makeMonotonic] keeps: the box, the value at the
    peak, and no pixel above its input value. *)
Definition mono_inv (img0 : Image pixel) (cx cy : Z) (img : Image pixel)
  : Prop :=
  im_bbox img = im_bbox img0 /\
  im_pix img cx cy = im_pix img0 cx cy /\
  forall x y, ple (im_pix img x y) (im_pix img0 x y).
End MonoSpec.

Definition c5_img : Image Qc :=
  mkImage (mkBox 0 0 2 2)
          (fun x y => if (x =? 0) && (y =? 0) then Qc_of_Z 1 else Qc_of_Z 0).

(** ** The shadows of the monotonic shader *)

Section ShadowSpec.
Context {A : PixelArith}.

(** [a] is not above [b]: the comparison [b < a] of the code fails. *)
Definition not_above (a b : pixel) : Prop := pltb b a = false.

(** The ring of the pixel at offset (x, y) from the peak: the half-length
    [L] of the square it lies on. *)
Definition ring_of (x y : Z) : Z := Z.max (Z.abs x) (Z.abs y).

(** The walk round a ring moves along y on the right and the left edge
    ([dx == 0]) and along x on the upper and the lower edge; a corner
    belongs to the edge the walk leaves it on. *)
Definition on_vertical_edge (x y : Z) : bool :=
  let L := ring_of x y in
  ((x =? L) && (y <? L)) || ((x =? - L) && (- L <? y)).

(** The pixel at offset (u, v) from the peak lies in the shadow cast by
    the pixel at offset (x, y): up to 5 columns (rows) farther out, within
    the slopes [ds0 .. ds1] around the direction from the peak. *)
Definition in_shadow (x y u v : Z) : bool :=
  (0 <? ring_of x y) &&
  (if on_vertical_edge x y then
     let ds0 := dsub (ddiv (dbl_of_Z y) (dbl_of_Z x)) dbl_lit_0_3 in
     let ds1 := dadd ds0 (dmul (dbl_of_Z 2) dbl_lit_0_3) in
     let xsign := if 0 <? x then 1 else -1 in
     let shx := xsign * (u - x) in
     let shy := xsign * (v - y) in
     (1 <=? shx) && (shx <=? 5)
     && (lround (dmul (dbl_of_Z shx) ds0) <=? shy)
     && (shy <=? lround (dmul (dbl_of_Z shx) ds1))
   else
     let ds0 := dsub (ddiv (dbl_of_Z x) (dbl_of_Z y)) dbl_lit_0_3 in
     let ds1 := dadd ds0 (dmul (dbl_of_Z 2) dbl_lit_0_3) in
     let ysign := if 0 <? y then 1 else -1 in
     let shy := ysign * (v - y) in
     let shx := ysign * (u - x) in
     (1 <=? shy) && (shy <=? 5)
     && (lround (dmul (dbl_of_Z shy) ds0) <=? shx)
     && (shx <=? lround (dmul (dbl_of_Z shy) ds1))).

(** Step [i] of the walk round ring [L]: the offset from the peak and the
    direction. *)
Definition ring_pos (L i : Z) : Z * Z :=
  let leg := i / (2 * L) in
  let r := i mod (2 * L) in
  if leg =? 0 then (L, - L + r)
  else if leg =? 1 then (L - r, L)
  else if leg =? 2 then (- L, L - r)
  else (- L + r, - L).

Definition ring_dx (L i : Z) : Z :=
  let leg := i / (2 * L) in (leg mod 2) * (-1 + 2 * (leg / 2)).

Definition ring_dy (L i : Z) : Z :=
  let leg := i / (2 * L) in ((leg + 1) mod 2) * (1 - 2 * (leg / 2)).

(** What the walk does at the offset (x, y) while it moves by [dx] in x. *)
Definition ring_visit (cx cy ix0 iy0 iW iH : Z) (shadowing : Image pixel)
           (x y dx : Z) (img : Image pixel) : Image pixel :=
  let px := cx + x - ix0 in
  let py := cy + y - iy0 in
  if (px <? 0) || (iW <=? px) || (py <? 0) || (iH <=? py) then img
  else
    let pix := get_local shadowing px py in
    if dx =? 0 then cast_vertical cx cy ix0 iy0 iW iH x y pix img
    else cast_horizontal cx cy ix0 iy0 iW iH x y pix img.

(** The shadowing copy the pixels of ring [L] are read from: the image as
    the chunks before the one of [L] left it. *)
Definition shadowing_copy (img : Image pixel) (cx cy L : Z) : Image pixel :=
  let ix0 := minX (im_bbox img) in
  let iy0 := minY (im_bbox img) in
  let iW := getWidth (im_bbox img) in
  let iH := getHeight (im_bbox img) in
  let DW := Z.max (cx - ix0) (ix0 + iW - cx) in
  let DH := Z.max (cy - iy0) (iy0 + iH - cy) in
  let M := Z.max DW DH in
  chunks cx cy ix0 iy0 iW iH (Z.to_nat (L / 5)) 0 M img img.
End ShadowSpec.

(** A 5x5 image with the peak of value 10 in the centre, 5 at its right
    neighbour and 100 elsewhere. *)
Definition c5_wide_img : Image Qc :=
  mkImage (mkBox 0 0 4 4)
          (fun x y => if (x =? 2) && (y =? 2) then Qc_of_Z 10
                      else if (x =? 3) && (y =? 2) then Qc_of_Z 5
                      else Qc_of_Z 100).

(** ** Specification vocabulary and inputs for flux conservation *)

Section PortionSpec.
Context {A : PixelArith}.

(** [portions[i].image(p)]: the portion holds no flux outside its box. *)
Definition portion_value (m : MaskedImage) (x y : Z) : pixel :=
  if box_contains_pt (mi_bbox m) x y then mi_image m x y else p0.

(** The sum over the templates of their portions at (x, y). *)
Definition sum_portions (portions : list MaskedImage) (x y : Z) : pixel :=
  fold_right (fun m acc => padd (portion_value m x y) acc) p0 portions.

(** The template sum an absent [tsum] argument is replaced by. *)
Definition initial_tsum (foot : Footprint) (tsum : option (Image pixel))
  : Image pixel :=
  match tsum with
  | Some t => t
  | None => im_const (getBBox foot) p0
  end.

(** The template sum holds no flux on the footprint when the routine starts:
    it is absent, or zero there. *)
Definition tsum_clear (foot : Footprint) (tsum : option (Image pixel))
  : Prop :=
  match tsum with
  | None => True
  | Some t => forall x y, foot_contains foot x y = true -> im_pix t x y = p0
  end.
End PortionSpec.

Definition c2_box : Box2I := mkBox 0 0 0 0.
Definition c2_foot : Footprint := mkFootprint [mkSpan 0 0 0] [].
Definition c2_img : MaskedImage :=
  mkMaskedImage c2_box (fun _ _ => Qc_of_Z 1) (fun _ _ => 0)
                (fun _ _ => Qc_of_Z 1).
Definition c2_template : Image Qc := im_const c2_box (Qc_of_Z 1).
Definition c2_dirty_tsum : Image Qc := im_const c2_box (Qc_of_Z 1).

(** The first component of a successful result of [apportionFlux]. *)
Definition portions_of {A : PixelArith}
           (r : Res (list MaskedImage * list (option HeavyFootprint)
                     * Image pixel)) : list MaskedImage :=
  match r with
  | Ok (portions, _, _) => portions
  | _ => []
  end.

Definition strays_of {A : PixelArith}
           (r : Res (list MaskedImage * list (option HeavyFootprint)
                     * Image pixel)) : list (option HeavyFootprint) :=
  match r with
  | Ok (_, strays, _) => strays
  | _ => []
  end.

Definition tsum_of {A : PixelArith}
           (r : Res (list MaskedImage * list (option HeavyFootprint)
                     * Image pixel)) (dflt : Image pixel) : Image pixel :=
  match r with
  | Ok (_, _, tsum) => tsum
  | _ => dflt
  end.

(** One template of value 1 on a footprint of one pixel of value 1: the
    run without a template sum, and the run with a template sum that holds
    1 on entry. *)
Definition c2_run :=
  apportionFlux c2_img c2_foot [c2_template] [c2_foot] None [] [] [] 0
                (Qc_of_Z 0).

Definition c2_dirty_run :=
  apportionFlux c2_img c2_foot [c2_template] [c2_foot] (Some c2_dirty_tsum)
                [] [] [] 0 (Qc_of_Z 0).


(** ** Stray flux in the default mode, pixel by pixel *)

Section StraySpec.
Context {A : PixelArith}.

Variable img : MaskedImage.
Variable strayFluxOptions : Z.
Variable ntemplates : nat.
Variable ispsf : list bool.
Variables pkx pky : list Z.
Variable clipStrayFluxFraction : dbl.
Variables x y : Z.

(** The weight of template [i] for the stray pixel (x, y): 1 / (1 + r^2)
    from its peak. *)
Definition stray_weight (i : nat) : dbl :=
  peak_weight (nth i pkx 0) (nth i pky 0) x y.

(** Template [i] is a point source that is left out while [ptsrcs] is
    false. *)
Definition stray_skipped (ptsrcs : bool) (i : nat) : bool :=
  negb ptsrcs && negb (length ispsf =? 0)%nat && nth i ispsf false.

(** Sum, in template order and starting from [init], of the weights of the
    templates selected by [keep]. *)
Definition stray_sum (keep : nat -> bool) (init : dbl) : dbl :=
  fold_left (fun s i => if keep i then dadd s (stray_weight i) else s)
            (seq 0 ntemplates) init.

(** The sum of the first round, over the templates that are not left out. *)
Definition stray_csum1 : dbl :=
  stray_sum (fun i => negb (stray_skipped
                              (always strayFluxOptions) i)) d0.

(** Point sources step in when nothing was collected and the option allows
    it. *)
Definition stray_necessary : bool :=
  deqb stray_csum1 d0
  && flag_set strayFluxOptions STRAYFLUX_TO_POINT_SOURCES_WHEN_NECESSARY.

Definition stray_ptsrcs : bool :=
  if stray_necessary then true else always strayFluxOptions.

(** The sum the clipping threshold is taken from. *)
Definition stray_csum0 : dbl :=
  if stray_necessary then stray_sum (fun _ => true) stray_csum1
  else stray_csum1.

Definition stray_clip : dbl := dmul clipStrayFluxFraction stray_csum0.

(** Template [i] survives: it is not left out and its weight is not below
    the threshold. *)
Definition stray_keep (i : nat) : bool :=
  negb (stray_skipped stray_ptsrcs i)
  && negb (dltb (stray_weight i) stray_clip).

(** [csum] recomputed over the survivors. *)
Definition stray_csum : dbl := stray_sum stray_keep d0.

(** [contrib[i]] after the clipping. *)
Definition stray_contrib (i : nat) : dbl :=
  if stray_keep i then stray_weight i else d0.

(** The pixel a surviving template records. *)
Definition stray_record (i : nat) : StrayPix :=
  mkStrayPix y x
    (pixel_of_dbl (dmul (ddiv (stray_contrib i) stray_csum)
                        (dbl_of_pixel (mi_image img x y))))
    (mi_mask img x y) (mi_variance img x y).

End StraySpec.


(** A stray pixel of value 7 at (0, 0) between two templates with peaks at
    (1, 0) and (0, 2). *)
Definition c3_foot : Footprint := mkFootprint [mkSpan 0 0 0] [].

Definition c3_img : MaskedImage :=
  mkMaskedImage (mkBox 0 0 2 2) (fun _ _ => Qc_of_Z 7) (fun _ _ => 3)
                (fun _ _ => Qc_of_Z 1).

Definition c3_tsum : Image (@pixel ExactArith) :=
  im_const (mkBox 0 0 2 2) (Qc_of_Z 0).

Definition c3_tfoots : list Footprint :=
  [mkFootprint [mkSpan 0 1 1] []; mkFootprint [mkSpan 2 0 0] []].

(** The pixels a run recorded, template by template: position, value as a
    fraction, mask. *)
Definition stray_values (r : Res (list (option (@HeavyFootprint ExactArith))))
  : list (list (Z * Z * Q * Z)) :=
  match r with
  | Ok l =>
      map (fun o =>
             match o with
             | Some h => map (fun s => (st_x s, st_y s, this (st_image s),
                                        st_mask s)) h
             | None => []
             end) l
  | _ => []
  end.

(** One template whose peak lies 50000 pixels to the right of the stray
    pixel (0, 0) of [c3_foot]. *)
Definition c3_far_tfoots : list Footprint := [mkFootprint [mkSpan 0 1 1] []].
Definition c3_far_pkx : list Z := [50000].
Definition c3_far_pky : list Z := [0].

(** ** The two sweeps of the nearest-label transform *)

(** The two planes of the transform seen in buffer coordinates. *)
Definition dl (st : Image Z * Image Z) (x y : Z) : Z := get_local (fst st) x y.
Definition al (st : Image Z * Image Z) (x y : Z) : Z := get_local (snd st) x y.

(** The effect of one relaxation on the pair (distance, label) of a pixel,
    given the pair of the neighbour. *)
Definition relax_val (c n : Z * Z) : Z * Z :=
  if u16 (fst n + 1) <? fst c then (u16 (fst n + 1), snd n) else c.

(** Index of the last footprint of the list that covers (x, y), counted
    from [i]. *)
Fixpoint last_cover (foots : list Footprint) (i : Z) (x y : Z)
         (acc : option Z) : option Z :=
  match foots with
  | [] => acc
  | f :: r =>
      last_cover r (i + 1) x y (if foot_contains f x y then Some i else acc)
  end.

Section SweepSpec.
Variables W H : Z.
Variables D0 A0 : Z -> Z -> Z.

Definition in_grid (x y : Z) : Prop := 0 <= x < W /\ 0 <= y < H.

(** A pixel is on when the stamping left 1 in [dist]. *)
Definition on (x y : Z) : bool := D0 x y =? 1.

(** The pair (d, a) at (qx, qy) is justified: [d] is within range, and it
    is either the initial bound with the nil label or at least the distance
    to some on pixel whose stamped label is [a]. *)
Definition justified (qx qy d a : Z) : Prop :=
  0 <= d <= W + H /\
  ((d = W + H /\ a = nil_label) \/
   exists sx sy, in_grid sx sy /\ on sx sy = true /\
                 L1 qx qy sx sy <= d /\ a = A0 sx sy).

(** [d] is not above the distance to any on pixel below or left. *)
Definition below_nw (qx qy d : Z) : Prop :=
  forall sx sy, in_grid sx sy -> on sx sy = true ->
                sx <= qx -> sy <= qy -> d <= L1 qx qy sx sy.

(** [d] is not above the distance to any on pixel. *)
Definition below_all (qx qy d : Z) : Prop :=
  forall sx sy, in_grid sx sy -> on sx sy = true -> d <= L1 qx qy sx sy.

(** The forward sweep has treated the pixels before (x, y) in raster
    order. *)
Definition fwd_inv (x y : Z) (st : Image Z * Image Z) : Prop :=
  forall qx qy, in_grid qx qy ->
    (qy < y \/ (qy = y /\ qx < x) ->
     justified qx qy (dl st qx qy) (al st qx qy) /\
     below_nw qx qy (dl st qx qy)) /\
    (~ (qy < y \/ (qy = y /\ qx < x)) ->
     dl st qx qy = D0 qx qy /\ al st qx qy = A0 qx qy).

(** The backward sweep has treated the pixels from (x, y) on in raster
    order. *)
Definition bwd_inv (x y : Z) (st : Image Z * Image Z) : Prop :=
  forall qx qy, in_grid qx qy ->
    justified qx qy (dl st qx qy) (al st qx qy) /\
    below_nw qx qy (dl st qx qy) /\
    (y < qy \/ (qy = y /\ x <= qx) -> below_all qx qy (dl st qx qy)).
End SweepSpec.


(** Two single-pixel footprints at the two ends of a row of five pixels,
    the one on the right first. *)
Definition c4_right : Footprint := mkFootprint [mkSpan 0 4 4] [].
Definition c4_left : Footprint := mkFootprint [mkSpan 0 0 0] [].
Definition c4_buf : Image Z := im_const (mkBox 0 0 4 0) 0.

(** A point source as the only template, over a sum image of one pixel. *)
Definition c10_foot : Footprint := mkFootprint [mkSpan 0 0 0] [].
Definition c10_tsum : Image (@pixel ExactArith) :=
  im_const (mkBox 0 0 0 0) (Qc_of_Z 0).
Definition c10_img : @MaskedImage ExactArith :=
  mkMaskedImage (mkBox 0 0 0 0) (fun _ _ => Qc_of_Z 7) (fun _ _ => 0)
                (fun _ _ => Qc_of_Z 1).

(** ** IEEE 754 arithmetic

    The arithmetic for [ImagePixelT = VariancePixelT = float]: pixels and
    variances are binary32 numbers, [double] is binary64, every operation
    rounds to nearest even as specified by [SpecFloat], and the conversions
    between the two formats round where the C++ conversions do. *)

Definition sf_of_Z (prec emax : Z) (z : Z) : spec_float :=
  binary_normalize prec emax z 0 false.

(** Conversion of a number to the format [prec], [emax]. *)
Definition sf_convert (prec emax : Z) (x : spec_float) : spec_float :=
  match x with
  | S754_finite s m e => binary_round prec emax s m e
  | _ => x
  end.

(** [lround]: to the nearest integer, halfway cases away from zero; the
    result for infinities and NaN, which is unspecified, is taken as 0. *)
Definition sf_lround (x : spec_float) : Z :=
  match x with
  | S754_finite s m e =>
      let v := if 0 <=? e then Zpos m * 2 ^ e
               else (2 * Zpos m + 2 ^ (- e)) / (2 * 2 ^ (- e)) in
      if s then - v else v
  | _ => 0
  end.

Definition IEEEArith : PixelArith := {|
  pixel := spec_float;
  variance := spec_float;
  dbl := spec_float;
  pixel_of_Z := sf_of_Z 24 128;
  variance_of_Z := sf_of_Z 24 128;
  padd := SFadd 24 128;
  pdiv := SFdiv 24 128;
  pltb := SFltb;
  pleb := SFleb;
  peqb := SFeqb;
  dbl_of_pixel := sf_convert 53 1024;
  pixel_of_dbl := sf_convert 24 128;
  dbl_of_Z := sf_of_Z 53 1024;
  dbl_lit_0_3 := SFdiv 53 1024 (sf_of_Z 53 1024 3) (sf_of_Z 53 1024 10);
  dadd := SFadd 53 1024;
  dsub := SFsub 53 1024;
  dmul := SFmul 53 1024;
  ddiv := SFdiv 53 1024;
  dltb := SFltb;
  deqb := SFeqb;
  lround := sf_lround
|}.

(** A pixel of value 7 under two templates of values 1 and 2. *)
Definition c2_ieee_img : @MaskedImage IEEEArith :=
  @mkMaskedImage IEEEArith c2_box (fun _ _ => sf_of_Z 24 128 7) (fun _ _ => 0)
                (fun _ _ => sf_of_Z 24 128 1).
Definition c2_ieee_t1 : Image (@pixel IEEEArith) :=
  im_const c2_box (sf_of_Z 24 128 1).
Definition c2_ieee_t2 : Image (@pixel IEEEArith) :=
  im_const c2_box (sf_of_Z 24 128 2).
Definition c2_ieee_run :=
  @apportionFlux IEEEArith c2_ieee_img c2_foot [c2_ieee_t1; c2_ieee_t2]
                 [c2_foot; c2_foot] None [] [] [] 0 (sf_of_Z 53 1024 0).

(** ** The output of the stray-flux pass *)

Section StrayOutput.
Context {A : PixelArith}.
Variable tsum : Image pixel.
Variable img : MaskedImage.
Variable strayFluxOptions : Z.
Variable ntemplates : nat.
Variable ispsf : list bool.
Variables pkx pky : list Z.
Variable clipStrayFluxFraction : dbl.

(** The test of [_find_stray_flux] for a stray pixel, as the code makes it:
    not [tsum > 0] and not [image <= 0]. *)
Definition is_stray (x y : Z) : bool :=
  negb (pltb p0 (im_pix tsum x y)) && negb (pleb (mi_image img x y) p0).

(** The pixels template [i] records in the default mode while the routine
    walks the pixel list [l]: one per stray pixel for which the
    contribution of the template is not zero after the clipping. *)
Definition stray_records_for (i : nat) (l : list (Z * Z)) : list StrayPix :=
  flat_map
    (fun p =>
       if is_stray (fst p) (snd p)
          && negb (deqb (stray_contrib strayFluxOptions ntemplates ispsf
                                       pkx pky clipStrayFluxFraction
                                       (fst p) (snd p) i) d0)
       then [stray_record img strayFluxOptions ntemplates ispsf pkx pky
                          clipStrayFluxFraction (fst p) (snd p) i]
       else [])
    l.
End StrayOutput.

(** The entry pushed onto [strays]: a null pointer for a template that
    recorded nothing. *)
Definition heavy_of {A : PixelArith} (l : list StrayPix)
  : option HeavyFootprint :=
  match l with
  | [] => None
  | _ :: _ => Some l
  end.

(** The flux recorded for the pixel (x, y) in one heavy footprint, and in
    the heavy footprints of all templates. *)
Definition recs_flux_at (recs : list (@StrayPix ExactArith)) (x y : Z) : Qc :=
  fold_right (fun r a => if (st_x r =? x) && (st_y r =? y)
                         then Qcplus (st_image r) a else a)
             (Q2Qc 0) recs.

Definition stray_flux_at (strays : list (option (@HeavyFootprint ExactArith)))
           (x y : Z) : Qc :=
  fold_right
    (fun o acc =>
       Qcplus (match o with
               | Some recs => recs_flux_at recs x y
               | None => Q2Qc 0
               end) acc)
    (Q2Qc 0) strays.

(** Pixels of value 7 and 3 at (0, 0) and (1, 0), two templates with peaks
    at (1, 0) and (0, 2), the second one a point source. *)
Definition x_foot : Footprint := mkFootprint [mkSpan 0 0 1] [].
Definition x_img : @MaskedImage ExactArith :=
  mkMaskedImage (mkBox 0 0 2 2)
                (fun x _ => if x =? 0 then Qc_of_Z 7 else Qc_of_Z 3)
                (fun _ _ => 3) (fun _ _ => Qc_of_Z 1).

(** ** Inputs of the apportionment checks *)

(** A template whose box does not contain its footprint. *)
Definition x_small_template : Image (@pixel ExactArith) :=
  im_const (mkBox 0 0 0 0) (Qc_of_Z 1).
Definition x_wide_foot : Footprint := mkFootprint [mkSpan 0 0 1] [].

(** ** The value the median filter stores *)

Section MedianValue.
Context {A : PixelArith}.

(** The pixels under the window centred on the local position (x, y), in
    the order of the table of offsets. *)
Definition window_values (img : Image pixel) (halfsize x y : Z)
  : list pixel :=
  map (fun o => get_local img (x + fst o) (y + snd o)) (window halfsize).

Definition median_at (img : Image pixel) (halfsize x y : Z) : pixel :=
  let S := halfsize * 2 + 1 in
  nth_element (window_values img halfsize x y) (Z.to_nat (S * S / 2)).

End MedianValue.

Section MedianStages.
Context {A : PixelArith}.
Variables img out : Image pixel.
Variable h : Z.

(** [s] is [out] with the pixels described by [g]. *)
Definition shows (s : Image pixel) (g : Z -> Z -> pixel) : Prop :=
  im_bbox s = im_bbox out /\ forall x y, get_local s x y = g x y.

(** The contents of [out] after each of the three loops of
    [medianFilter], in local coordinates. *)
Definition after_median (x y : Z) : pixel :=
  if (h <=? y) && (y <? getHeight (im_bbox img) - h)
     && (h <=? x) && (x <? getWidth (im_bbox img) - h)
  then median_at img h x y else get_local out x y.

Definition after_rows (x y : Z) : pixel :=
  if (0 <=? x) && (x <? getWidth (im_bbox img))
     && (((0 <=? y) && (y <? h))
         || ((getHeight (im_bbox img) - h <=? y)
             && (y <? getHeight (im_bbox img))))
  then get_local img x y else after_median x y.

Definition after_columns (x y : Z) : pixel :=
  if (h <=? y) && (y <? getHeight (im_bbox img) - h)
     && (((0 <=? x) && (x <? h))
         || ((getWidth (im_bbox img) - 1 - h <=? x)
             && (x <? getWidth (im_bbox img) - 1)))
  then get_local img x y else after_rows x y.

End MedianStages.

Definition x_median_img : Image Qc :=
  mkImage (mkBox 0 0 3 2) (fun x y => Qc_of_Z (x + 4 * y + 1)).
Definition x_median_out : Image Qc := im_const (mkBox 0 0 3 2) (Qc_of_Z 0).

(** ** Significant flux at the edge of a footprint

    Both routines start from [sfoot->getSpans()->findEdgePixels()].  The
    edge finder belongs to the footprint library, which is not part of this
    repository; the span set it returns is the argument [edgeSpans]. *)

Section Edge.
Context {A : PixelArith}.

(** [*xiter >= thresh] *)
Definition significant_at (img : Image pixel) (thresh : pixel) (x y : Z)
  : bool :=
  pleb thresh (im_pix img x y).

(** The two nested loops of [hasSignificantFluxAtEdge] over the pixels of
    the edge spans; the first pixel at or above the threshold ends them. *)
Fixpoint any_significant (img : Image pixel) (thresh : pixel)
         (pix : list (Z * Z)) : Res bool :=
  match pix with
  | [] => Ok false
  | (x, y) :: r =>
      v <- im_read img x y ;;
      if pleb thresh v then Ok true else any_significant img thresh r
  end.

(** [hasSignificantFluxAtEdge(img, sfoot, thresh)] *)
Definition hasSignificantFluxAtEdge (img : Image pixel)
           (edgeSpans : SpanSet) (thresh : pixel) : Res bool :=
  any_significant img thresh (spans_pixels edgeSpans).

(** The state of the scan of one edge span: [onSpan], [xSpan] and
    [tmpSpans].  [xSpan] is declared without a value: [None] until the
    first assignment, and reading it then is undefined. *)
Definition ScanState : Type := (bool * option Z * list Span)%type.

(** One pixel of the scan of the span of row [y]. *)
Definition scan_pixel (img : Image pixel) (thresh : pixel) (y : Z)
           (st : ScanState) (x : Z) : Res ScanState :=
  let '(onSpan, xSpan, tmp) := st in
  v <- im_read img x y ;;
  if pleb thresh v then Ok (true, Some x, tmp)
  else if onSpan then
    match xSpan with
    | Some xs => Ok (false, xSpan, tmp ++ [mkSpan y xs (x - 1)])
    | None => Undef
    end
  else Ok st.

(** The scan of one edge span, with the push that follows the loop. *)
Definition scan_span (img : Image pixel) (thresh : pixel)
           (tmp : list Span) (span : Span) : Res (list Span) :=
  let y := sp_y span in
  st <- foldM (scan_pixel img thresh y)
              (zseq (sp_x0 span) (sp_x1 span - sp_x0 span + 1))
              (false, None, tmp) ;;
  let '(onSpan, xSpan, tmp) := st in
  if onSpan then
    match xSpan with
    | Some xs => Ok (tmp ++ [mkSpan y xs (sp_x1 span)])
    | None => Undef
    end
  else Ok tmp.

(** [getSignificantEdgePixels(img, sfoot, thresh)]: the footprint
    [significant], new and without peaks, with the span set built from
    [tmpSpans]. *)
Definition getSignificantEdgePixels (img : Image pixel)
           (edgeSpans : SpanSet) (thresh : pixel) : Res Footprint :=
  tmp <- foldM (scan_span img thresh) edgeSpans [] ;;
  Ok (mkFootprint (make_SpanSet tmp) []).

(** A pixel of the span [s] at or above the threshold whose right
    neighbour in [s], if there is one, is below it. *)
Definition last_of_run (img : Image pixel) (thresh : pixel) (s : Span)
           (x y : Z) : bool :=
  span_contains s x y && significant_at img thresh x y
  && ((x =? sp_x1 s) || negb (significant_at img thresh (x + 1) y)).

End Edge.

Definition x_edge_img : Image Qc :=
  mkImage (mkBox 0 0 3 0) (fun x _ => Qc_of_Z (if x <? 3 then 5 else 1)).
Definition x_edge_spans : SpanSet := [mkSpan 0 0 3].

(** ** The integers behind [_get_contrib_r_to_footprint] *)

(** The [int] value of [mindx * mindx + dy * dy] for the span [sp] and the
    pixel (x, y). *)
Definition span_dist2 (x y : Z) (sp : Span) : Z :=
  let dx := i32 (sp_x0 sp - x) in
  let mindx :=
    if 0 <=? dx then dx
    else
      let dx := i32 (x - sp_x1 sp) in
      if 0 <=? dx then dx else 0 in
  let dy := i32 (sp_y sp - y) in
  i32 (i32 (mindx * mindx) + i32 (dy * dy)).

(** The span [sp] lies within [r] pixels of (x, y) along both axes. *)
Definition span_within (r x y : Z) (sp : Span) : Prop :=
  Z.abs (sp_x0 sp - x) <= r /\ Z.abs (sp_x1 sp - x) <= r /\
  Z.abs (sp_y sp - y) <= r.

(** The value of [minr2] after the loop, started from [m]. *)
Definition min_dist2 (x y : Z) (spans : SpanSet) (m : Z) : Z :=
  fold_left (fun m sp => Z.min m (span_dist2 x y sp)) spans m.

Definition x_contrib_foot : Footprint :=
  mkFootprint [mkSpan 0 2 4; mkSpan 1 3 3] [].

(** A footprint 50000 pixels to the right of the origin. *)
Definition x_far_foot : Footprint := mkFootprint [mkSpan 0 50000 50001] [].

(** ** Values of the shaded image *)

(** [img] has the box of [img0], and each of its pixels holds the value of
    some pixel of [img0]. *)
Definition values_of {T : Type} (img0 img : Image T) : Prop :=
  im_bbox img = im_bbox img0 /\
  forall x y,
    box_contains_pt (im_bbox img0) x y = true ->
    exists x' y',
      box_contains_pt (im_bbox img0) x' y' = true /\
      im_pix img x y = im_pix img0 x' y'.

(** ** The span list of a span set, and its mirror image *)

(** The next span lies in a later row, or in the same row beyond a gap. *)
Definition apart (a b : Span) : Prop :=
  sp_y a < sp_y b \/ (sp_y a = sp_y b /\ sp_x1 a + 1 < sp_x0 b).

(** The form in which the [SpanSet] constructor leaves its spans: runs
    that are not empty, in increasing order, no two of them touching. *)
Definition canonical (l : list Span) : Prop :=
  Forall (fun s => sp_x0 s <= sp_x1 s) l /\ StronglySorted apart l.

(** The image of a span under the point reflection about (cx, cy). *)
Definition mirror_span (cx cy : Z) (s : Span) : Span :=
  mkSpan (2 * cy - sp_y s) (2 * cx - sp_x1 s) (2 * cx - sp_x0 s).

(** ** The pixels of the symmetric template *)

Section TemplateSpec.
Context {A : PixelArith}.
Variable img : MaskedImage.
Variable minZero : bool.
Variables cx cy : Z.

(** [pix = std::min(pixf, pixb)], raised to 0 under [minZero]. *)
Definition template_value (pixf pixb : pixel) : pixel :=
  let pix := pmin pixf pixb in
  if minZero then pmax pix p0 else pix.

(** The pixel (x, y) of [T] and its mirror image hold the same value, the
    minimum of the two input pixels taken in one order or the other. *)
Definition mirror_min (T : Image pixel) (x y : Z) : Prop :=
  im_pix T x y = im_pix T (2 * cx - x) (2 * cy - y) /\
  (im_pix T x y
   = template_value (mi_image img x y)
                    (mi_image img (2 * cx - x) (2 * cy - y)) \/
   im_pix T x y
   = template_value (mi_image img (2 * cx - x) (2 * cy - y))
                    (mi_image img x y)).

(** What the loop over the span pairs keeps, [n] spans in all, the pairs
    before position [i] done. *)
Definition template_inv (spans : SpanSet) (Tb : Box2I) (i : Z)
           (T : Image pixel) : Prop :=
  im_bbox T = Tb /\
  (forall x y, spans_contain spans x y = false -> im_pix T x y = p0) /\
  (forall a x y,
     0 <= a < i \/ Z.of_nat (length spans) - 1 - i < a
                    < Z.of_nat (length spans) ->
     span_contains (spanZ spans a) x y = true -> mirror_min T x y).
End TemplateSpec.

(** ** The patched edge *)

Section PatchSpec.
Variables cx cy : Z.
Variable imbb : Box2I.

(** The part of the span [sp] of the original footprint that the last
    loop of [buildSymmetricTemplate] copies from the image and pushes onto
    [newSpans]; nothing when both ends have their mirror image in
    [imbb]. *)
Definition patched_part (sp : Span) : list Span :=
  let y := sp_y sp in
  let x0 := sp_x0 sp in
  let x1 := sp_x1 sp in
  let ym := cy + (cy - y) in
  let in0 := box_contains_pt imbb (cx + (cx - x0)) ym in
  let in1 := box_contains_pt imbb (cx + (cx - x1)) ym in
  if in0 && in1 then []
  else [mkSpan y (if in0 then cx + (cx - (minX imbb - 1)) else x0)
                 (if in1 then cx + (cx - (maxX imbb + 1)) else x1)].

(** A pixel of [sp] whose mirror image lies outside [imbb], or any pixel
    of [sp] when the mirror images of both ends of [sp] lie outside. *)
Definition patched_pixel (sp : Span) (x y : Z) : bool :=
  span_contains sp x y
  && (negb (box_contains_pt imbb (2 * cx - x) (2 * cy - y))
      || (negb (box_contains_pt imbb (2 * cx - sp_x0 sp) (2 * cy - sp_y sp))
          && negb (box_contains_pt imbb (2 * cx - sp_x1 sp)
                                   (2 * cy - sp_y sp)))).
End PatchSpec.

(** The pixels of [F] that are copied from the image when the edge is
    patched. *)
Definition patched_by (F : Footprint) (cx cy x y : Z) : bool :=
  existsb (fun sp => patched_pixel cx cy (getBBox F) sp x y) (fp_spans F).

Definition x_template_foot : Footprint :=
  mkFootprint [mkSpan 0 0 2; mkSpan 1 0 3] [].
Definition x_template_img : MaskedImage :=
  mkMaskedImage (mkBox 0 0 3 1) (fun x y => Qc_of_Z (x + 4 * y))
                (fun _ _ => 0) (fun _ _ => Qc_of_Z 1).

Definition x_edge_masked_img : MaskedImage :=
  mkMaskedImage (mkBox 0 0 3 1) (fun x y => Qc_of_Z (x + 4 * y))
                (fun _ _ => 16) (fun _ _ => Qc_of_Z 1).

(** ** Inputs of the run with templates and stray flux *)

(** A footprint of two pixels; the one template covers the first. *)
Definition x_total_foot : Footprint := mkFootprint [mkSpan 0 0 1] [].
Definition x_total_img : @MaskedImage ExactArith :=
  mkMaskedImage (mkBox 0 0 1 0) (fun x _ => Qc_of_Z (x + 2))
                (fun _ _ => 0) (fun _ _ => Qc_of_Z 1).
Definition x_total_template : Image Qc :=
  mkImage (mkBox 0 0 0 0) (fun _ _ => Qc_of_Z 5).
Definition x_total_tfoot : Footprint := mkFootprint [mkSpan 0 0 0] [].

(** ** Stray flux pixel by pixel, whatever the mode

    The three modes of [_find_stray_flux] differ in the weight a template
    gets for a stray pixel; what follows the weights is the same. *)

Section ModeSpec.
Context {A : PixelArith}.

Variable img : MaskedImage.
Variable strayFluxOptions : Z.
Variable ntemplates : nat.
Variable ispsf : list bool.
Variable clipStrayFluxFraction : dbl.
Variables x y : Z.

(** The weight of template [i] for the stray pixel (x, y). *)
Variable wt : nat -> dbl.

Definition mode_sum (keep : nat -> bool) (init : dbl) : dbl :=
  fold_left (fun s i => if keep i then dadd s (wt i) else s)
            (seq 0 ntemplates) init.

(** The sum of the first round, over the templates that are not left out. *)
Definition mode_csum1 : dbl :=
  mode_sum (fun i => negb (stray_skipped ispsf
                             (always strayFluxOptions) i)) d0.

Definition mode_necessary : bool :=
  deqb mode_csum1 d0
  && flag_set strayFluxOptions STRAYFLUX_TO_POINT_SOURCES_WHEN_NECESSARY.

Definition mode_ptsrcs : bool :=
  if mode_necessary then true else always strayFluxOptions.

(** The sum the clipping threshold is taken from. *)
Definition mode_csum0 : dbl :=
  if mode_necessary then mode_sum (fun _ => true) mode_csum1
  else mode_csum1.

(** Template [i] survives: it is not left out and its weight is not below
    the threshold. *)
Definition mode_keep (i : nat) : bool :=
  negb (stray_skipped ispsf mode_ptsrcs i)
  && negb (dltb (wt i) (dmul clipStrayFluxFraction mode_csum0)).

(** [csum] recomputed over the survivors. *)
Definition mode_csum : dbl := mode_sum mode_keep d0.

(** [contrib[i]] after the clipping. *)
Definition mode_contrib (i : nat) : dbl :=
  if mode_keep i then wt i else d0.

(** The pixel a surviving template records. *)
Definition mode_record (i : nat) : StrayPix :=
  mkStrayPix y x
    (pixel_of_dbl (dmul (ddiv (mode_contrib i) mode_csum)
                        (dbl_of_pixel (mi_image img x y))))
    (mi_mask img x y) (mi_variance img x y).

End ModeSpec.

Section ModeOutput.
Context {A : PixelArith}.
Variable tsum : Image pixel.
Variable img : MaskedImage.
Variable strayFluxOptions : Z.
Variable ntemplates : nat.
Variable ispsf : list bool.
Variable clipStrayFluxFraction : dbl.
Variable wt : Z -> Z -> nat -> dbl.

(** The pixels template [i] records while the routine walks the pixel list
    [l]: one per stray pixel for which its contribution is not zero after
    the clipping. *)
Definition mode_records_for (i : nat) (l : list (Z * Z)) : list StrayPix :=
  flat_map
    (fun p =>
       if is_stray tsum img (fst p) (snd p)
          && negb (deqb (mode_contrib strayFluxOptions ntemplates ispsf
                           clipStrayFluxFraction (wt (fst p) (snd p)) i) d0)
       then [mode_record img strayFluxOptions ntemplates ispsf
                         clipStrayFluxFraction (fst p) (snd p)
                         (wt (fst p) (snd p)) i]
       else [])
    l.

(** The weight under [STRAYFLUX_R_TO_FOOTPRINT]. *)
Definition weight_r_to_footprint (tfoots : list Footprint) (x y : Z)
           (i : nat) : dbl :=
  get_contrib_r_to_footprint x y (nth i tfoots (mkFootprint [] [])).

(** The weight under [STRAYFLUX_NEAREST_FOOTPRINT]: all of it for the
    template whose index the label image holds. *)
Definition weight_nearest (nearest : Image Z) (x y : Z) (i : nat) : dbl :=
  if Z.of_nat i =? im_pix nearest x y then d1 else d0.
End ModeOutput.

Section ModeProgress.
Context {A : PixelArith}.
Variable tfoots : list Footprint.
Variable c0 : list dbl.
Variable wt : nat -> dbl.

(** [contrib] on the way: every entry is still the initial one or already
    the weight. *)
Definition on_the_way (c : list dbl) : Prop :=
  length c = length tfoots /\
  forall i, (i < length tfoots)%nat ->
    nth i c d0 = nth i c0 d0 \/ nth i c d0 = wt i.
End ModeProgress.

(** ** The far-distance runs in IEEE arithmetic *)

(** The stray pixel of value 7 of [c3_img] in binary32, over an empty
    template sum. *)
Definition c3_ieee_img : @MaskedImage IEEEArith :=
  @mkMaskedImage IEEEArith (mkBox 0 0 2 2) (fun _ _ => sf_of_Z 24 128 7)
                 (fun _ _ => 3) (fun _ _ => sf_of_Z 24 128 1).
Definition c3_ieee_tsum : Image (@pixel IEEEArith) :=
  im_const (mkBox 0 0 2 2) (sf_of_Z 24 128 0).

(** Which entries of a result are null pointers. *)
Definition null_entries {A : PixelArith}
           (r : Res (list (option HeavyFootprint))) : option (list bool) :=
  match r with
  | Ok l =>
      Some (map (fun o => match o with None => true | Some _ => false end) l)
  | _ => None
  end.

(** The only peak 50000 pixels from the stray pixel, default mode. *)
Definition c3_ieee_far_run :=
  @find_stray_flux IEEEArith c3_foot c3_ieee_tsum c3_ieee_img
                   ASSIGN_STRAYFLUX c3_far_tfoots [] c3_far_pkx c3_far_pky
                   (sf_of_Z 53 1024 0).

(** The only template footprint 50000 pixels from the stray pixel, under
    [STRAYFLUX_R_TO_FOOTPRINT]. *)
Definition x_ieee_far_run :=
  @find_stray_flux IEEEArith c3_foot c3_ieee_tsum c3_ieee_img
                   (ASSIGN_STRAYFLUX + STRAYFLUX_R_TO_FOOTPRINT) [x_far_foot]
                   [] [] [] (sf_of_Z 53 1024 0).


(** * 32-bit integers *)

Lemma i32_small (z : Z) : - 2 ^ 31 <= z < 2 ^ 31 -> i32 z = z.
Proof.
  intros H. unfold i32. rewrite Z.mod_small; lia.
Qed.

Lemma i32_range (z : Z) : - 2 ^ 31 <= i32 z < 2 ^ 31.
Proof.
  unfold i32.
  pose proof (Z.mod_pos_bound (z + 2147483648) 4294967296 eq_refl). lia.
Qed.

(** Wrapping does not change the residue modulo 8. *)
Lemma i32_mod8 (z : Z) : i32 z mod 8 = z mod 8.
Proof.
  unfold i32.
  pose proof (Z.div_mod (z + 2147483648) 4294967296 ltac:(discriminate))
    as D.
  set (q := (z + 2147483648) / 4294967296) in D.
  set (r := (z + 2147483648) mod 4294967296) in *.
  replace (z mod 8) with ((r - 2147483648 + q * 536870912 * 8) mod 8)
    by (f_equal; lia).
  rewrite Z.mod_add by discriminate. reflexivity.
Qed.

Lemma square_mod8 (z : Z) :
  (z * z) mod 8 = 0 \/ (z * z) mod 8 = 1 \/ (z * z) mod 8 = 4.
Proof.
  rewrite Z.mul_mod by discriminate.
  pose proof (Z.mod_pos_bound z 8 eq_refl) as Hr.
  assert (Hc : z mod 8 = 0 \/ z mod 8 = 1 \/ z mod 8 = 2 \/ z mod 8 = 3 \/
               z mod 8 = 4 \/ z mod 8 = 5 \/ z mod 8 = 6 \/ z mod 8 = 7)
    by lia.
  destruct Hc as [E|[E|[E|[E|[E|[E|[E|E]]]]]]]; rewrite E; cbv; auto.
Qed.

(** A sum of two squares is never 6 modulo 8, so it does not wrap to -2. *)
Lemma squares_sum_mod8 (a b : Z) : (i32 (a * a) + i32 (b * b)) mod 8 <> 6.
Proof.
  rewrite Z.add_mod, !i32_mod8 by discriminate.
  destruct (square_mod8 a) as [Ea|[Ea|Ea]], (square_mod8 b) as [Eb|[Eb|Eb]];
    rewrite Ea, Eb; cbv; discriminate.
Qed.

Lemma i32_squares_sum (a b : Z) : i32 (a * a) + i32 (b * b) <> -2.
Proof.
  intros E. apply (squares_sum_mod8 a b). rewrite E. reflexivity.
Qed.

Lemma i32_squares_sum_wrapped (a b : Z) :
  i32 (i32 (a * a) + i32 (b * b)) <> -2.
Proof.
  intros E. apply (squares_sum_mod8 a b). rewrite <- i32_mod8, E.
  reflexivity.
Qed.

(** Differences of at most 46340 have a square below 2^31. *)
Lemma i32_square (d : Z) :
  Z.abs d <= 46340 -> i32 (i32 d * i32 d) = d * d.
Proof.
  intros H. rewrite (i32_small d) by lia. apply i32_small.
  assert (0 <= d * d <= 46340 * 46340) by nia. lia.
Qed.

(** * The span-set constructor keeps the pixel set *)

Lemma le0_trans a b c : le0 a b -> le0 b c -> le0 a c.
Proof. unfold le0; lia. Qed.

Lemma span_compare_true a b : span_compare a b = true -> le0 a b.
Proof.
  unfold span_compare, le0.
  destruct (sp_y a <? sp_y b) eqn:E1; [apply Z.ltb_lt in E1; lia|].
  destruct (sp_y b <? sp_y a) eqn:E2; [discriminate|].
  apply Z.ltb_ge in E1, E2.
  destruct (sp_x0 a <? sp_x0 b) eqn:E3; [apply Z.ltb_lt in E3; lia|].
  destruct (sp_x0 b <? sp_x0 a) eqn:E4; [discriminate|].
  apply Z.ltb_ge in E3, E4. lia.
Qed.

Lemma span_compare_false a b : span_compare a b = false -> le0 b a.
Proof.
  unfold span_compare, le0.
  destruct (sp_y a <? sp_y b) eqn:E1; [discriminate|].
  destruct (sp_y b <? sp_y a) eqn:E2; [apply Z.ltb_lt in E2; lia|].
  apply Z.ltb_ge in E1, E2.
  destruct (sp_x0 a <? sp_x0 b) eqn:E3; [discriminate|].
  apply Z.ltb_ge in E3. lia.
Qed.

Lemma insert_span_In s a l : In s (insert_span a l) <-> s = a \/ In s l.
Proof.
  induction l as [|h t IH]; simpl.
  - intuition.
  - destruct (span_compare a h); simpl; [intuition|].
    rewrite IH. intuition.
Qed.

Lemma sort_spans_In s l : In s (sort_spans l) <-> In s l.
Proof.
  induction l as [|a l IH]; simpl; [tauto|].
  rewrite insert_span_In, IH. intuition.
Qed.

Lemma insert_span_sorted a l :
  StronglySorted le0 l -> StronglySorted le0 (insert_span a l).
Proof.
  induction 1 as [|h t Ht IH Hall]; simpl.
  - constructor; constructor.
  - destruct (span_compare a h) eqn:E.
    + apply span_compare_true in E. constructor.
      * constructor; auto.
      * constructor; auto. eapply Forall_impl; [|exact Hall].
        intros c Hc. eapply le0_trans; eauto.
    + apply span_compare_false in E. constructor; auto.
      apply Forall_forall. intros c Hc. apply insert_span_In in Hc.
      destruct Hc as [->|Hc]; auto. rewrite Forall_forall in Hall. auto.
Qed.

Lemma sort_spans_sorted l : StronglySorted le0 (sort_spans l).
Proof.
  induction l; simpl; [constructor|]. apply insert_span_sorted; auto.
Qed.

Lemma spans_contain_In l x y :
  spans_contain l x y = true <-> exists s, In s l /\ span_contains s x y = true.
Proof. unfold spans_contain. apply existsb_exists. Qed.

Lemma spans_contain_ext l1 l2 x y :
  (forall s, In s l1 <-> In s l2) ->
  spans_contain l1 x y = spans_contain l2 x y.
Proof.
  intros H. apply eq_true_iff_eq. rewrite !spans_contain_In.
  split; intros (s & Hs & Hc); exists s; split; auto; apply H; auto.
Qed.

Lemma coalesce_pixels x y :
  forall l cur, Forall (le0 cur) l -> StronglySorted le0 l ->
    spans_contain (coalesce cur l) x y = spans_contain (cur :: l) x y.
Proof.
  induction l as [|s r IH]; intros cur Hle Hs; [reflexivity|].
  inversion Hle as [|? ? Hcs Hcr]; subst.
  inversion Hs as [|? ? Hsr0 Hsr]; subst.
  cbn [coalesce].
  destruct ((sp_y s =? sp_y cur) && (sp_x0 s <=? sp_x1 cur + 1)) eqn:E.
  - apply andb_true_iff in E. destruct E as [Ey Ex].
    apply Z.eqb_eq in Ey. apply Z.leb_le in Ex.
    rewrite IH; [|exact Hcr|exact Hsr0].
    unfold spans_contain; cbn [existsb]. rewrite orb_assoc. f_equal.
    unfold span_contains; cbn [sp_y sp_x0 sp_x1].
    unfold le0 in Hcs.
    apply eq_true_iff_eq.
    rewrite orb_true_iff, !andb_true_iff, !Z.leb_le, !Z.eqb_eq. lia.
  - unfold spans_contain at 1. cbn [existsb].
    change (existsb (fun s0 => span_contains s0 x y) (coalesce s r))
      with (spans_contain (coalesce s r) x y).
    rewrite IH; auto.
Qed.

Lemma make_SpanSet_pixels l x y :
  spans_contain (make_SpanSet l) x y = spans_contain l x y.
Proof.
  unfold make_SpanSet.
  rewrite <- (spans_contain_ext (sort_spans l) l x y)
    by (intros; apply sort_spans_In).
  pose proof (sort_spans_sorted l) as Hs.
  destruct (sort_spans l) as [|a r]; [reflexivity|].
  inversion Hs; subst. apply coalesce_pixels; auto.
Qed.

(** * Properties of the symmetrizer *)

Lemma span_before_iff a b : span_before a b = true <-> before a b.
Proof.
  unfold span_before, before.
  rewrite orb_true_iff, andb_true_iff, Z.ltb_lt, Z.eqb_eq, Z.ltb_lt. tauto.
Qed.

Lemma before_trans a b c :
  sp_x0 b <= sp_x1 b -> before a b -> before b c -> before a c.
Proof. unfold before; intros; lia. Qed.

Lemma spanset_ok_cons a l :
  spanset_ok (a :: l) = true ->
  sp_x0 a <= sp_x1 a /\ spanset_ok l = true /\ Forall (before a) l.
Proof.
  revert a; induction l as [|b l IH]; intros a H.
  - simpl in H. rewrite !andb_true_iff in H. unfold span_ok in H.
    rewrite Z.leb_le in H. intuition.
  - change (span_ok a && span_before a b && spanset_ok (b :: l) = true) in H.
    rewrite !andb_true_iff in H. destruct H as [[Ha Hab] Hl].
    unfold span_ok in Ha. rewrite Z.leb_le in Ha.
    apply span_before_iff in Hab.
    destruct (IH b Hl) as (Hb & Hl' & HF).
    repeat split; auto.
    constructor; auto.
    eapply Forall_impl; [|exact HF].
    intros c Hc. eapply before_trans; eauto.
Qed.

Lemma spanset_ok_nth l :
  spanset_ok l = true ->
  forall i j, (i < j < length l)%nat ->
    before (nth i l dflt_span) (nth j l dflt_span).
Proof.
  induction l as [|a l IH]; intros H i j Hij; [simpl in Hij; lia|].
  destruct (spanset_ok_cons _ _ H) as (Ha & Hl & HF).
  destruct j as [|j]; [lia|].
  destruct i as [|i].
  - simpl. rewrite Forall_forall in HF. apply HF. apply nth_In. simpl in Hij. lia.
  - simpl. apply IH; auto. simpl in Hij. lia.
Qed.

Lemma spanset_ok_span l :
  spanset_ok l = true ->
  forall i, (i < length l)%nat ->
    sp_x0 (nth i l dflt_span) <= sp_x1 (nth i l dflt_span).
Proof.
  induction l as [|a l IH]; intros H i Hi; [simpl in Hi; lia|].
  destruct (spanset_ok_cons _ _ H) as (Ha & Hl & HF).
  destruct i; simpl; auto. apply IH; auto. simpl in Hi; lia.
Qed.

Lemma span_at_ok spans i :
  0 <= i < Z.of_nat (length spans) -> span_at spans i = Ok (spanZ spans i).
Proof.
  intros Hi. unfold span_at, spanZ.
  replace ((0 <=? i) && (i <? Z.of_nat (length spans))) with true
    by (symmetry; apply andb_true_iff; split; [apply Z.leb_le|apply Z.ltb_lt]; lia).
  rewrite (nth_error_nth' spans dflt_span) by lia. reflexivity.
Qed.

Lemma span_at_out spans i :
  ~ (0 <= i < Z.of_nat (length spans)) -> span_at spans i = Undef.
Proof.
  intros Hi. unfold span_at.
  destruct ((0 <=? i) && (i <? Z.of_nat (length spans))) eqn:E; auto.
  apply andb_true_iff in E. rewrite Z.leb_le, Z.ltb_lt in E. lia.
Qed.

Lemma spans_contain_iff l x y :
  spans_contain l x y = true <->
  exists i, 0 <= i < Z.of_nat (length l) /\ span_contains (spanZ l i) x y = true.
Proof.
  unfold spans_contain. rewrite existsb_exists. split.
  - intros (s & Hin & Hs). apply (In_nth _ _ dflt_span) in Hin.
    destruct Hin as (k & Hk & Hnth). exists (Z.of_nat k). split; [lia|].
    unfold spanZ. rewrite Nat2Z.id, Hnth. exact Hs.
  - intros (i & Hi & Hs). exists (spanZ l i). split; auto.
    unfold spanZ. apply nth_In. lia.
Qed.

Lemma span_contains_iff s x y :
  span_contains s x y = true <-> sp_x0 s <= x <= sp_x1 s /\ y = sp_y s.
Proof.
  unfold span_contains. rewrite !andb_true_iff, !Z.leb_le, Z.eqb_eq. tauto.
Qed.


Lemma spanZ_cons s r i : 1 <= i -> spanZ (s :: r) i = spanZ r (i - 1).
Proof.
  intros Hi. unfold spanZ.
  replace (Z.to_nat i) with (Datatypes.S (Z.to_nat (i - 1))) by lia. reflexivity.
Qed.

Lemma upper_bound_spec l t :
  0 <= upper_bound l t <= Z.of_nat (length l) /\
  (forall i, 0 <= i < upper_bound l t -> span_compare t (spanZ l i) = false) /\
  (upper_bound l t < Z.of_nat (length l) ->
   span_compare t (spanZ l (upper_bound l t)) = true).
Proof.
  induction l as [|s r IH].
  - simpl. repeat split; try lia.
  - cbn [upper_bound length]. destruct (span_compare t s) eqn:E.
    + repeat split; try lia. intros _. exact E.
    + destruct IH as (Hr & Hlo & Hhi). repeat split; try lia.
      * intros i Hi. destruct (Z.eq_dec i 0) as [->|Hne]; [exact E|].
        rewrite spanZ_cons by lia. apply Hlo. lia.
      * intros Hlt. rewrite spanZ_cons by lia.
        replace (1 + upper_bound r t - 1) with (upper_bound r t) by lia.
        apply Hhi. lia.
Qed.


Lemma last_spanZ (l : SpanSet) d :
  l <> [] -> last l d = spanZ l (Z.of_nat (length l) - 1).
Proof.
  induction l as [|a r IH]; intros Hne; [congruence|].
  destruct r as [|b r'].
  - reflexivity.
  - change (last (a :: b :: r') d) with (last (b :: r') d).
    rewrite IH by discriminate.
    rewrite (spanZ_cons a (b :: r')) by (cbn [length]; lia).
    f_equal. cbn [length]. lia.
Qed.

Section SymProof.
Variable spans : SpanSet.
Variables cx cy : Z.
Hypothesis Hok : spanset_ok spans = true.

Let n := Z.of_nat (length spans).
Let S := spanZ spans.

Lemma S_before i j : 0 <= i -> i < j -> j < n -> before (S i) (S j).
Proof.
  intros. unfold S, spanZ. apply spanset_ok_nth; auto. subst n. lia.
Qed.

Lemma S_sorted i j : 0 <= i -> i <= j -> j < n -> sp_y (S i) <= sp_y (S j).
Proof.
  intros. destruct (Z.eq_dec i j) as [->|]; [lia|].
  assert (before (S i) (S j)) by (apply S_before; lia).
  unfold before in *; lia.
Qed.

Lemma S_row i j : 0 <= i -> i < j -> j < n -> sp_y (S i) = sp_y (S j) ->
  sp_x1 (S i) < sp_x0 (S j).
Proof.
  intros. assert (before (S i) (S j)) by (apply S_before; lia).
  unfold before in *; lia.
Qed.

Lemma S_ok i : 0 <= i < n -> sp_x0 (S i) <= sp_x1 (S i).
Proof.
  intros. unfold S, spanZ. apply spanset_ok_span; auto. subst n; lia.
Qed.

Lemma span_at_S i : 0 <= i < n -> span_at spans i = Ok (S i).
Proof. intros; apply span_at_ok; auto. Qed.

Lemma row_end_fwd dy : 0 <= dy ->
  forall k f, 0 <= f <= n -> k = Z.to_nat (n - f) ->
  (forall i, f <= i < n -> dy <= sp_y (S i) - cy) ->
  exists fe, row_end spans cy k (mkRSI f true) dy = Ok (mkRSI fe true) /\
    f <= fe <= n /\
    (forall i, f <= i < fe -> sp_y (S i) - cy = dy) /\
    (forall i, fe <= i < n -> dy < sp_y (S i) - cy).
Proof.
  intros Hdy. induction k as [|k IH]; intros f Hf Hk Hge.
  - exists f. simpl. repeat split; try lia.
  - simpl. unfold notDone; simpl. fold n.
    destruct (f <? n) eqn:E; [apply Z.ltb_lt in E | apply Z.ltb_ge in E; lia].
    unfold it_dy; simpl. rewrite span_at_S by lia. simpl.
    pose proof (Hge f ltac:(lia)) as Hf0.
    rewrite Z.abs_eq by lia.
    destruct (sp_y (S f) - cy =? dy) eqn:E2; simpl.
    + apply Z.eqb_eq in E2.
      destruct (IH (f + 1)) as (fe & He & Hfe & Hrow & Hafter); try lia.
      { intros i Hi. apply Hge. lia. }
      exists fe. unfold it_incr; simpl. rewrite He. repeat split; try lia.
      * intros i Hi. destruct (Z.eq_dec i f) as [->|]; [lia|]. apply Hrow; lia.
      * auto.
    + apply Z.eqb_neq in E2. exists f. repeat split; try lia.
      intros i Hi. pose proof (S_sorted f i ltac:(lia) ltac:(lia) ltac:(lia)). lia.
Qed.

Lemma row_end_back dy : 0 <= dy ->
  forall k b, -1 <= b < n -> k = Z.to_nat (b + 1) ->
  (forall j, 0 <= j <= b -> dy <= cy - sp_y (S j)) ->
  exists be, row_end spans cy k (mkRSI b false) dy = Ok (mkRSI be false) /\
    -1 <= be <= b /\
    (forall j, be < j <= b -> cy - sp_y (S j) = dy) /\
    (forall j, 0 <= j <= be -> dy < cy - sp_y (S j)).
Proof.
  intros Hdy. induction k as [|k IH]; intros b Hb Hk Hge.
  - exists b. simpl. repeat split; try lia.
  - simpl. unfold notDone; simpl.
    destruct (0 <=? b) eqn:E; [apply Z.leb_le in E | apply Z.leb_gt in E; lia].
    unfold it_dy; simpl. rewrite span_at_S by lia. simpl.
    pose proof (Hge b ltac:(lia)) as Hb0.
    replace (Z.abs (sp_y (S b) - cy)) with (cy - sp_y (S b)) by lia.
    destruct (cy - sp_y (S b) =? dy) eqn:E2; simpl.
    + apply Z.eqb_eq in E2.
      destruct (IH (b - 1)) as (be & He & Hbe & Hrow & Hafter); try lia.
      { intros j Hj. apply Hge. lia. }
      exists be. unfold it_incr; simpl. rewrite He. repeat split; try lia.
      * intros j Hj. destruct (Z.eq_dec j b) as [->|]; [lia|]. apply Hrow; lia.
      * auto.
    + apply Z.eqb_neq in E2. exists b. repeat split; try lia.
      intros j Hj. pose proof (S_sorted j b ltac:(lia) ltac:(lia) ltac:(lia)). lia.
Qed.

Lemma advance_fwd lo :
  forall k f fe, 0 <= f <= fe -> fe <= n -> k = Z.to_nat (fe - f) ->
  exists f', advance_past spans cx k (mkRSI f true) (mkRSI fe true) lo
               = Ok (mkRSI f' true) /\
    f <= f' <= fe /\
    (forall i, f <= i < f' -> sp_x1 (S i) - cx < lo) /\
    (f' = fe \/ lo <= sp_x1 (S f') - cx).
Proof.
  induction k as [|k IH]; intros f fe Hf Hfe Hk.
  - exists f. simpl. repeat split; try lia.
  - simpl. unfold it_eqb; simpl.
    destruct (f =? fe) eqn:E; simpl; [apply Z.eqb_eq in E; lia|].
    apply Z.eqb_neq in E.
    unfold it_dxhi; simpl. rewrite span_at_S by lia. simpl.
    destruct (sp_x1 (S f) - cx <? lo) eqn:E2.
    + apply Z.ltb_lt in E2.
      destruct (IH (f + 1) fe) as (f' & He & Hf' & Hlt & Hstop); try lia.
      exists f'. unfold it_incr; simpl. rewrite He. repeat split; try lia; auto.
      intros i Hi. destruct (Z.eq_dec i f) as [->|]; [lia|]. apply Hlt; lia.
    + apply Z.ltb_ge in E2. exists f. repeat split; try lia.
Qed.

Lemma advance_back lo :
  forall k b be, -1 <= be <= b -> b < n -> k = Z.to_nat (b - be) ->
  exists b', advance_past spans cx k (mkRSI b false) (mkRSI be false) lo
               = Ok (mkRSI b' false) /\
    be <= b' <= b /\
    (forall j, b' < j <= b -> cx - sp_x0 (S j) < lo) /\
    (b' = be \/ lo <= cx - sp_x0 (S b')).
Proof.
  induction k as [|k IH]; intros b be Hb Hbn Hk.
  - exists b. simpl. repeat split; try lia.
  - simpl. unfold it_eqb; simpl.
    destruct (b =? be) eqn:E; simpl; [apply Z.eqb_eq in E; lia|].
    apply Z.eqb_neq in E.
    unfold it_dxhi; simpl. rewrite span_at_S by lia. simpl.
    destruct (cx - sp_x0 (S b) <? lo) eqn:E2.
    + apply Z.ltb_lt in E2.
      destruct (IH (b - 1) be) as (b' & He & Hb' & Hlt & Hstop); try lia.
      exists b'. unfold it_incr; simpl. rewrite He. repeat split; try lia; auto.
      intros j Hj. destruct (Z.eq_dec j b) as [->|]; [lia|]. apply Hlt; lia.
    + apply Z.ltb_ge in E2. exists b. repeat split; try lia.
Qed.

Variable pk : Z.
Hypothesis Hpk : 0 <= pk < n.
Hypothesis Hpeak : span_contains (S pk) cx cy = true.

Let Pair := sym_pair spans cx cy pk.
Let Sound := sym_sound spans cx cy.
Let Complete := sym_complete spans cx cy pk.
Let Inv := sym_inv spans cx cy pk.
Let mu := sym_measure spans cy.

Lemma spans_contain_app l1 l2 x y :
  spans_contain (l1 ++ l2) x y = spans_contain l1 x y || spans_contain l2 x y.
Proof. unfold spans_contain. apply existsb_app. Qed.

Lemma Complete_app f b tmp more :
  Complete f b tmp -> Complete f b (tmp ++ more).
Proof.
  intros H i j dx HP. destruct (H i j dx HP) as [?|[? ?]]; [left; auto|right].
  rewrite !spans_contain_app. split; apply orb_true_iff; left; auto.
Qed.

Lemma Complete_skip f1 b1 fe be dy tmp :
  Complete f1 b1 tmp ->
  (forall i, f1 <= i < fe -> sp_y (S i) - cy = dy) ->
  (forall i, fe <= i < n -> dy < sp_y (S i) - cy) ->
  (forall j, be < j <= b1 -> cy - sp_y (S j) = dy) ->
  (forall j, 0 <= j <= be -> dy < cy - sp_y (S j)) ->
  (b1 = be \/ f1 = fe) -> f1 <= fe -> be <= b1 ->
  Complete fe be tmp.
Proof.
  intros HC Hfr Hfa Hbr Hba Hor Hf Hb i j dx HP.
  destruct (HC i j dx HP) as [[Hi Hj]|?]; [|right; auto].
  left. destruct HP as (Hi1 & Hj1 & Hy & _).
  fold n in Hi1. fold S in Hy.
  destruct (Z.lt_ge_cases i fe) as [Hlt|Hge].
  - pose proof (Hfr i ltac:(lia)) as Hyi.
    destruct (Z.lt_ge_cases be j) as [Hlt2|Hge2]; [lia|].
    pose proof (Hba j ltac:(lia)). lia.
  - pose proof (Hfa i ltac:(lia)) as Hyi.
    destruct (Z.lt_ge_cases be j) as [Hlt2|Hge2]; [|lia].
    pose proof (Hbr j ltac:(lia)). lia.
Qed.

(** Forward spans lying wholly to the left of the current backward span
    have no partner left. *)
Lemma Complete_adv_fwd f f1 b dy tmp :
  Complete f b tmp -> pk <= f -> f <= f1 -> 0 <= b <= pk ->
  (forall i, f <= i < f1 -> sp_y (S i) - cy = dy) ->
  (forall j, 0 <= j <= b -> dy <= cy - sp_y (S j)) ->
  (forall i, f <= i < f1 -> sp_x1 (S i) - cx < cx - sp_x1 (S b)) ->
  Complete f1 b tmp.
Proof.
  intros HC Hf Hf1 Hb Hrow Hbge Hlt i j dx HP.
  destruct (HC i j dx HP) as [[Hi Hj]|?]; [|right; auto].
  left. split; [|auto].
  destruct (Z.lt_ge_cases i f1) as [Hl|]; [|lia]. exfalso.
  destruct HP as (Hi1 & Hj1 & Hy & Hdx1 & Hdx2). fold n in Hi1. fold S in Hy, Hdx1, Hdx2.
  pose proof (Hlt i ltac:(lia)). pose proof (Hrow i ltac:(lia)).
  destruct (Z.eq_dec j b) as [->|Hne]; [lia|].
  pose proof (Hbge b ltac:(lia)).
  pose proof (S_sorted j b ltac:(lia) ltac:(lia) ltac:(lia)).
  assert (sp_y (S j) = sp_y (S b)) by lia.
  pose proof (S_row j b ltac:(lia) ltac:(lia) ltac:(lia) ltac:(lia)).
  pose proof (S_ok b ltac:(lia)). lia.
Qed.

Lemma Complete_adv_back f b b1 dy tmp :
  Complete f b tmp -> b <= pk -> b1 <= b -> pk <= f < n ->
  (forall j, b1 < j <= b -> cy - sp_y (S j) = dy) ->
  (forall i, f <= i < n -> dy <= sp_y (S i) - cy) ->
  (forall j, b1 < j <= b -> cx - sp_x0 (S j) < sp_x0 (S f) - cx) ->
  Complete f b1 tmp.
Proof.
  intros HC Hb Hb1 Hf Hrow Hfge Hlt i j dx HP.
  destruct (HC i j dx HP) as [[Hi Hj]|?]; [|right; auto].
  left. split; [auto|].
  destruct (Z.lt_ge_cases b1 j) as [Hl|]; [|lia]. exfalso.
  destruct HP as (Hi1 & Hj1 & Hy & Hdx1 & Hdx2). fold n in Hi1. fold S in Hy, Hdx1, Hdx2.
  pose proof (Hlt j ltac:(lia)). pose proof (Hrow j ltac:(lia)).
  destruct (Z.eq_dec i f) as [->|Hne]; [lia|].
  pose proof (Hfge f ltac:(lia)).
  pose proof (S_sorted f i ltac:(lia) ltac:(lia) ltac:(lia)).
  assert (sp_y (S f) = sp_y (S i)) by lia.
  pose proof (S_row f i ltac:(lia) ltac:(lia) ltac:(lia) ltac:(lia)).
  pose proof (S_ok f ltac:(lia)). lia.
Qed.

Lemma Fpix_S i x y :
  0 <= i < n -> sp_x0 (S i) <= x <= sp_x1 (S i) -> y = sp_y (S i) ->
  spans_contain spans x y = true.
Proof.
  intros Hi Hx Hy. apply spans_contain_iff. exists i. split; [exact Hi|].
  apply span_contains_iff. auto.
Qed.

Let emit := sym_emit cx cy.

Lemma emit_sound f1 b1 dy tmp :
  Sound tmp -> 0 <= f1 < n -> 0 <= b1 < n ->
  sp_y (S f1) - cy = dy -> cy - sp_y (S b1) = dy ->
  Sound (emit dy (Z.max (sp_x0 (S f1) - cx) (cx - sp_x1 (S b1)))
                 (Z.min (sp_x1 (S f1) - cx) (cx - sp_x0 (S b1))) tmp).
Proof.
  intros HS Hf Hb Hyf Hyb. unfold emit, sym_emit.
  destruct (_ <=? _) eqn:E; [|exact HS].
  apply Z.leb_le in E.
  intros s Hin x Hx. apply in_app_or in Hin. destruct Hin as [Hin|Hin].
  - apply HS; auto.
  - simpl in Hin. destruct Hin as [<-|[<-|[]]]; cbn [sp_y sp_x0 sp_x1] in *.
    + split; [apply (Fpix_S f1)|apply (Fpix_S b1)]; auto; lia.
    + split; [apply (Fpix_S b1)|apply (Fpix_S f1)]; auto; lia.
Qed.

Lemma emit_complete f b dy lo hi tmp :
  Complete f b tmp -> Complete f b (emit dy lo hi tmp).
Proof.
  intros. unfold emit, sym_emit. destruct (_ <=? _); auto. apply Complete_app; auto.
Qed.

Lemma emit_covers dy lo hi tmp dx :
  lo <= dx <= hi ->
  spans_contain (emit dy lo hi tmp) (cx + dx) (cy + dy) = true /\
  spans_contain (emit dy lo hi tmp) (cx - dx) (cy - dy) = true.
Proof.
  intros Hdx. unfold emit, sym_emit.
  replace (lo <=? hi) with true by (symmetry; apply Z.leb_le; lia).
  rewrite !spans_contain_app. unfold spans_contain at 2 4. simpl.
  unfold span_contains; simpl.
  split; apply orb_true_iff; right.
  - replace (cx + lo <=? cx + dx) with true by (symmetry; apply Z.leb_le; lia).
    replace (cx + dx <=? cx + hi) with true by (symmetry; apply Z.leb_le; lia).
    rewrite Z.eqb_refl. reflexivity.
  - replace (cx - hi <=? cx - dx) with true by (symmetry; apply Z.leb_le; lia).
    replace (cx - dx <=? cx - lo) with true by (symmetry; apply Z.leb_le; lia).
    rewrite Z.eqb_refl. rewrite !orb_true_r. reflexivity.
Qed.

Lemma Complete_step_fwd f1 b1 dy tmp :
  Complete f1 b1 tmp -> pk <= f1 < n -> 0 <= b1 <= pk ->
  sp_y (S f1) - cy = dy -> cy - sp_y (S b1) = dy ->
  (forall dx, Z.max (sp_x0 (S f1) - cx) (cx - sp_x1 (S b1)) <= dx
              <= Z.min (sp_x1 (S f1) - cx) (cx - sp_x0 (S b1)) ->
     spans_contain tmp (cx + dx) (cy + dy) = true /\
     spans_contain tmp (cx - dx) (cy - dy) = true) ->
  sp_x1 (S f1) - cx < cx - sp_x0 (S b1) ->
  Complete (f1 + 1) b1 tmp.
Proof.
  intros HC Hf Hb Hyf Hyb Hcov Hlt i j dx HP.
  destruct (HC i j dx HP) as [[Hi Hj]|?]; [|right; auto].
  destruct (Z.eq_dec i f1) as [->|Hne]; [|left; lia].
  destruct HP as (Hi1 & Hj1 & Hy & Hdx1 & Hdx2). fold n in Hi1. fold S in Hy, Hdx1, Hdx2.
  destruct (Z.eq_dec j b1) as [->|Hnj].
  - right. fold S. replace (sp_y (S f1)) with (cy + dy) by lia.
    replace (sp_y (S b1)) with (cy - dy) by lia. apply Hcov. lia.
  - exfalso.
    pose proof (S_row j b1 ltac:(lia) ltac:(lia) ltac:(lia) ltac:(lia)). lia.
Qed.

Lemma Complete_step_back f1 b1 dy tmp :
  Complete f1 b1 tmp -> pk <= f1 < n -> 0 <= b1 <= pk ->
  sp_y (S f1) - cy = dy -> cy - sp_y (S b1) = dy ->
  (forall dx, Z.max (sp_x0 (S f1) - cx) (cx - sp_x1 (S b1)) <= dx
              <= Z.min (sp_x1 (S f1) - cx) (cx - sp_x0 (S b1)) ->
     spans_contain tmp (cx + dx) (cy + dy) = true /\
     spans_contain tmp (cx - dx) (cy - dy) = true) ->
  cx - sp_x0 (S b1) <= sp_x1 (S f1) - cx ->
  Complete f1 (b1 - 1) tmp.
Proof.
  intros HC Hf Hb Hyf Hyb Hcov Hlt i j dx HP.
  destruct (HC i j dx HP) as [[Hi Hj]|?]; [|right; auto].
  destruct (Z.eq_dec j b1) as [->|Hne]; [|left; lia].
  destruct HP as (Hi1 & Hj1 & Hy & Hdx1 & Hdx2). fold n in Hi1. fold S in Hy, Hdx1, Hdx2.
  destruct (Z.eq_dec i f1) as [->|Hni].
  - right. fold S. replace (sp_y (S f1)) with (cy + dy) by lia.
    replace (sp_y (S b1)) with (cy - dy) by lia. apply Hcov. lia.
  - exfalso.
    pose proof (S_row f1 i ltac:(lia) ltac:(lia) ltac:(lia) ltac:(lia)). lia.
Qed.

Lemma it_eqb_fwd a b : it_eqb (mkRSI a true) (mkRSI b true) = (a =? b).
Proof. unfold it_eqb; simpl. apply andb_true_r. Qed.

Lemma it_eqb_back a b : it_eqb (mkRSI a false) (mkRSI b false) = (a =? b).
Proof. unfold it_eqb; simpl. apply andb_true_r. Qed.

Lemma Y_bound f dy :
  0 <= f < n -> (forall i, f <= i < n -> dy <= sp_y (S i) - cy) ->
  1 <= sp_y (S (n - 1)) - cy + 1 - dy.
Proof.
  intros Hf H. pose proof (H (n - 1) ltac:(lia)). lia.
Qed.

Lemma sym_loop_ok :
  forall fuel f b dy tmp,
    Inv f b dy tmp -> mu f b dy < Z.of_nat fuel ->
    exists out,
      sym_loop spans cx cy fuel (mkRSI f true) (mkRSI b false) dy tmp = Ok out /\
      Sound out /\ Complete n (-1) out.
Proof.
  induction fuel as [|fuel IH]; intros f b dy tmp HI Hmu.
  { exfalso. destruct HI as (Hf & Hb & Hdy & _).
    unfold mu, sym_measure in Hmu. fold n in Hmu, Hf. simpl in Hmu. lia. }
  destruct HI as (Hf & Hb & Hdy & Hfge & Hbge & HS & HC).
  fold n in Hf, Hfge. fold S in Hfge, Hbge. fold Sound in HS. fold Complete in HC.
  cbn [sym_loop]. unfold notDone at 1 2. cbn [it_forward it_real]. fold n.
  destruct ((f <? n) && (0 <=? b)) eqn:Econt.
  2:{ exists tmp. split; [reflexivity|]. split; [exact HS|].
      apply andb_false_iff in Econt.
      intros i j dx HP. destruct (HC i j dx HP) as [[Hi Hj]|?]; [|right; auto].
      exfalso. destruct HP as (Hi1 & Hj1 & _). fold n in Hi1.
      destruct Econt as [E|E]; [apply Z.ltb_ge in E|apply Z.leb_gt in E]; lia. }
  apply andb_true_iff in Econt. destruct Econt as [Ef Eb].
  apply Z.ltb_lt in Ef. apply Z.leb_le in Eb.
  unfold it_dxlo at 1 2. cbn [it_forward it_real].
  rewrite !span_at_S by lia. cbn [bind].
  unfold it_left. cbn [it_forward it_real]. fold n.
  destruct (row_end_fwd dy Hdy (Z.to_nat (n - f)) f ltac:(lia) eq_refl Hfge)
    as (fe & Efe & Hfe & Hfrow & Hfafter).
  destruct (row_end_back dy Hdy (Z.to_nat (b + 1)) b ltac:(lia) eq_refl Hbge)
    as (be & Ebe & Hbe & Hbrow & Hbafter).
  rewrite Efe, Ebe. cbn [bind].
  pose proof (Y_bound f dy ltac:(lia) Hfge) as HY.
  (* the search for a possibly overlapping pair *)
  match goal with
  | |- context [bind ?m _] =>
      assert (Hpre : exists f1 b1, m = Ok (mkRSI f1 true, mkRSI b1 false) /\
                 f <= f1 <= fe /\ be <= b1 <= b /\ Complete f1 b1 tmp);
      [|destruct Hpre as (f1 & b1 & -> & Hf1 & Hb1 & HC1)]
  end.
  { destruct (sp_x0 (S f) - cx <? cx - sp_x1 (S b)) eqn:E1.
    - apply Z.ltb_lt in E1.
      unfold it_dist. cbn [it_real].
      replace (Z.abs (fe - f)) with (fe - f) by lia.
      destruct (advance_fwd (cx - sp_x1 (S b)) (Z.to_nat (fe - f)) f fe
                  ltac:(lia) ltac:(lia) eq_refl) as (f1 & E & Hf1 & Hlt & _).
      rewrite E. cbn [bind]. exists f1, b. split; [reflexivity|].
      split; [lia|]. split; [lia|].
      apply (Complete_adv_fwd f f1 b dy); auto; try lia.
      intros i Hi. apply Hfrow. lia.
    - destruct (cx - sp_x1 (S b) <? sp_x0 (S f) - cx) eqn:E2.
      + apply Z.ltb_lt in E2.
        unfold it_dist. cbn [it_real].
        replace (Z.abs (be - b)) with (b - be) by lia.
        destruct (advance_back (sp_x0 (S f) - cx) (Z.to_nat (b - be)) b be
                    ltac:(lia) ltac:(lia) eq_refl) as (b1 & E & Hb1 & Hlt & _).
        rewrite E. cbn [bind]. exists f, b1. split; [reflexivity|].
        split; [lia|]. split; [lia|].
        apply (Complete_adv_back f b b1 dy); auto; try lia.
        intros j Hj. apply Hbrow. lia.
      + exists f, b. split; [reflexivity|]. split; [lia|]. split; [lia|]. exact HC. }
  cbn [bind fst snd]. rewrite it_eqb_fwd, it_eqb_back.
  assert (Hskip : forall f2 b2 tmp2, Sound tmp2 -> Complete f2 b2 tmp2 ->
            f <= f2 <= fe -> be <= b2 <= b -> (b2 = be \/ f2 = fe) ->
            exists out,
              sym_loop spans cx cy fuel (mkRSI fe true) (mkRSI be false) (dy + 1) tmp2
                = Ok out /\ Sound out /\ Complete n (-1) out).
  { intros f2 b2 tmp2 HS2 HC2 Hf2 Hb2 Hor. apply IH.
    - unfold Inv, sym_inv. fold n S Sound Complete.
      split; [lia|]. split; [lia|]. split; [lia|].
      split; [intros i Hi; pose proof (Hfafter i Hi); lia|].
      split; [intros j Hj; pose proof (Hbafter j Hj); lia|].
      split; [exact HS2|].
      apply (Complete_skip f2 b2 fe be dy); auto; try lia.
      + intros i Hi. apply Hfrow. lia.
      + intros j Hj. apply Hbrow. lia.
    - unfold mu, sym_measure in *. fold n S in Hmu |- *. lia. }
  destruct ((b1 =? be) || (f1 =? fe)) eqn:Esk.
  { apply orb_true_iff in Esk. rewrite !Z.eqb_eq in Esk.
    apply (Hskip f1 b1); auto. }
  apply orb_false_iff in Esk. rewrite !Z.eqb_neq in Esk. destruct Esk as [Nb Nf].
  unfold it_dxlo, it_dxhi. cbn [it_forward it_real].
  rewrite !span_at_S by lia. cbn [bind].
  pose proof (Hfrow f1 ltac:(lia)) as Hyf.
  pose proof (Hbrow b1 ltac:(lia)) as Hyb.
  match goal with
  | |- context [if ?lo <=? ?hi then tmp ++ ?l else tmp] =>
      change (if lo <=? hi then tmp ++ l else tmp) with (emit dy lo hi tmp);
      set (tmp' := emit dy lo hi tmp)
  end.
  assert (HS' : Sound tmp') by (apply emit_sound; auto; lia).
  assert (HC' : Complete f1 b1 tmp') by (apply emit_complete; auto).
  assert (Hcov : forall dx,
             Z.max (sp_x0 (S f1) - cx) (cx - sp_x1 (S b1)) <= dx
             <= Z.min (sp_x1 (S f1) - cx) (cx - sp_x0 (S b1)) ->
             spans_contain tmp' (cx + dx) (cy + dy) = true /\
             spans_contain tmp' (cx - dx) (cy - dy) = true)
    by (intros dx Hdx; apply emit_covers; auto).
  assert (Hadv : exists f2 b2,
             (if sp_x1 (S f1) - cx <? cx - sp_x0 (S b1)
              then (it_incr (mkRSI f1 true), mkRSI b1 false)
              else (mkRSI f1 true, it_incr (mkRSI b1 false)))
             = (mkRSI f2 true, mkRSI b2 false) /\
             f1 <= f2 <= fe /\ be <= b2 <= b1 /\ (f1 < f2 \/ b2 < b1) /\
             Complete f2 b2 tmp').
  { destruct (_ <? _) eqn:E.
    - apply Z.ltb_lt in E. exists (f1 + 1), b1. split; [reflexivity|].
      split; [lia|]. split; [lia|]. split; [lia|].
      apply (Complete_step_fwd f1 b1 dy); auto; lia.
    - apply Z.ltb_ge in E. exists f1, (b1 - 1). split; [reflexivity|].
      split; [lia|]. split; [lia|]. split; [lia|].
      apply (Complete_step_back f1 b1 dy); auto; lia. }
  destruct Hadv as (f2 & b2 & -> & Hf2 & Hb2 & Hprog & HC2).
  cbn [fst snd]. rewrite it_eqb_fwd, it_eqb_back.
  destruct ((b2 =? be) || (f2 =? fe)) eqn:Esk2.
  { apply orb_true_iff in Esk2. rewrite !Z.eqb_eq in Esk2.
    apply (Hskip f2 b2); auto; lia. }
  apply orb_false_iff in Esk2. rewrite !Z.eqb_neq in Esk2.
  apply IH.
  - unfold Inv, sym_inv. fold n S Sound Complete.
    split; [lia|]. split; [lia|]. split; [lia|].
    split; [intros i Hi; apply Hfge; lia|].
    split; [intros j Hj; apply Hbge; lia|].
    split; auto.
  - unfold mu, sym_measure in *. fold n S in Hmu |- *. lia.
Qed.

(** The lookup finds the span that contains the peak. *)
Lemma find_peakspan_inside :
  find_peakspan spans cx cy = Ok (Some pk).
Proof.
  destruct (upper_bound_spec spans (mkSpan cy cx cx)) as (Hu & Hlo & Hhi).
  fold n S in Hu, Hlo, Hhi.
  apply span_contains_iff in Hpeak. destruct Hpeak as (Hx & Hy).
  set (u := upper_bound spans (mkSpan cy cx cx)) in *.
  assert (Hbelow : forall i, 0 <= i < pk ->
             span_compare (mkSpan cy cx cx) (S i) = false).
  { intros i Hi. pose proof (S_before i pk ltac:(lia) ltac:(lia) ltac:(lia)) as Hb.
    pose proof (S_ok i ltac:(lia)) as Hoki.
    unfold before in Hb. unfold span_compare. cbn [sp_y sp_x0 sp_x1].
    destruct (cy <? sp_y (S i)) eqn:E1; [apply Z.ltb_lt in E1; lia|].
    destruct (sp_y (S i) <? cy) eqn:E2; [reflexivity|]. apply Z.ltb_ge in E2.
    destruct (cx <? sp_x0 (S i)) eqn:E3; [apply Z.ltb_lt in E3; lia|].
    destruct (sp_x0 (S i) <? cx) eqn:E4; [reflexivity|]. apply Z.ltb_ge in E4. lia. }
  assert (Habove : forall i, pk < i < n ->
             span_compare (mkSpan cy cx cx) (S i) = true).
  { intros i Hi. pose proof (S_before pk i ltac:(lia) ltac:(lia) ltac:(lia)) as Hb.
    unfold before in Hb. unfold span_compare. cbn [sp_y sp_x0 sp_x1].
    destruct (cy <? sp_y (S i)) eqn:E1; [reflexivity|]. apply Z.ltb_ge in E1.
    destruct (sp_y (S i) <? cy) eqn:E2; [apply Z.ltb_lt in E2; lia|].
    destruct (cx <? sp_x0 (S i)) eqn:E3; [reflexivity|]. apply Z.ltb_ge in E3. lia. }
  assert (Hu2 : u = pk \/ u = pk + 1).
  { destruct (Z.lt_trichotomy u pk) as [H|[H|H]]; [|lia|].
    - pose proof (Hhi ltac:(lia)) as H1. rewrite Hbelow in H1 by lia. discriminate.
    - destruct (Z.eq_dec u (pk + 1)); [lia|].
      pose proof (Hlo (pk + 1) ltac:(lia)) as H1.
      rewrite Habove in H1 by lia. discriminate. }
  assert (Hc : span_contains (S pk) cx cy = true)
    by (apply span_contains_iff; auto).
  unfold find_peakspan. fold u.
  destruct (u =? 0) eqn:E0.
  - apply Z.eqb_eq in E0. assert (pk = 0) by lia. subst pk.
    rewrite E0. rewrite span_at_S by lia. cbn [bind]. rewrite Hc. reflexivity.
  - apply Z.eqb_neq in E0. destruct Hu2 as [Hu2|Hu2].
    + rewrite span_at_S by lia. cbn [bind].
      destruct (span_contains (S (u - 1)) cx cy) eqn:Ec.
      * exfalso. apply span_contains_iff in Ec.
        pose proof (S_row (pk - 1) pk ltac:(lia) ltac:(lia) ltac:(lia)) as Hr.
        rewrite Hu2 in Ec. lia.
      * cbn [negb]. replace (u - 1 + 1) with pk by lia.
        rewrite span_at_S by lia. cbn [bind]. rewrite Hc. reflexivity.
    + replace (u - 1) with pk by lia.
      rewrite span_at_S by lia. cbn [bind]. rewrite Hc. reflexivity.
Qed.

Lemma sym_inv_init : Inv pk pk 0 [].
Proof.
  apply span_contains_iff in Hpeak. destruct Hpeak as (Hx & Hy).
  unfold Inv, sym_inv. fold n S.
  split; [lia|]. split; [lia|]. split; [lia|].
  split; [intros i Hi; pose proof (S_sorted pk i ltac:(lia) ltac:(lia) ltac:(lia)); lia|].
  split; [intros j Hj; pose proof (S_sorted j pk ltac:(lia) ltac:(lia) ltac:(lia)); lia|].
  split; [intros s []|].
  intros i j dx (Hi & Hj & _). left. lia.
Qed.

Lemma sym_fuel_enough : mu pk pk 0 < Z.of_nat (sym_fuel spans).
Proof.
  apply span_contains_iff in Hpeak. destruct Hpeak as (Hx & Hy).
  unfold mu, sym_measure, sym_fuel. fold n S.
  assert (Hlast : last spans (mkSpan 0 0 0) = S (n - 1)).
  { unfold S, n. apply last_spanZ. intros E. unfold n in Hpk. rewrite E in Hpk. simpl in Hpk. lia. }
  assert (Hhd : hd (mkSpan 0 0 0) spans = S 0).
  { unfold S, spanZ. simpl. destruct spans; reflexivity. }
  rewrite Hlast, Hhd.
  pose proof (S_sorted 0 pk ltac:(lia) ltac:(lia) ltac:(lia)).
  pose proof (S_sorted pk (n - 1) ltac:(lia) ltac:(lia) ltac:(lia)).
  lia.
Qed.

Lemma sym_final out x y :
  Sound out -> Complete n (-1) out ->
  (spans_contain out x y = true <->
   spans_contain spans x y = true /\
   spans_contain spans (2 * cx - x) (2 * cy - y) = true).
Proof.
  intros HS HC.
  pose proof Hpeak as Hp. apply span_contains_iff in Hp. destruct Hp as (Hpx & Hpy).
  split.
  - intros Hc. unfold spans_contain in Hc. apply existsb_exists in Hc.
    destruct Hc as (s & Hin & Hs). apply span_contains_iff in Hs.
    destruct Hs as (Hx & ->). apply HS; auto.
  - intros (H1 & H2).
    apply spans_contain_iff in H1. destruct H1 as (a & Ha & Hca).
    apply spans_contain_iff in H2. destruct H2 as (c & Hc & Hcc).
    fold n in Ha, Hc. fold S in Hca, Hcc.
    apply span_contains_iff in Hca. destruct Hca as (Hxa & Hya).
    apply span_contains_iff in Hcc. destruct Hcc as (Hxc & Hyc).
    assert (Hfwd : pk <= a -> c <= pk ->
              spans_contain out x y = true).
    { intros Hpa Hpc.
      destruct (HC a c (x - cx)) as [[? ?]|[Hcov _]]; [|lia|].
      - unfold sym_pair. fold n S. repeat split; lia.
      - fold S in Hcov. rewrite <- Hya in Hcov.
        replace (cx + (x - cx)) with x in Hcov by lia. exact Hcov. }
    assert (Hbwd : a <= pk -> pk <= c ->
              spans_contain out x y = true).
    { intros Hpa Hpc.
      destruct (HC c a (cx - x)) as [[? ?]|[_ Hcov]]; [|lia|].
      - unfold sym_pair. fold n S. repeat split; lia.
      - fold S in Hcov. rewrite <- Hya in Hcov.
        replace (cx - (cx - x)) with x in Hcov by lia. exact Hcov. }
    destruct (Z.lt_trichotomy a pk) as [Ga|[Ga|Ga]];
      destruct (Z.lt_trichotomy c pk) as [Gc|[Gc|Gc]];
      try (apply Hfwd; lia); try (apply Hbwd; lia); exfalso.
    + pose proof (S_before a pk ltac:(lia) ltac:(lia) ltac:(lia)) as B1.
      pose proof (S_before c pk ltac:(lia) ltac:(lia) ltac:(lia)) as B2.
      unfold before in *. lia.
    + pose proof (S_before pk a ltac:(lia) ltac:(lia) ltac:(lia)) as B1.
      pose proof (S_before pk c ltac:(lia) ltac:(lia) ltac:(lia)) as B2.
      unfold before in *. lia.
Qed.
End SymProof.

Lemma foot_contains_peakspan F cx cy :
  foot_contains F cx cy = true ->
  exists pk, 0 <= pk < Z.of_nat (length (fp_spans F)) /\
             span_contains (spanZ (fp_spans F) pk) cx cy = true.
Proof. intros H. apply spans_contain_iff in H. exact H. Qed.

(** Inside the footprint the symmetrizer succeeds, and the footprint it
    returns has exactly the pixels whose mirror image is in [F] too. *)
Lemma symmetrize_inside (F : Footprint) (cx cy : Z) :
  spanset_ok (fp_spans F) = true ->
  foot_contains F cx cy = true ->
  exists G, symmetrizeFootprint F cx cy = Ok (Some G) /\
    forall x y, foot_contains G x y = true <->
       (foot_contains F x y = true /\
        foot_contains F (2 * cx - x) (2 * cy - y) = true).
Proof.
  intros Hok Hin.
  destruct (foot_contains_peakspan F cx cy Hin) as (pk & Hpk & Hc).
  pose proof (sym_inv_init (fp_spans F) cx cy Hok pk Hpk Hc) as HI.
  destruct (sym_loop_ok (fp_spans F) cx cy Hok pk Hpk _ _ _ _ _ HI
              (sym_fuel_enough (fp_spans F) cx cy Hok pk Hpk Hc))
    as (out & Eout & HS & HC).
  exists (mkFootprint (make_SpanSet out) []). split.
  - unfold symmetrizeFootprint.
    rewrite (find_peakspan_inside (fp_spans F) cx cy Hok pk Hpk Hc).
    cbn [bind]. rewrite Eout. reflexivity.
  - intros x y. unfold foot_contains; cbn [fp_spans].
    rewrite make_SpanSet_pixels.
    apply (sym_final (fp_spans F) cx cy Hok pk Hpk Hc); auto.
Qed.

(** C1: for a footprint [F] (a valid span set) and a peak inside one of its
    spans, [symmetrizeFootprint] returns a footprint [G] whose pixels are
    exactly the pixels (x, y) of [F] whose mirror image (2cx - x, 2cy - y)
    is in [F] as well; hence [G] is a subset of [F] and is invariant under
    the point reflection about the peak. *)
Theorem symmetrizeFootprint_exact (F : Footprint) (cx cy : Z) :
  spanset_ok (fp_spans F) = true ->
  foot_contains F cx cy = true ->
  exists G, symmetrizeFootprint F cx cy = Ok (Some G) /\
    (forall x y, foot_contains G x y = true <->
       (foot_contains F x y = true /\
        foot_contains F (2 * cx - x) (2 * cy - y) = true)) /\
    (forall x y, foot_contains G x y = true -> foot_contains F x y = true) /\
    (forall x y, foot_contains G x y = true ->
                 foot_contains G (2 * cx - x) (2 * cy - y) = true).
Proof.
  intros Hok Hin.
  destruct (symmetrize_inside F cx cy Hok Hin) as (G & HG & Hexact).
  exists G. split; [exact HG|]. split; [exact Hexact|]. split.
  - intros x y H. apply Hexact in H. tauto.
  - intros x y H. apply Hexact in H. apply Hexact.
    replace (2 * cx - (2 * cx - x)) with x by lia.
    replace (2 * cy - (2 * cy - y)) with y by lia. tauto.
Qed.

(** The 3x3 square of the first scenario, symmetrized about its centre. *)
Lemma symmetrizeFootprint_exact_witness :
  exists G,
    symmetrizeFootprint
      (mkFootprint [mkSpan 0 0 2; mkSpan 1 0 2; mkSpan 2 0 2] []) 1 1
    = Ok (Some G) /\
    (forall x y, foot_contains G x y = true <->
       (foot_contains
          (mkFootprint [mkSpan 0 0 2; mkSpan 1 0 2; mkSpan 2 0 2] []) x y
        = true /\
        foot_contains
          (mkFootprint [mkSpan 0 0 2; mkSpan 1 0 2; mkSpan 2 0 2] [])
          (2 * 1 - x) (2 * 1 - y) = true)) /\
    (forall x y, foot_contains G x y = true ->
       foot_contains
         (mkFootprint [mkSpan 0 0 2; mkSpan 1 0 2; mkSpan 2 0 2] []) x y
       = true) /\
    (forall x y, foot_contains G x y = true ->
                 foot_contains G (2 * 1 - x) (2 * 1 - y) = true).
Proof.
  apply (symmetrizeFootprint_exact
           (mkFootprint [mkSpan 0 0 2; mkSpan 1 0 2; mkSpan 2 0 2] []) 1 1);
    reflexivity.
Defined.

(** * Null results of the symmetrizer and of the template builder *)

Lemma foot_contains_false_spanZ F cx cy i :
  foot_contains F cx cy = false ->
  0 <= i < Z.of_nat (length (fp_spans F)) ->
  span_contains (spanZ (fp_spans F) i) cx cy = false.
Proof.
  intros Hout Hi.
  destruct (span_contains (spanZ (fp_spans F) i) cx cy) eqn:E; [|reflexivity].
  assert (foot_contains F cx cy = true)
    by (apply spans_contain_iff; exists i; auto).
  congruence.
Qed.

(** Outside the footprint the lookup reports failure, provided it does not
    run off the end of the span array. *)
Lemma find_peakspan_outside F cx cy :
  foot_contains F cx cy = false ->
  upper_bound (fp_spans F) (mkSpan cy cx cx) < Z.of_nat (length (fp_spans F)) ->
  find_peakspan (fp_spans F) cx cy = Ok None.
Proof.
  intros Hout Hu.
  destruct (upper_bound_spec (fp_spans F) (mkSpan cy cx cx)) as (Hr & _ & _).
  unfold find_peakspan.
  set (u := upper_bound (fp_spans F) (mkSpan cy cx cx)) in *.
  destruct (u =? 0) eqn:E0.
  - rewrite span_at_ok by lia. cbn [bind].
    rewrite foot_contains_false_spanZ by (auto; lia). reflexivity.
  - apply Z.eqb_neq in E0.
    rewrite span_at_ok by lia. cbn [bind].
    rewrite foot_contains_false_spanZ by (auto; lia). cbn [negb].
    rewrite span_at_ok by lia. cbn [bind].
    rewrite foot_contains_false_spanZ by (auto; lia). reflexivity.
Qed.

(** The lookup runs off the end of the span array when no span is ordered
    after the peak pixel. *)
Lemma find_peakspan_past_end F cx cy :
  foot_contains F cx cy = false ->
  upper_bound (fp_spans F) (mkSpan cy cx cx) = Z.of_nat (length (fp_spans F)) ->
  find_peakspan (fp_spans F) cx cy = Undef.
Proof.
  intros Hout Hu. unfold find_peakspan. rewrite Hu.
  destruct (Z.of_nat (length (fp_spans F)) =? 0) eqn:E0.
  - apply Z.eqb_eq in E0. rewrite span_at_out by lia. reflexivity.
  - apply Z.eqb_neq in E0.
    rewrite span_at_ok by lia. cbn [bind].
    rewrite foot_contains_false_spanZ by (auto; lia). cbn [negb].
    rewrite span_at_out by lia. reflexivity.
Qed.

Lemma symmetrize_null_find F cx cy :
  symmetrizeFootprint F cx cy = Ok None <->
  find_peakspan (fp_spans F) cx cy = Ok None.
Proof.
  unfold symmetrizeFootprint.
  destruct (find_peakspan (fp_spans F) cx cy) as [[pk|]| | |]; cbn [bind];
    try (split; [discriminate|discriminate]); [|tauto].
  destruct (sym_loop _ _ _ _ _ _ _ _); cbn [bind]; split; discriminate.
Qed.

Section NullTemplate.
Context {A : PixelArith}.

(** Where the lookup of the peak span stays inside the span array the
    symmetrizer does what its warnings announce: it returns a footprint
    when the peak lies in a span of [F], and the null pointer exactly when
    the peak lies outside all spans; [buildSymmetricTemplate], once the
    image box is found to contain the box of [F], turns the null footprint
    into the pair of null pointers, [patchedEdges] cleared, without
    raising. *)
Lemma symmetrize_null_in_range (F : Footprint) (cx cy : Z) :
  spanset_ok (fp_spans F) = true ->
  (foot_contains F cx cy = true ->
     exists G, symmetrizeFootprint F cx cy = Ok (Some G)) /\
  (symmetrizeFootprint F cx cy = Ok None -> foot_contains F cx cy = false) /\
  (foot_contains F cx cy = false ->
     upper_bound (fp_spans F) (mkSpan cy cx cx)
       < Z.of_nat (length (fp_spans F)) ->
     symmetrizeFootprint F cx cy = Ok None) /\
  (forall (img : MaskedImage) (sigma1 : dbl) (minZero patchEdge : bool)
          (edgebit : Z),
     box_contains (mi_bbox img) (getBBox F) = true ->
     symmetrizeFootprint F cx cy = Ok None ->
     buildSymmetricTemplate img F cx cy sigma1 minZero patchEdge edgebit
     = Ok (None, None, false)).
Proof.
  intros Hok. repeat split.
  - intros Hin.
    destruct (symmetrize_inside F cx cy Hok Hin) as (G & HG & _).
    exists G. exact HG.
  - intros Hnull.
    destruct (foot_contains F cx cy) eqn:Hin; [|reflexivity].
    destruct (symmetrize_inside F cx cy Hok Hin) as (G & HG & _).
    congruence.
  - intros Hout Hu. apply symmetrize_null_find.
    apply find_peakspan_outside; auto.
  - intros img sigma1 minZero patchEdge edgebit Hb Hnull.
    unfold buildSymmetricTemplate. rewrite Hb, Hnull. reflexivity.
Qed.
End NullTemplate.

(** A peak outside the footprint with a span ordered after it: the peak
    (4, 0) is right of the first row of [c9_foot], the second row comes
    after it, and both routines return null. *)
Lemma symmetrize_null_run :
  foot_contains c9_foot 4 0 = false /\
  symmetrizeFootprint c9_foot 4 0 = Ok None /\
  box_contains (mi_bbox c9_image) (getBBox c9_foot) = true /\
  buildSymmetricTemplate c9_image c9_foot 4 0 (Qc_of_Z 0) true true 16
  = Ok (None, None, false).
Proof.
  split; [vm_compute; reflexivity|].
  split; [vm_compute; reflexivity|].
  split; [vm_compute; reflexivity|].
  vm_compute. reflexivity.
Qed.

(** C9 (the code departs from the claim): the peak (9, 9) lies outside all
    spans of [c9_foot], where a null result is due, and no span is ordered
    after it, so [std::upper_bound] returns
    [spans.end()]; the code steps back, finds that the last span does not
    contain the peak, steps forward again and reads [*peakspan] at
    [end()], one element past the span array, before it can return the
    null pointer.  The same read happens at once for the empty footprint,
    where [begin() == end()].  [buildSymmetricTemplate], whose image
    contains the footprint, runs into the same read instead of returning
    the pair of null pointers. *)
Theorem symmetrize_reads_past_end :
  foot_contains c9_foot 9 9 = false /\
  symmetrizeFootprint c9_foot 9 9 = Undef /\
  box_contains (mi_bbox c9_image) (getBBox c9_foot) = true /\
  buildSymmetricTemplate c9_image c9_foot 9 9 (Qc_of_Z 0) true true 16
  = Undef /\
  foot_contains (mkFootprint [] []) 0 0 = false /\
  symmetrizeFootprint (mkFootprint [] []) 0 0 = Undef.
Proof.
  split; [vm_compute; reflexivity|].
  split; [vm_compute; reflexivity|].
  split; [vm_compute; reflexivity|].
  split; [vm_compute; reflexivity|].
  split; [vm_compute; reflexivity|].
  vm_compute. reflexivity.
Qed.

(** * Loops over the pixels of boxes and span sets *)

Lemma zseq_In a n z : In z (zseq a n) <-> a <= z < a + n.
Proof.
  unfold zseq. rewrite in_map_iff. split.
  - intros (k & <- & Hk). apply in_seq in Hk. lia.
  - intros H. exists (Z.to_nat (z - a)). split; [lia|]. apply in_seq. lia.
Qed.

Lemma zseq_NoDup a n : NoDup (zseq a n).
Proof.
  unfold zseq. apply Injective_map_NoDup; [|apply seq_NoDup].
  intros i j H. lia.
Qed.

Lemma box_contains_pt_iff b x y :
  box_contains_pt b x y = true <->
  minX b <= x <= maxX b /\ minY b <= y <= maxY b.
Proof.
  unfold box_contains_pt. rewrite !andb_true_iff, !Z.leb_le. tauto.
Qed.

Lemma box_pixels_In b x y :
  In (x, y) (box_pixels b) <-> box_contains_pt b x y = true.
Proof.
  unfold box_pixels. rewrite in_flat_map, box_contains_pt_iff. split.
  - intros (y' & Hy & Hin). apply in_map_iff in Hin.
    destruct Hin as (x' & E & Hx). inversion E; subst.
    apply zseq_In in Hy, Hx. unfold getWidth, getHeight in *. lia.
  - intros H. exists y. split.
    + apply zseq_In. unfold getHeight. lia.
    + apply in_map_iff. exists x. split; [reflexivity|].
      apply zseq_In. unfold getWidth. lia.
Qed.

Lemma NoDup_flat_map_rows (ys xs : list Z) :
  NoDup ys -> NoDup xs ->
  NoDup (flat_map (fun y => map (fun x => (x, y)) xs) ys).
Proof.
  intros Hy Hx. induction Hy as [|y ys Hnin Hy IH]; simpl; [constructor|].
  apply NoDup_app; [| exact IH |].
  - apply Injective_map_NoDup; auto. intros a b E. congruence.
  - intros p Hp Hq. apply in_map_iff in Hp. destruct Hp as (x & <- & _).
    apply in_flat_map in Hq. destruct Hq as (y' & Hy' & Hin).
    apply in_map_iff in Hin. destruct Hin as (x' & E & _).
    inversion E; subst. contradiction.
Qed.

Lemma box_pixels_NoDup b : NoDup (box_pixels b).
Proof. apply NoDup_flat_map_rows; apply zseq_NoDup. Qed.

Lemma span_pixels_In s x y :
  In (x, y) (span_pixels s) <-> span_contains s x y = true.
Proof.
  unfold span_pixels. rewrite in_map_iff, span_contains_iff. split.
  - intros (x' & E & Hx). inversion E; subst. apply zseq_In in Hx. lia.
  - intros (Hx & ->). exists x. split; auto. apply zseq_In. lia.
Qed.

Lemma spans_pixels_In l x y :
  In (x, y) (spans_pixels l) <-> spans_contain l x y = true.
Proof.
  unfold spans_pixels. rewrite in_flat_map, spans_contain_In.
  split; intros (s & Hs & H); exists s; split; auto; apply span_pixels_In; auto.
Qed.

Lemma im_set_same {T : Type} (img : Image T) x y v :
  im_pix (im_set img x y v) x y = v.
Proof. unfold im_set; cbn [im_pix]. rewrite !Z.eqb_refl. reflexivity. Qed.

Lemma im_set_other {T : Type} (img : Image T) x y v x' y' :
  (x', y') <> (x, y) -> im_pix (im_set img x y v) x' y' = im_pix img x' y'.
Proof.
  intros H. unfold im_set; cbn [im_pix].
  destruct (x' =? x) eqn:Ex; [|reflexivity].
  destruct (y' =? y) eqn:Ey; [|reflexivity].
  apply Z.eqb_eq in Ex, Ey. subst. congruence.
Qed.

(** A loop that rewrites each pixel of a duplicate-free list from its own
    old value rewrites the image pointwise. *)
Lemma fold_pixels_pointwise {T : Type} (f : Z -> Z -> T -> T)
      (step : Image T -> Z * Z -> Image T) :
  (forall im x y, step im (x, y) = im_set im x y (f x y (im_pix im x y))) ->
  forall l img, NoDup l ->
    im_bbox (fold_left step l img) = im_bbox img /\
    forall x y,
      (In (x, y) l ->
       im_pix (fold_left step l img) x y = f x y (im_pix img x y)) /\
      (~ In (x, y) l ->
       im_pix (fold_left step l img) x y = im_pix img x y).
Proof.
  intros Hstep. induction l as [|[px py] l IH]; intros img Hnd.
  - simpl. split; [reflexivity|]. intros x y. split; [intros []|reflexivity].
  - inversion Hnd as [|? ? Hnin Hnd']; subst.
    cbn [fold_left]. rewrite Hstep.
    destruct (IH (im_set img px py (f px py (im_pix img px py))) Hnd')
      as (Hb & Hp).
    split; [rewrite Hb; reflexivity|].
    intros x y. destruct (Hp x y) as (Hin & Hout). split.
    + intros [E|Hl].
      * inversion E; subst. rewrite Hout by exact Hnin.
        apply im_set_same.
      * rewrite Hin by exact Hl. rewrite im_set_other; [reflexivity|].
        intros E. inversion E; subst. contradiction.
    + intros Hn. rewrite Hout by (intros Hl; apply Hn; right; exact Hl).
      apply im_set_other. intros E. apply Hn. left. congruence.
Qed.

Lemma pair_neq (x y x' y' : Z) :
  x <> x' \/ y <> y' -> (x, y) <> (x', y').
Proof. intros [H|H] E; injection E as E1 E2; contradiction. Qed.

Lemma pixel_eq_dec (x y x' y' : Z) :
  (x = x' /\ y = y') \/ (x <> x' \/ y <> y').
Proof. lia. Qed.

(** * The template sum *)

Section SumTemplates.
Context {A : PixelArith}.

Lemma sum_one_template_spec (tsum timg : Image pixel) :
  im_bbox (sum_one_template tsum timg) = im_bbox tsum /\
  forall x y,
    im_pix (sum_one_template tsum timg) x y =
    if box_contains_pt (box_clip (im_bbox timg) (im_bbox tsum)) x y
    then padd (im_pix tsum x y) (pmax p0 (im_pix timg x y))
    else im_pix tsum x y.
Proof.
  unfold sum_one_template.
  destruct (fold_pixels_pointwise
              (fun x y old => padd old (pmax p0 (im_pix timg x y)))
              (fun ts p => let '(x, y) := p in
                 im_set ts x y (padd (im_pix ts x y) (pmax p0 (im_pix timg x y))))
              ltac:(intros; reflexivity)
              (box_pixels (box_clip (im_bbox timg) (im_bbox tsum))) tsum
              (box_pixels_NoDup _)) as (Hb & Hp).
  split; [exact Hb|]. intros x y. destruct (Hp x y) as (Hin & Hout).
  destruct (box_contains_pt _ x y) eqn:E.
  - apply Hin. apply box_pixels_In. exact E.
  - apply Hout. intros H. apply box_pixels_In in H. congruence.
Qed.

Lemma sum_templates_spec (timgs : list (Image pixel)) :
  forall tsum,
    im_bbox (sum_templates timgs tsum) = im_bbox tsum /\
    forall x y,
      im_pix (sum_templates timgs tsum) x y =
      template_sum_at (im_bbox tsum) timgs x y (im_pix tsum x y).
Proof.
  induction timgs as [|t r IH]; intros tsum.
  - split; reflexivity.
  - unfold sum_templates, template_sum_at. cbn [fold_left].
    destruct (sum_one_template_spec tsum t) as (Hb & Hp).
    destruct (IH (sum_one_template tsum t)) as (Hb' & Hp').
    split; [unfold sum_templates in Hb'; rewrite Hb', Hb; reflexivity|].
    intros x y. unfold sum_templates in Hp'. rewrite Hp'.
    unfold template_sum_at. rewrite Hb, Hp. reflexivity.
Qed.
End SumTemplates.

(** C6 (the code departs from the claim): [_sum_templates] adds the
    templates to whatever [tsum] holds.  One template of value 1 summed into
    a [tsum] that holds 5 leaves 6, where the claim asks for 1. *)
Theorem sum_templates_keeps_old_contents :
  im_pix (sum_templates [c6_template] c6_tsum) 0 0 = Qc_of_Z 6 /\
  template_sum_at c6_box [c6_template] 0 0 (Qc_of_Z 0) = Qc_of_Z 1.
Proof. split; apply Qc_is_canon; vm_compute; reflexivity. Qed.

(** * Margins of the median filter; the checks of the apportioner *)

(** C7 (the code departs from the claim): on a 3x3 image with
    [halfsize = 1] the pixel (2, 1) lies on the right edge, yet the copy of
    the right margin covers the columns [W-1-halfsize .. W-2] only: the
    pixel keeps the 0 that [out] held before the call, the input holds 6. *)
Theorem medianFilter_misses_last_column :
  res_get (medianFilter c7_img c7_out 1) 2 1 = Ok (Qc_of_Z 0) /\
  im_pix c7_img 2 1 = Qc_of_Z 6 /\
  res_get (medianFilter c7_img c7_out 1) 0 1 = Ok (Qc_of_Z 4).
Proof. repeat split; vm_compute; reflexivity. Qed.

(** C8 (the code departs from the claim): the test that the image box
    contains the box of the parent footprint sits inside the loop over the
    templates.  Without templates it is never made, and the call returns an
    empty list of portions although the image does not contain the
    footprint. *)
Theorem apportionFlux_skips_image_check :
  box_contains (mi_bbox c8_img) (getBBox c8_foot) = false /\
  match apportionFlux c8_img c8_foot [] [] None [] [] [] 0 (Qc_of_Z 0) with
  | Ok (portions, strays, _) => portions = [] /\ strays = []
  | _ => False
  end.
Proof. split; vm_compute; auto. Qed.

(** * The monotonic shader *)

Lemma fold_left_inv {S X : Type} (P : S -> Prop) (f : S -> X -> S) (l : list X) :
  (forall s x, In x l -> P s -> P (f s x)) ->
  forall s0, P s0 -> P (fold_left f l s0).
Proof.
  induction l as [|a l IH]; intros Hstep s0 H0; [exact H0|].
  cbn [fold_left]. apply IH.
  - intros s x Hin. apply Hstep. right. exact Hin.
  - apply Hstep; [left; reflexivity|exact H0].
Qed.

Section Monotone.
Context {A : PixelArith}.
Hypothesis pltb_trans :
  forall a b c : pixel, pltb a b = true -> pltb b c = true -> pltb a c = true.

Variable img0 : Image pixel.
Variables cx cy : Z.

Let ix0 := minX (im_bbox img0).
Let iy0 := minY (im_bbox img0).

Lemma ple_lt_trans (a b c : pixel) : pltb a b = true -> ple b c -> ple a c.
Proof.
  intros Hab [<-|Hbc]; right; [exact Hab|]. eapply pltb_trans; eauto.
Qed.

Lemma shade_inv img psx psy pix :
  mono_inv img0 cx cy img ->
  (ix0 + psx <> cx \/ iy0 + psy <> cy) ->
  mono_inv img0 cx cy (shade img psx psy pix).
Proof.
  intros (Hb & Hpk & Hle) Hne. unfold shade, set_local, get_local.
  rewrite Hb. fold ix0 iy0. split; [exact Hb|]. split.
  - rewrite im_set_other; [exact Hpk|]. intros E. inversion E. lia.
  - intros x y.
    assert (Hd : (x, y) = (ix0 + psx, iy0 + psy) \/
                 (x, y) <> (ix0 + psx, iy0 + psy)).
    { destruct (Z.eq_dec x (ix0 + psx)) as [->|];
        [destruct (Z.eq_dec y (iy0 + psy)) as [->|]|];
        [left; reflexivity|right; congruence|right; congruence]. }
    destruct Hd as [E|E].
    + inversion E; subst. rewrite im_set_same. unfold pmin.
      destruct (pltb pix (im_pix img (ix0 + psx) (iy0 + psy))) eqn:El.
      * eapply ple_lt_trans; [exact El|apply Hle].
      * apply Hle.
    + rewrite im_set_other by exact E. apply Hle.
Qed.

Lemma cast_vertical_inv iW iH x y pix img :
  mono_inv img0 cx cy img ->
  mono_inv img0 cx cy (cast_vertical cx cy ix0 iy0 iW iH x y pix img).
Proof.
  intros HI. unfold cast_vertical. apply fold_left_inv; [|exact HI].
  intros im shx Hshx HI1. apply zseq_In in Hshx.
  destruct ((_ <? 0) || (iW <=? _)); [exact HI1|].
  apply fold_left_inv; [|exact HI1].
  intros im2 shy _ HI2.
  destruct ((_ <? 0) || (iH <=? _)); [exact HI2|].
  apply shade_inv; [exact HI2|]. left.
  destruct (0 <? x) eqn:E; [apply Z.ltb_lt in E|apply Z.ltb_ge in E]; lia.
Qed.

Lemma cast_horizontal_inv iW iH x y pix img :
  mono_inv img0 cx cy img ->
  mono_inv img0 cx cy (cast_horizontal cx cy ix0 iy0 iW iH x y pix img).
Proof.
  intros HI. unfold cast_horizontal. apply fold_left_inv; [|exact HI].
  intros im shy Hshy HI1. apply zseq_In in Hshy.
  destruct ((_ <? 0) || (iH <=? _)); [exact HI1|].
  apply fold_left_inv; [|exact HI1].
  intros im2 shx _ HI2.
  destruct ((_ <? 0) || (iW <=? _)); [exact HI2|].
  apply shade_inv; [exact HI2|]. right.
  destruct (0 <? y) eqn:E; [apply Z.ltb_lt in E|apply Z.ltb_ge in E]; lia.
Qed.

Lemma ring_walk_inv iW iH shadowing L :
  forall n i x y dx dy img,
    mono_inv img0 cx cy img ->
    mono_inv img0 cx cy
      (ring_walk cx cy ix0 iy0 iW iH shadowing L n i x y dx dy img).
Proof.
  induction n as [|n IH]; intros i x y dx dy img HI; [exact HI|].
  cbn [ring_walk]. apply IH.
  destruct (_ || _ || _ || _); [exact HI|].
  destruct (_ =? 0).
  - apply cast_vertical_inv; exact HI.
  - apply cast_horizontal_inv; exact HI.
Qed.

Lemma chunk_inv iW iH shadowing s img :
  mono_inv img0 cx cy img ->
  mono_inv img0 cx cy (chunk cx cy ix0 iy0 iW iH shadowing s img).
Proof.
  intros HI. unfold chunk. apply fold_left_inv; [|exact HI].
  intros im p _ HI1. apply ring_walk_inv. exact HI1.
Qed.

Lemma chunks_inv iW iH M :
  forall k s shadowing img,
    mono_inv img0 cx cy img ->
    mono_inv img0 cx cy (chunks cx cy ix0 iy0 iW iH k s M shadowing img).
Proof.
  induction k as [|k IH]; intros s shadowing img HI; [exact HI|].
  cbn [chunks]. destruct (s <? M); [|exact HI].
  apply IH. apply chunk_inv. exact HI.
Qed.

End Monotone.

Lemma Qc_ltb_lt (a b : Qc) : Qc_ltb a b = true <-> (a < b)%Qc.
Proof.
  unfold Qc_ltb, Qclt, Qccompare, Qlt.
  destruct (this a ?= this b)%Q eqn:E; split; intros H; try discriminate; auto.
  - rewrite <- Qeq_alt in E. hnf in E. unfold Qlt in H. lia.
  - rewrite <- Qgt_alt in E. unfold Qlt in *. lia.
Qed.

Lemma Qc_ltb_trans (a b c : Qc) :
  Qc_ltb a b = true -> Qc_ltb b c = true -> Qc_ltb a c = true.
Proof. rewrite !Qc_ltb_lt. apply Qclt_trans. Qed.

Lemma zseq_cons (a n : Z) : 0 < n -> zseq a n = a :: zseq (a + 1) (n - 1).
Proof.
  intros Hn. unfold zseq.
  replace (Z.to_nat n) with (S (Z.to_nat (n - 1))) by lia.
  cbn [seq map]. rewrite <- seq_shift, map_map. f_equal; [lia|].
  apply map_ext. intros k. lia.
Qed.

(** A fold reaches [P] when one of its steps establishes it and all steps
    keep it, [Q] being kept throughout. *)
Lemma fold_left_hits {S X : Type} (P Q : S -> Prop) (f : S -> X -> S) (e : X) :
  (forall s x, Q s -> Q (f s x)) ->
  (forall s x, P s -> P (f s x)) ->
  (forall s, Q s -> P (f s e)) ->
  forall l s0, In e l -> Q s0 -> P (fold_left f l s0).
Proof.
  intros HQ HP He.
  induction l as [|a l IH]; intros s0 Hin H0; [destruct Hin|].
  cbn [fold_left]. destruct Hin as [->|Hin].
  - apply fold_left_inv; [|apply He; exact H0].
    intros s x _. apply HP.
  - apply IH; [exact Hin|apply HQ; exact H0].
Qed.

(** What every shading step keeps, every stage of the shader keeps. *)
Section ShadeKeeps.
Context {A : PixelArith}.
Variable P : Image pixel -> Prop.
Hypothesis shade_keeps :
  forall img psx psy pix, P img -> P (shade img psx psy pix).
Variables cx cy ix0 iy0 iW iH : Z.

Lemma cast_vertical_keeps x y pix img :
  P img -> P (cast_vertical cx cy ix0 iy0 iW iH x y pix img).
Proof.
  intros HI. unfold cast_vertical. apply fold_left_inv; [|exact HI].
  intros im shx _ HI1. destruct (_ || _); [exact HI1|].
  apply fold_left_inv; [|exact HI1].
  intros im2 shy _ HI2. destruct (_ || _); [exact HI2|].
  apply shade_keeps. exact HI2.
Qed.

Lemma cast_horizontal_keeps x y pix img :
  P img -> P (cast_horizontal cx cy ix0 iy0 iW iH x y pix img).
Proof.
  intros HI. unfold cast_horizontal. apply fold_left_inv; [|exact HI].
  intros im shy _ HI1. destruct (_ || _); [exact HI1|].
  apply fold_left_inv; [|exact HI1].
  intros im2 shx _ HI2. destruct (_ || _); [exact HI2|].
  apply shade_keeps. exact HI2.
Qed.

Lemma ring_visit_keeps shadowing x y dx img :
  P img -> P (ring_visit cx cy ix0 iy0 iW iH shadowing x y dx img).
Proof.
  intros HI. unfold ring_visit. cbv zeta.
  destruct (_ || _ || _ || _); [exact HI|].
  destruct (dx =? 0);
    [apply cast_vertical_keeps|apply cast_horizontal_keeps]; exact HI.
Qed.

Lemma ring_walk_keeps shadowing L :
  forall n i x y dx dy img,
    P img -> P (ring_walk cx cy ix0 iy0 iW iH shadowing L n i x y dx dy img).
Proof.
  induction n as [|n IH]; intros i x y dx dy img HI; [exact HI|].
  cbn [ring_walk]. apply IH.
  destruct (_ || _ || _ || _); [exact HI|].
  destruct (_ =? 0);
    [apply cast_vertical_keeps|apply cast_horizontal_keeps]; exact HI.
Qed.

Lemma chunk_keeps shadowing s img :
  P img -> P (chunk cx cy ix0 iy0 iW iH shadowing s img).
Proof.
  intros HI. unfold chunk. apply fold_left_inv; [|exact HI].
  intros im p _ HI1. apply ring_walk_keeps. exact HI1.
Qed.

Lemma chunks_keeps M :
  forall k s shadowing img,
    P img -> P (chunks cx cy ix0 iy0 iW iH k s M shadowing img).
Proof.
  induction k as [|k IH]; intros s shadowing img HI; [exact HI|].
  cbn [chunks]. destruct (s <? M); [|exact HI].
  apply IH. apply chunk_keeps. exact HI.
Qed.
End ShadeKeeps.

Section Shadows.
Context {A : PixelArith}.
Hypothesis pltb_trans :
  forall a b c : pixel, pltb a b = true -> pltb b c = true -> pltb a c = true.
Hypothesis pltb_irrefl : forall a : pixel, pltb a a = false.

Variable img0 : Image pixel.
Variables cx cy : Z.

Let ix0 := minX (im_bbox img0).
Let iy0 := minY (im_bbox img0).
Let iW := getWidth (im_bbox img0).
Let iH := getHeight (im_bbox img0).

Lemma shade_bbox (img : Image pixel) psx psy pix :
  im_bbox img = im_bbox img0 ->
  im_bbox (shade img psx psy pix) = im_bbox img0.
Proof. intros H. exact H. Qed.

(** A pixel that is not above [v] stays so under every shading step. *)
Lemma shade_not_above (v : pixel) X Y img psx psy pix :
  not_above (im_pix img X Y) v ->
  not_above (im_pix (shade img psx psy pix) X Y) v.
Proof.
  unfold not_above, shade, set_local, get_local. intros H.
  destruct (pixel_eq_dec X Y (minX (im_bbox img) + psx)
                         (minY (im_bbox img) + psy)) as [[-> ->]|Hne].
  - rewrite im_set_same. unfold pmin.
    destruct (pltb pix (im_pix img _ _)) eqn:E; [|exact H].
    destruct (pltb v pix) eqn:E2; [|reflexivity].
    rewrite (pltb_trans _ _ _ E2 E) in H. discriminate H.
  - rewrite im_set_other by (apply pair_neq; exact Hne). exact H.
Qed.

(** The shaded pixel is not above the shadowing value. *)
Lemma shade_hits img psx psy pix :
  not_above (im_pix (shade img psx psy pix) (minX (im_bbox img) + psx)
                    (minY (im_bbox img) + psy)) pix.
Proof.
  unfold not_above, shade, set_local, get_local. rewrite im_set_same.
  unfold pmin.
  destruct (pltb pix (im_pix img _ _)) eqn:E; [apply pltb_irrefl|exact E].
Qed.

Lemma in_range_local (lo n v : Z) :
  lo <= v <= lo + n - 1 -> (v - lo <? 0) || (n <=? v - lo) = false.
Proof.
  intros H. apply orb_false_iff. split; [apply Z.ltb_ge|apply Z.leb_gt]; lia.
Qed.

Lemma cast_vertical_hits x y pix img shx shy :
  im_bbox img = im_bbox img0 ->
  1 <= shx <= 5 ->
  lround (dmul (dbl_of_Z shx)
               (dsub (ddiv (dbl_of_Z y) (dbl_of_Z x)) dbl_lit_0_3)) <= shy ->
  shy <= lround (dmul (dbl_of_Z shx)
                      (dadd (dsub (ddiv (dbl_of_Z y) (dbl_of_Z x))
                                  dbl_lit_0_3)
                            (dmul (dbl_of_Z 2) dbl_lit_0_3))) ->
  box_contains_pt (im_bbox img0)
    (cx + x + (if 0 <? x then 1 else -1) * shx)
    (cy + y + (if 0 <? x then 1 else -1) * shy) = true ->
  not_above
    (im_pix (cast_vertical cx cy ix0 iy0 iW iH x y pix img)
            (cx + x + (if 0 <? x then 1 else -1) * shx)
            (cy + y + (if 0 <? x then 1 else -1) * shy)) pix.
Proof.
  intros Hb Hshx Hlo Hhi Hin. apply box_contains_pt_iff in Hin.
  destruct Hin as [HX HY].
  set (X := cx + x + (if 0 <? x then 1 else -1) * shx) in *.
  set (Y := cy + y + (if 0 <? x then 1 else -1) * shy) in *.
  unfold cast_vertical. cbv zeta.
  apply (fold_left_hits
           (fun im : Image pixel => not_above (im_pix im X Y) pix)
           (fun im : Image pixel => im_bbox im = im_bbox img0) _ shx).
  - intros s k Hs. destruct (_ || _); [exact Hs|].
    apply fold_left_inv; [|exact Hs].
    intros s2 k2 _ Hs2. destruct (_ || _); exact Hs2.
  - intros s k Hs. destruct (_ || _); [exact Hs|].
    apply fold_left_inv; [|exact Hs].
    intros s2 k2 _ Hs2. destruct (_ || _); [exact Hs2|].
    apply shade_not_above. exact Hs2.
  - intros s Hs. fold X.
    rewrite (in_range_local ix0 iW X)
      by (unfold ix0, iW, getWidth; lia).
    apply (fold_left_hits
             (fun im : Image pixel => not_above (im_pix im X Y) pix)
             (fun im : Image pixel => im_bbox im = im_bbox img0) _ shy).
    + intros s2 k2 Hs2. destruct (_ || _); exact Hs2.
    + intros s2 k2 Hs2. destruct (_ || _); [exact Hs2|].
      apply shade_not_above. exact Hs2.
    + intros s2 Hs2. fold Y.
      rewrite (in_range_local iy0 iH Y)
        by (unfold iy0, iH, getHeight; lia).
      pose proof (shade_hits s2 (X - ix0) (Y - iy0) pix) as Hh.
      rewrite Hs2 in Hh. fold ix0 iy0 in Hh.
      replace (ix0 + (X - ix0)) with X in Hh by lia.
      replace (iy0 + (Y - iy0)) with Y in Hh by lia.
      exact Hh.
    + apply zseq_In. lia.
    + exact Hs.
  - apply zseq_In. lia.
  - exact Hb.
Qed.

Lemma cast_horizontal_hits x y pix img shx shy :
  im_bbox img = im_bbox img0 ->
  1 <= shy <= 5 ->
  lround (dmul (dbl_of_Z shy)
               (dsub (ddiv (dbl_of_Z x) (dbl_of_Z y)) dbl_lit_0_3)) <= shx ->
  shx <= lround (dmul (dbl_of_Z shy)
                      (dadd (dsub (ddiv (dbl_of_Z x) (dbl_of_Z y))
                                  dbl_lit_0_3)
                            (dmul (dbl_of_Z 2) dbl_lit_0_3))) ->
  box_contains_pt (im_bbox img0)
    (cx + x + (if 0 <? y then 1 else -1) * shx)
    (cy + y + (if 0 <? y then 1 else -1) * shy) = true ->
  not_above
    (im_pix (cast_horizontal cx cy ix0 iy0 iW iH x y pix img)
            (cx + x + (if 0 <? y then 1 else -1) * shx)
            (cy + y + (if 0 <? y then 1 else -1) * shy)) pix.
Proof.
  intros Hb Hshy Hlo Hhi Hin. apply box_contains_pt_iff in Hin.
  destruct Hin as [HX HY].
  set (X := cx + x + (if 0 <? y then 1 else -1) * shx) in *.
  set (Y := cy + y + (if 0 <? y then 1 else -1) * shy) in *.
  unfold cast_horizontal. cbv zeta.
  apply (fold_left_hits
           (fun im : Image pixel => not_above (im_pix im X Y) pix)
           (fun im : Image pixel => im_bbox im = im_bbox img0) _ shy).
  - intros s k Hs. destruct (_ || _); [exact Hs|].
    apply fold_left_inv; [|exact Hs].
    intros s2 k2 _ Hs2. destruct (_ || _); exact Hs2.
  - intros s k Hs. destruct (_ || _); [exact Hs|].
    apply fold_left_inv; [|exact Hs].
    intros s2 k2 _ Hs2. destruct (_ || _); [exact Hs2|].
    apply shade_not_above. exact Hs2.
  - intros s Hs. fold Y.
    rewrite (in_range_local iy0 iH Y)
      by (unfold iy0, iH, getHeight; lia).
    apply (fold_left_hits
             (fun im : Image pixel => not_above (im_pix im X Y) pix)
             (fun im : Image pixel => im_bbox im = im_bbox img0) _ shx).
    + intros s2 k2 Hs2. destruct (_ || _); exact Hs2.
    + intros s2 k2 Hs2. destruct (_ || _); [exact Hs2|].
      apply shade_not_above. exact Hs2.
    + intros s2 Hs2. fold X.
      rewrite (in_range_local ix0 iW X)
        by (unfold ix0, iW, getWidth; lia).
      pose proof (shade_hits s2 (X - ix0) (Y - iy0) pix) as Hh.
      rewrite Hs2 in Hh. fold ix0 iy0 in Hh.
      replace (ix0 + (X - ix0)) with X in Hh by lia.
      replace (iy0 + (Y - iy0)) with Y in Hh by lia.
      exact Hh.
    + apply zseq_In. lia.
    + exact Hs.
  - apply zseq_In. lia.
  - exact Hb.
Qed.

(** *** The walk round a ring *)

Lemma leg_of (L q r : Z) :
  0 < L -> 0 <= r < 2 * L ->
  (2 * L * q + r) / (2 * L) = q /\ (2 * L * q + r) mod (2 * L) = r.
Proof.
  intros HL Hr. split.
  - symmetry. apply (Z.div_unique _ _ q r); [lia|reflexivity].
  - symmetry. apply (Z.mod_unique _ _ q r); [lia|reflexivity].
Qed.

Lemma step_split (L i : Z) :
  0 < L -> 0 <= i < 8 * L ->
  exists q r, i = 2 * L * q + r /\ 0 <= r < 2 * L /\
              (q = 0 \/ q = 1 \/ q = 2 \/ q = 3).
Proof.
  intros HL Hi. exists (i / (2 * L)), (i mod (2 * L)).
  pose proof (Z.div_mod i (2 * L) ltac:(lia)) as D.
  pose proof (Z.mod_pos_bound i (2 * L) ltac:(lia)) as B.
  split; [exact D|]. split; [exact B|].
  assert (0 <= i / (2 * L) < 4); [|lia].
  split; [apply Z.div_pos; lia|apply Z.div_lt_upper_bound; lia].
Qed.

Lemma ring_pos_next (L i : Z) :
  0 < L -> 0 <= i -> i + 1 < 8 * L ->
  ring_pos L (i + 1)
  = (fst (ring_pos L i) + ring_dx L i, snd (ring_pos L i) + ring_dy L i).
Proof.
  intros HL Hi Hn.
  destruct (step_split L i HL ltac:(lia)) as (q & r & Ei & Hr & Hq).
  subst i.
  unfold ring_pos, ring_dx, ring_dy. cbv zeta.
  destruct (leg_of L q r HL Hr) as [Ed Em]. rewrite Ed, Em.
  destruct (Z.eq_dec (r + 1) (2 * L)) as [Ew|Ew].
  - replace (2 * L * q + r + 1) with (2 * L * (q + 1) + 0) by lia.
    destruct (leg_of L (q + 1) 0 HL ltac:(lia)) as [Ed' Em'].
    rewrite Ed', Em'.
    destruct Hq as [-> | [-> | [-> | ->]]]; cbn; f_equal; lia.
  - replace (2 * L * q + r + 1) with (2 * L * q + (r + 1)) by lia.
    destruct (leg_of L q (r + 1) HL ltac:(lia)) as [Ed' Em'].
    rewrite Ed', Em'.
    destruct Hq as [-> | [-> | [-> | ->]]]; cbn; f_equal; lia.
Qed.

Lemma ring_dir_next (L i : Z) :
  0 < L -> 0 <= i -> i + 1 < 8 * L ->
  (i + 1) mod (2 * L) <> 0 ->
  ring_dx L (i + 1) = ring_dx L i /\ ring_dy L (i + 1) = ring_dy L i.
Proof.
  intros HL Hi Hn Hm.
  destruct (step_split L i HL ltac:(lia)) as (q & r & Ei & Hr & Hq).
  subst i.
  unfold ring_dx, ring_dy. cbv zeta.
  destruct (leg_of L q r HL Hr) as [Ed _]. rewrite Ed.
  destruct (Z.eq_dec (r + 1) (2 * L)) as [Ew|Ew].
  - exfalso. apply Hm.
    replace (2 * L * q + r + 1) with (2 * L * (q + 1) + 0) by lia.
    apply (leg_of L (q + 1) 0 HL). lia.
  - replace (2 * L * q + r + 1) with (2 * L * q + (r + 1)) by lia.
    destruct (leg_of L q (r + 1) HL ltac:(lia)) as [Ed' _].
    rewrite Ed'. split; reflexivity.
Qed.

Lemma ring_walk_steps shadowing L :
  0 < L ->
  forall n i x y dx dy img,
    0 <= i -> i + Z.of_nat n <= 8 * L ->
    (n <> 0%nat -> (x, y) = ring_pos L i) ->
    (i mod (2 * L) <> 0 -> dx = ring_dx L i /\ dy = ring_dy L i) ->
    ring_walk cx cy ix0 iy0 iW iH shadowing L n i x y dx dy img
    = fold_left
        (fun im j => ring_visit cx cy ix0 iy0 iW iH shadowing
                                (fst (ring_pos L j)) (snd (ring_pos L j))
                                (ring_dx L j) im)
        (zseq i (Z.of_nat n)) img.
Proof.
  intros HL.
  induction n as [|n IH]; intros i x y dx dy img Hi Hn Hpos Hdir;
    [reflexivity|].
  rewrite zseq_cons by lia.
  replace (Z.of_nat (S n) - 1) with (Z.of_nat n) by lia.
  cbn [ring_walk fold_left].
  assert (Ep : (x, y) = ring_pos L i) by (apply Hpos; discriminate).
  set (dx' := if i mod (2 * L) =? 0
              then (i / (2 * L)) mod 2 * (-1 + 2 * (i / (2 * L) / 2))
              else dx).
  set (dy' := if i mod (2 * L) =? 0
              then ((i / (2 * L) + 1) mod 2) * (1 - 2 * (i / (2 * L) / 2))
              else dy).
  assert (Edx : dx' = ring_dx L i /\ dy' = ring_dy L i).
  { unfold dx', dy'. destruct (Z.eqb_spec (i mod (2 * L)) 0) as [E|E].
    - split; reflexivity.
    - apply Hdir. exact E. }
  destruct Edx as [Edx Edy].
  rewrite (IH (i + 1) (x + dx') (y + dy') dx' dy').
  - f_equal. unfold ring_visit. cbv zeta. rewrite <- Ep. cbn [fst snd].
    rewrite <- Edx. reflexivity.
  - lia.
  - lia.
  - intros Hn0. rewrite ring_pos_next by lia. rewrite <- Ep, Edx, Edy.
    reflexivity.
  - intros Hm.
    destruct (Z_lt_le_dec (i + 1) (8 * L)) as [Hlt|Hge].
    + destruct (ring_dir_next L i HL Hi Hlt Hm) as [E1 E2].
      rewrite E1, E2. split; assumption.
    + exfalso. apply Hm. replace (i + 1) with (2 * L * 4 + 0) by lia.
      apply (leg_of L 4 0 HL). lia.
Qed.

(** Every pixel of ring [L] is a step of the walk, on a vertical edge
    exactly when the walk moves along y there. *)
Lemma ring_index (x y : Z) :
  0 < ring_of x y ->
  exists j, 0 <= j < 8 * ring_of x y /\
            ring_pos (ring_of x y) j = (x, y) /\
            (ring_dx (ring_of x y) j =? 0) = on_vertical_edge x y.
Proof.
  intros HL. unfold on_vertical_edge. cbv zeta.
  set (L := ring_of x y) in *.
  assert (HLdef : L = Z.max (Z.abs x) (Z.abs y)) by reflexivity.
  assert (Hcase : (x = L /\ - L <= y < L) \/ (y = L /\ - L < x <= L) \/
                  (x = - L /\ - L < y <= L) \/ (y = - L /\ - L <= x < L))
    by lia.
  clearbody L.
  destruct Hcase as [[Ex Hy]|[[Ey Hx]|[[Ex Hy]|[Ey Hx]]]].
  - exists (2 * L * 0 + (y + L)).
    unfold ring_pos, ring_dx. cbv zeta.
    destruct (leg_of L 0 (y + L) HL ltac:(lia)) as [Ed Em]. rewrite Ed, Em.
    split; [lia|]. split; [cbn; f_equal; lia|].
    replace (x =? L) with true by (symmetry; apply Z.eqb_eq; exact Ex).
    replace (y <? L) with true by (symmetry; apply Z.ltb_lt; lia).
    reflexivity.
  - exists (2 * L * 1 + (L - x)).
    unfold ring_pos, ring_dx. cbv zeta.
    destruct (leg_of L 1 (L - x) HL ltac:(lia)) as [Ed Em]. rewrite Ed, Em.
    split; [lia|]. split; [cbn; f_equal; lia|].
    replace (y <? L) with false by (symmetry; apply Z.ltb_ge; lia).
    replace (x =? - L) with false by (symmetry; apply Z.eqb_neq; lia).
    rewrite andb_false_r. reflexivity.
  - exists (2 * L * 2 + (L - y)).
    unfold ring_pos, ring_dx. cbv zeta.
    destruct (leg_of L 2 (L - y) HL ltac:(lia)) as [Ed Em]. rewrite Ed, Em.
    split; [lia|]. split; [cbn; f_equal; lia|].
    replace (x =? - L) with true by (symmetry; apply Z.eqb_eq; exact Ex).
    replace (- L <? y) with true by (symmetry; apply Z.ltb_lt; lia).
    rewrite orb_true_r. reflexivity.
  - exists (2 * L * 3 + (x + L)).
    unfold ring_pos, ring_dx. cbv zeta.
    destruct (leg_of L 3 (x + L) HL ltac:(lia)) as [Ed Em]. rewrite Ed, Em.
    split; [lia|]. split; [cbn; f_equal; lia|].
    replace (x =? L) with false by (symmetry; apply Z.eqb_neq; lia).
    replace (- L <? y) with false by (symmetry; apply Z.ltb_ge; lia).
    rewrite andb_false_r. reflexivity.
Qed.

Lemma ring_visit_bbox shadowing x y dx img :
  im_bbox img = im_bbox img0 ->
  im_bbox (ring_visit cx cy ix0 iy0 iW iH shadowing x y dx img)
  = im_bbox img0.
Proof.
  apply (ring_visit_keeps (fun im : Image pixel => im_bbox im = im_bbox img0)).
  intros im psx psy pix H. exact H.
Qed.

Lemma ring_visit_not_above (v : pixel) X Y shadowing x y dx img :
  not_above (im_pix img X Y) v ->
  not_above (im_pix (ring_visit cx cy ix0 iy0 iW iH shadowing x y dx img)
                    X Y) v.
Proof.
  apply (ring_visit_keeps
           (fun im : Image pixel => not_above (im_pix im X Y) v)).
  intros im psx psy pix H. apply shade_not_above. exact H.
Qed.

(** The walk round the ring of a pixel q leaves every pixel of its shadow
    not above the value of q in the shadowing copy. *)
Lemma ring_walk_hits shadowing qx qy px py img :
  im_bbox img = im_bbox img0 ->
  im_bbox shadowing = im_bbox img0 ->
  box_contains_pt (im_bbox img0) qx qy = true ->
  box_contains_pt (im_bbox img0) px py = true ->
  in_shadow (qx - cx) (qy - cy) (px - cx) (py - cy) = true ->
  not_above
    (im_pix (ring_walk cx cy ix0 iy0 iW iH shadowing
                       (ring_of (qx - cx) (qy - cy))
                       (Z.to_nat (8 * ring_of (qx - cx) (qy - cy))) 0
                       (ring_of (qx - cx) (qy - cy))
                       (- ring_of (qx - cx) (qy - cy)) 0 0 img) px py)
    (im_pix shadowing qx qy).
Proof.
  intros Hb Hsb Hq Hp Hsh. unfold in_shadow in Hsh.
  apply andb_true_iff in Hsh. destruct Hsh as [HL Hsh].
  apply Z.ltb_lt in HL.
  set (x := qx - cx) in *. set (y := qy - cy) in *.
  set (L := ring_of x y) in *.
  destruct (leg_of L 0 0 HL ltac:(lia)) as [Ed0 Em0].
  replace (2 * L * 0 + 0) with 0 in Ed0, Em0 by lia.
  assert (Hstart : Z.to_nat (8 * L) <> 0%nat -> (L, - L) = ring_pos L 0).
  { intros _. unfold ring_pos. cbv zeta. rewrite Ed0, Em0. cbn.
    f_equal. lia. }
  assert (Hdir0 : 0 mod (2 * L) <> 0 ->
                  0 = ring_dx L 0 /\ 0 = ring_dy L 0)
    by (intros Hm; contradiction).
  rewrite (ring_walk_steps shadowing L HL (Z.to_nat (8 * L)) 0 L (- L) 0 0
             img ltac:(lia) ltac:(lia) Hstart Hdir0).
  destruct (ring_index x y HL) as (j & Hj & Epos & Edir).
  fold L in Hj, Epos, Edir.
  apply (fold_left_hits
           (fun im : Image pixel =>
              not_above (im_pix im px py) (im_pix shadowing qx qy))
           (fun im : Image pixel => im_bbox im = im_bbox img0) _ j).
  - intros s k Hs. apply ring_visit_bbox. exact Hs.
  - intros s k Hs. apply ring_visit_not_above. exact Hs.
  - intros s Hs. rewrite Epos. cbn [fst snd]. unfold ring_visit. cbv zeta.
    pose proof Hq as Hq'. apply box_contains_pt_iff in Hq'.
    assert (Ein : (cx + x - ix0 <? 0) || (iW <=? cx + x - ix0)
                  || (cy + y - iy0 <? 0) || (iH <=? cy + y - iy0) = false).
    { unfold x, y, ix0, iy0, iW, iH, getWidth, getHeight.
      rewrite !orb_false_iff, !Z.ltb_ge, !Z.leb_gt. lia. }
    rewrite Ein.
    assert (Epix : get_local shadowing (cx + x - ix0) (cy + y - iy0)
                   = im_pix shadowing qx qy).
    { unfold get_local. rewrite Hsb. fold ix0 iy0. unfold x, y.
      f_equal; lia. }
    rewrite Epix, Edir.
    destruct (on_vertical_edge x y).
    + cbv zeta in Hsh. rewrite !andb_true_iff, !Z.leb_le in Hsh.
      destruct Hsh as (((H1 & H5) & Hlo) & Hhi).
      set (xsign := if 0 <? x then 1 else -1) in *.
      assert (Exs : xsign * xsign = 1)
        by (unfold xsign; destruct (0 <? x); reflexivity).
      replace px with (cx + x + xsign * (xsign * (px - cx - x)))
        by (rewrite Z.mul_assoc, Exs; lia).
      replace py with (cy + y + xsign * (xsign * (py - cy - y)))
        by (rewrite Z.mul_assoc, Exs; lia).
      apply cast_vertical_hits; try assumption; [lia|].
      fold xsign. rewrite !Z.mul_assoc, Exs.
      replace (cx + x + 1 * (px - cx - x)) with px by lia.
      replace (cy + y + 1 * (py - cy - y)) with py by lia.
      exact Hp.
    + cbv zeta in Hsh. rewrite !andb_true_iff, !Z.leb_le in Hsh.
      destruct Hsh as (((H1 & H5) & Hlo) & Hhi).
      set (ysign := if 0 <? y then 1 else -1) in *.
      assert (Eys : ysign * ysign = 1)
        by (unfold ysign; destruct (0 <? y); reflexivity).
      replace px with (cx + x + ysign * (ysign * (px - cx - x)))
        by (rewrite Z.mul_assoc, Eys; lia).
      replace py with (cy + y + ysign * (ysign * (py - cy - y)))
        by (rewrite Z.mul_assoc, Eys; lia).
      apply cast_horizontal_hits; try assumption; [lia|].
      fold ysign. rewrite !Z.mul_assoc, Eys.
      replace (cx + x + 1 * (px - cx - x)) with px by lia.
      replace (cy + y + 1 * (py - cy - y)) with py by lia.
      exact Hp.
  - apply zseq_In. lia.
  - exact Hb.
Qed.

(** The chunk that holds the ring of q. *)
Lemma chunk_hits shadowing s qx qy px py img :
  im_bbox img = im_bbox img0 ->
  im_bbox shadowing = im_bbox img0 ->
  box_contains_pt (im_bbox img0) qx qy = true ->
  box_contains_pt (im_bbox img0) px py = true ->
  in_shadow (qx - cx) (qy - cy) (px - cx) (py - cy) = true ->
  s <= ring_of (qx - cx) (qy - cy) < s + 5 ->
  not_above (im_pix (chunk cx cy ix0 iy0 iW iH shadowing s img) px py)
            (im_pix shadowing qx qy).
Proof.
  intros Hb Hsb Hq Hp Hsh Hs. unfold chunk.
  apply (fold_left_hits
           (fun im : Image pixel =>
              not_above (im_pix im px py) (im_pix shadowing qx qy))
           (fun im : Image pixel => im_bbox im = im_bbox img0) _
           (ring_of (qx - cx) (qy - cy) - s)).
  - intros im p Him.
    apply (ring_walk_keeps
             (fun im : Image pixel => im_bbox im = im_bbox img0));
      [|exact Him].
    intros im2 psx psy pix H. exact H.
  - intros im p Him.
    apply (ring_walk_keeps
             (fun im : Image pixel =>
                not_above (im_pix im px py) (im_pix shadowing qx qy)));
      [|exact Him].
    intros im2 psx psy pix H. apply shade_not_above. exact H.
  - intros im Him. cbv zeta.
    replace (s + (ring_of (qx - cx) (qy - cy) - s))
      with (ring_of (qx - cx) (qy - cy)) by lia.
    apply ring_walk_hits; assumption.
  - apply zseq_In. lia.
  - exact Hb.
Qed.

Lemma chunks_done M k s (shadowing img : Image pixel) :
  M <= s -> chunks cx cy ix0 iy0 iW iH k s M shadowing img = img.
Proof.
  intros H. destruct k as [|k]; [reflexivity|]. cbn [chunks].
  replace (s <? M) with false by (symmetry; apply Z.ltb_ge; exact H).
  reflexivity.
Qed.

(** The first [a] chunks, then the rest. *)
Lemma chunks_split M b :
  forall a s (img : Image pixel),
    chunks cx cy ix0 iy0 iW iH (a + b) s M img img
    = chunks cx cy ix0 iy0 iW iH b (s + 5 * Z.of_nat a) M
             (chunks cx cy ix0 iy0 iW iH a s M img img)
             (chunks cx cy ix0 iy0 iW iH a s M img img).
Proof.
  induction a as [|a IH]; intros s img.
  - cbn [Nat.add chunks]. replace (s + 5 * Z.of_nat 0) with s by lia.
    reflexivity.
  - cbn [Nat.add chunks]. destruct (Z.ltb_spec s M) as [Hlt|Hge].
    + rewrite IH. f_equal. lia.
    + rewrite chunks_done by lia. reflexivity.
Qed.

(** A pixel of the image that lies in a shadow is cast on from a ring the
    loop reaches. *)
Lemma shadow_ring_reached qx qy px py :
  box_contains_pt (im_bbox img0) px py = true ->
  in_shadow (qx - cx) (qy - cy) (px - cx) (py - cy) = true ->
  0 < ring_of (qx - cx) (qy - cy)
  < Z.max (Z.max (cx - ix0) (ix0 + iW - cx))
          (Z.max (cy - iy0) (iy0 + iH - cy)).
Proof.
  intros Hp Hsh. apply box_contains_pt_iff in Hp.
  unfold in_shadow in Hsh. apply andb_true_iff in Hsh.
  destruct Hsh as [HL Hsh]. apply Z.ltb_lt in HL.
  split; [exact HL|].
  unfold ix0, iy0, iW, iH, getWidth, getHeight.
  set (x := qx - cx) in *. set (y := qy - cy) in *.
  unfold on_vertical_edge in Hsh. cbv zeta in Hsh.
  unfold ring_of in *.
  destruct ((x =? _) && (y <? _) || (x =? - _) && (- _ <? y)) eqn:Ev.
  - rewrite !andb_true_iff, !Z.leb_le in Hsh.
    destruct Hsh as (((H1 & _) & _) & _).
    apply orb_true_iff in Ev.
    destruct Ev as [Ev|Ev]; apply andb_true_iff in Ev; destruct Ev as [E1 E2];
      apply Z.eqb_eq in E1; apply Z.ltb_lt in E2.
    + replace (0 <? x) with true in H1 by (symmetry; apply Z.ltb_lt; lia).
      lia.
    + replace (0 <? x) with false in H1 by (symmetry; apply Z.ltb_ge; lia).
      lia.
  - rewrite !andb_true_iff, !Z.leb_le in Hsh.
    destruct Hsh as (((H1 & _) & _) & _).
    apply orb_false_iff in Ev. destruct Ev as [Ev1 Ev2].
    apply andb_false_iff in Ev1, Ev2.
    rewrite Z.eqb_neq, Z.ltb_ge in Ev1, Ev2.
    destruct (Z.ltb_spec 0 y); lia.
Qed.

Lemma not_above_ple (a b c : pixel) :
  not_above a b -> ple b c -> not_above a c.
Proof.
  unfold not_above. intros Hab [<-|Hbc]; [exact Hab|].
  destruct (pltb c a) eqn:E; [|reflexivity].
  rewrite (pltb_trans _ _ _ Hbc E) in Hab. discriminate Hab.
Qed.

(** C5 (as amended).  [makeMonotonic] leaves the pixel of the peak as it
    was and raises no pixel.  Every pixel p of the image in the shadow of
    a pixel q of the image (q is not the peak; the shadow reaches 5 rings
    beyond the ring of q, within the slopes [ds0 .. ds1] around the
    direction from the peak to q) ends not above the value q had in the
    shadowing copy of its chunk, which is at most the value q had on
    entry.  Hence p ends not above the peak when it was not above it on
    entry, or when it lies in the shadow of a pixel that is not above the
    peak.  Nothing is promised for a pixel above the peak that no such
    pixel shadows: the ring of half-length 0 is empty, so the peak itself
    casts no shadow. *)
Theorem makeMonotonic_casts_shadows :
  im_bbox (makeMonotonic img0 cx cy) = im_bbox img0 /\
  im_pix (makeMonotonic img0 cx cy) cx cy = im_pix img0 cx cy /\
  (forall x y,
     ple (im_pix (makeMonotonic img0 cx cy) x y) (im_pix img0 x y)) /\
  (forall x y,
     ple (im_pix img0 x y) (im_pix img0 cx cy) ->
     ple (im_pix (makeMonotonic img0 cx cy) x y)
         (im_pix (makeMonotonic img0 cx cy) cx cy)) /\
  (forall qx qy px py,
     box_contains_pt (im_bbox img0) qx qy = true ->
     box_contains_pt (im_bbox img0) px py = true ->
     in_shadow (qx - cx) (qy - cy) (px - cx) (py - cy) = true ->
     ple (im_pix (shadowing_copy img0 cx cy (ring_of (qx - cx) (qy - cy)))
                 qx qy)
         (im_pix img0 qx qy) /\
     not_above (im_pix (makeMonotonic img0 cx cy) px py)
               (im_pix (shadowing_copy img0 cx cy
                                       (ring_of (qx - cx) (qy - cy)))
                       qx qy) /\
     not_above (im_pix (makeMonotonic img0 cx cy) px py)
               (im_pix img0 qx qy) /\
     (ple (im_pix (shadowing_copy img0 cx cy (ring_of (qx - cx) (qy - cy)))
                  qx qy)
          (im_pix img0 cx cy) ->
      not_above (im_pix (makeMonotonic img0 cx cy) px py)
                (im_pix (makeMonotonic img0 cx cy) cx cy)) /\
     (ple (im_pix img0 qx qy) (im_pix img0 cx cy) ->
      not_above (im_pix (makeMonotonic img0 cx cy) px py)
                (im_pix (makeMonotonic img0 cx cy) cx cy))).
Proof.
  assert (H0 : mono_inv img0 cx cy img0).
  { split; [reflexivity|]. split; [reflexivity|]. intros; left; reflexivity. }
  assert (HI : mono_inv img0 cx cy (makeMonotonic img0 cx cy)).
  { unfold makeMonotonic. cbv zeta. apply (chunks_inv pltb_trans). exact H0. }
  destruct HI as (Hb & Hpk & Hle).
  split; [exact Hb|]. split; [exact Hpk|]. split; [exact Hle|]. split.
  { intros x y Hxy. rewrite Hpk.
    destruct (Hle x y) as [E|Hlt]; [rewrite E; exact Hxy|].
    eapply (ple_lt_trans pltb_trans); eauto. }
  intros qx qy px py Hq Hp Hsh.
  set (L := ring_of (qx - cx) (qy - cy)).
  set (M := Z.max (Z.max (cx - ix0) (ix0 + iW - cx))
                  (Z.max (cy - iy0) (iy0 + iH - cy))).
  pose proof (shadow_ring_reached qx qy px py Hp Hsh) as HL.
  fold L M in HL.
  set (snap := shadowing_copy img0 cx cy L).
  assert (Hsnap : mono_inv img0 cx cy snap).
  { unfold snap, shadowing_copy. cbv zeta. apply (chunks_inv pltb_trans).
    exact H0. }
  destruct Hsnap as (Hsb & _ & Hsle).
  assert (Hhit : not_above (im_pix (makeMonotonic img0 cx cy) px py)
                           (im_pix snap qx qy)).
  { unfold makeMonotonic. cbv zeta. fold ix0 iy0 iW iH. fold M.
    assert (Hdiv : 0 <= L / 5 /\ 5 * (L / 5) <= L < 5 * (L / 5) + 5).
    { pose proof (Z.div_mod L 5 ltac:(lia)).
      pose proof (Z.mod_pos_bound L 5 ltac:(lia)).
      split; [apply Z.div_pos; lia|lia]. }
    replace (Z.to_nat M)
      with (Z.to_nat (L / 5) + S (Z.to_nat M - Z.to_nat (L / 5) - 1))%nat
      by lia.
    rewrite chunks_split.
    replace (0 + 5 * Z.of_nat (Z.to_nat (L / 5))) with (5 * (L / 5)) by lia.
    change (chunks cx cy ix0 iy0 iW iH (Z.to_nat (L / 5)) 0 M img0 img0)
      with snap.
    cbn [chunks].
    replace (5 * (L / 5) <? M) with true by (symmetry; apply Z.ltb_lt; lia).
    apply (chunks_keeps
             (fun im : Image pixel =>
                not_above (im_pix im px py) (im_pix snap qx qy))).
    - intros im psx psy pix H. apply shade_not_above. exact H.
    - apply chunk_hits; try assumption. fold L. lia. }
  assert (Hin : not_above (im_pix (makeMonotonic img0 cx cy) px py)
                          (im_pix img0 qx qy))
    by (apply (not_above_ple _ _ _ Hhit); apply Hsle).
  split; [apply Hsle|]. split; [exact Hhit|]. split; [exact Hin|]. split.
  - intros Hpeak. rewrite Hpk. apply (not_above_ple _ _ _ Hhit Hpeak).
  - intros Hpeak. rewrite Hpk. apply (not_above_ple _ _ _ Hin Hpeak).
Qed.
End Shadows.

Lemma Qc_ltb_irrefl (a : Qc) : Qc_ltb a a = false.
Proof.
  destruct (Qc_ltb a a) eqn:E; [|reflexivity].
  apply Qc_ltb_lt in E. apply Qclt_not_eq in E. exfalso. apply E.
  reflexivity.
Qed.

(** The 5x5 image with peak 10 at (2, 2) and the value 5 at (3, 2), whose
    shadow covers (4, 2). *)
Lemma makeMonotonic_casts_shadows_witness :
  im_bbox (makeMonotonic c5_wide_img 2 2) = im_bbox c5_wide_img /\
  im_pix (makeMonotonic c5_wide_img 2 2) 2 2 = im_pix c5_wide_img 2 2 /\
  (forall x y,
     ple (im_pix (makeMonotonic c5_wide_img 2 2) x y)
         (im_pix c5_wide_img x y)) /\
  (forall x y,
     ple (im_pix c5_wide_img x y) (im_pix c5_wide_img 2 2) ->
     ple (im_pix (makeMonotonic c5_wide_img 2 2) x y)
         (im_pix (makeMonotonic c5_wide_img 2 2) 2 2)) /\
  (forall qx qy px py,
     box_contains_pt (im_bbox c5_wide_img) qx qy = true ->
     box_contains_pt (im_bbox c5_wide_img) px py = true ->
     in_shadow (qx - 2) (qy - 2) (px - 2) (py - 2) = true ->
     ple (im_pix (shadowing_copy c5_wide_img 2 2
                                 (ring_of (qx - 2) (qy - 2))) qx qy)
         (im_pix c5_wide_img qx qy) /\
     not_above (im_pix (makeMonotonic c5_wide_img 2 2) px py)
               (im_pix (shadowing_copy c5_wide_img 2 2
                                       (ring_of (qx - 2) (qy - 2)))
                       qx qy) /\
     not_above (im_pix (makeMonotonic c5_wide_img 2 2) px py)
               (im_pix c5_wide_img qx qy) /\
     (ple (im_pix (shadowing_copy c5_wide_img 2 2
                                  (ring_of (qx - 2) (qy - 2))) qx qy)
          (im_pix c5_wide_img 2 2) ->
      not_above (im_pix (makeMonotonic c5_wide_img 2 2) px py)
                (im_pix (makeMonotonic c5_wide_img 2 2) 2 2)) /\
     (ple (im_pix c5_wide_img qx qy) (im_pix c5_wide_img 2 2) ->
      not_above (im_pix (makeMonotonic c5_wide_img 2 2) px py)
                (im_pix (makeMonotonic c5_wide_img 2 2) 2 2))).
Proof.
  apply (@makeMonotonic_casts_shadows ExactArith Qc_ltb_trans Qc_ltb_irrefl
           c5_wide_img 2 2).
Defined.

(** The run on the 5x5 image: (3, 2) holds 5 and its shadow lowers (4, 2)
    from 100 to 5, below the peak; (4, 4), which only pixels of value 100
    shadow, keeps 100. *)
Lemma makeMonotonic_wide_run :
  @in_shadow ExactArith (3 - 2) (2 - 2) (4 - 2) (2 - 2) = true /\
  im_pix c5_wide_img 4 2 = Qc_of_Z 100 /\
  im_pix (makeMonotonic c5_wide_img 2 2) 4 2 = Qc_of_Z 5 /\
  im_pix (makeMonotonic c5_wide_img 2 2) 2 2 = Qc_of_Z 10 /\
  im_pix (makeMonotonic c5_wide_img 2 2) 4 4 = Qc_of_Z 100.
Proof.
  split; [vm_compute; reflexivity|].
  split; [vm_compute; reflexivity|].
  split; [vm_compute; reflexivity|].
  split; [vm_compute; reflexivity|].
  vm_compute. reflexivity.
Qed.

(** C5 fails as stated: the ring of half-length 0 is empty, so the peak
    casts no shadow, and the shadows of ring 1 fall outside a 3x3 image.
    The corner pixel keeps its value 1, above the 0 of the peak. *)
Lemma makeMonotonic_leaves_brighter_pixel :
  im_pix (makeMonotonic c5_img 1 1) 0 0 = Qc_of_Z 1 /\
  im_pix (makeMonotonic c5_img 1 1) 1 1 = Qc_of_Z 0 /\
  ~ ple (im_pix (makeMonotonic c5_img 1 1) 0 0)
        (im_pix (makeMonotonic c5_img 1 1) 1 1).
Proof.
  assert (E1 : im_pix (makeMonotonic c5_img 1 1) 0 0 = Qc_of_Z 1)
    by (vm_compute; reflexivity).
  assert (E0 : im_pix (makeMonotonic c5_img 1 1) 1 1 = Qc_of_Z 0)
    by (vm_compute; reflexivity).
  split; [exact E1|]. split; [exact E0|].
  rewrite E1, E0. intros [H|H]; [|vm_compute in H]; discriminate.
Qed.

(** * Boxes, bounding boxes and the portion loop *)

Lemma isEmpty_no_point b x y : isEmpty b = true -> box_contains_pt b x y = false.
Proof.
  unfold isEmpty, box_contains_pt. rewrite orb_true_iff, !Z.ltb_lt.
  intros H. apply not_true_is_false. rewrite !andb_true_iff, !Z.leb_le. lia.
Qed.

Lemma box_clip_pt a b x y :
  box_contains_pt (box_clip a b) x y =
  box_contains_pt a x y && box_contains_pt b x y.
Proof.
  unfold box_clip.
  destruct (isEmpty a) eqn:Ea.
  { rewrite (isEmpty_no_point a x y Ea). reflexivity. }
  destruct (isEmpty b) eqn:Eb.
  { rewrite (isEmpty_no_point b x y Eb), andb_false_r.
    apply isEmpty_no_point. reflexivity. }
  match goal with |- context [isEmpty ?r] => destruct (isEmpty r) eqn:Er end.
  - rewrite (isEmpty_no_point box_empty x y eq_refl). symmetry.
    pose proof (isEmpty_no_point _ x y Er) as Hn.
    apply not_true_iff_false in Hn. apply not_true_iff_false.
    rewrite andb_true_iff, !box_contains_pt_iff in *.
    cbn [minX minY maxX maxY] in Hn. lia.
  - apply eq_true_iff_eq.
    rewrite andb_true_iff, !box_contains_pt_iff. cbn [minX minY maxX maxY]. lia.
Qed.

Lemma box_contains_pt_sub b o x y :
  box_contains b o = true -> box_contains_pt o x y = true ->
  box_contains_pt b x y = true.
Proof.
  unfold box_contains. intros H Hp.
  apply orb_true_iff in H. destruct H as [He|H].
  - rewrite (isEmpty_no_point o x y He) in Hp. discriminate.
  - rewrite !andb_true_iff, !Z.leb_le in H.
    rewrite box_contains_pt_iff in *. lia.
Qed.

Lemma box_include_self b x y : box_contains_pt (box_include b x y) x y = true.
Proof.
  unfold box_include. destruct (isEmpty b); apply box_contains_pt_iff;
    cbn [minX minY maxX maxY]; lia.
Qed.

Lemma box_include_mono b x y x' y' :
  box_contains_pt b x' y' = true ->
  box_contains_pt (box_include b x y) x' y' = true.
Proof.
  intros H. unfold box_include. destruct (isEmpty b) eqn:E.
  - rewrite (isEmpty_no_point b x' y' E) in H. discriminate.
  - rewrite box_contains_pt_iff in *. cbn [minX minY maxX maxY]. lia.
Qed.

Lemma spans_bbox_fold l :
  forall b,
    let r := fold_left (fun b s =>
               box_include (box_include b (sp_x0 s) (sp_y s))
                           (sp_x1 s) (sp_y s)) l b in
    (forall x y, box_contains_pt b x y = true -> box_contains_pt r x y = true) /\
    (forall s, In s l ->
       box_contains_pt r (sp_x0 s) (sp_y s) = true /\
       box_contains_pt r (sp_x1 s) (sp_y s) = true).
Proof.
  induction l as [|a l IH]; intros b; cbn [fold_left].
  - split; [auto|intros s []].
  - destruct (IH (box_include (box_include b (sp_x0 a) (sp_y a))
                              (sp_x1 a) (sp_y a))) as (Hm & Hs).
    split.
    + intros x y H. apply Hm. apply box_include_mono, box_include_mono. exact H.
    + intros s [<-|Hin]; [|apply Hs; exact Hin].
      split; apply Hm.
      * apply box_include_mono, box_include_self.
      * apply box_include_self.
Qed.

Lemma foot_contains_bbox f x y :
  foot_contains f x y = true -> box_contains_pt (getBBox f) x y = true.
Proof.
  intros H. apply spans_contain_In in H. destruct H as (s & Hin & Hc).
  apply span_contains_iff in Hc. destruct Hc as (Hx & ->).
  destruct (spans_bbox_fold (fp_spans f) box_empty) as (_ & Hs).
  destruct (Hs s Hin) as (H0 & H1).
  unfold getBBox, spans_bbox.
  rewrite box_contains_pt_iff in *. lia.
Qed.

Lemma mapM_Forall2 {X Y : Type} (f : X -> Res Y) (l : list X) :
  forall ys, mapM f l = Ok ys -> Forall2 (fun x y => f x = Ok y) l ys.
Proof.
  induction l as [|a l IH]; intros ys H; cbn [mapM] in H.
  - inversion H. constructor.
  - destruct (f a) as [y| | |] eqn:Ea; cbn [bind] in H; try discriminate.
    destruct (mapM f l) as [ys'| | |] eqn:El; cbn [bind] in H; try discriminate.
    inversion H; subst. constructor; auto.
Qed.

Lemma mapM_Ok {X Y : Type} (f : X -> Res Y) (l : list X) :
  (forall x, In x l -> exists y, f x = Ok y) -> exists ys, mapM f l = Ok ys.
Proof.
  induction l as [|a l IH]; intros H; cbn [mapM].
  - eexists; reflexivity.
  - destruct (H a (or_introl eq_refl)) as (y & Ey). rewrite Ey. cbn [bind].
    destruct IH as (ys & Eys); [intros x Hx; apply H; right; exact Hx|].
    rewrite Eys. cbn [bind]. eexists; reflexivity.
Qed.

Section Portions.
Context {A : PixelArith}.

Lemma mi_set_same (m : MaskedImage) x y v mk vr :
  mi_image (mi_set m x y v mk vr) x y = v /\
  mi_mask (mi_set m x y v mk vr) x y = mk /\
  mi_variance (mi_set m x y v mk vr) x y = vr.
Proof. unfold mi_set; cbn. rewrite !Z.eqb_refl. auto. Qed.

Lemma mi_set_other (m : MaskedImage) x y v mk vr x' y' :
  (x', y') <> (x, y) ->
  mi_image (mi_set m x y v mk vr) x' y' = mi_image m x' y' /\
  mi_mask (mi_set m x y v mk vr) x' y' = mi_mask m x' y' /\
  mi_variance (mi_set m x y v mk vr) x' y' = mi_variance m x' y'.
Proof.
  intros H. unfold mi_set; cbn.
  destruct (x' =? x) eqn:Ex; cbn; auto.
  destruct (y' =? y) eqn:Ey; cbn; auto.
  apply Z.eqb_eq in Ex, Ey. subst. congruence.
Qed.

(** The value written into a portion at (x, y). *)
Lemma portion_pixel_cases img tsum timg port x y :
  (peqb (im_pix tsum x y) p0 = true /\
   portion_pixel img tsum timg port (x, y) = Ok port) \/
  (peqb (im_pix tsum x y) p0 = false /\
   box_contains_pt (mi_bbox img) x y = true /\
   portion_pixel img tsum timg port (x, y) =
   Ok (mi_set port x y
         (pixel_of_dbl
            (dmul (dbl_of_pixel (mi_image img x y))
                  (dbl_of_pixel (pdiv (pmax p0 (im_pix timg x y))
                                      (im_pix tsum x y)))))
         (mi_mask img x y) (mi_variance img x y))) \/
  (peqb (im_pix tsum x y) p0 = false /\
   box_contains_pt (mi_bbox img) x y = false /\
   portion_pixel img tsum timg port (x, y) = Undef).
Proof.
  unfold portion_pixel, mi_read.
  destruct (peqb (im_pix tsum x y) p0); [left; auto|right].
  destruct (box_contains_pt (mi_bbox img) x y); [left|right]; auto.
Qed.

Lemma portion_fold_spec img tsum timg :
  forall l port port',
    NoDup l ->
    foldM (portion_pixel img tsum timg) l port = Ok port' ->
    mi_bbox port' = mi_bbox port /\
    forall x y,
      (In (x, y) l -> peqb (im_pix tsum x y) p0 = false ->
       mi_image port' x y =
         pixel_of_dbl
           (dmul (dbl_of_pixel (mi_image img x y))
                 (dbl_of_pixel (pdiv (pmax p0 (im_pix timg x y))
                                     (im_pix tsum x y)))) /\
       mi_mask port' x y = mi_mask img x y /\
       mi_variance port' x y = mi_variance img x y) /\
      ((~ In (x, y) l \/ peqb (im_pix tsum x y) p0 = true) ->
       mi_image port' x y = mi_image port x y /\
       mi_mask port' x y = mi_mask port x y /\
       mi_variance port' x y = mi_variance port x y).
Proof.
  induction l as [|[px py] l IH]; intros port port' Hnd H.
  - cbn [foldM] in H. inversion H; subst. split; [reflexivity|].
    intros x y. split; [intros []|auto].
  - inversion Hnd as [|? ? Hnin Hnd']; subst. cbn [foldM] in H.
    destruct (portion_pixel_cases img tsum timg port px py)
      as [(Ez & E)|[(Ez & Hin & E)|(Ez & Hin & E)]];
      rewrite E in H; cbn [bind] in H; try discriminate.
    + destruct (IH _ _ Hnd' H) as (Hb & Hp). split; [exact Hb|].
      intros x y. destruct (Hp x y) as (H1 & H2). split.
      * intros [Eq|Hl] Hz; [inversion Eq; subst; congruence|auto].
      * intros Hor. apply H2. destruct Hor as [Hn|Hz]; [left|right; exact Hz].
        intros Hl. apply Hn. right. exact Hl.
    + destruct (IH _ _ Hnd' H) as (Hb & Hp). split; [exact Hb|].
      intros x y. destruct (Hp x y) as (H1 & H2). split.
      * intros [Eq|Hl] Hz.
        -- inversion Eq; subst. destruct (H2 (or_introl Hnin)) as (E1 & E2 & E3).
           rewrite E1, E2, E3. apply mi_set_same.
        -- auto.
      * intros Hor.
        assert (Hne : (x, y) <> (px, py)).
        { intros Eq. inversion Eq; subst. destruct Hor as [Hn|Hz].
          - apply Hn. left. reflexivity.
          - congruence. }
        destruct (H2 ltac:(destruct Hor as [Hn|Hz];
                           [left; intros Hl; apply Hn; right; exact Hl
                           |right; exact Hz])) as (E1 & E2 & E3).
        rewrite E1, E2, E3. apply mi_set_other. exact Hne.
Qed.

Lemma portion_fold_Ok img tsum timg :
  forall l port,
    (forall x y, In (x, y) l -> box_contains_pt (mi_bbox img) x y = true) ->
    exists port', foldM (portion_pixel img tsum timg) l port = Ok port'.
Proof.
  induction l as [|[px py] l IH]; intros port Hin; cbn [foldM].
  - eexists; reflexivity.
  - destruct (portion_pixel_cases img tsum timg port px py)
      as [(Ez & E)|[(Ez & Hi & E)|(Ez & Hi & E)]]; rewrite E; cbn [bind].
    + apply IH. intros x y Hl. apply Hin. right. exact Hl.
    + apply IH. intros x y Hl. apply Hin. right. exact Hl.
    + rewrite (Hin px py (or_introl eq_refl)) in Hi. discriminate.
Qed.
End Portions.

(** * Flux conservation *)

Section ApportionInv.
Context {A : PixelArith}.

Lemma apportionFlux_Ok_inv img foot timgs tfoots tsum0 ispsf pkx pky opts clip
      portions strays tsum :
  apportionFlux img foot timgs tfoots tsum0 ispsf pkx pky opts clip
  = Ok (portions, strays, tsum) ->
  length timgs = length tfoots /\
  check_bboxes img foot (combine timgs tfoots) = Ok tt /\
  box_contains (im_bbox (initial_tsum foot tsum0)) (getBBox foot) = true /\
  tsum = sum_templates timgs (initial_tsum foot tsum0) /\
  mapM (make_portion img tsum) timgs = Ok portions.
Proof.
  unfold apportionFlux. fold (initial_tsum foot tsum0).
  destruct (length timgs =? length tfoots)%nat eqn:El; cbn [negb]; [|discriminate].
  apply Nat.eqb_eq in El.
  destruct (check_bboxes img foot (combine timgs tfoots)) as [[]| | |];
    cbn [bind]; try discriminate.
  destruct (box_contains (im_bbox (initial_tsum foot tsum0)) (getBBox foot)) eqn:Eb;
    cbn [negb]; [|discriminate].
  destruct (mapM _ timgs) as [ps| | |] eqn:Em; cbn [bind]; try discriminate.
  destruct (flag_set opts ASSIGN_STRAYFLUX).
  - destruct (_ && _); [discriminate|].
    destruct (_ || _); [discriminate|].
    destruct (find_stray_flux _ _ _ _ _ _ _ _ _) as [st| | |]; cbn [bind];
      try discriminate.
    intros H. inversion H; subst. auto.
  - intros H. inversion H; subst. auto.
Qed.

Lemma make_portion_spec img tsum timg port :
  make_portion img tsum timg = Ok port ->
  mi_bbox port = im_bbox timg /\
    forall x y,
      box_contains_pt (im_bbox tsum) x y = true ->
    peqb (im_pix tsum x y) p0 = false ->
    portion_value port x y =
    if box_contains_pt (im_bbox timg) x y then
         pixel_of_dbl
           (dmul (dbl_of_pixel (mi_image img x y))
                 (dbl_of_pixel (pdiv (pmax p0 (im_pix timg x y))
                                  (im_pix tsum x y))))
    else p0.
Proof.
  unfold make_portion. intros H.
  destruct (portion_fold_spec img tsum timg _ _ _ (box_pixels_NoDup _) H)
    as (Hb & Hp).
  cbn [mi_zero mi_bbox] in Hb. split; [exact Hb|].
  intros x y Hs Hz. unfold portion_value. rewrite Hb.
  destruct (box_contains_pt (im_bbox timg) x y) eqn:Et; [|reflexivity].
  destruct (Hp x y) as (H1 & _). apply H1; [|exact Hz].
  apply box_pixels_In. rewrite box_clip_pt, Et, Hs. reflexivity.
Qed.
End ApportionInv.

Section ApportionReturns.
Context {A : PixelArith}.

Lemma box_contains_refl b : box_contains b b = true.
Proof.
  unfold box_contains. destruct (isEmpty b); [reflexivity|]. cbn [orb].
  rewrite !Z.leb_refl. reflexivity.
Qed.

Lemma check_bboxes_Ok img foot timgs tfoots :
  Forall2 (fun timg tfoot =>
             box_contains (im_bbox timg) (getBBox tfoot) = true) timgs tfoots ->
  box_contains (mi_bbox img) (getBBox foot) = true ->
  check_bboxes img foot (combine timgs tfoots) = Ok tt.
Proof.
  intros HF Hi. induction HF as [|t f ts fs Htf _ IH]; [reflexivity|].
  cbn [combine check_bboxes]. rewrite Htf, Hi. cbn [negb]. exact IH.
Qed.

(** Without a supplied template sum and without stray flux, the routine
    returns whenever its documented preconditions hold. *)
Lemma apportionFlux_returns img foot timgs tfoots ispsf pkx pky opts clip :
  length timgs = length tfoots ->
  Forall2 (fun timg tfoot =>
             box_contains (im_bbox timg) (getBBox tfoot) = true) timgs tfoots ->
  box_contains (mi_bbox img) (getBBox foot) = true ->
  flag_set opts ASSIGN_STRAYFLUX = false ->
  exists portions,
    apportionFlux img foot timgs tfoots None ispsf pkx pky opts clip
    = Ok (portions, [],
          sum_templates timgs (im_const (getBBox foot) p0)).
Proof.
  intros Hlen HF Hi Hflag. unfold apportionFlux.
  rewrite Hlen, Nat.eqb_refl. cbn [negb].
  rewrite (check_bboxes_Ok _ _ _ _ HF Hi). cbn [bind im_const im_bbox].
  rewrite box_contains_refl. cbn [negb]. rewrite Hflag.
  set (tsum := sum_templates timgs (im_const (getBBox foot) p0)).
  destruct (mapM_Ok (make_portion img tsum) timgs) as (ps & Eps).
  - intros timg _. unfold make_portion. apply portion_fold_Ok.
    intros x y Hin. apply box_pixels_In in Hin.
    rewrite box_clip_pt in Hin. apply andb_true_iff in Hin.
    destruct Hin as (_ & Hs).
    destruct (sum_templates_spec timgs (im_const (getBBox foot) p0)) as (Hb & _).
    fold tsum in Hb. rewrite Hb in Hs. cbn [im_const im_bbox] in Hs.
    eapply box_contains_pt_sub; eauto.
  - rewrite Eps. cbn [bind]. exists ps. reflexivity.
Qed.
End ApportionReturns.

(** Exact arithmetic. *)
Lemma Qc_eq_bool_false (a b : Qc) : a <> b -> Qc_eq_bool a b = false.
Proof.
  intros H. destruct (Qc_eq_bool a b) eqn:E; [|reflexivity].
  apply Qc_eq_bool_correct in E. contradiction.
Qed.

Lemma Qc_ltb_0_neq (t : Qc) : Qc_ltb (Qc_of_Z 0) t = true -> t <> Qc_of_Z 0.
Proof.
  intros H E. subst. vm_compute in H. discriminate.
Qed.

Ltac exact_arith :=
  change (@pixel ExactArith) with Qc in *;
  change (@dbl ExactArith) with Qc in *;
  change (@padd ExactArith) with Qcplus in *;
  change (@pdiv ExactArith) with Qcdiv in *;
  change (@dmul ExactArith) with Qcmult in *;
  change (@p0 ExactArith) with (Q2Qc 0) in *.

Open Scope Qc_scope.

Lemma Qc_template_sum_at sumbb (timgs : list (Image (@pixel ExactArith)))
      x y (init : @pixel ExactArith) :
  template_sum_at sumbb timgs x y init =
  init + fold_right
           (fun timg s =>
              (if box_contains_pt (box_clip (im_bbox timg) sumbb) x y
               then pmax p0 (im_pix timg x y) else 0) + s)
           0 timgs.
Proof.
  unfold template_sum_at. revert init.
  induction timgs as [|t r IH]; intros init; cbn [fold_left fold_right].
  - exact_arith. ring.
  - rewrite IH. destruct (box_contains_pt _ x y); exact_arith; ring.
Qed.

Lemma Qc_share_sum (I T : Qc) (cs : list Qc) :
  T <> 0 ->
  fold_right (fun c acc => I * (c / T) + acc) 0 cs =
  I * (fold_right Qcplus 0 cs / T).
Proof.
  intros HT. induction cs as [|c cs IH]; cbn [fold_right].
  - field. exact HT.
  - rewrite IH. field. exact HT.
Qed.

Close Scope Qc_scope.

Lemma tsum_clear_initial (foot : Footprint)
      (tsum0 : option (Image (@pixel ExactArith))) x y :
  tsum_clear foot tsum0 -> foot_contains foot x y = true ->
  im_pix (initial_tsum foot tsum0) x y = p0.
Proof.
  destruct tsum0 as [t|]; cbn [tsum_clear initial_tsum].
  - intros H Hin. apply H. exact Hin.
  - intros _ _. reflexivity.
Qed.

(** C2 (as amended): in exact arithmetic, when the template sum is absent
    or zero on the footprint on entry and [apportionFlux] returns with
    [tsum(p) > 0] at every pixel of the parent footprint, the portions sum to
    the image at every pixel of the footprint. *)
Theorem apportionFlux_conserves_flux
        (img : @MaskedImage ExactArith) (foot : Footprint)
        (timgs : list (Image (@pixel ExactArith))) (tfoots : list Footprint)
        (tsum0 : option (Image (@pixel ExactArith)))
        (ispsf : list bool) (pkx pky : list Z)
        (opts : Z) (clip : @dbl ExactArith)
        (portions : list (@MaskedImage ExactArith))
        (strays : list (option (@HeavyFootprint ExactArith)))
        (tsum : Image (@pixel ExactArith)) :
  tsum_clear foot tsum0 ->
  apportionFlux img foot timgs tfoots tsum0 ispsf pkx pky opts clip
  = Ok (portions, strays, tsum) ->
  (forall x y, foot_contains foot x y = true ->
               pltb p0 (im_pix tsum x y) = true) ->
  forall x y, foot_contains foot x y = true ->
              sum_portions portions x y = mi_image img x y.
Proof.
  intros Hclear Hrun Hpos x y Hin.
  destruct (apportionFlux_Ok_inv _ _ _ _ _ _ _ _ _ _ _ _ _ Hrun)
    as (_ & _ & Hbox & Htsum & Hmap).
  pose proof (tsum_clear_initial foot tsum0 x y Hclear Hin) as Hinit.
  remember (initial_tsum foot tsum0) as tsumI eqn:EI.
  destruct (sum_templates_spec timgs tsumI) as (Hbb & Hpix).
  rewrite <- Htsum in Hbb, Hpix.
  assert (Hsum : box_contains_pt (im_bbox tsum) x y = true).
  { rewrite Hbb. eapply box_contains_pt_sub; [exact Hbox|].
    apply foot_contains_bbox. exact Hin. }
  pose proof (Hpos x y Hin) as HT.
  pose proof (Qc_ltb_0_neq _ HT) as HT0.
  assert (Hz : peqb (im_pix tsum x y) p0 = false)
    by (apply Qc_eq_bool_false; exact HT0).
  pose proof (Hpix x y) as HTsum.
  rewrite Qc_template_sum_at, Hinit in HTsum.
  apply mapM_Forall2 in Hmap.
  set (c := fun timg : Image (@pixel ExactArith) =>
              if box_contains_pt (box_clip (im_bbox timg) (im_bbox tsumI)) x y
              then pmax p0 (im_pix timg x y) else 0%Qc) in *.
  assert (Hshare : forall ts ps,
            Forall2 (fun t p => make_portion img tsum t = Ok p) ts ps ->
            sum_portions ps x y =
            fold_right (fun cv acc =>
                          (mi_image img x y * (cv / im_pix tsum x y) + acc)%Qc)
                       0%Qc (map c ts)).
  { intros ts ps HF.
    induction HF as [|timg port ts' ps' Hmk _ IH]; [reflexivity|].
    assert (Hhead : portion_value port x y =
                    (mi_image img x y * (c timg / im_pix tsum x y))%Qc).
    { destruct (make_portion_spec _ _ _ _ Hmk) as (_ & Hv).
      rewrite (Hv x y Hsum Hz). unfold c.
      rewrite box_clip_pt, <- Hbb, Hsum, andb_true_r.
      destruct (box_contains_pt (im_bbox timg) x y).
      - reflexivity.
      - exact_arith. field. exact HT0. }
    change (sum_portions (port :: ps') x y)
      with (portion_value port x y + sum_portions ps' x y)%Qc.
    rewrite Hhead, IH. reflexivity. }
  rewrite (Hshare _ _ Hmap).
  rewrite Qc_share_sum by exact HT0.
  assert (HS : fold_right Qcplus 0%Qc (map c timgs) = im_pix tsum x y).
  { rewrite HTsum. clear. induction timgs as [|t r IH]; cbn [map fold_right].
    - exact_arith. ring.
    - rewrite IH. unfold c. exact_arith. ring. }
  rewrite HS. exact_arith. field. exact HT0.
Qed.

Lemma c2_foot_pixel x y : foot_contains c2_foot x y = true -> x = 0 /\ y = 0.
Proof.
  intros H. apply spans_contain_In in H. destruct H as (s & [<-|[]] & Hc).
  apply span_contains_iff in Hc. cbn [sp_x0 sp_x1 sp_y] in Hc. lia.
Qed.

(** One template of value 1 over a footprint of one pixel of value 1. *)
Lemma apportionFlux_conserves_flux_witness :
  foot_contains c2_foot 0 0 = true /\
  sum_portions (portions_of c2_run) 0 0 = mi_image c2_img 0 0.
Proof.
  split; [reflexivity|].
  apply (apportionFlux_conserves_flux
           c2_img c2_foot [c2_template] [c2_foot] None [] [] [] 0 (Qc_of_Z 0)
           (portions_of c2_run) (strays_of c2_run)
           (tsum_of c2_run c2_template)).
  - exact I.
  - vm_compute. reflexivity.
  - intros x y H. apply c2_foot_pixel in H. destruct H as [-> ->].
    vm_compute. reflexivity.
  - reflexivity.
Defined.

(** Even in exact arithmetic the portions lose flux when the caller supplies
    a template sum that is not zero: the templates are accumulated into it
    (see [sum_templates_keeps_old_contents]).  With a supplied sum that
    holds 1, the template sum is 2 > 0 on the footprint and the single
    portion is 1/2, the image is 1. *)
Lemma apportionFlux_loses_flux :
  (forall x y, foot_contains c2_foot x y = true ->
     pltb p0 (im_pix (tsum_of c2_dirty_run c2_template) x y) = true) /\
  foot_contains c2_foot 0 0 = true /\
  sum_portions (portions_of c2_dirty_run) 0 0 = Q2Qc (1 # 2) /\
  mi_image c2_img 0 0 = Qc_of_Z 1 /\
  sum_portions (portions_of c2_dirty_run) 0 0 <> mi_image c2_img 0 0.
Proof.
  split.
  { intros x y H. apply c2_foot_pixel in H. destruct H as [-> ->].
    vm_compute. reflexivity. }
  split; [reflexivity|].
  assert (E : sum_portions (portions_of c2_dirty_run) 0 0 = Q2Qc (1 # 2))
    by (vm_compute; reflexivity).
  split; [exact E|]. split; [reflexivity|].
  rewrite E. intros H. apply (f_equal this) in H. vm_compute in H. discriminate.
Qed.

(** ** Flux conservation in IEEE arithmetic *)

(** C2 fails as stated: in IEEE arithmetic the shares are rounded.  With
    no template sum supplied, a pixel of value 7 under templates of values
    1 and 2 has the template sum 3 > 0; the portions are the binary32
    numbers next to 7/3 and 14/3, and their sum is 7 + 2^-21. *)
Lemma apportionFlux_rounds :
  (forall x y, foot_contains c2_foot x y = true ->
     pltb p0 (im_pix (tsum_of c2_ieee_run c2_ieee_t1) x y) = true) /\
  foot_contains c2_foot 0 0 = true /\
  mi_image c2_ieee_img 0 0 = S754_finite false 14680064 (-21) /\
  sum_portions (portions_of c2_ieee_run) 0 0
  = S754_finite false 14680065 (-21) /\
  peqb (sum_portions (portions_of c2_ieee_run) 0 0)
       (mi_image c2_ieee_img 0 0) = false /\
  sum_portions (portions_of c2_ieee_run) 0 0 <> mi_image c2_ieee_img 0 0.
Proof.
  split.
  { intros x y H. apply c2_foot_pixel in H. destruct H as [-> ->].
    vm_compute. reflexivity. }
  split; [reflexivity|].
  split; [vm_compute; reflexivity|].
  assert (E : sum_portions (portions_of c2_ieee_run) 0 0
              = S754_finite false 14680065 (-21))
    by (vm_compute; reflexivity).
  split; [exact E|]. split; [vm_compute; reflexivity|].
  rewrite E. vm_compute. discriminate.
Qed.

(** ** Stray flux weighted by the distance to the peaks *)

Lemma upd_nth_length {T : Type} (l : list T) i v :
  length (upd_nth l i v) = length l.
Proof.
  revert i; induction l as [|a l IH]; intros [|i]; cbn [upd_nth length]; auto.
Qed.

Lemma upd_nth_nth {T : Type} (l : list T) i v d j :
  (i < length l)%nat ->
  nth j (upd_nth l i v) d = if (j =? i)%nat then v else nth j l d.
Proof.
  revert i j; induction l as [|a l IH]; intros i j Hi; [simpl in Hi; lia|].
  destruct i as [|i]; destruct j as [|j]; cbn [upd_nth nth Nat.eqb]; auto.
  apply IH. simpl in Hi. lia.
Qed.

Lemma vec_get_nth {T : Type} (l : list T) i d :
  (i < length l)%nat -> vec_get l i = Ok (nth i l d).
Proof.
  intros Hi. unfold vec_get. rewrite (nth_error_nth' l d Hi). reflexivity.
Qed.

Lemma vec_set_ok {T : Type} (l : list T) i v :
  (i < length l)%nat -> vec_set l i v = Ok (upd_nth l i v).
Proof.
  intros Hi. unfold vec_set.
  replace (i <? length l)%nat with true by (symmetry; apply Nat.ltb_lt; exact Hi).
  reflexivity.
Qed.

Lemma mapM_seq_Ok {Y : Type} (f : nat -> Res Y) (g : nat -> Y) :
  forall n k, (forall i, (k <= i < k + n)%nat -> f i = Ok (g i)) ->
    mapM f (seq k n) = Ok (map g (seq k n)).
Proof.
  induction n as [|n IH]; intros k H; [reflexivity|].
  cbn [seq mapM map]. rewrite H by lia. cbn [bind].
  rewrite IH by (intros i Hi; apply H; lia). reflexivity.
Qed.

Section StrayProof.
Context {A : PixelArith}.
Variable foot : Footprint.
Variable tsum : Image pixel.
Variable img : MaskedImage.
Variable opts : Z.
Variable tfoots : list Footprint.
Variable ispsf : list bool.
Variables pkx pky : list Z.
Variable clip : dbl.

Let N := length tfoots.

Hypothesis Hpkx : length pkx = N.
Hypothesis Hpky : length pky = N.
Hypothesis Hpsf : length ispsf = 0%nat \/ length ispsf = N.
Hypothesis Hmode1 : flag_set opts STRAYFLUX_R_TO_FOOTPRINT = false.
Hypothesis Hmode2 : flag_set opts STRAYFLUX_NEAREST_FOOTPRINT = false.
Hypothesis Hsentinel :
  forall px py x y, deqb (peak_weight px py x y) (dbl_of_Z (-1)) = false.

Section Pixel.
Variables x y : Z.

Let wt := stray_weight pkx pky x y.
Let w := map wt (seq 0 N).

Lemma w_length : length w = N.
Proof. unfold w. rewrite length_map, length_seq. reflexivity. Qed.

Lemma w_nth i : (i < N)%nat -> nth i w d0 = wt i.
Proof.
  intros Hi. unfold w.
  rewrite (nth_indep _ d0 (wt 0%nat)) by (rewrite length_map, length_seq; exact Hi).
  rewrite map_nth. rewrite seq_nth by exact Hi. reflexivity.
Qed.

Lemma init_contrib_peak nearest :
  init_contrib opts tfoots pkx pky nearest x y = Ok w.
Proof.
  unfold init_contrib. rewrite Hmode1, Hmode2. unfold templates, w.
  apply mapM_seq_Ok. intros i Hi. fold N in Hi.
  rewrite (vec_get_nth pkx i 0) by lia. cbn [bind].
  rewrite (vec_get_nth pky i 0) by lia. reflexivity.
Qed.

Lemma skip_ptsrc_ok ptsrcs i :
  (i < N)%nat -> skip_ptsrc ispsf ptsrcs i = Ok (stray_skipped ispsf ptsrcs i).
Proof.
  intros Hi. unfold skip_ptsrc, stray_skipped.
  destruct ptsrcs; cbn [negb andb]; [reflexivity|].
  destruct (length ispsf =? 0)%nat eqn:E; cbn [negb]; [reflexivity|].
  apply Nat.eqb_neq in E. apply vec_get_nth. lia.
Qed.

Lemma just_in_time_id i :
  (i < N)%nat -> just_in_time tfoots x y w i = Ok w.
Proof.
  intros Hi. unfold just_in_time.
  rewrite (vec_get_nth w i d0) by (rewrite w_length; exact Hi). cbn [bind].
  rewrite w_nth by exact Hi. unfold wt, stray_weight. rewrite Hsentinel.
  reflexivity.
Qed.

Lemma round1_peak ptsrcs :
  forall n k csum, (k + n = N)%nat ->
    round1 tfoots ispsf ptsrcs x y (seq k n) w csum =
    Ok (w, fold_left
             (fun s i => if negb (stray_skipped ispsf ptsrcs i)
                         then dadd s (wt i) else s)
             (seq k n) csum).
Proof.
  induction n as [|n IH]; intros k csum Hk; [reflexivity|].
  cbn [seq round1 fold_left]. rewrite skip_ptsrc_ok by lia. cbn [bind].
  destruct (stray_skipped ispsf ptsrcs k); cbn [negb].
  - apply IH. lia.
  - rewrite just_in_time_id by lia. cbn [bind].
    rewrite (vec_get_nth w k d0) by (rewrite w_length; lia). cbn [bind].
    rewrite w_nth by lia. apply IH. lia.
Qed.

Lemma round2_peak :
  forall n k csum, (k + n = N)%nat ->
    round2 tfoots x y (seq k n) w csum =
    Ok (w, fold_left (fun s i => if true then dadd s (wt i) else s)
                     (seq k n) csum).
Proof.
  induction n as [|n IH]; intros k csum Hk; [reflexivity|].
  cbn [seq round2 fold_left].
  rewrite just_in_time_id by lia. cbn [bind].
  rewrite (vec_get_nth w k d0) by (rewrite w_length; lia). cbn [bind].
  rewrite w_nth by lia. apply IH. lia.
Qed.

Lemma clip_loop_peak ptsrcs strayclip :
  forall n k c csum, (k + n = N)%nat -> length c = N ->
    (forall i, (k <= i < N)%nat -> nth i c d0 = wt i) ->
    exists c',
      clip_loop ispsf ptsrcs strayclip (seq k n) c csum =
      Ok (c', fold_left
                (fun s i => if negb (stray_skipped ispsf ptsrcs i)
                               && negb (dltb (wt i) strayclip)
                            then dadd s (wt i) else s)
                (seq k n) csum) /\
      length c' = N /\
      forall i, (i < N)%nat ->
        nth i c' d0 =
        if (k <=? i)%nat then
          (if negb (stray_skipped ispsf ptsrcs i)
              && negb (dltb (wt i) strayclip)
           then wt i else d0)
        else nth i c d0.
Proof.
  induction n as [|n IH]; intros k c csum Hk Hlen Hc.
  - exists c. cbn [seq clip_loop fold_left]. split; [reflexivity|].
    split; [exact Hlen|]. intros i Hi.
    replace (k <=? i)%nat with false by (symmetry; apply Nat.leb_gt; lia).
    reflexivity.
  - cbn [seq clip_loop fold_left]. rewrite skip_ptsrc_ok by lia. cbn [bind].
    assert (Hzero : forall csum',
              (negb (stray_skipped ispsf ptsrcs k)
               && negb (dltb (wt k) strayclip) = false) ->
              exists c',
                clip_loop ispsf ptsrcs strayclip (seq (S k) n)
                          (upd_nth c k d0) csum' =
                Ok (c', fold_left
                          (fun s i => if negb (stray_skipped ispsf ptsrcs i)
                                         && negb (dltb (wt i) strayclip)
                                      then dadd s (wt i) else s)
                          (seq (S k) n) csum') /\
                length c' = N /\
                forall i, (i < N)%nat ->
                  nth i c' d0 =
                  if (k <=? i)%nat then
                    (if negb (stray_skipped ispsf ptsrcs i)
                        && negb (dltb (wt i) strayclip)
                     then wt i else d0)
                  else nth i c d0).
    { intros csum' Hkeep.
      destruct (IH (S k) (upd_nth c k d0) csum') as (c' & E & Hl & Hn).
      - lia.
      - rewrite upd_nth_length. exact Hlen.
      - intros i Hi. rewrite upd_nth_nth by lia.
        replace (i =? k)%nat with false by (symmetry; apply Nat.eqb_neq; lia).
        apply Hc. lia.
      - exists c'. split; [exact E|]. split; [exact Hl|].
        intros i Hi. rewrite (Hn i Hi).
        destruct (Nat.eq_dec i k) as [->|Hne].
        + replace (S k <=? k)%nat with false by (symmetry; apply Nat.leb_gt; lia).
          rewrite upd_nth_nth by lia. rewrite Nat.eqb_refl, Nat.leb_refl.
          rewrite Hkeep. reflexivity.
        + destruct (S k <=? i)%nat eqn:E1.
          * apply Nat.leb_le in E1.
            replace (k <=? i)%nat with true by (symmetry; apply Nat.leb_le; lia).
            reflexivity.
          * apply Nat.leb_gt in E1.
            replace (k <=? i)%nat with false by (symmetry; apply Nat.leb_gt; lia).
            rewrite upd_nth_nth by lia.
            replace (i =? k)%nat with false by (symmetry; apply Nat.eqb_neq; lia).
            reflexivity. }
    destruct (stray_skipped ispsf ptsrcs k) eqn:Esk; cbn [negb andb].
    + rewrite vec_set_ok by lia. cbn [bind]. apply Hzero. reflexivity.
    + rewrite (vec_get_nth c k d0) by lia. cbn [bind].
      rewrite Hc by lia.
      destruct (dltb (wt k) strayclip) eqn:Elt; cbn [negb].
      * rewrite vec_set_ok by lia. cbn [bind]. apply Hzero.
        rewrite ?Esk, ?Elt. reflexivity.
      * destruct (IH (S k) c (dadd csum (wt k))) as (c' & E & Hl & Hn).
        -- lia.
        -- exact Hlen.
        -- intros i Hi. apply Hc. lia.
        -- exists c'. split; [exact E|]. split; [exact Hl|].
           intros i Hi. rewrite (Hn i Hi).
           destruct (Nat.eq_dec i k) as [->|Hne].
           ++ replace (S k <=? k)%nat with false
                by (symmetry; apply Nat.leb_gt; lia).
              rewrite Nat.leb_refl, ?Esk, ?Elt. cbn [negb andb].
              apply Hc. lia.
           ++ destruct (S k <=? i)%nat eqn:E1.
              ** apply Nat.leb_le in E1.
                 replace (k <=? i)%nat with true
                   by (symmetry; apply Nat.leb_le; lia).
                 reflexivity.
              ** apply Nat.leb_gt in E1.
                 replace (k <=? i)%nat with false
                   by (symmetry; apply Nat.leb_gt; lia).
                 reflexivity.
Qed.

Lemma assign_loop_peak v csum c :
  length c = N ->
  forall n k strays, (k + n = N)%nat -> length strays = N ->
    exists strays',
      assign_loop x y v csum (seq k n) c strays = Ok strays' /\
      length strays' = N /\
      forall i, (i < N)%nat ->
        nth i strays' [] =
        if (k <=? i)%nat && negb (deqb (nth i c d0) d0)
        then nth i strays [] ++
             [mkStrayPix y x
                (pixel_of_dbl (dmul (ddiv (nth i c d0) csum)
                                    (dbl_of_pixel (fst (fst v)))))
                (snd (fst v)) (snd v)]
        else nth i strays [].
Proof.
  intros Hc. induction n as [|n IH]; intros k strays Hk Hlen.
  - exists strays. split; [reflexivity|]. split; [exact Hlen|].
    intros i Hi.
    replace (k <=? i)%nat with false by (symmetry; apply Nat.leb_gt; lia).
    reflexivity.
  - cbn [seq assign_loop].
    rewrite (vec_get_nth c k d0) by lia. cbn [bind].
    destruct (deqb (nth k c d0) d0) eqn:Ez.
    + destruct (IH (S k) strays ltac:(lia) Hlen) as (s' & E & Hl & Hn).
      exists s'. split; [exact E|]. split; [exact Hl|].
      intros i Hi. rewrite (Hn i Hi).
      destruct (Nat.eq_dec i k) as [->|Hne].
      * replace (S k <=? k)%nat with false by (symmetry; apply Nat.leb_gt; lia).
        rewrite Ez. cbn [negb andb]. rewrite andb_false_r. reflexivity.
      * replace (S k <=? i)%nat with (k <=? i)%nat; [reflexivity|].
        destruct (k <=? i)%nat eqn:E1; symmetry;
          [apply Nat.leb_le in E1; apply Nat.leb_le
          |apply Nat.leb_gt in E1; apply Nat.leb_gt]; lia.
    + rewrite (vec_get_nth strays k []) by lia. cbn [bind].
      rewrite vec_set_ok by lia. cbn [bind].
      match goal with
      | |- context [assign_loop _ _ _ _ _ _ ?s] =>
          destruct (IH (S k) s ltac:(lia)
                       ltac:(rewrite upd_nth_length; exact Hlen))
            as (s' & E & Hl & Hn)
      end.
      exists s'. split; [exact E|]. split; [exact Hl|].
      intros i Hi. rewrite (Hn i Hi). rewrite upd_nth_nth by lia.
      destruct (Nat.eq_dec i k) as [->|Hne].
      * replace (S k <=? k)%nat with false by (symmetry; apply Nat.leb_gt; lia).
        rewrite Nat.eqb_refl, Nat.leb_refl, Ez. cbn [negb andb]. reflexivity.
      * replace (i =? k)%nat with false by (symmetry; apply Nat.eqb_neq; lia).
        replace (S k <=? i)%nat with (k <=? i)%nat; [reflexivity|].
        destruct (k <=? i)%nat eqn:E1; symmetry;
          [apply Nat.leb_le in E1; apply Nat.leb_le
          |apply Nat.leb_gt in E1; apply Nat.leb_gt]; lia.
Qed.

Lemma stray_pixel_skip nearest strays :
  box_contains_pt (im_bbox tsum) x y = true ->
  box_contains_pt (mi_bbox img) x y = true ->
  pltb p0 (im_pix tsum x y) = true \/ pleb (mi_image img x y) p0 = true ->
  stray_pixel tsum img opts tfoots ispsf pkx pky clip nearest strays (x, y)
  = Ok strays.
Proof.
  intros Ht Hi Hs. unfold stray_pixel, im_read, mi_read.
  rewrite Ht. cbn [bind].
  destruct (pltb p0 (im_pix tsum x y)) eqn:E1; [reflexivity|].
  rewrite Hi. cbn [bind fst snd].
  destruct Hs as [Hs|Hs]; [discriminate|]. rewrite Hs. reflexivity.
Qed.

Lemma stray_pixel_peak nearest strays :
  length strays = N ->
      box_contains_pt (im_bbox tsum) x y = true ->
      box_contains_pt (mi_bbox img) x y = true ->
      pltb p0 (im_pix tsum x y) = false ->
      pleb (mi_image img x y) p0 = false ->
  exists strays',
    stray_pixel tsum img opts tfoots ispsf pkx pky clip nearest strays (x, y)
    = Ok strays' /\
    length strays' = N /\
    forall i, (i < N)%nat ->
      nth i strays' [] =
      if negb (deqb (stray_contrib opts N ispsf pkx pky clip x y i) d0)
      then nth i strays [] ++ [stray_record img opts N ispsf pkx pky clip x y i]
      else nth i strays [].
Proof.
  intros Hlen Ht Hi Hs1 Hs2. unfold stray_pixel, im_read, mi_read.
  rewrite Ht. cbn [bind]. rewrite Hs1, Hi. cbn [bind fst snd]. rewrite Hs2.
  rewrite init_contrib_peak. cbn [bind]. unfold templates. fold N.
  rewrite (round1_peak (always opts) N 0 d0) by lia. cbn [bind fst snd].
  change (fold_left
            (fun s i => if negb (stray_skipped ispsf (always opts) i)
                        then dadd s (wt i) else s) (seq 0 N) d0)
    with (stray_csum1 opts N ispsf pkx pky x y).
  assert (Hclip : forall ptsrcs c0,
            ptsrcs = stray_ptsrcs opts N ispsf pkx pky x y ->
            c0 = stray_csum0 opts N ispsf pkx pky x y ->
            exists strays',
              (r3 <- clip_loop ispsf ptsrcs (dmul clip c0) (seq 0 N) w d0 ;;
               assign_loop x y
                 (mi_image img x y, mi_mask img x y, mi_variance img x y)
                 (snd r3) (seq 0 N) (fst r3) strays) = Ok strays' /\
              length strays' = N /\
              forall i, (i < N)%nat ->
                nth i strays' [] =
                if negb (deqb (stray_contrib opts N ispsf pkx pky clip x y i) d0)
                then nth i strays [] ++
                     [stray_record img opts N ispsf pkx pky clip x y i]
                else nth i strays []).
  { intros ptsrcs c0 -> ->.
    destruct (clip_loop_peak (stray_ptsrcs opts N ispsf pkx pky x y)
                (dmul clip (stray_csum0 opts N ispsf pkx pky x y))
                N 0 w d0 ltac:(lia) w_length
                ltac:(intros i Hi'; apply w_nth; lia))
      as (c' & E & Hl & Hn).
    rewrite E. cbn [bind fst snd].
    destruct (assign_loop_peak
                (mi_image img x y, mi_mask img x y, mi_variance img x y)
                (fold_left
                   (fun s i =>
                      if negb (stray_skipped ispsf
                                 (stray_ptsrcs opts N ispsf pkx pky x y) i)
                         && negb (dltb (wt i)
                                    (dmul clip
                                       (stray_csum0 opts N ispsf pkx pky x y)))
                      then dadd s (wt i) else s) (seq 0 N) d0)
                c' Hl N 0 strays ltac:(lia) Hlen)
      as (s' & E' & Hl' & Hn').
    exists s'. split; [exact E'|]. split; [exact Hl'|].
    intros i Hi'. rewrite (Hn' i Hi'). rewrite (Hn i Hi').
    cbn [Nat.leb andb fst snd]. reflexivity. }
  destruct (deqb (stray_csum1 opts N ispsf pkx pky x y) d0
            && flag_set opts STRAYFLUX_TO_POINT_SOURCES_WHEN_NECESSARY)
    eqn:Enec.
  - rewrite (round2_peak N 0) by lia. cbn [bind fst snd].
    apply Hclip.
    + unfold stray_ptsrcs, stray_necessary. rewrite Enec. reflexivity.
    + unfold stray_csum0, stray_necessary. rewrite Enec. reflexivity.
  - cbn [bind fst snd]. apply Hclip.
    + unfold stray_ptsrcs, stray_necessary. rewrite Enec. reflexivity.
    + unfold stray_csum0, stray_necessary. rewrite Enec. reflexivity.
Qed.
End Pixel.



End StrayProof.

Lemma Qc_of_Z_add (a b : Z) : Qc_of_Z (a + b) = (Qc_of_Z a + Qc_of_Z b)%Qc.
Proof.
  unfold Qc_of_Z, Qcplus. apply Qc_is_canon. cbn [this Q2Qc].
  rewrite !Qred_correct. rewrite inject_Z_plus. reflexivity.
Qed.

Lemma Qc_of_Z_inj (a b : Z) : Qc_of_Z a = Qc_of_Z b -> a = b.
Proof.
  intros E. apply (f_equal this) in E. unfold Qc_of_Z in E.
  cbn [this Q2Qc] in E.
  assert (Q : (inject_Z a == inject_Z b)%Q).
  { rewrite <- (Qred_correct (inject_Z a)), E. apply Qred_correct. }
  unfold Qeq, inject_Z in Q. cbn [Qnum Qden] in Q. lia.
Qed.

(** The reciprocal of an integer other than -1 is not the sentinel -1. *)
Lemma Qc_recip_sentinel (v : Z) :
  v <> -1 -> (1 / Qc_of_Z v)%Qc <> Qc_of_Z (-1).
Proof.
  intros Hv E.
  destruct (Qc_eq_dec (Qc_of_Z v) 0%Qc) as [E0|Hne].
  - rewrite E0 in E. vm_compute in E. discriminate E.
  - apply Hv. apply Qc_of_Z_inj.
    transitivity ((1 / (1 / Qc_of_Z v)))%Qc.
    + field. split; [exact Hne|discriminate].
    + rewrite E. apply Qc_is_canon. reflexivity.
Qed.

Lemma Qc_peak_weight_sentinel (px py x y : Z) :
  @deqb ExactArith (peak_weight px py x y) (dbl_of_Z (-1)) = false.
Proof.
  apply Qc_eq_bool_false. unfold peak_weight. cbv zeta.
  change (@ddiv ExactArith) with Qcdiv. change (@dadd ExactArith) with Qcplus.
  change (@d1 ExactArith) with (Qc_of_Z 1).
  change (@dbl_of_Z ExactArith) with Qc_of_Z.
  rewrite <- !Qc_of_Z_add. change (Qc_of_Z 1) with 1%Qc.
  apply Qc_recip_sentinel.
  pose proof (i32_squares_sum (i32 (px - x)) (i32 (py - y))). lia.
Qed.




(** The run itself: the two templates receive 5 and 2 of the 7. *)
Lemma find_stray_flux_shares :
  stray_values
    (find_stray_flux c3_foot c3_tsum c3_img ASSIGN_STRAYFLUX c3_tfoots []
                     [1; 0] [0; 2] (Qc_of_Z 0))
  = [[(0, 0, (5 # 1)%Q, 3)]; [(0, 0, (2 # 1)%Q, 3)]].
Proof. vm_compute. reflexivity. Qed.


(** The same run in IEEE arithmetic: the weight is
    -5388068397601101 * 2^-83, about -5.57e-10, and nothing is recorded. *)
Lemma find_stray_flux_far_peak_ieee :
  @peak_weight IEEEArith 50000 0 0 0
  = S754_finite true 5388068397601101 (-83) /\
  null_entries c3_ieee_far_run = Some [true].
Proof. split; vm_compute; reflexivity. Qed.

(** ** Nearest-label transform *)

Lemma zseq_snoc a n : 0 <= n -> zseq a (n + 1) = zseq a n ++ [a + n].
Proof.
  intros Hn. unfold zseq.
  replace (Z.to_nat (n + 1)) with (S (Z.to_nat n)) by lia.
  rewrite seq_S, map_app. cbn [map Nat.add]. rewrite Z2Nat.id by lia.
  reflexivity.
Qed.

Lemma zseq_nil a n : n <= 0 -> zseq a n = [].
Proof.
  intros Hn. unfold zseq. replace (Z.to_nat n) with 0%nat by lia. reflexivity.
Qed.

Lemma zseq_fold_inv {S : Type} (P : Z -> S -> Prop) (f : S -> Z -> S) a :
  forall n, 0 <= n -> forall s,
    P a s ->
    (forall k s, a <= k < a + n -> P k s -> P (k + 1) (f s k)) ->
    P (a + n) (fold_left f (zseq a n) s).
Proof.
  intros n Hn. pattern n. apply natlike_ind; [| |exact Hn].
  - intros s H0 _. rewrite Z.add_0_r. exact H0.
  - intros m Hm IH s H0 Hstep. unfold Z.succ.
    rewrite zseq_snoc by exact Hm. rewrite fold_left_app. cbn [fold_left].
    rewrite Z.add_assoc. apply Hstep; [lia|].
    apply IH; [exact H0|]. intros k s' Hk. apply Hstep. lia.
Qed.

Lemma zseq_rev_fold_inv {S : Type} (P : Z -> S -> Prop) (f : S -> Z -> S) a :
  forall n, 0 <= n -> forall s,
    P (a + n) s ->
    (forall k s, a <= k < a + n -> P (k + 1) s -> P k (f s k)) ->
    P a (fold_left f (rev (zseq a n)) s).
Proof.
  intros n Hn. pattern n. apply natlike_ind; [| |exact Hn].
  - intros s H0 _. rewrite Z.add_0_r in H0. exact H0.
  - intros m Hm IH s H0 Hstep. unfold Z.succ in *.
    rewrite zseq_snoc by exact Hm. rewrite rev_app_distr. cbn [rev app fold_left].
    apply IH.
    + apply Hstep; [lia|]. rewrite <- Z.add_assoc. exact H0.
    + intros k s' Hk. apply Hstep. lia.
Qed.

Lemma fold_left_flat_map {S X Y : Type} (f : S -> Y -> S) (g : X -> list Y) :
  forall l s,
    fold_left f (flat_map g l) s =
    fold_left (fun s x => fold_left f (g x) s) l s.
Proof.
  induction l as [|x l IH]; intros s; [reflexivity|].
  cbn [flat_map fold_left]. rewrite fold_left_app. apply IH.
Qed.

Lemma fold_left_map {S X Y : Type} (f : S -> Y -> S) (h : X -> Y) :
  forall l s, fold_left f (map h l) s = fold_left (fun s x => f s (h x)) l s.
Proof.
  induction l as [|x l IH]; intros s; [reflexivity|]. cbn [map fold_left].
  apply IH.
Qed.

Lemma rev_flat_map {X Y : Type} (g : X -> list Y) :
  forall l, rev (flat_map g l) = flat_map (fun x => rev (g x)) (rev l).
Proof.
  induction l as [|x l IH]; [reflexivity|].
  cbn [flat_map rev]. rewrite rev_app_distr, IH, flat_map_app.
  cbn [flat_map]. rewrite app_nil_r. reflexivity.
Qed.

Lemma get_set_local {T : Type} (img : Image T) x y v qx qy :
  get_local (set_local img x y v) qx qy =
  if (qx =? x) && (qy =? y) then v else get_local img qx qy.
Proof.
  unfold get_local, set_local, im_set. cbn [im_bbox im_pix].
  replace (minX (im_bbox img) + qx =? minX (im_bbox img) + x) with (qx =? x)
    by (destruct (Z.eqb_spec qx x); symmetry;
        [apply Z.eqb_eq|apply Z.eqb_neq]; lia).
  replace (minY (im_bbox img) + qy =? minY (im_bbox img) + y) with (qy =? y)
    by (destruct (Z.eqb_spec qy y); symmetry;
        [apply Z.eqb_eq|apply Z.eqb_neq]; lia).
  reflexivity.
Qed.

Lemma relax_view st x y nx ny qx qy :
  (dl (relax st x y nx ny) qx qy, al (relax st x y nx ny) qx qy) =
  if (qx =? x) && (qy =? y)
  then relax_val (dl st x y, al st x y) (dl st nx ny, al st nx ny)
  else (dl st qx qy, al st qx qy).
Proof.
  destruct st as [dist argmin]. unfold relax, relax_val, dl, al.
  cbn [fst snd].
  destruct (u16 (get_local dist nx ny + 1) <? get_local dist x y);
    cbn [fst snd]; rewrite ?get_set_local;
    destruct ((qx =? x) && (qy =? y)) eqn:E; try reflexivity.
  apply andb_true_iff in E. destruct E as [->%Z.eqb_eq ->%Z.eqb_eq].
  reflexivity.
Qed.

Lemma relax_bbox st x y nx ny :
  im_bbox (fst (relax st x y nx ny)) = im_bbox (fst st) /\
  im_bbox (snd (relax st x y nx ny)) = im_bbox (snd st).
Proof.
  destruct st as [dist argmin]. unfold relax.
  destruct (_ <? _); split; reflexivity.
Qed.

Lemma L1_nonneg px py qx qy : 0 <= L1 px py qx qy.
Proof. unfold L1. lia. Qed.

Lemma L1_triangle px py qx qy rx ry :
  L1 px py rx ry <= L1 px py qx qy + L1 qx qy rx ry.
Proof. unfold L1. lia. Qed.

Section SweepProof.
Variables W H : Z.
Variables D0 A0 : Z -> Z -> Z.
Hypothesis Hwrap : W + H <= 65534.
Hypothesis HW : 0 <= W.
Hypothesis HH : 0 <= H.

Lemma relax_val_good qx qy nx ny c n :
  L1 qx qy nx ny = 1 ->
  justified W H D0 A0 qx qy (fst c) (snd c) ->
  justified W H D0 A0 nx ny (fst n) (snd n) ->
  justified W H D0 A0 qx qy (fst (relax_val c n)) (snd (relax_val c n)) /\
  fst (relax_val c n) = Z.min (fst c) (fst n + 1).
Proof.
  intros Hadj [Hc Hcw] [Hn Hnw]. unfold relax_val.
  assert (Hu : u16 (fst n + 1) = fst n + 1)
    by (unfold u16; apply Z.mod_small; lia).
  rewrite Hu. destruct (Z.ltb_spec (fst n + 1) (fst c)) as [Hlt|Hge].
  - cbn [fst snd]. split; [|lia]. split; [lia|]. right.
    destruct Hnw as [[Hd _]|(sx & sy & Hg & Hon & Hl & Ha)]; [lia|].
    exists sx, sy. repeat split; try assumption; try apply Hg.
    pose proof (L1_triangle qx qy nx ny sx sy). lia.
  - split; [|lia]. split; assumption.
Qed.

Lemma forward_step_view st x y qx qy :
  (dl (forward_step W H st (x, y)) qx qy,
   al (forward_step W H st (x, y)) qx qy) =
  if (qx =? x) && (qy =? y) then
    if dl st x y =? 1 then (0, al st x y)
    else
      let c1 := (u16 (W + H), nil_label) in
      let c2 := if 0 <? y
                then relax_val c1 (dl st x (y - 1), al st x (y - 1))
                else c1 in
      if 0 <? x then relax_val c2 (dl st (x - 1) y, al st (x - 1) y)
      else c2
  else (dl st qx qy, al st qx qy).
Proof.
  assert (Hx : (x - 1 =? x) = false) by (apply Z.eqb_neq; lia).
  assert (Hy : (y - 1 =? y) = false) by (apply Z.eqb_neq; lia).
  destruct st as [dist argmin]. unfold forward_step.
  change (get_local dist x y) with (dl (dist, argmin) x y).
  destruct (dl (dist, argmin) x y =? 1) eqn:E1.
  - unfold dl, al. cbn [fst snd]. rewrite get_set_local.
    destruct ((qx =? x) && (qy =? y)) eqn:E; [|reflexivity].
    apply andb_true_iff in E. destruct E as [->%Z.eqb_eq ->%Z.eqb_eq].
    reflexivity.
  - set (st1 := (set_local dist x y (u16 (W + H)),
                 set_local argmin x y nil_label)).
    assert (V1 : forall rx ry,
               (dl st1 rx ry, al st1 rx ry) =
               if (rx =? x) && (ry =? y) then (u16 (W + H), nil_label)
               else (dl (dist, argmin) rx ry, al (dist, argmin) rx ry)).
    { intros rx ry. unfold st1, dl, al. cbn [fst snd].
      rewrite !get_set_local. destruct ((rx =? x) && (ry =? y)); reflexivity. }
    cbv zeta.
    destruct (0 <? y) eqn:Ey; destruct (0 <? x) eqn:Ex;
      rewrite ?relax_view, ?V1, ?Z.eqb_refl, ?Hx, ?Hy;
      cbn [andb]; rewrite ?andb_false_r;
      rewrite ?relax_view, ?V1, ?Z.eqb_refl, ?Hx, ?Hy;
      cbn [andb]; rewrite ?andb_false_r;
      rewrite ?V1, ?Z.eqb_refl, ?Hx, ?Hy;
      cbn [andb]; rewrite ?andb_false_r;
      destruct ((qx =? x) && (qy =? y)); reflexivity.
Qed.

Lemma backward_step_view st x y qx qy :
  (dl (backward_step W H st (x, y)) qx qy,
   al (backward_step W H st (x, y)) qx qy) =
  if (qx =? x) && (qy =? y) then
    let c1 := (dl st x y, al st x y) in
    let c2 := if y + 1 <? H
              then relax_val c1 (dl st x (y + 1), al st x (y + 1))
              else c1 in
    if x + 1 <? W then relax_val c2 (dl st (x + 1) y, al st (x + 1) y)
    else c2
  else (dl st qx qy, al st qx qy).
Proof.
  assert (Hx : (x + 1 =? x) = false) by (apply Z.eqb_neq; lia).
  assert (Hy : (y + 1 =? y) = false) by (apply Z.eqb_neq; lia).
  unfold backward_step. cbv zeta.
  destruct (y + 1 <? H) eqn:Ey; destruct (x + 1 <? W) eqn:Ex;
    rewrite ?relax_view, ?Z.eqb_refl, ?Hx, ?Hy;
    cbn [andb]; rewrite ?andb_false_r;
    rewrite ?relax_view, ?Z.eqb_refl, ?Hx, ?Hy;
    cbn [andb]; rewrite ?andb_false_r;
    (destruct ((qx =? x) && (qy =? y)) eqn:E;
     [apply andb_true_iff in E; destruct E as [->%Z.eqb_eq ->%Z.eqb_eq]|]);
    reflexivity.
Qed.

Lemma view_fst (st' : Image Z * Image Z) qx qy c :
  (dl st' qx qy, al st' qx qy) = c ->
  dl st' qx qy = fst c /\ al st' qx qy = snd c.
Proof. intros <-. split; reflexivity. Qed.

Lemma forward_step_inv st x y :
  in_grid W H x y ->
  fwd_inv W H D0 A0 x y st ->
  fwd_inv W H D0 A0 (x + 1) y (forward_step W H st (x, y)).
Proof.
  intros Hp Hinv qx qy Hq.
  destruct (view_fst _ qx qy _ (forward_step_view st x y qx qy)) as [Ed Ea].
  rewrite Ed, Ea. clear Ed Ea.
  destruct ((qx =? x) && (qy =? y)) eqn:E.
  - apply andb_true_iff in E. destruct E as [->%Z.eqb_eq ->%Z.eqb_eq].
    split; [intros _|intros Hn; exfalso; apply Hn; right; lia].
    destruct (proj2 (Hinv x y Hp) ltac:(lia)) as [Hd Ha].
    rewrite Hd, Ha.
    destruct (D0 x y =? 1) eqn:Eon.
    + cbn [fst snd]. split.
      * split; [lia|]. right. exists x, y.
        repeat split; try apply Hp; auto.
        unfold L1. lia.
      * intros sx sy _ _ _ _. apply L1_nonneg.
    + assert (Hu : u16 (W + H) = W + H)
        by (unfold u16; apply Z.mod_small; lia).
      rewrite Hu. cbv zeta.
      set (c1 := (W + H, nil_label)).
      assert (J1 : justified W H D0 A0 x y (fst c1) (snd c1)).
      { split; [cbn; lia|]. left. split; reflexivity. }
      set (c2 := if 0 <? y
                 then relax_val c1 (dl st x (y - 1), al st x (y - 1))
                 else c1).
      assert (J2 : justified W H D0 A0 x y (fst c2) (snd c2) /\
                   fst c2 <= W + H /\
                   (0 < y -> fst c2 <= dl st x (y - 1) + 1)).
      { unfold c2. destruct (Z.ltb_spec 0 y) as [Hy|Hy].
        - destruct (proj1 (Hinv x (y - 1) ltac:(unfold in_grid in *; lia))
                      ltac:(lia)) as [Jn _].
          destruct (relax_val_good x y x (y - 1) c1 (_, _)
                      ltac:(unfold L1; lia) J1 Jn) as [J Em].
          split; [exact J|]. rewrite Em. unfold c1. cbn [fst]. lia.
        - split; [exact J1|]. unfold c1. cbn [fst]. lia. }
      destruct J2 as (J2 & B2 & N2).
      set (c3 := if 0 <? x
                 then relax_val c2 (dl st (x - 1) y, al st (x - 1) y)
                 else c2).
      assert (J3 : justified W H D0 A0 x y (fst c3) (snd c3) /\
                   fst c3 <= fst c2 /\
                   (0 < x -> fst c3 <= dl st (x - 1) y + 1)).
      { unfold c3. destruct (Z.ltb_spec 0 x) as [Hx|Hx].
        - destruct (proj1 (Hinv (x - 1) y ltac:(unfold in_grid in *; lia))
                      ltac:(lia)) as [Jn _].
          destruct (relax_val_good x y (x - 1) y c2 (_, _)
                      ltac:(unfold L1; lia) J2 Jn) as [J Em].
          split; [exact J|]. rewrite Em. cbn [fst]. lia.
        - split; [exact J2|]. lia. }
      destruct J3 as (J3 & B3 & N3).
      split; [exact J3|].
      intros sx sy Hs Hon Hsx Hsy.
      assert (Hne : sy < y \/ (sy = y /\ sx < x)).
      { destruct (Z.eq_dec sy y) as [->|]; [|lia].
        destruct (Z.eq_dec sx x) as [->|]; [|lia].
        unfold on in Hon. congruence. }
      destruct Hne as [Hlt|[-> Hlt]].
      * destruct (proj1 (Hinv x (y - 1) ltac:(unfold in_grid in *; lia))
                    ltac:(lia)) as [_ Bn].
        pose proof (Bn sx sy Hs Hon Hsx ltac:(lia)) as Hb.
        specialize (N2 ltac:(unfold in_grid in *; lia)).
        unfold L1 in *. lia.
      * destruct (proj1 (Hinv (x - 1) y ltac:(unfold in_grid in *; lia))
                    ltac:(lia)) as [_ Bn].
        pose proof (Bn sx y Hs Hon ltac:(lia) ltac:(lia)) as Hb.
        specialize (N3 ltac:(unfold in_grid in *; lia)).
        unfold L1 in *. lia.
  - assert (Hne : qx <> x \/ qy <> y).
    { apply andb_false_iff in E. destruct E as [E|E];
        apply Z.eqb_neq in E; auto. }
    cbn [fst snd]. destruct (Hinv qx qy Hq) as [Hp1 Hp2]. split.
    + intros Hb. apply Hp1. lia.
    + intros Hb. apply Hp2. lia.
Qed.

Lemma backward_step_inv st x y :
  in_grid W H x y ->
  bwd_inv W H D0 A0 (x + 1) y st ->
  bwd_inv W H D0 A0 x y (backward_step W H st (x, y)).
Proof.
  intros Hp Hinv qx qy Hq.
  destruct (view_fst _ qx qy _ (backward_step_view st x y qx qy)) as [Ed Ea].
  rewrite Ed, Ea. clear Ed Ea.
  destruct ((qx =? x) && (qy =? y)) eqn:E.
  - apply andb_true_iff in E. destruct E as [->%Z.eqb_eq ->%Z.eqb_eq].
    destruct (Hinv x y Hp) as (J1 & B1 & _). cbv zeta.
    set (c1 := (dl st x y, al st x y)) in *.
    change (dl st x y) with (fst c1) in J1, B1.
    change (al st x y) with (snd c1) in J1.
    set (c2 := if y + 1 <? H
               then relax_val c1 (dl st x (y + 1), al st x (y + 1))
               else c1).
    assert (J2 : justified W H D0 A0 x y (fst c2) (snd c2) /\
                 fst c2 <= fst c1 /\
                 (y + 1 < H -> fst c2 <= dl st x (y + 1) + 1)).
    { unfold c2. destruct (Z.ltb_spec (y + 1) H) as [Hy|Hy].
      - destruct (Hinv x (y + 1) ltac:(unfold in_grid in *; lia))
          as (Jn & _ & _).
        destruct (relax_val_good x y x (y + 1) c1 (_, _)
                    ltac:(unfold L1; lia) J1 Jn) as [J Em].
        split; [exact J|]. rewrite Em. cbn [fst]. lia.
      - split; [exact J1|]. lia. }
    destruct J2 as (J2 & B2 & N2).
    set (c3 := if x + 1 <? W
               then relax_val c2 (dl st (x + 1) y, al st (x + 1) y)
               else c2).
    assert (J3 : justified W H D0 A0 x y (fst c3) (snd c3) /\
                 fst c3 <= fst c2 /\
                 (x + 1 < W -> fst c3 <= dl st (x + 1) y + 1)).
    { unfold c3. destruct (Z.ltb_spec (x + 1) W) as [Hx|Hx].
      - destruct (Hinv (x + 1) y ltac:(unfold in_grid in *; lia))
          as (Jn & _ & _).
        destruct (relax_val_good x y (x + 1) y c2 (_, _)
                    ltac:(unfold L1; lia) J2 Jn) as [J Em].
        split; [exact J|]. rewrite Em. cbn [fst]. lia.
      - split; [exact J2|]. lia. }
    destruct J3 as (J3 & B3 & N3).
    split; [exact J3|]. split.
    + intros sx sy Hs Hon Hsx Hsy.
      pose proof (B1 sx sy Hs Hon Hsx Hsy). lia.
    + intros _ sx sy Hs Hon.
      destruct (Z_lt_le_dec y sy) as [Hsy|Hsy].
      * destruct (Hinv x (y + 1) ltac:(unfold in_grid in *; lia))
          as (_ & _ & Bn).
        pose proof (Bn ltac:(lia) sx sy Hs Hon) as Hb.
        specialize (N2 ltac:(unfold in_grid in *; lia)).
        unfold L1 in *. lia.
      * destruct (Z_lt_le_dec x sx) as [Hsx|Hsx].
        -- destruct (Hinv (x + 1) y ltac:(unfold in_grid in *; lia))
             as (_ & _ & Bn).
           pose proof (Bn ltac:(lia) sx sy Hs Hon) as Hb.
           specialize (N3 ltac:(unfold in_grid in *; lia)).
           unfold L1 in *. lia.
        -- pose proof (B1 sx sy Hs Hon Hsx Hsy). lia.
  - assert (Hne : qx <> x \/ qy <> y).
    { apply andb_false_iff in E. destruct E as [E|E];
        apply Z.eqb_neq in E; auto. }
    cbn [fst snd]. destruct (Hinv qx qy Hq) as (Hp1 & Hp2 & Hp3).
    split; [exact Hp1|]. split; [exact Hp2|].
    intros Hb. apply Hp3. lia.
Qed.
End SweepProof.

Section Sweeps.
Variables W H : Z.
Variables D0 A0 : Z -> Z -> Z.
Hypothesis Hwrap : W + H <= 65534.
Hypothesis HW : 0 <= W.
Hypothesis HH : 0 <= H.

Lemma raster_rows :
  raster W H = flat_map (fun y => map (fun x => (x, y)) (zseq 0 W)) (zseq 0 H).
Proof.
  unfold raster, box_pixels, getWidth, getHeight. cbn [minX minY maxX maxY].
  replace (W - 1 - 0 + 1) with W by lia.
  replace (H - 1 - 0 + 1) with H by lia. reflexivity.
Qed.

Lemma forward_sweep_inv st :
  fwd_inv W H D0 A0 0 0 st ->
  fwd_inv W H D0 A0 0 H (fold_left (forward_step W H) (raster W H) st).
Proof.
  intros H0. rewrite raster_rows, fold_left_flat_map.
  apply (zseq_fold_inv (fun y s => fwd_inv W H D0 A0 0 y s) _ 0 H HH st H0).
  intros y s Hy Hs. rewrite fold_left_map.
  assert (Hrow : fwd_inv W H D0 A0 (0 + W) y
                   (fold_left (fun s0 x => forward_step W H s0 (x, y))
                              (zseq 0 W) s)).
  { apply (zseq_fold_inv (fun x s0 => fwd_inv W H D0 A0 x y s0) _ 0 W HW s Hs).
    intros x s0 Hx Hs0. apply forward_step_inv; auto.
    unfold in_grid. lia. }
  intros qx qy Hq. destruct (Hrow qx qy Hq) as [P1 P2].
  unfold in_grid in Hq. split; intros Hb; [apply P1|apply P2]; lia.
Qed.

Lemma backward_sweep_inv st :
  bwd_inv W H D0 A0 0 H st ->
  bwd_inv W H D0 A0 0 0
          (fold_left (backward_step W H) (rev (raster W H)) st).
Proof.
  intros H0. rewrite raster_rows, rev_flat_map, fold_left_flat_map.
  apply (zseq_rev_fold_inv (fun y s => bwd_inv W H D0 A0 0 y s) _ 0 H HH st H0).
  intros y s Hy Hs. rewrite <- map_rev, fold_left_map.
  apply (zseq_rev_fold_inv (fun x s0 => bwd_inv W H D0 A0 x y s0) _ 0 W HW s).
  - intros qx qy Hq. destruct (Hs qx qy Hq) as (P1 & P2 & P3).
    split; [exact P1|]. split; [exact P2|].
    unfold in_grid in Hq. intros Hb. apply P3. lia.
  - intros x s0 Hx Hs0. apply backward_step_inv; auto.
    unfold in_grid. lia.
Qed.

Lemma fwd_bwd st :
  fwd_inv W H D0 A0 0 H st -> bwd_inv W H D0 A0 0 H st.
Proof.
  intros Hf qx qy Hq. destruct (Hf qx qy Hq) as [P1 _].
  unfold in_grid in Hq. destruct (P1 ltac:(lia)) as [J B].
  split; [exact J|]. split; [exact B|]. intros Hb. lia.
Qed.

Lemma forward_step_bbox st p :
  im_bbox (fst (forward_step W H st p)) = im_bbox (fst st) /\
  im_bbox (snd (forward_step W H st p)) = im_bbox (snd st).
Proof.
  destruct st as [dist argmin]. destruct p as [x y]. unfold forward_step.
  destruct (get_local dist x y =? 1); [split; reflexivity|]. cbv zeta.
  destruct (0 <? y); destruct (0 <? x);
    repeat match goal with
           | |- context [relax ?s ?a ?b ?c ?d] =>
               let Hb := fresh "Hb" in
               destruct (relax_bbox s a b c d) as [Hb ?];
               rewrite Hb; clear Hb
           end;
    repeat match goal with
           | |- _ /\ _ => split
           | H : im_bbox (snd (relax _ _ _ _ _)) = _ |- _ => rewrite H; clear H
           end; reflexivity.
Qed.

Lemma backward_step_bbox st p :
  im_bbox (fst (backward_step W H st p)) = im_bbox (fst st) /\
  im_bbox (snd (backward_step W H st p)) = im_bbox (snd st).
Proof.
  destruct p as [x y]. unfold backward_step. cbv zeta.
  destruct (y + 1 <? H); destruct (x + 1 <? W);
    repeat match goal with
           | |- context [relax ?s ?a ?b ?c ?d] =>
               let Hb := fresh "Hb" in
               destruct (relax_bbox s a b c d) as [Hb ?];
               rewrite Hb; clear Hb
           end;
    repeat match goal with
           | |- _ /\ _ => split
           | H : im_bbox (snd (relax _ _ _ _ _)) = _ |- _ => rewrite H; clear H
           end; reflexivity.
Qed.
End Sweeps.

Lemma last_cover_acc foots :
  forall i x y acc,
    last_cover foots i x y acc =
    match last_cover foots i x y None with
    | Some k => Some k
    | None => acc
    end.
Proof.
  induction foots as [|f r IH]; intros i x y acc; [reflexivity|].
  cbn [last_cover]. destruct (foot_contains f x y).
  - rewrite (IH (i + 1) x y (Some i)).
    destruct (last_cover r (i + 1) x y None); reflexivity.
  - apply IH.
Qed.

Lemma last_cover_Some foots :
  forall i x y k,
    last_cover foots i x y None = Some k ->
    i <= k < i + Z.of_nat (length foots) /\
    exists f, nth_error foots (Z.to_nat (k - i)) = Some f /\
              foot_contains f x y = true.
Proof.
  induction foots as [|f r IH]; intros i x y k Hk; [discriminate|].
  cbn [last_cover] in Hk. rewrite last_cover_acc in Hk.
  destruct (last_cover r (i + 1) x y None) as [k'|] eqn:E.
  - inversion Hk; subst k'. destruct (IH _ _ _ _ E) as [Hr (g & Hg & Hc)].
    cbn [length]. split; [lia|]. exists g. split; [|exact Hc].
    replace (Z.to_nat (k - i)) with (S (Z.to_nat (k - (i + 1)))) by lia.
    exact Hg.
  - destruct (foot_contains f x y) eqn:Ef; [|discriminate].
    inversion Hk; subst k. cbn [length]. split; [lia|].
    exists f. rewrite Z.sub_diag. split; [reflexivity|exact Ef].
Qed.

Lemma last_cover_None foots :
  forall i x y,
    last_cover foots i x y None = None ->
    forall f, In f foots -> foot_contains f x y = false.
Proof.
  induction foots as [|f r IH]; intros i x y Hk g Hg; [destruct Hg|].
  cbn [last_cover] in Hk. rewrite last_cover_acc in Hk.
  destruct (last_cover r (i + 1) x y None) eqn:E; [discriminate|].
  destruct (foot_contains f x y) eqn:Ef; [discriminate|].
  destruct Hg as [<-|Hg]; [exact Ef|]. apply (IH _ _ _ E g Hg).
Qed.

Lemma stamp_foots_spec foots :
  forall i a d,
    im_bbox (fst (stamp_foots foots i a d)) = im_bbox a /\
    im_bbox (snd (stamp_foots foots i a d)) = im_bbox d /\
    forall x y,
      im_pix (fst (stamp_foots foots i a d)) x y =
        (if box_contains_pt (im_bbox a) x y then
           match last_cover foots i x y None with
           | Some k => u16 k
           | None => im_pix a x y
           end
         else im_pix a x y) /\
      im_pix (snd (stamp_foots foots i a d)) x y =
        (if box_contains_pt (im_bbox d) x y then
           match last_cover foots i x y None with
           | Some _ => u16 1
           | None => im_pix d x y
           end
         else im_pix d x y).
Proof.
  induction foots as [|f r IH]; intros i a d.
  - cbn [stamp_foots fst snd last_cover]. split; [reflexivity|].
    split; [reflexivity|]. intros x y.
    destruct (box_contains_pt (im_bbox a) x y);
      destruct (box_contains_pt (im_bbox d) x y); split; reflexivity.
  - cbn [stamp_foots last_cover].
    destruct (IH (i + 1) (setImage (fp_spans f) a (u16 i))
                 (setImage (fp_spans f) d (u16 1))) as (Ba & Bd & Hp).
    split; [exact Ba|]. split; [exact Bd|]. intros x y.
    destruct (Hp x y) as [Pa Pd]. rewrite Pa, Pd.
    unfold setImage. cbn [im_bbox im_pix].
    rewrite (last_cover_acc r (i + 1) x y
               (if foot_contains f x y then Some i else None)).
    unfold foot_contains.
    destruct (last_cover r (i + 1) x y None);
      destruct (spans_contain (fp_spans f) x y);
      destruct (box_contains_pt (im_bbox a) x y);
      destruct (box_contains_pt (im_bbox d) x y); split; reflexivity.
Qed.

Section Nearest.
Variable foots : list Footprint.
Variables argmin dist : Image Z.

Let B := im_bbox dist.
Let W := getWidth B.
Let H := getHeight B.
Let stamped :=
  stamp_foots foots 0 (im_const (im_bbox argmin) 0) (im_const B 0).
Let st0 : Image Z * Image Z := (snd stamped, fst stamped).

Hypothesis Hbox : im_bbox argmin = B.
Hypothesis Hwrap : W + H <= 65534.
Hypothesis HW : 0 <= W.
Hypothesis HH : 0 <= H.

Lemma nearestFootprint_sweeps :
  nearestFootprint foots argmin dist =
  fold_left (backward_step W H) (rev (raster W H))
            (fold_left (forward_step W H) (raster W H) st0).
Proof.
  unfold nearestFootprint. fold B. fold stamped.
  unfold st0. destruct (stamp_foots_spec foots 0 (im_const (im_bbox argmin) 0)
                          (im_const B 0)) as (_ & Bd & _).
  fold stamped in Bd. destruct stamped as [a1 d1]. cbn [fst snd] in *.
  cbn [im_const im_bbox] in Bd. rewrite Bd. reflexivity.
Qed.

Lemma nearestFootprint_inv :
  bwd_inv W H (dl st0) (al st0) 0 0 (nearestFootprint foots argmin dist) /\
  im_bbox (fst (nearestFootprint foots argmin dist)) = B /\
  im_bbox (snd (nearestFootprint foots argmin dist)) = B.
Proof.
  rewrite nearestFootprint_sweeps. split.
  - apply backward_sweep_inv; auto. apply fwd_bwd.
    apply forward_sweep_inv; auto.
    intros qx qy Hq. split; [intros Hb; unfold in_grid in Hq; lia|].
    intros _. split; reflexivity.
  - destruct (stamp_foots_spec foots 0 (im_const (im_bbox argmin) 0)
                (im_const B 0)) as (Ba & Bd & _).
    fold stamped in Ba, Bd. cbn [im_const im_bbox] in Ba, Bd.
    apply (fold_left_inv
             (fun s => im_bbox (fst s) = B /\ im_bbox (snd s) = B)).
    + intros s p _ [E1 E2].
      destruct (backward_step_bbox W H s p) as [-> ->]. auto.
    + apply (fold_left_inv
               (fun s => im_bbox (fst s) = B /\ im_bbox (snd s) = B)).
      * intros s p _ [E1 E2].
        destruct (forward_step_bbox W H s p) as [-> ->]. auto.
      * unfold st0. cbn [fst snd]. rewrite Ba, Bd. auto.
Qed.

(** What the stamping leaves, in terms of the footprints. *)
Lemma stamped_on sx sy :
  in_grid W H sx sy ->
  on (dl st0) sx sy = true ->
  exists i f,
    nth_error foots i = Some f /\
    foot_contains f (minX B + sx) (minY B + sy) = true /\
    al st0 sx sy = u16 (Z.of_nat i).
Proof.
  intros Hg Hon. unfold on, dl, al, st0, get_local in *. cbn [fst snd] in *.
  destruct (stamp_foots_spec foots 0 (im_const (im_bbox argmin) 0)
              (im_const B 0)) as (Ba & Bd & Hp).
  fold stamped in Ba, Bd, Hp. cbn [im_const im_bbox im_pix] in Ba, Bd, Hp.
  rewrite Ba, Bd in *. rewrite Hbox in *.
  destruct (Hp (minX B + sx) (minY B + sy)) as [Pa Pd].
  rewrite Pd in Hon. rewrite Pa.
  destruct (box_contains_pt B (minX B + sx) (minY B + sy));
    [|discriminate].
  destruct (last_cover foots 0 (minX B + sx) (minY B + sy) None) as [k|] eqn:E;
    [|discriminate].
  destruct (last_cover_Some _ _ _ _ _ E) as [Hk (f & Hf & Hc)].
  exists (Z.to_nat (k - 0)), f. split; [exact Hf|]. split; [exact Hc|].
  f_equal. lia.
Qed.

Lemma on_stamped f x y :
  In f foots -> foot_contains f x y = true ->
  box_contains_pt B x y = true ->
  in_grid W H (x - minX B) (y - minY B) /\
  on (dl st0) (x - minX B) (y - minY B) = true.
Proof.
  intros Hf Hc Hb. split.
  - apply box_contains_pt_iff in Hb. unfold in_grid, W, H, getWidth, getHeight.
    lia.
  - unfold on, dl, st0, get_local. cbn [fst snd].
    destruct (stamp_foots_spec foots 0 (im_const (im_bbox argmin) 0)
                (im_const B 0)) as (_ & Bd & Hp).
    fold stamped in Bd, Hp. cbn [im_const im_bbox im_pix] in Bd, Hp.
    rewrite Bd.
    replace (minX B + (x - minX B)) with x by lia.
    replace (minY B + (y - minY B)) with y by lia.
    destruct (Hp x y) as [_ Pd]. rewrite Pd, Hb.
    destruct (last_cover foots 0 x y None) eqn:E; [reflexivity|].
    rewrite (last_cover_None _ _ _ _ E f Hf) in Hc. discriminate.
Qed.
End Nearest.

(** C4 (as amended).  For footprints stamped into a box [B] whose width and
    height add up to at most 65534, with at most 65536 footprints, one of
    which has a pixel in [B]: at every pixel p of [B] the [dist] image is a
    lower bound of the Manhattan distance to every footprint pixel in [B]
    and is attained by a pixel q of a footprint whose index is the label at
    p.  Which of several nearest footprints is chosen is left open. *)
Theorem nearestFootprint_nearest (foots : list Footprint)
        (argmin dist : Image Z) :
  im_bbox argmin = im_bbox dist ->
  getWidth (im_bbox dist) + getHeight (im_bbox dist) <= 65534 ->
  Z.of_nat (length foots) <= 65536 ->
  (exists f x y, In f foots /\ foot_contains f x y = true /\
                 box_contains_pt (im_bbox dist) x y = true) ->
  im_bbox (fst (nearestFootprint foots argmin dist)) = im_bbox dist /\
  im_bbox (snd (nearestFootprint foots argmin dist)) = im_bbox dist /\
  forall x y, box_contains_pt (im_bbox dist) x y = true ->
    (forall f qx qy,
       In f foots -> foot_contains f qx qy = true ->
       box_contains_pt (im_bbox dist) qx qy = true ->
       im_pix (fst (nearestFootprint foots argmin dist)) x y
       <= L1 x y qx qy) /\
    exists i f qx qy,
      nth_error foots i = Some f /\
      foot_contains f qx qy = true /\
      box_contains_pt (im_bbox dist) qx qy = true /\
      L1 x y qx qy = im_pix (fst (nearestFootprint foots argmin dist)) x y /\
      im_pix (snd (nearestFootprint foots argmin dist)) x y = Z.of_nat i.
Proof.
  intros Hbox Hwrap Hlen (f0 & x0 & y0 & Hf0 & Hc0 & Hb0).
  set (B := im_bbox dist) in *.
  assert (HWH : 0 <= getWidth B /\ 0 <= getHeight B).
  { apply box_contains_pt_iff in Hb0. unfold getWidth, getHeight. lia. }
  destruct HWH as [HW HH].
  destruct (nearestFootprint_inv foots argmin dist Hbox Hwrap HW HH)
    as (Hinv & Bd & Ba).
  fold B in Hinv, Bd, Ba.
  split; [exact Bd|]. split; [exact Ba|]. intros x y Hxy.
  set (r := nearestFootprint foots argmin dist) in *.
  set (st0 := (snd (stamp_foots foots 0 (im_const (im_bbox argmin) 0)
                                (im_const B 0)),
               fst (stamp_foots foots 0 (im_const (im_bbox argmin) 0)
                                (im_const B 0)))) in *.
  assert (Hg : in_grid (getWidth B) (getHeight B) (x - minX B) (y - minY B)).
  { apply box_contains_pt_iff in Hxy. unfold in_grid, getWidth, getHeight.
    lia. }
  assert (Ed : dl r (x - minX B) (y - minY B) = im_pix (fst r) x y).
  { unfold dl, get_local. rewrite Bd. f_equal; lia. }
  assert (Ea : al r (x - minX B) (y - minY B) = im_pix (snd r) x y).
  { unfold al, get_local. rewrite Ba. f_equal; lia. }
  destruct (Hinv _ _ Hg) as (J & _ & Ball).
  specialize (Ball ltac:(unfold in_grid in Hg; lia)).
  rewrite Ed in J, Ball. rewrite Ea in J.
  assert (Hlow : forall f qx qy,
             In f foots -> foot_contains f qx qy = true ->
             box_contains_pt B qx qy = true ->
             in_grid (getWidth B) (getHeight B) (qx - minX B) (qy - minY B) /\
             im_pix (fst r) x y <= L1 x y qx qy).
  { intros f qx qy Hf Hc Hb.
    destruct (on_stamped foots argmin dist f qx qy Hf Hc Hb) as [Hq Hon].
    split; [exact Hq|].
    pose proof (Ball _ _ Hq Hon) as Hle. unfold B, L1 in *. lia. }
  split.
  - intros f qx qy Hf Hc Hb. apply (Hlow f qx qy Hf Hc Hb).
  - destruct J as [_ [[Hd _]|(sx & sy & Hs & Hon & Hl & Hlab)]].
    + destruct (Hlow f0 x0 y0 Hf0 Hc0 Hb0) as [Hq Hle].
      unfold B, in_grid, L1 in *. lia.
    + destruct (stamped_on foots argmin dist Hbox sx sy Hs Hon)
        as (i & f & Hi & Hc & Hal).
      fold B in Hc. exists i, f, (minX B + sx), (minY B + sy).
      assert (Hb : box_contains_pt B (minX B + sx) (minY B + sy) = true).
      { apply box_contains_pt_iff.
        unfold B, in_grid, getWidth, getHeight in *. lia. }
      split; [exact Hi|]. split; [exact Hc|]. split; [exact Hb|]. split.
      * pose proof (Ball _ _ Hs Hon) as Hle. unfold B, L1 in *. lia.
      * rewrite Hlab. fold B st0 in Hal. rewrite Hal.
        assert (Hlt : (i < length foots)%nat)
          by (apply nth_error_Some; congruence).
        unfold u16. apply Z.mod_small. lia.
Qed.

(** C4 fails as stated: the pixel (2, 0) is at distance 2 from both
    footprints, and its label is 1, the higher of the two indices. *)
Lemma nearestFootprint_tie_takes_higher_index :
  foot_contains c4_right 4 0 = true /\
  foot_contains c4_left 0 0 = true /\
  L1 2 0 4 0 = 2 /\
  L1 2 0 0 0 = 2 /\
  im_pix (fst (nearestFootprint [c4_right; c4_left] c4_buf c4_buf)) 2 0 = 2 /\
  im_pix (snd (nearestFootprint [c4_right; c4_left] c4_buf c4_buf)) 2 0 = 1.
Proof. repeat split; vm_compute; reflexivity. Qed.

Lemma nearestFootprint_nearest_witness :
  im_bbox (fst (nearestFootprint [c4_right; c4_left] c4_buf c4_buf))
  = im_bbox c4_buf /\
  im_bbox (snd (nearestFootprint [c4_right; c4_left] c4_buf c4_buf))
  = im_bbox c4_buf /\
  forall x y, box_contains_pt (im_bbox c4_buf) x y = true ->
    (forall f qx qy,
       In f [c4_right; c4_left] -> foot_contains f qx qy = true ->
       box_contains_pt (im_bbox c4_buf) qx qy = true ->
       im_pix (fst (nearestFootprint [c4_right; c4_left] c4_buf c4_buf)) x y
       <= L1 x y qx qy) /\
    exists i f qx qy,
      nth_error [c4_right; c4_left] i = Some f /\
      foot_contains f qx qy = true /\
      box_contains_pt (im_bbox c4_buf) qx qy = true /\
      L1 x y qx qy
      = im_pix (fst (nearestFootprint [c4_right; c4_left] c4_buf c4_buf)) x y /\
      im_pix (snd (nearestFootprint [c4_right; c4_left] c4_buf c4_buf)) x y
      = Z.of_nat i.
Proof.
  apply (nearestFootprint_nearest [c4_right; c4_left] c4_buf c4_buf).
  - reflexivity.
  - vm_compute. discriminate.
  - vm_compute. discriminate.
  - exists c4_left, 0, 0. split; [right; left; reflexivity|].
    split; reflexivity.
Defined.

(** Without a footprint pixel in the box every label is the nil value. *)
Lemma nearestFootprint_nil (foots : list Footprint) (argmin dist : Image Z) :
  im_bbox argmin = im_bbox dist ->
  getWidth (im_bbox dist) + getHeight (im_bbox dist) <= 65534 ->
  (forall f x y, In f foots -> box_contains_pt (im_bbox dist) x y = true ->
                 foot_contains f x y = false) ->
  im_bbox (snd (nearestFootprint foots argmin dist)) = im_bbox dist /\
  forall x y, box_contains_pt (im_bbox dist) x y = true ->
    im_pix (snd (nearestFootprint foots argmin dist)) x y = nil_label.
Proof.
  intros Hbox Hwrap Hoff.
  destruct (Z_lt_le_dec (getWidth (im_bbox dist)) 0) as [HW|HW];
    [|destruct (Z_lt_le_dec (getHeight (im_bbox dist)) 0) as [HH|HH]].
  - split.
    + unfold nearestFootprint.
      destruct (stamp_foots_spec foots 0 (im_const (im_bbox argmin) 0)
                  (im_const (im_bbox dist) 0)) as (Ba & Bd & _).
      destruct (stamp_foots foots 0 _ _) as [a1 d1]. cbn [fst snd] in *.
      cbn [im_const im_bbox] in Ba, Bd. rewrite Bd.
      unfold raster, box_pixels. rewrite (zseq_nil _ (getWidth _))
        by (unfold getWidth in *; cbn [minX maxX]; lia).
      cbn [map].
      assert (E : forall l : list Z,
                 flat_map (fun _ : Z => @nil (Z * Z)) l = []).
      { induction l; auto. }
      rewrite E. cbn [rev fold_left snd]. rewrite Ba. exact Hbox.
    + intros x y Hb. apply box_contains_pt_iff in Hb.
      unfold getWidth in HW. lia.
  - split.
    + unfold nearestFootprint.
      destruct (stamp_foots_spec foots 0 (im_const (im_bbox argmin) 0)
                  (im_const (im_bbox dist) 0)) as (Ba & Bd & _).
      destruct (stamp_foots foots 0 _ _) as [a1 d1]. cbn [fst snd] in *.
      cbn [im_const im_bbox] in Ba, Bd. rewrite Bd.
      unfold raster, box_pixels. rewrite (zseq_nil _ (getHeight _))
        by (unfold getHeight in *; cbn [minY maxY]; lia).
      cbn [flat_map rev fold_left snd]. rewrite Ba. exact Hbox.
    + intros x y Hb. apply box_contains_pt_iff in Hb.
      unfold getHeight in HH. lia.
  - destruct (nearestFootprint_inv foots argmin dist Hbox Hwrap HW HH)
      as (Hinv & Bd & Ba).
    split; [exact Ba|]. intros x y Hxy.
    assert (Hg : in_grid (getWidth (im_bbox dist)) (getHeight (im_bbox dist))
                         (x - minX (im_bbox dist)) (y - minY (im_bbox dist))).
    { apply box_contains_pt_iff in Hxy. unfold in_grid, getWidth, getHeight.
      lia. }
    destruct (Hinv _ _ Hg) as (J & _ & _).
    destruct J as [_ [[_ Hn]|(sx & sy & Hs & Hon & _ & _)]].
    + unfold al, get_local in Hn. rewrite Ba in Hn. rewrite <- Hn.
      f_equal; lia.
    + destruct (stamped_on foots argmin dist Hbox sx sy Hs Hon)
        as (i & f & Hi & Hc & _).
      rewrite (Hoff f _ _ (nth_error_In _ _ Hi)) in Hc; [discriminate|].
      apply box_contains_pt_iff. unfold in_grid, getWidth, getHeight in Hs.
      lia.
Qed.

(** With a footprint pixel in the box, every label written by
    [nearestFootprint] is the index of a footprint of the list. *)
Lemma nearestFootprint_label_is_index (foots : list Footprint)
      (argmin dist : Image Z) :
  im_bbox argmin = im_bbox dist ->
  getWidth (im_bbox dist) + getHeight (im_bbox dist) <= 65534 ->
  Z.of_nat (length foots) <= 65536 ->
  (exists f x y, In f foots /\ foot_contains f x y = true /\
                 box_contains_pt (im_bbox dist) x y = true) ->
  im_bbox (snd (nearestFootprint foots argmin dist)) = im_bbox dist /\
  forall x y, box_contains_pt (im_bbox dist) x y = true ->
    exists i f,
      nth_error foots i = Some f /\
      im_pix (snd (nearestFootprint foots argmin dist)) x y = Z.of_nat i.
Proof.
  intros Hbox Hwrap Hlen (f0 & x0 & y0 & Hf0 & Hc0 & Hb0).
  assert (HW : 0 <= getWidth (im_bbox dist)).
  { apply box_contains_pt_iff in Hb0. unfold getWidth. lia. }
  assert (HH : 0 <= getHeight (im_bbox dist)).
  { apply box_contains_pt_iff in Hb0. unfold getHeight. lia. }
  destruct (nearestFootprint_inv foots argmin dist Hbox Hwrap HW HH)
    as (Hinv & Bd & Ba).
  split; [exact Ba|]. intros x y Hxy.
  assert (Hg : in_grid (getWidth (im_bbox dist)) (getHeight (im_bbox dist))
                       (x - minX (im_bbox dist)) (y - minY (im_bbox dist))).
  { apply box_contains_pt_iff in Hxy. unfold in_grid, getWidth, getHeight.
    lia. }
  destruct (Hinv _ _ Hg) as (J & _ & Ball).
  assert (Hbig : 0 < y - minY (im_bbox dist) \/
                 y - minY (im_bbox dist) = 0 /\ 0 <= x - minX (im_bbox dist))
    by (unfold in_grid in Hg; lia).
  specialize (Ball Hbig).
  destruct (on_stamped foots argmin dist f0 x0 y0 Hf0 Hc0 Hb0) as [Hq0 Hon0].
  pose proof (Ball _ _ Hq0 Hon0) as Hle0.
  destruct J as [_ [[Hd _]|(sx & sy & Hs & Hon & _ & Hlab)]].
  - exfalso. unfold in_grid, L1 in *. lia.
  - destruct (stamped_on foots argmin dist Hbox sx sy Hs Hon)
      as (i & f & Hi & _ & Hal).
    exists i, f. split; [exact Hi|].
    assert (Ea : al (nearestFootprint foots argmin dist)
                    (x - minX (im_bbox dist)) (y - minY (im_bbox dist))
                 = im_pix (snd (nearestFootprint foots argmin dist)) x y).
    { unfold al, get_local. rewrite Ba. f_equal; lia. }
    rewrite <- Ea, Hlab, Hal.
    assert (Hlt : (i < length foots)%nat)
      by (apply nth_error_Some; congruence).
    unfold u16. apply Z.mod_small. lia.
Qed.

Section NearestStray.
Context {A : PixelArith}.
Variable tsum : Image pixel.
Variable img : MaskedImage.
Variable opts : Z.
Variable tfoots : list Footprint.
Variable ispsf : list bool.
Variables pkx pky : list Z.
Variable clip : dbl.
Variable fl : list Footprint.

Hypothesis Hnearest : flag_set opts STRAYFLUX_NEAREST_FOOTPRINT = true.
Hypothesis Hrfoot : flag_set opts STRAYFLUX_R_TO_FOOTPRINT = false.
Hypothesis Hfl : footlist opts tfoots ispsf = Ok fl.
Hypothesis Hwrap :
  getWidth (im_bbox tsum) + getHeight (im_bbox tsum) <= 65534.

Lemma footlist_length : length fl = length tfoots.
Proof.
  unfold footlist in Hfl.
  destruct (negb (always opts) && negb (length ispsf =? 0)%nat).
  - apply mapM_Forall2 in Hfl. apply Forall2_length in Hfl.
    unfold templates in Hfl. rewrite length_seq in Hfl. congruence.
  - congruence.
Qed.

(** C10.  Under [STRAYFLUX_NEAREST_FOOTPRINT] (and without
    [STRAYFLUX_R_TO_FOOTPRINT], which takes precedence), when no footprint
    of the effective list [fl] has a pixel in the box of [tsum] -- in
    particular when all of them are empty -- and there are at most 65535
    templates: the label image is built, at every stray pixel the label
    read from it is the nil value 0xFFFF, that label is used as it is as
    the index into [contrib], and the access is outside the [N] entries of
    [contrib]. *)
Theorem stray_nearest_reads_sentinel :
  (forall f x y, In f fl -> box_contains_pt (im_bbox tsum) x y = true ->
                 foot_contains f x y = false) ->
  Z.of_nat (length tfoots) <= 65535 ->
  exists nr,
    nearest_image tsum opts tfoots ispsf = Ok (Some nr) /\
    forall x y strays,
      box_contains_pt (im_bbox tsum) x y = true ->
      box_contains_pt (mi_bbox img) x y = true ->
      pltb p0 (im_pix tsum x y) = false ->
      pleb (mi_image img x y) p0 = false ->
      im_read nr x y = Ok nil_label /\
      vec_set (repeat d0 (length tfoots)) (Z.to_nat nil_label) d1 = Undef /\
      init_contrib opts tfoots pkx pky (Some nr) x y = Undef /\
      stray_pixel tsum img opts tfoots ispsf pkx pky clip (Some nr) strays
                  (x, y) = Undef.
Proof.
  intros Hoff Hlen. unfold nearest_image. rewrite Hnearest, Hfl. cbn [bind].
  eexists. split; [reflexivity|].
  intros x y strays Ht Hi Hs1 Hs2.
  destruct (nearestFootprint_nil fl (im_const (im_bbox tsum) 0)
              (im_const (im_bbox tsum) 0) eq_refl Hwrap Hoff) as [Hb Hnil].
  cbn [im_const im_bbox] in Hb, Hnil.
  assert (Hread : im_read (snd (nearestFootprint fl (im_const (im_bbox tsum) 0)
                                  (im_const (im_bbox tsum) 0))) x y
                  = Ok nil_label).
  { unfold im_read. rewrite Hb, Ht, (Hnil x y Ht). reflexivity. }
  assert (Hset : vec_set (repeat d0 (length tfoots)) (Z.to_nat nil_label) d1
                 = Undef).
  { unfold vec_set. rewrite repeat_length.
    replace (Z.to_nat nil_label <? length tfoots)%nat with false; [reflexivity|].
    symmetry. apply Nat.ltb_ge. unfold nil_label. lia. }
  assert (Hinit : init_contrib opts tfoots pkx pky
                    (Some (snd (nearestFootprint fl
                                  (im_const (im_bbox tsum) 0)
                                  (im_const (im_bbox tsum) 0)))) x y = Undef).
  { unfold init_contrib. rewrite Hrfoot, Hnearest, Hread. cbn [bind].
    exact Hset. }
  split; [exact Hread|]. split; [exact Hset|]. split; [exact Hinit|].
  unfold stray_pixel, im_read at 1, mi_read. rewrite Ht. cbn [bind].
  rewrite Hs1, Hi. cbn [bind fst snd]. rewrite Hs2, Hinit. reflexivity.
Qed.

(** The converse: with a footprint pixel of the effective list in the box
    of [tsum], the label read at any pixel of the box is the index of a
    template and the access is inside [contrib]. *)
Lemma stray_nearest_in_bounds :
  (exists f x y, In f fl /\ foot_contains f x y = true /\
                 box_contains_pt (im_bbox tsum) x y = true) ->
  Z.of_nat (length tfoots) <= 65536 ->
  exists nr,
    nearest_image tsum opts tfoots ispsf = Ok (Some nr) /\
    forall x y,
      box_contains_pt (im_bbox tsum) x y = true ->
      exists i,
        (i < length tfoots)%nat /\
        im_read nr x y = Ok (Z.of_nat i) /\
        init_contrib opts tfoots pkx pky (Some nr) x y =
        Ok (upd_nth (repeat d0 (length tfoots)) i d1).
Proof.
  intros Hon Hlen. unfold nearest_image. rewrite Hnearest, Hfl. cbn [bind].
  eexists. split; [reflexivity|]. intros x y Ht.
  destruct (nearestFootprint_label_is_index fl (im_const (im_bbox tsum) 0)
              (im_const (im_bbox tsum) 0) eq_refl Hwrap
              ltac:(rewrite footlist_length; lia) Hon) as (Hb & Hpix).
  cbn [im_const im_bbox] in Hb, Hpix.
  destruct (Hpix x y Ht) as (i & f & Hi & Hlab).
  assert (Hlt : (i < length tfoots)%nat).
  { rewrite <- footlist_length. apply nth_error_Some. congruence. }
  exists i. split; [exact Hlt|].
  assert (Hread : im_read (snd (nearestFootprint fl (im_const (im_bbox tsum) 0)
                                  (im_const (im_bbox tsum) 0))) x y
                  = Ok (Z.of_nat i)).
  { unfold im_read. rewrite Hb, Ht, Hlab. reflexivity. }
  split; [exact Hread|].
  unfold init_contrib. rewrite Hrfoot, Hnearest, Hread. cbn [bind].
  rewrite Nat2Z.id. unfold vec_set. rewrite repeat_length.
  replace (i <? length tfoots)%nat with true
    by (symmetry; apply Nat.ltb_lt; exact Hlt).
  reflexivity.
Qed.
End NearestStray.

(** A point source as the only template, left out of the effective list
    because [STRAYFLUX_TO_POINT_SOURCES_ALWAYS] is not set. *)
Lemma stray_nearest_reads_sentinel_witness :
  exists nr,
    nearest_image c10_tsum (ASSIGN_STRAYFLUX + STRAYFLUX_NEAREST_FOOTPRINT)
                  [c10_foot] [true] = Ok (Some nr) /\
    forall x y strays,
      box_contains_pt (im_bbox c10_tsum) x y = true ->
      box_contains_pt (mi_bbox c10_img) x y = true ->
      pltb p0 (im_pix c10_tsum x y) = false ->
      pleb (mi_image c10_img x y) p0 = false ->
      im_read nr x y = Ok nil_label /\
      vec_set (repeat d0 (length [c10_foot])) (Z.to_nat nil_label) d1
      = Undef /\
      init_contrib (ASSIGN_STRAYFLUX + STRAYFLUX_NEAREST_FOOTPRINT)
                   [c10_foot] [0] [0] (Some nr) x y = Undef /\
      stray_pixel c10_tsum c10_img
                  (ASSIGN_STRAYFLUX + STRAYFLUX_NEAREST_FOOTPRINT)
                  [c10_foot] [true] [0] [0] (Qc_of_Z 0) (Some nr) strays
                  (x, y) = Undef.
Proof.
  apply (@stray_nearest_reads_sentinel ExactArith c10_tsum c10_img
           (ASSIGN_STRAYFLUX + STRAYFLUX_NEAREST_FOOTPRINT)
           [c10_foot] [true] [0] [0] (Qc_of_Z 0) [mkFootprint [] []]
           eq_refl eq_refl eq_refl).
  - vm_compute. discriminate.
  - intros f x y [<-|[]] _. reflexivity.
  - cbn. lia.
Defined.

(** The whole routine on that input: the stray pixel (0, 0) makes it index
    [contrib] with 0xFFFF. *)
Lemma find_stray_flux_indexes_with_nil :
  find_stray_flux c10_foot c10_tsum c10_img
                  (ASSIGN_STRAYFLUX + STRAYFLUX_NEAREST_FOOTPRINT)
                  [c10_foot] [true] [0] [0] (Qc_of_Z 0) = Undef.
Proof. vm_compute. reflexivity. Qed.

(** * More about the nearest-label transform *)

Lemma last_cover_last foots :
  forall i x y k,
    last_cover foots i x y None = Some k ->
    forall j f, (Z.to_nat (k - i) < j)%nat -> nth_error foots j = Some f ->
                foot_contains f x y = false.
Proof.
  induction foots as [|g r IH]; intros i x y k Hk j f Hj Hf; [discriminate|].
  cbn [last_cover] in Hk. rewrite last_cover_acc in Hk.
  destruct j as [|j]; [lia|]. cbn [nth_error] in Hf.
  destruct (last_cover r (i + 1) x y None) as [k'|] eqn:E.
  - inversion Hk; subst k'.
    destruct (last_cover_Some _ _ _ _ _ E) as [Hr _].
    apply (IH _ _ _ _ E j f); [lia|exact Hf].
  - apply (last_cover_None _ _ _ _ E f). apply (nth_error_In _ _ Hf).
Qed.

(** The state of the two images at a pixel of the box, in parent
    coordinates: the distance is within range and justified by a footprint
    pixel (or the pixel carries the initial bound and the nil label), and it
    is not above the distance to any footprint pixel of the box. *)
Lemma nearestFootprint_pixel (foots : list Footprint) (argmin dist : Image Z) :
  im_bbox argmin = im_bbox dist ->
  getWidth (im_bbox dist) + getHeight (im_bbox dist) <= 65534 ->
  forall x y, box_contains_pt (im_bbox dist) x y = true ->
    0 <= im_pix (fst (nearestFootprint foots argmin dist)) x y
      <= getWidth (im_bbox dist) + getHeight (im_bbox dist) /\
    ((im_pix (fst (nearestFootprint foots argmin dist)) x y
      = getWidth (im_bbox dist) + getHeight (im_bbox dist) /\
      im_pix (snd (nearestFootprint foots argmin dist)) x y = nil_label) \/
     exists i f qx qy,
       nth_error foots i = Some f /\
       foot_contains f qx qy = true /\
       box_contains_pt (im_bbox dist) qx qy = true /\
       (forall j f', (i < j)%nat -> nth_error foots j = Some f' ->
                     foot_contains f' qx qy = false) /\
       L1 x y qx qy <= im_pix (fst (nearestFootprint foots argmin dist)) x y /\
       im_pix (snd (nearestFootprint foots argmin dist)) x y
       = u16 (Z.of_nat i)) /\
    (forall f qx qy,
       In f foots -> foot_contains f qx qy = true ->
       box_contains_pt (im_bbox dist) qx qy = true ->
       im_pix (fst (nearestFootprint foots argmin dist)) x y
       <= L1 x y qx qy).
Proof.
  intros Hbox Hwrap x y Hxy.
  assert (HWH : 0 <= getWidth (im_bbox dist) /\ 0 <= getHeight (im_bbox dist)).
  { apply box_contains_pt_iff in Hxy. unfold getWidth, getHeight. lia. }
  destruct HWH as [HW HH].
  destruct (nearestFootprint_inv foots argmin dist Hbox Hwrap HW HH)
    as (Hinv & Bd & Ba).
  assert (Hg : in_grid (getWidth (im_bbox dist)) (getHeight (im_bbox dist))
                       (x - minX (im_bbox dist)) (y - minY (im_bbox dist))).
  { apply box_contains_pt_iff in Hxy. unfold in_grid, getWidth, getHeight.
    lia. }
  destruct (Hinv _ _ Hg) as (J & _ & Ball).
  specialize (Ball ltac:(unfold in_grid in Hg; lia)).
  assert (Ed : dl (nearestFootprint foots argmin dist)
                  (x - minX (im_bbox dist)) (y - minY (im_bbox dist))
               = im_pix (fst (nearestFootprint foots argmin dist)) x y).
  { unfold dl, get_local. rewrite Bd. f_equal; lia. }
  assert (Ea : al (nearestFootprint foots argmin dist)
                  (x - minX (im_bbox dist)) (y - minY (im_bbox dist))
               = im_pix (snd (nearestFootprint foots argmin dist)) x y).
  { unfold al, get_local. rewrite Ba. f_equal; lia. }
  rewrite Ed in J, Ball. rewrite Ea in J.
  destruct J as [Hrange Hj]. split; [exact Hrange|]. split.
  - destruct Hj as [Hn|(sx & sy & Hs & Hon & Hl & Hlab)]; [left; exact Hn|].
    right.
    assert (Hstamp :
              exists i f,
                nth_error foots i = Some f /\
                foot_contains f (minX (im_bbox dist) + sx)
                              (minY (im_bbox dist) + sy) = true /\
                (forall j f', (i < j)%nat -> nth_error foots j = Some f' ->
                   foot_contains f' (minX (im_bbox dist) + sx)
                                 (minY (im_bbox dist) + sy) = false) /\
                im_pix (snd (nearestFootprint foots argmin dist)) x y
                = u16 (Z.of_nat i)).
    { rewrite Hlab. clear Hlab Hl Ball Hrange Ed Ea Hinv.
      unfold on, dl, al, get_local in *. cbn [fst snd] in *.
      destruct (stamp_foots_spec foots 0 (im_const (im_bbox argmin) 0)
                  (im_const (im_bbox dist) 0)) as (Ba' & Bd' & Hp).
      cbn [im_const im_bbox im_pix] in Ba', Bd', Hp.
      rewrite Ba', Bd' in *. rewrite Hbox in *.
      destruct (Hp (minX (im_bbox dist) + sx) (minY (im_bbox dist) + sy))
        as [Pa Pd].
      rewrite Pd in Hon. rewrite Pa.
      destruct (box_contains_pt (im_bbox dist) (minX (im_bbox dist) + sx)
                                (minY (im_bbox dist) + sy)); [|discriminate].
      destruct (last_cover foots 0 (minX (im_bbox dist) + sx)
                           (minY (im_bbox dist) + sy) None) as [k|] eqn:E;
        [|discriminate].
      destruct (last_cover_Some _ _ _ _ _ E) as [Hk (f & Hf & Hc)].
      exists (Z.to_nat (k - 0)), f. split; [exact Hf|]. split; [exact Hc|].
      split.
      - intros j f' Hj Hf'. apply (last_cover_last _ _ _ _ _ E j f' Hj Hf').
      - f_equal. lia. }
    destruct Hstamp as (i & f & Hi & Hc & Hlast & Hlab').
    exists i, f, (minX (im_bbox dist) + sx), (minY (im_bbox dist) + sy).
    split; [exact Hi|]. split; [exact Hc|]. split.
    { apply box_contains_pt_iff. unfold in_grid, getWidth, getHeight in Hs.
      lia. }
    split; [exact Hlast|]. split; [|exact Hlab'].
    unfold L1 in *. lia.
  - intros f qx qy Hf Hc Hb.
    destruct (on_stamped foots argmin dist f qx qy Hf Hc Hb) as [Hq Hon].
    pose proof (Ball _ _ Hq Hon) as Hle. unfold L1 in *. lia.
Qed.

(** X1.  [nearestFootprint]: in a box whose width and height add up to at
    most 65534, the distance written at a pixel of the box is 0 exactly
    when the pixel belongs to one of the footprints. *)
Theorem nearestFootprint_zero_iff_covered (foots : list Footprint)
        (argmin dist : Image Z) (x y : Z) :
  im_bbox argmin = im_bbox dist ->
  getWidth (im_bbox dist) + getHeight (im_bbox dist) <= 65534 ->
  box_contains_pt (im_bbox dist) x y = true ->
  (im_pix (fst (nearestFootprint foots argmin dist)) x y = 0 <->
   exists f, In f foots /\ foot_contains f x y = true).
Proof.
  intros Hbox Hwrap Hxy.
  destruct (nearestFootprint_pixel foots argmin dist Hbox Hwrap x y Hxy)
    as (Hr & Hj & Hlow).
  split.
  - intros H0. rewrite H0 in Hj.
    destruct Hj as [[Hd _]|(i & f & qx & qy & Hi & Hc & _ & _ & Hl & _)].
    + apply box_contains_pt_iff in Hxy. unfold getWidth, getHeight in Hd. lia.
    + exists f. split; [apply (nth_error_In _ _ Hi)|].
      assert (qx = x /\ qy = y) as [-> ->] by (unfold L1 in Hl; lia).
      exact Hc.
  - intros (f & Hf & Hc). pose proof (Hlow f x y Hf Hc Hxy) as Hle.
    unfold L1 in Hle. lia.
Qed.

Lemma nearestFootprint_zero_iff_covered_witness :
  im_pix (fst (nearestFootprint [c4_right; c4_left] c4_buf c4_buf)) 4 0 = 0 <->
  exists f, In f [c4_right; c4_left] /\ foot_contains f 4 0 = true.
Proof.
  apply (nearestFootprint_zero_iff_covered [c4_right; c4_left] c4_buf c4_buf
           4 0).
  - reflexivity.
  - vm_compute. discriminate.
  - reflexivity.
Defined.

(** X2.  [nearestFootprint]: with at most 65536 footprints, a pixel of the
    box that belongs to footprints is labelled with the index of the last
    footprint of the list that contains it: where footprints overlap, the
    later one wins. *)
Theorem nearestFootprint_label_on_footprint (foots : list Footprint)
        (argmin dist : Image Z) (x y : Z) (g : Footprint) :
  im_bbox argmin = im_bbox dist ->
  getWidth (im_bbox dist) + getHeight (im_bbox dist) <= 65534 ->
  Z.of_nat (length foots) <= 65536 ->
  box_contains_pt (im_bbox dist) x y = true ->
  In g foots -> foot_contains g x y = true ->
  exists i f,
    nth_error foots i = Some f /\
    foot_contains f x y = true /\
    (forall j f', (i < j)%nat -> nth_error foots j = Some f' ->
                  foot_contains f' x y = false) /\
    im_pix (snd (nearestFootprint foots argmin dist)) x y = Z.of_nat i.
Proof.
  intros Hbox Hwrap Hlen Hxy Hg Hc.
  destruct (nearestFootprint_pixel foots argmin dist Hbox Hwrap x y Hxy)
    as (Hr & Hj & Hlow).
  pose proof (Hlow g x y Hg Hc Hxy) as Hle.
  assert (H0 : im_pix (fst (nearestFootprint foots argmin dist)) x y = 0)
    by (unfold L1 in Hle; lia).
  rewrite H0 in Hj.
  destruct Hj as [[Hd _]|(i & f & qx & qy & Hi & Hcf & _ & Hlast & Hl & Hlab)].
  - apply box_contains_pt_iff in Hxy. unfold getWidth, getHeight in Hd. lia.
  - assert (qx = x /\ qy = y) as [-> ->] by (unfold L1 in Hl; lia).
    exists i, f. split; [exact Hi|]. split; [exact Hcf|].
    split; [exact Hlast|]. rewrite Hlab.
    assert (Hlt : (i < length foots)%nat)
      by (apply nth_error_Some; congruence).
    unfold u16. apply Z.mod_small. lia.
Qed.

Lemma nearestFootprint_label_on_footprint_witness :
  exists i f,
    nth_error [c4_left; c4_left] i = Some f /\
    foot_contains f 0 0 = true /\
    (forall j f', (i < j)%nat -> nth_error [c4_left; c4_left] j = Some f' ->
                  foot_contains f' 0 0 = false) /\
    im_pix (snd (nearestFootprint [c4_left; c4_left] c4_buf c4_buf)) 0 0
    = Z.of_nat i.
Proof.
  apply (nearestFootprint_label_on_footprint [c4_left; c4_left] c4_buf c4_buf
           0 0 c4_left).
  - reflexivity.
  - vm_compute. discriminate.
  - vm_compute. discriminate.
  - reflexivity.
  - left. reflexivity.
  - reflexivity.
Defined.

(** X3.  [nearestFootprint]: the distance image is 1-Lipschitz for the
    Manhattan distance: the values at two pixels of the box differ by at
    most the distance between the pixels. *)
Theorem nearestFootprint_lipschitz (foots : list Footprint)
        (argmin dist : Image Z) (x y x' y' : Z) :
  im_bbox argmin = im_bbox dist ->
  getWidth (im_bbox dist) + getHeight (im_bbox dist) <= 65534 ->
  box_contains_pt (im_bbox dist) x y = true ->
  box_contains_pt (im_bbox dist) x' y' = true ->
  Z.abs (im_pix (fst (nearestFootprint foots argmin dist)) x y
         - im_pix (fst (nearestFootprint foots argmin dist)) x' y')
  <= L1 x y x' y'.
Proof.
  intros Hbox Hwrap Hp Hq.
  assert (Hone : forall a b a' b',
             box_contains_pt (im_bbox dist) a b = true ->
             box_contains_pt (im_bbox dist) a' b' = true ->
             im_pix (fst (nearestFootprint foots argmin dist)) a' b'
             <= im_pix (fst (nearestFootprint foots argmin dist)) a b
                + L1 a b a' b').
  { intros a b a' b' Ha Ha'.
    destruct (nearestFootprint_pixel foots argmin dist Hbox Hwrap a b Ha)
      as (Hr & Hj & _).
    destruct (nearestFootprint_pixel foots argmin dist Hbox Hwrap a' b' Ha')
      as (Hr' & _ & Hlow').
    pose proof (L1_nonneg a b a' b') as Hnn.
    destruct Hj as [[Hd _]|(i & f & qx & qy & Hi & Hc & Hb & _ & Hl & _)].
    - lia.
    - pose proof (Hlow' f qx qy (nth_error_In _ _ Hi) Hc Hb) as Hle.
      pose proof (L1_triangle a' b' a b qx qy) as Ht.
      unfold L1 in *. lia. }
  pose proof (Hone x y x' y' Hp Hq) as H1.
  pose proof (Hone x' y' x y Hq Hp) as H2.
  unfold L1 in *. lia.
Qed.

Lemma nearestFootprint_lipschitz_witness :
  Z.abs (im_pix (fst (nearestFootprint [c4_right; c4_left] c4_buf c4_buf)) 1 0
         - im_pix (fst (nearestFootprint [c4_right; c4_left] c4_buf c4_buf))
                  3 0)
  <= L1 1 0 3 0.
Proof.
  apply (nearestFootprint_lipschitz [c4_right; c4_left] c4_buf c4_buf).
  - reflexivity.
  - vm_compute. discriminate.
  - reflexivity.
  - reflexivity.
Defined.

(** X4.  [nearestFootprint]: when no footprint has a pixel in the box (in
    particular for an empty list), every pixel of the box keeps the initial
    bound width + height as its distance and the nil label 0xFFFF. *)
Theorem nearestFootprint_without_footprints (foots : list Footprint)
        (argmin dist : Image Z) (x y : Z) :
  im_bbox argmin = im_bbox dist ->
  getWidth (im_bbox dist) + getHeight (im_bbox dist) <= 65534 ->
  (forall f qx qy, In f foots ->
     box_contains_pt (im_bbox dist) qx qy = true ->
     foot_contains f qx qy = false) ->
  box_contains_pt (im_bbox dist) x y = true ->
  im_pix (fst (nearestFootprint foots argmin dist)) x y
  = getWidth (im_bbox dist) + getHeight (im_bbox dist) /\
  im_pix (snd (nearestFootprint foots argmin dist)) x y = nil_label.
Proof.
  intros Hbox Hwrap Hoff Hxy.
  destruct (nearestFootprint_pixel foots argmin dist Hbox Hwrap x y Hxy)
    as (_ & Hj & _).
  destruct Hj as [Hn|(i & f & qx & qy & Hi & Hc & Hb & _)]; [exact Hn|].
  rewrite (Hoff f qx qy (nth_error_In _ _ Hi) Hb) in Hc. discriminate.
Qed.

Lemma nearestFootprint_without_footprints_witness :
  im_pix (fst (nearestFootprint [] c4_buf c4_buf)) 2 0
  = getWidth (im_bbox c4_buf) + getHeight (im_bbox c4_buf) /\
  im_pix (snd (nearestFootprint [] c4_buf c4_buf)) 2 0 = nil_label.
Proof.
  apply (nearestFootprint_without_footprints [] c4_buf c4_buf 2 0).
  - reflexivity.
  - vm_compute. discriminate.
  - intros f qx qy [].
  - reflexivity.
Defined.

(** * More about the stray-flux pass *)

Lemma list_eq_map_seq {T : Type} (g : nat -> T) (d : T) :
  forall (l : list T),
    (forall i, (i < length l)%nat -> nth i l d = g i) ->
    l = map g (seq 0 (length l)).
Proof.
  intros l H. apply (nth_ext _ _ d (g 0%nat)).
  - rewrite length_map, length_seq. reflexivity.
  - intros i Hi. rewrite (H i Hi).
    rewrite map_nth. rewrite seq_nth by exact Hi. reflexivity.
Qed.

Section StrayExact.
Context {A : PixelArith}.
Variable foot : Footprint.
Variable tsum : Image pixel.
Variable img : MaskedImage.
Variable opts : Z.
Variable tfoots : list Footprint.
Variable ispsf : list bool.
Variables pkx pky : list Z.
Variable clip : dbl.

Hypothesis Hpkx : length pkx = length tfoots.
Hypothesis Hpky : length pky = length tfoots.
Hypothesis Hpsf : length ispsf = 0%nat \/ length ispsf = length tfoots.
Hypothesis Hmode1 : flag_set opts STRAYFLUX_R_TO_FOOTPRINT = false.
Hypothesis Hmode2 : flag_set opts STRAYFLUX_NEAREST_FOOTPRINT = false.
Hypothesis Hsentinel :
  forall px py x y, deqb (peak_weight px py x y) (dbl_of_Z (-1)) = false.

Lemma stray_fold_exact nearest :
  forall l strays,
    length strays = length tfoots ->
    (forall x y, In (x, y) l ->
       box_contains_pt (im_bbox tsum) x y = true /\
       box_contains_pt (mi_bbox img) x y = true) ->
    exists strays',
      foldM (stray_pixel tsum img opts tfoots ispsf pkx pky clip nearest)
            l strays = Ok strays' /\
      length strays' = length tfoots /\
      forall i, (i < length tfoots)%nat ->
        nth i strays' [] =
        nth i strays [] ++
        stray_records_for tsum img opts (length tfoots) ispsf pkx pky clip i l.
Proof.
  induction l as [|[x y] l IH]; intros strays Hlen Hin.
  - exists strays. split; [reflexivity|]. split; [exact Hlen|].
    intros i _. cbn [stray_records_for flat_map]. rewrite app_nil_r.
    reflexivity.
  - cbn [foldM]. destruct (Hin x y (or_introl eq_refl)) as [Ht Hi].
    assert (Hstep : exists s1,
               stray_pixel tsum img opts tfoots ispsf pkx pky clip nearest
                           strays (x, y) = Ok s1 /\
               length s1 = length tfoots /\
               forall i, (i < length tfoots)%nat ->
                 nth i s1 [] =
                 nth i strays [] ++
                 stray_records_for tsum img opts (length tfoots) ispsf pkx pky
                                   clip i [(x, y)]).
    { unfold stray_records_for. cbn [flat_map fst snd]. unfold is_stray.
      destruct (pltb p0 (im_pix tsum x y)) eqn:E1;
        [|destruct (pleb (mi_image img x y) p0) eqn:E2].
      - exists strays. rewrite stray_pixel_skip by auto.
        split; [reflexivity|]. split; [exact Hlen|].
        intros i _. cbn [negb andb app]. rewrite app_nil_r. reflexivity.
      - exists strays. rewrite stray_pixel_skip by auto.
        split; [reflexivity|]. split; [exact Hlen|].
        intros i _. cbn [negb andb app]. rewrite app_nil_r. reflexivity.
      - destruct (stray_pixel_peak tsum img opts tfoots ispsf pkx pky clip
                    Hpkx Hpky Hpsf Hmode1 Hmode2 Hsentinel x y nearest strays
                    Hlen Ht Hi E1 E2) as (s1 & E & Hl & Hn).
        exists s1. split; [exact E|]. split; [exact Hl|].
        intros i Hi'. rewrite (Hn i Hi'). cbn [negb andb].
        destruct (negb _); cbn [app]; rewrite ?app_nil_r; reflexivity. }
    destruct Hstep as (s1 & E1 & Hl1 & Hn1). rewrite E1. cbn [bind].
    destruct (IH s1 Hl1 (fun x' y' H => Hin x' y' (or_intror H)))
      as (s2 & E2 & Hl2 & Hn2).
    exists s2. split; [exact E2|]. split; [exact Hl2|].
    intros i Hi'. rewrite (Hn2 i Hi'), (Hn1 i Hi'), <- app_assoc.
    unfold stray_records_for. cbn [flat_map]. rewrite app_nil_r.
    reflexivity.
Qed.

(** The whole output of [_find_stray_flux] in the default mode. *)
Lemma find_stray_flux_default :
  (forall x y, foot_contains foot x y = true ->
     box_contains_pt (im_bbox tsum) x y = true /\
     box_contains_pt (mi_bbox img) x y = true) ->
  find_stray_flux foot tsum img opts tfoots ispsf pkx pky clip =
  Ok (map (fun i =>
             heavy_of (stray_records_for tsum img opts (length tfoots) ispsf
                         pkx pky clip i (spans_pixels (fp_spans foot))))
          (seq 0 (length tfoots))).
Proof.
  intros Hbox. unfold find_stray_flux, nearest_image.
  rewrite Hmode2. cbn [bind].
  destruct (stray_fold_exact None (spans_pixels (fp_spans foot))
              (repeat [] (length tfoots)))
    as (acc & E & Hl & Hn).
  - apply repeat_length.
  - intros x y Hin. apply Hbox. unfold foot_contains.
    apply spans_pixels_In. exact Hin.
  - rewrite E. cbn [bind]. f_equal.
    rewrite (list_eq_map_seq
               (fun i => stray_records_for tsum img opts (length tfoots)
                           ispsf pkx pky clip i
                           (spans_pixels (fp_spans foot))) [] acc).
    + rewrite Hl, map_map. reflexivity.
    + intros i Hi. rewrite Hl in Hi. rewrite (Hn i Hi).
      rewrite nth_repeat. reflexivity.
Qed.
End StrayExact.

(** X5.  [_find_stray_flux] in the default mode (neither
    [STRAYFLUX_R_TO_FOOTPRINT] nor [STRAYFLUX_NEAREST_FOOTPRINT]), with peak
    lists of length N, [ispsf] of length 0 or N and the parent footprint
    inside the boxes of [tsum] and of the image: the routine returns one
    entry per template; the heavy footprint of template [i] holds, in the
    order of the parent footprint, exactly the stray pixels at which its
    contribution is not zero after the clipping, and the entry is a null
    pointer when there is no such pixel.  The contributions are those the
    code computes, [peak_weight] with its 32-bit products, whatever the
    distance of the peaks. *)
Theorem find_stray_flux_default_output {A : PixelArith}
        (foot : Footprint) (tsum : Image pixel) (img : MaskedImage)
        (opts : Z) (tfoots : list Footprint) (ispsf : list bool)
        (pkx pky : list Z) (clip : dbl) :
  length pkx = length tfoots ->
  length pky = length tfoots ->
  length ispsf = 0%nat \/ length ispsf = length tfoots ->
  flag_set opts STRAYFLUX_R_TO_FOOTPRINT = false ->
  flag_set opts STRAYFLUX_NEAREST_FOOTPRINT = false ->
  (forall px py x y, deqb (peak_weight px py x y) (dbl_of_Z (-1)) = false) ->
  (forall x y, foot_contains foot x y = true ->
     box_contains_pt (im_bbox tsum) x y = true /\
     box_contains_pt (mi_bbox img) x y = true) ->
  find_stray_flux foot tsum img opts tfoots ispsf pkx pky clip =
  Ok (map (fun i =>
             heavy_of (stray_records_for tsum img opts (length tfoots) ispsf
                         pkx pky clip i (spans_pixels (fp_spans foot))))
          (seq 0 (length tfoots))).
Proof.
  intros Hpkx Hpky Hpsf Hm1 Hm2 Hsen Hbox.
  apply find_stray_flux_default; assumption.
Qed.

Lemma x_foot_boxes x y :
  foot_contains x_foot x y = true ->
  box_contains_pt (im_bbox c3_tsum) x y = true /\
  box_contains_pt (mi_bbox x_img) x y = true.
Proof.
  intros H. apply spans_contain_In in H.
  destruct H as (s & [<-|[]] & Hs). apply span_contains_iff in Hs.
  cbn [sp_x0 sp_x1 sp_y] in Hs.
  split; apply box_contains_pt_iff; cbn; lia.
Qed.

Lemma find_stray_flux_default_output_witness :
  find_stray_flux x_foot c3_tsum x_img ASSIGN_STRAYFLUX c3_tfoots
                  [false; true] [1; 0] [0; 2] (Qc_of_Z 0) =
  Ok (map (fun i =>
             heavy_of (stray_records_for c3_tsum x_img ASSIGN_STRAYFLUX
                         (length c3_tfoots) [false; true] [1; 0] [0; 2]
                         (Qc_of_Z 0) i (spans_pixels (fp_spans x_foot))))
          (seq 0 (length c3_tfoots))).
Proof.
  apply (find_stray_flux_default_output x_foot c3_tsum x_img ASSIGN_STRAYFLUX
           c3_tfoots [false; true] [1; 0] [0; 2] (Qc_of_Z 0)
           eq_refl eq_refl (or_intror eq_refl) eq_refl eq_refl
           Qc_peak_weight_sentinel x_foot_boxes).
Defined.

Lemma flat_map_nil {X Y : Type} (f : X -> list Y) (l : list X) :
  (forall x, In x l -> f x = []) -> flat_map f l = [].
Proof.
  induction l as [|a l IH]; intros H; [reflexivity|].
  cbn [flat_map]. rewrite (H a (or_introl eq_refl)), IH; [reflexivity|].
  intros x Hx. apply H. right. exact Hx.
Qed.

(** X6.  [_find_stray_flux] in the default mode, when neither
    [STRAYFLUX_TO_POINT_SOURCES_ALWAYS] nor
    [STRAYFLUX_TO_POINT_SOURCES_WHEN_NECESSARY] is set: a template flagged
    as a point source receives no stray flux at all; its entry in [strays]
    is a null pointer.  ([0. == 0.] is assumed of the arithmetic.) *)
Theorem find_stray_flux_skips_point_sources {A : PixelArith}
        (foot : Footprint) (tsum : Image pixel) (img : MaskedImage)
        (opts : Z) (tfoots : list Footprint) (ispsf : list bool)
        (pkx pky : list Z) (clip : dbl) (i : nat) :
  length pkx = length tfoots ->
  length pky = length tfoots ->
  length ispsf = length tfoots ->
  flag_set opts STRAYFLUX_R_TO_FOOTPRINT = false ->
  flag_set opts STRAYFLUX_NEAREST_FOOTPRINT = false ->
  flag_set opts STRAYFLUX_TO_POINT_SOURCES_ALWAYS = false ->
  flag_set opts STRAYFLUX_TO_POINT_SOURCES_WHEN_NECESSARY = false ->
  (forall px py x y, deqb (peak_weight px py x y) (dbl_of_Z (-1)) = false) ->
  deqb d0 d0 = true ->
  (forall x y, foot_contains foot x y = true ->
     box_contains_pt (im_bbox tsum) x y = true /\
     box_contains_pt (mi_bbox img) x y = true) ->
  nth_error ispsf i = Some true ->
  exists strays,
    find_stray_flux foot tsum img opts tfoots ispsf pkx pky clip = Ok strays /\
    nth_error strays i = Some None.
Proof.
  intros Hpkx Hpky Hpsf Hm1 Hm2 Halw Hnec Hsen Hzero Hbox Hi.
  rewrite (find_stray_flux_default foot tsum img opts tfoots ispsf pkx pky clip
             Hpkx Hpky (or_intror Hpsf) Hm1 Hm2 Hsen Hbox).
  eexists. split; [reflexivity|].
  assert (Hlt : (i < length tfoots)%nat).
  { rewrite <- Hpsf. apply nth_error_Some. congruence. }
  rewrite nth_error_map.
  rewrite (nth_error_nth' (seq 0 (length tfoots)) 0%nat)
    by (rewrite length_seq; exact Hlt).
  rewrite seq_nth by exact Hlt. cbn [option_map Nat.add]. f_equal.
  unfold stray_records_for. rewrite flat_map_nil; [reflexivity|].
  intros [x y] _. cbn [fst snd].
  assert (Hc : stray_contrib opts (length tfoots) ispsf pkx pky clip x y i
               = d0).
  { unfold stray_contrib, stray_keep, stray_skipped, stray_ptsrcs,
      stray_necessary, always.
    rewrite Hnec, andb_false_r, Halw. cbn [negb andb].
    replace (length ispsf =? 0)%nat with false
      by (symmetry; apply Nat.eqb_neq; lia).
    rewrite (nth_error_nth ispsf i false Hi). cbn [negb andb]. reflexivity. }
  rewrite Hc, Hzero. cbn [negb]. rewrite andb_false_r. reflexivity.
Qed.

Lemma find_stray_flux_skips_point_sources_witness :
  exists strays,
    find_stray_flux x_foot c3_tsum x_img ASSIGN_STRAYFLUX c3_tfoots
                    [false; true] [1; 0] [0; 2] (Qc_of_Z 0) = Ok strays /\
    nth_error strays 1 = Some None.
Proof.
  apply (find_stray_flux_skips_point_sources x_foot c3_tsum x_img
           ASSIGN_STRAYFLUX c3_tfoots [false; true] [1; 0] [0; 2] (Qc_of_Z 0)
           1 eq_refl eq_refl eq_refl eq_refl eq_refl eq_refl eq_refl
           Qc_peak_weight_sentinel eq_refl x_foot_boxes eq_refl).
Defined.

Lemma Qcinv_pos (d : Qc) : (0 < d)%Qc -> (0 < / d)%Qc.
Proof.
  unfold Qclt, Qcinv. cbn [this Q2Qc]. intros H.
  rewrite !Qred_correct. rewrite Qred_correct in H.
  apply Qinv_lt_0_compat. exact H.
Qed.

Lemma Qc_of_Z_square_nonneg (z : Z) : (0 <= Qc_of_Z (z * z))%Qc.
Proof.
  unfold Qcle, Qc_of_Z. cbn [this Q2Qc]. rewrite !Qred_correct.
  unfold Qle. cbn. nia.
Qed.

(** A peak at most 46340 pixels away along each axis has a positive
    weight. *)
Lemma Qc_peak_weight_pos (px py x y : Z) :
  Z.abs (px - x) <= 46340 -> Z.abs (py - y) <= 46340 ->
  (0 < @peak_weight ExactArith px py x y)%Qc.
Proof.
  intros Hx Hy. unfold peak_weight. cbv zeta.
  rewrite !i32_square by assumption.
  change (@ddiv ExactArith) with Qcdiv. change (@dadd ExactArith) with Qcplus.
  change (@d1 ExactArith) with (Q2Qc 1).
  change (@dbl_of_Z ExactArith) with Qc_of_Z.
  pose proof (Qc_of_Z_square_nonneg (px - x)) as Ha.
  pose proof (Qc_of_Z_square_nonneg (py - y)) as Hb.
  set (a := Qc_of_Z ((px - x) * (px - x))) in *.
  set (b := Qc_of_Z ((py - y) * (py - y))) in *.
  assert (Hd : (0 < 1 + a + b)%Qc).
  { apply Qclt_le_trans with (1 + 0 + 0)%Qc; [reflexivity|].
    apply Qcplus_le_compat; [apply Qcplus_le_compat; [apply Qcle_refl|exact Ha]
                            |exact Hb]. }
  unfold Qcdiv. rewrite Qcmult_1_l. apply Qcinv_pos. exact Hd.
Qed.

Open Scope Qc_scope.

Lemma Qc_fold_left_sum (f : nat -> Qc) (keep : nat -> bool) :
  forall l s,
    fold_left (fun s i => if keep i then s + f i else s) l s =
    s + fold_right (fun i a => (if keep i then f i else 0) + a) 0 l.
Proof.
  induction l as [|i l IH]; intros s; cbn [fold_left fold_right].
  - ring.
  - rewrite IH. destruct (keep i); ring.
Qed.

Lemma Qc_sum_scale (c : nat -> Qc) (k : Qc) :
  forall l,
    fold_right (fun i a => c i * k + a) 0 l =
    fold_right (fun i a => c i + a) 0 l * k.
Proof.
  induction l as [|i l IH]; cbn [fold_right]; [ring|]. rewrite IH. ring.
Qed.

Lemma Qc_sum_nonneg (c : nat -> Qc) :
  forall l, (forall i, In i l -> 0 <= c i) ->
            0 <= fold_right (fun i a => c i + a) 0 l.
Proof.
  induction l as [|i l IH]; intros H; cbn [fold_right]; [apply Qcle_refl|].
  replace 0 with (0 + 0) by ring.
  apply Qcplus_le_compat.
  - apply H. left. reflexivity.
  - apply IH. intros j Hj. apply H. right. exact Hj.
Qed.

Lemma Qc_sum_pos (c : nat -> Qc) :
  forall l i0, (forall i, In i l -> 0 <= c i) -> In i0 l -> 0 < c i0 ->
               0 < fold_right (fun i a => c i + a) 0 l.
Proof.
  induction l as [|i l IH]; intros i0 H Hin Hpos; [destruct Hin|].
  assert (Hl : forall j, In j l -> 0 <= c j)
    by (intros j Hj; apply H; right; exact Hj).
  cbn [fold_right]. destruct Hin as [->|Hin].
  - apply Qclt_le_trans with (c i0 + 0); [rewrite Qcplus_0_r; exact Hpos|].
    apply Qcplus_le_compat; [apply Qcle_refl|apply Qc_sum_nonneg; exact Hl].
  - apply Qclt_le_trans with (0 + fold_right (fun i a => c i + a) 0 l).
    + rewrite Qcplus_0_l. apply (IH i0); auto.
    + apply Qcplus_le_compat; [|apply Qcle_refl].
      apply H. left. reflexivity.
Qed.

Close Scope Qc_scope.

Lemma recs_flux_at_app (a b : list (@StrayPix ExactArith)) x y :
  recs_flux_at (a ++ b) x y = (recs_flux_at a x y + recs_flux_at b x y)%Qc.
Proof.
  unfold recs_flux_at. induction a as [|r a IH]; cbn [app fold_right].
  - ring.
  - rewrite IH. destruct ((st_x r =? x) && (st_y r =? y)); ring.
Qed.

Lemma heavy_flux (recs : list (@StrayPix ExactArith)) x y :
  match heavy_of recs with
  | Some r => recs_flux_at r x y
  | None => Q2Qc 0
  end = recs_flux_at recs x y.
Proof. destruct recs; reflexivity. Qed.

Lemma stray_flux_at_map (R : nat -> list (@StrayPix ExactArith)) x y :
  forall l,
    stray_flux_at (map (fun i => heavy_of (R i)) l) x y =
    fold_right (fun i a => (recs_flux_at (R i) x y + a)%Qc) (Q2Qc 0) l.
Proof.
  induction l as [|i l IH]; [reflexivity|].
  cbn [map]. unfold stray_flux_at in *. cbn [fold_right].
  rewrite heavy_flux, IH. reflexivity.
Qed.

Lemma fold_right_ext_in {X Y : Type} (f g : X -> Y -> Y) (a : Y) :
  forall l, (forall x b, In x l -> f x b = g x b) ->
            fold_right f a l = fold_right g a l.
Proof.
  induction l as [|x l IH]; intros H; [reflexivity|]. cbn [fold_right].
  rewrite IH by (intros; apply H; right; assumption).
  apply H. left. reflexivity.
Qed.

Section StrayConservation.
Variable tsum : Image (@pixel ExactArith).
Variable img : @MaskedImage ExactArith.
Variable opts : Z.
Variable N : nat.
Variable ispsf : list bool.
Variables pkx pky : list Z.
Variable clip : @dbl ExactArith.
Variables x y : Z.

Lemma recs_flux_other i :
  forall l, ~ In (x, y) l ->
    recs_flux_at (stray_records_for tsum img opts N ispsf pkx pky clip i l) x y
    = Q2Qc 0.
Proof.
  induction l as [|[px py] l IH]; intros Hnin; [reflexivity|].
  unfold stray_records_for in *. cbn [flat_map fst snd].
  rewrite recs_flux_at_app, IH by (intros H; apply Hnin; right; exact H).
  assert (Hne : (px =? x) && (py =? y) = false).
  { apply andb_false_iff.
    destruct (Z.eqb_spec px x) as [->|]; [|left; reflexivity].
    destruct (Z.eqb_spec py y) as [->|]; [|right; reflexivity].
    exfalso. apply Hnin. left. reflexivity. }
  destruct (_ && negb _); unfold recs_flux_at, stray_record;
    cbn [fold_right st_x st_y]; rewrite ?Hne; ring.
Qed.

Lemma recs_flux_here i :
  forall l, NoDup l -> In (x, y) l ->
    recs_flux_at (stray_records_for tsum img opts N ispsf pkx pky clip i l) x y
    = if is_stray tsum img x y
         && negb (deqb (stray_contrib opts N ispsf pkx pky clip x y i) d0)
      then st_image (stray_record img opts N ispsf pkx pky clip x y i)
      else Q2Qc 0.
Proof.
  induction l as [|[px py] l IH]; intros Hnd Hin; [destruct Hin|].
  inversion Hnd as [|? ? Hnin Hnd']; subst.
  change (stray_records_for tsum img opts N ispsf pkx pky clip i
            ((px, py) :: l))
    with ((if is_stray tsum img px py
              && negb (deqb (stray_contrib opts N ispsf pkx pky clip px py i)
                            d0)
           then [stray_record img opts N ispsf pkx pky clip px py i]
           else [])
          ++ stray_records_for tsum img opts N ispsf pkx pky clip i l).
  rewrite recs_flux_at_app.
  destruct Hin as [E|Hin].
  - inversion E; subst px py. rewrite (recs_flux_other i l Hnin).
    destruct (_ && negb _); unfold recs_flux_at, stray_record;
      cbn [fold_right st_x st_y st_image]; rewrite ?Z.eqb_refl;
      cbn [andb]; ring.
  - rewrite (IH Hnd' Hin).
    assert (Hne : (px =? x) && (py =? y) = false).
    { apply andb_false_iff.
      destruct (Z.eqb_spec px x) as [->|]; [|left; reflexivity].
      destruct (Z.eqb_spec py y) as [->|]; [|right; reflexivity].
      exfalso. apply Hnin. exact Hin. }
    destruct (is_stray tsum img px py && negb _);
      unfold recs_flux_at at 1, stray_record;
      cbn [fold_right st_x st_y]; rewrite ?Hne; ring.
Qed.

Lemma stray_csum_sum :
  stray_csum opts N ispsf pkx pky clip x y =
  fold_right (fun i a => (stray_contrib opts N ispsf pkx pky clip x y i + a)%Qc)
             (Q2Qc 0) (seq 0 N).
Proof.
  unfold stray_csum, stray_sum.
  change (@dadd ExactArith) with Qcplus. change (@d0 ExactArith) with (Q2Qc 0).
  rewrite (Qc_fold_left_sum (@stray_weight ExactArith pkx pky x y)
             (@stray_keep ExactArith opts N ispsf pkx pky clip x y)).
  rewrite Qcplus_0_l. reflexivity.
Qed.

(** The peaks of all templates are at most 46340 pixels from (x, y) along
    each axis, so that no product of the weights overflows. *)
Hypothesis Hnear :
  forall i, (i < N)%nat ->
    Z.abs (nth i pkx 0 - x) <= 46340 /\ Z.abs (nth i pky 0 - y) <= 46340.

Lemma stray_contrib_nonneg i :
  (i < N)%nat ->
  (0 <= stray_contrib opts N ispsf pkx pky clip x y i)%Qc.
Proof.
  intros Hi. unfold stray_contrib. destruct (stray_keep _ _ _ _ _ _ _ _ i).
  - apply Qclt_le_weak. apply Qc_peak_weight_pos; apply Hnear; exact Hi.
  - apply Qcle_refl.
Qed.

Lemma stray_csum_pos i :
  (i < N)%nat ->
  stray_keep opts N ispsf pkx pky clip x y i = true ->
  (0 < stray_csum opts N ispsf pkx pky clip x y)%Qc.
Proof.
  intros Hi Hk. rewrite stray_csum_sum.
  apply (Qc_sum_pos (@stray_contrib ExactArith opts N ispsf pkx pky clip x y)
                    (seq 0 N) i).
  - intros j Hj. apply stray_contrib_nonneg. apply in_seq in Hj. lia.
  - apply in_seq. lia.
  - unfold stray_contrib. rewrite Hk.
    apply Qc_peak_weight_pos; apply Hnear; exact Hi.
Qed.

Lemma stray_shares_sum i0 :
  (i0 < N)%nat ->
  stray_keep opts N ispsf pkx pky clip x y i0 = true ->
  fold_right
    (fun i a =>
       ((if negb (deqb (stray_contrib opts N ispsf pkx pky clip x y i) d0)
         then st_image (stray_record img opts N ispsf pkx pky clip x y i)
         else Q2Qc 0) + a)%Qc)
    (Q2Qc 0) (seq 0 N)
  = mi_image img x y.
Proof.
  intros Hi Hk.
  pose proof (stray_csum_pos i0 Hi Hk) as Hpos.
  assert (Hne : stray_csum opts N ispsf pkx pky clip x y <> Q2Qc 0).
  { intros E. rewrite E in Hpos. discriminate Hpos. }
  rewrite (fold_right_ext_in _
             (fun i a =>
                (stray_contrib opts N ispsf pkx pky clip x y i
                 * (/ stray_csum opts N ispsf pkx pky clip x y
                    * mi_image img x y) + a)%Qc)).
  - rewrite (Qc_sum_scale
               (@stray_contrib ExactArith opts N ispsf pkx pky clip x y)).
    rewrite <- stray_csum_sum.
    set (c := stray_csum opts N ispsf pkx pky clip x y) in *.
    change (@pixel ExactArith) with Qc. field. exact Hne.
  - intros i a _. f_equal.
    change (@deqb ExactArith) with Qc_eq_bool.
    change (@d0 ExactArith) with (Q2Qc 0).
    destruct (Qc_eq_bool (stray_contrib opts N ispsf pkx pky clip x y i)
                         (Q2Qc 0)) eqn:E; cbn [negb].
    + apply Qc_eq_bool_correct in E. rewrite E. ring.
    + unfold stray_record. cbn [st_image].
      change (@pixel_of_dbl ExactArith) with (fun q : Qc => q).
      change (@dbl_of_pixel ExactArith) with (fun q : Qc => q).
      change (@dmul ExactArith) with Qcmult.
      change (@ddiv ExactArith) with Qcdiv.
      cbv beta. unfold Qcdiv. ring.
Qed.
End StrayConservation.

(** X7.  [_find_stray_flux] in the default mode and in exact arithmetic:
    when the parent footprint lists no pixel twice, the flux recorded for
    a stray pixel in the heavy footprints of all templates adds up to the
    image value at that pixel, provided the peaks of all templates are at
    most 46340 pixels from it along each axis (no 32-bit product
    overflows) and at least one template survives the clipping there. *)
Theorem find_stray_flux_conserves_stray_pixel
        (foot : Footprint) (tsum : Image (@pixel ExactArith))
        (img : @MaskedImage ExactArith) (opts : Z)
        (tfoots : list Footprint) (ispsf : list bool) (pkx pky : list Z)
        (clip : @dbl ExactArith) (x y : Z) (i0 : nat) :
  length pkx = length tfoots ->
  length pky = length tfoots ->
  length ispsf = 0%nat \/ length ispsf = length tfoots ->
  flag_set opts STRAYFLUX_R_TO_FOOTPRINT = false ->
  flag_set opts STRAYFLUX_NEAREST_FOOTPRINT = false ->
  (forall x y, foot_contains foot x y = true ->
     box_contains_pt (im_bbox tsum) x y = true /\
     box_contains_pt (mi_bbox img) x y = true) ->
  NoDup (spans_pixels (fp_spans foot)) ->
  foot_contains foot x y = true ->
  is_stray tsum img x y = true ->
  (forall i, (i < length tfoots)%nat ->
     Z.abs (nth i pkx 0 - x) <= 46340 /\ Z.abs (nth i pky 0 - y) <= 46340) ->
  (i0 < length tfoots)%nat ->
  stray_keep opts (length tfoots) ispsf pkx pky clip x y i0 = true ->
  exists strays,
    find_stray_flux foot tsum img opts tfoots ispsf pkx pky clip = Ok strays /\
    stray_flux_at strays x y = mi_image img x y.
Proof.
  intros Hpkx Hpky Hpsf Hm1 Hm2 Hbox Hnd Hin Hstray Hnear Hi0 Hk.
  rewrite (find_stray_flux_default foot tsum img opts tfoots ispsf pkx pky clip
             Hpkx Hpky Hpsf Hm1 Hm2 Qc_peak_weight_sentinel Hbox).
  eexists. split; [reflexivity|].
  rewrite (stray_flux_at_map
             (fun i => stray_records_for tsum img opts (length tfoots) ispsf
                         pkx pky clip i (spans_pixels (fp_spans foot)))).
  rewrite <- (stray_shares_sum img opts (length tfoots) ispsf pkx pky clip
                x y Hnear i0 Hi0 Hk).
  apply fold_right_ext_in. intros i a _. f_equal.
  rewrite (recs_flux_here tsum img opts (length tfoots) ispsf pkx pky clip
             x y i _ Hnd) by (apply spans_pixels_In; exact Hin).
  rewrite Hstray. reflexivity.
Qed.

Lemma x_foot_NoDup : NoDup (spans_pixels (fp_spans x_foot)).
Proof.
  vm_compute. repeat constructor; cbn; intuition discriminate.
Qed.

Lemma find_stray_flux_conserves_stray_pixel_witness :
  exists strays,
    find_stray_flux x_foot c3_tsum x_img ASSIGN_STRAYFLUX c3_tfoots
                    [] [1; 0] [0; 2] (Qc_of_Z 0) = Ok strays /\
    stray_flux_at strays 1 0 = mi_image x_img 1 0.
Proof.
  apply (find_stray_flux_conserves_stray_pixel x_foot c3_tsum x_img
           ASSIGN_STRAYFLUX c3_tfoots [] [1; 0] [0; 2] (Qc_of_Z 0) 1 0 0%nat
           eq_refl eq_refl (or_introl eq_refl) eq_refl eq_refl
           x_foot_boxes x_foot_NoDup eq_refl eq_refl).
  - intros [|[|i]] Hi; cbn in *; lia.
  - cbn. lia.
  - vm_compute. reflexivity.
Defined.

Lemma vec_get_Ok {T : Type} (l : list T) i v d :
  vec_get l i = Ok v -> (i < length l)%nat /\ v = nth i l d.
Proof.
  unfold vec_get. destruct (nth_error l i) as [w|] eqn:E; [|discriminate].
  intros H. inversion H; subst. split.
  - apply nth_error_Some. congruence.
  - symmetry. apply nth_error_nth. exact E.
Qed.

Lemma vec_set_Ok {T : Type} (l l' : list T) i v :
  vec_set l i v = Ok l' -> (i < length l)%nat /\ l' = upd_nth l i v.
Proof.
  unfold vec_set. destruct (Nat.ltb_spec i (length l)) as [Hlt|Hge];
    [|discriminate].
  intros H. inversion H. auto.
Qed.

Section StrayRecords.
Context {A : PixelArith}.
Variable foot : Footprint.
Variable tsum : Image pixel.
Variable img : MaskedImage.
Variable opts : Z.
Variable tfoots : list Footprint.
Variable ispsf : list bool.
Variables pkx pky : list Z.
Variable clip : dbl.

Lemma assign_loop_inv x y v csum contrib (P : StrayPix -> Prop) :
  (forall p, P (mkStrayPix y x p (snd (fst v)) (snd v))) ->
  forall idx strays strays',
    assign_loop x y v csum idx contrib strays = Ok strays' ->
    (forall i r, In r (nth i strays []) -> P r) ->
    length strays' = length strays /\
    forall i r, In r (nth i strays' []) -> P r.
Proof.
  intros HP. induction idx as [|k idx IH]; intros strays strays' H Hold.
  - cbn [assign_loop] in H. inversion H; subst. auto.
  - cbn [assign_loop] in H.
    destruct (vec_get contrib k) as [c| | |]; cbn [bind] in H;
      try discriminate.
    destruct (deqb c d0); [apply (IH _ _ H Hold)|].
    destruct (vec_get strays k) as [cur| | |] eqn:Ec; cbn [bind] in H;
      try discriminate.
    destruct (vec_get_Ok _ _ _ [] Ec) as [Hk ->].
    destruct (vec_set strays k _) as [s1| | |] eqn:Es; cbn [bind] in H;
      try discriminate.
    destruct (vec_set_Ok _ _ _ _ Es) as [_ ->].
    destruct (IH _ _ H) as [Hl Hn].
    + intros i r Hin. rewrite upd_nth_nth in Hin by exact Hk.
      destruct (i =? k)%nat eqn:E; [|apply (Hold i r Hin)].
      apply in_app_or in Hin. destruct Hin as [Hin|[<-|[]]].
      * apply Nat.eqb_eq in E. subst i. apply (Hold k r Hin).
      * apply HP.
    + rewrite upd_nth_length in Hl. auto.
Qed.

Lemma stray_pixel_inv (P : StrayPix -> Prop) nearest strays strays' x y :
  stray_pixel tsum img opts tfoots ispsf pkx pky clip nearest strays (x, y)
  = Ok strays' ->
  (box_contains_pt (im_bbox tsum) x y = true ->
   box_contains_pt (mi_bbox img) x y = true ->
   is_stray tsum img x y = true ->
   forall p, P (mkStrayPix y x p (mi_mask img x y) (mi_variance img x y))) ->
  (forall i r, In r (nth i strays []) -> P r) ->
  length strays' = length strays /\
  forall i r, In r (nth i strays' []) -> P r.
Proof.
  unfold stray_pixel, im_read, mi_read. intros H HP Hold.
  destruct (box_contains_pt (im_bbox tsum) x y) eqn:Et; cbn [bind] in H;
    [|discriminate].
  destruct (pltb p0 (im_pix tsum x y)) eqn:E1;
    [inversion H; subst; auto|].
  destruct (box_contains_pt (mi_bbox img) x y) eqn:Ei; cbn [bind fst snd] in H;
    [|discriminate].
  destruct (pleb (mi_image img x y) p0) eqn:E2;
    [inversion H; subst; auto|].
  destruct (init_contrib _ _ _ _ _ _ _) as [c0| | |]; cbn [bind] in H;
    try discriminate.
  destruct (round1 _ _ _ _ _ _ _ _) as [r1| | |]; cbn [bind] in H;
    try discriminate.
  match type of H with
  | bind ?m _ = _ => destruct m as [r2| | |]; cbn [bind] in H;
                     try discriminate
  end.
  destruct (clip_loop _ _ _ _ _ _) as [r3| | |]; cbn [bind] in H;
    try discriminate.
  refine (assign_loop_inv x y _ _ _ P _ _ _ _ H Hold).
  intros p. cbn [fst snd]. apply HP; auto.
  unfold is_stray. rewrite E1, E2. reflexivity.
Qed.

Lemma stray_fold_inv (P : StrayPix -> Prop) nearest :
  forall l strays strays',
    foldM (stray_pixel tsum img opts tfoots ispsf pkx pky clip nearest)
          l strays = Ok strays' ->
    (forall x y, In (x, y) l ->
       box_contains_pt (im_bbox tsum) x y = true ->
       box_contains_pt (mi_bbox img) x y = true ->
       is_stray tsum img x y = true ->
       forall p, P (mkStrayPix y x p (mi_mask img x y)
                               (mi_variance img x y))) ->
    (forall i r, In r (nth i strays []) -> P r) ->
    length strays' = length strays /\
    forall i r, In r (nth i strays' []) -> P r.
Proof.
  induction l as [|[x y] l IH]; intros strays strays' H HP Hold.
  - cbn [foldM] in H. inversion H; subst. auto.
  - cbn [foldM] in H.
    destruct (stray_pixel _ _ _ _ _ _ _ _ nearest strays (x, y))
      as [s1| | |] eqn:E1; cbn [bind] in H; try discriminate.
    destruct (stray_pixel_inv P nearest strays s1 x y E1
                (HP x y (or_introl eq_refl)) Hold) as [Hl1 Hn1].
    destruct (IH s1 strays' H (fun x' y' Hin => HP x' y' (or_intror Hin)) Hn1)
      as [Hl2 Hn2].
    split; [congruence|exact Hn2].
Qed.

(** X8.  [_find_stray_flux], whatever the options: when the routine
    returns, [strays] has one entry per template, and every pixel recorded
    in a heavy footprint is a pixel of the parent footprint that passed the
    test for stray flux (not [tsum > 0], not [image <= 0]) and carries the
    mask and the variance of the image at that pixel. *)
Theorem find_stray_flux_records_stray_pixels_only
        (strays : list (option HeavyFootprint)) :
  find_stray_flux foot tsum img opts tfoots ispsf pkx pky clip = Ok strays ->
  length strays = length tfoots /\
  forall i recs r,
    nth_error strays i = Some (Some recs) -> In r recs ->
    foot_contains foot (st_x r) (st_y r) = true /\
    is_stray tsum img (st_x r) (st_y r) = true /\
    st_mask r = mi_mask img (st_x r) (st_y r) /\
    st_variance r = mi_variance img (st_x r) (st_y r).
Proof.
  unfold find_stray_flux. intros H.
  destruct (nearest_image _ _ _ _) as [nearest| | |]; cbn [bind] in H;
    try discriminate.
  destruct (foldM _ _ _) as [acc| | |] eqn:E; cbn [bind] in H;
    try discriminate.
  inversion H; subst strays. clear H.
  destruct (stray_fold_inv
              (fun r => foot_contains foot (st_x r) (st_y r) = true /\
                        is_stray tsum img (st_x r) (st_y r) = true /\
                        st_mask r = mi_mask img (st_x r) (st_y r) /\
                        st_variance r = mi_variance img (st_x r) (st_y r))
              nearest _ _ _ E) as [Hl Hn].
  - intros x y Hin _ _ Hs p. cbn [st_x st_y st_mask st_variance].
    split; [apply spans_pixels_In; exact Hin|]. auto.
  - intros i r Hin. rewrite nth_repeat in Hin. destruct Hin.
  - split; [rewrite length_map, Hl; apply repeat_length|].
    intros i recs r Hi Hr. rewrite nth_error_map in Hi.
    destruct (nth_error acc i) as [l|] eqn:Ei; [|discriminate].
    cbn [option_map] in Hi. apply (Hn i r).
    rewrite (nth_error_nth acc i [] Ei).
    destruct l; [discriminate|]. inversion Hi; subst. exact Hr.
Qed.
End StrayRecords.

Lemma find_stray_flux_records_stray_pixels_only_witness :
  length (map (fun i =>
                 heavy_of (stray_records_for c3_tsum x_img ASSIGN_STRAYFLUX
                             (length c3_tfoots) [false; true] [1; 0] [0; 2]
                             (Qc_of_Z 0) i (spans_pixels (fp_spans x_foot))))
              (seq 0 (length c3_tfoots)))
  = length c3_tfoots /\
  forall i recs r,
    nth_error
      (map (fun i =>
              heavy_of (stray_records_for c3_tsum x_img ASSIGN_STRAYFLUX
                          (length c3_tfoots) [false; true] [1; 0] [0; 2]
                          (Qc_of_Z 0) i (spans_pixels (fp_spans x_foot))))
           (seq 0 (length c3_tfoots))) i
    = Some (Some recs) ->
    In r recs ->
    foot_contains x_foot (st_x r) (st_y r) = true /\
    is_stray c3_tsum x_img (st_x r) (st_y r) = true /\
    st_mask r = mi_mask x_img (st_x r) (st_y r) /\
    st_variance r = mi_variance x_img (st_x r) (st_y r).
Proof.
  apply (@find_stray_flux_records_stray_pixels_only ExactArith x_foot c3_tsum
           x_img ASSIGN_STRAYFLUX c3_tfoots [false; true] [1; 0] [0; 2]
           (Qc_of_Z 0)).
  apply (find_stray_flux_default x_foot c3_tsum x_img ASSIGN_STRAYFLUX
           c3_tfoots [false; true] [1; 0] [0; 2] (Qc_of_Z 0)
           eq_refl eq_refl (or_intror eq_refl) eq_refl eq_refl
           Qc_peak_weight_sentinel x_foot_boxes).
Defined.

(** * More about flux apportionment *)

(** X9.  [_sum_templates] keeps the box of [tsum]; every pixel ends up
    with the value it held before plus [max(0, t)] of every template whose
    box, clipped to the box of [tsum], contains the pixel, added in the
    order of the templates; a pixel that lies in no such box is left
    alone. *)
Theorem sum_templates_accumulates {A : PixelArith}
        (timgs : list (Image pixel)) (tsum : Image pixel) :
  im_bbox (sum_templates timgs tsum) = im_bbox tsum /\
  (forall x y,
     im_pix (sum_templates timgs tsum) x y =
     fold_left
       (fun acc timg =>
          if box_contains_pt (box_clip (im_bbox timg) (im_bbox tsum)) x y
          then padd acc (pmax p0 (im_pix timg x y)) else acc)
       timgs (im_pix tsum x y)) /\
  (forall x y,
     (forall timg, In timg timgs ->
        box_contains_pt (box_clip (im_bbox timg) (im_bbox tsum)) x y = false) ->
     im_pix (sum_templates timgs tsum) x y = im_pix tsum x y).
Proof.
  destruct (sum_templates_spec timgs tsum) as [Hb Hp].
  split; [exact Hb|]. split; [intros x y; apply Hp|].
  intros x y Hout. rewrite Hp. unfold template_sum_at. clear Hb Hp.
  revert Hout. generalize (im_pix tsum x y).
  induction timgs as [|t r IH]; intros v Hout; [reflexivity|].
  cbn [fold_left]. rewrite (Hout t (or_introl eq_refl)).
  apply IH. intros timg Hin. apply Hout. right. exact Hin.
Qed.

Section ApportionChecks.
Context {A : PixelArith}.

Lemma check_bboxes_image img foot pairs :
  pairs <> [] ->
  box_contains (mi_bbox img) (getBBox foot) = false ->
  check_bboxes img foot pairs = Throw RuntimeError.
Proof.
  destruct pairs as [|[timg tfoot] r]; intros Hne Hi; [congruence|].
  cbn [check_bboxes]. rewrite Hi.
  destruct (box_contains (im_bbox timg) (getBBox tfoot)); reflexivity.
Qed.

Lemma check_bboxes_template img foot :
  forall pairs timg tfoot,
    In (timg, tfoot) pairs ->
    box_contains (im_bbox timg) (getBBox tfoot) = false ->
    check_bboxes img foot pairs = Throw RuntimeError.
Proof.
  induction pairs as [|[t f] r IH]; intros timg tfoot Hin Hbad;
    [destruct Hin|].
  cbn [check_bboxes].
  destruct (box_contains (im_bbox t) (getBBox f)) eqn:Et; [|reflexivity].
  destruct (box_contains (mi_bbox img) (getBBox foot)) eqn:Ei; [|reflexivity].
  cbn [negb]. destruct Hin as [E|Hin]; [inversion E; subst; congruence|].
  apply (IH timg tfoot Hin Hbad).
Qed.

(** X10.  [apportionFlux] with as many templates as template footprints,
    at least one: a [RuntimeError] is raised when the box of the image
    does not contain the box of the parent footprint, or when the box of
    some template does not contain the box of its footprint. *)
Theorem apportionFlux_rejects_bad_boxes
        (img : MaskedImage) (foot : Footprint) (timgs : list (Image pixel))
        (tfoots : list Footprint) (tsum : option (Image pixel))
        (ispsf : list bool) (pkx pky : list Z) (opts : Z) (clip : dbl) :
  length timgs = length tfoots ->
  timgs <> [] ->
  box_contains (mi_bbox img) (getBBox foot) = false \/
  (exists timg tfoot, In (timg, tfoot) (combine timgs tfoots) /\
     box_contains (im_bbox timg) (getBBox tfoot) = false) ->
  apportionFlux img foot timgs tfoots tsum ispsf pkx pky opts clip
  = Throw RuntimeError.
Proof.
  intros Hlen Hne Hbad. unfold apportionFlux.
  rewrite Hlen, Nat.eqb_refl. cbn [negb].
  assert (E : check_bboxes img foot (combine timgs tfoots)
              = Throw RuntimeError).
  { destruct Hbad as [Hi|(timg & tfoot & Hin & Ht)].
    - apply check_bboxes_image; [|exact Hi].
      destruct timgs as [|t r]; [congruence|].
      destruct tfoots as [|f r']; [discriminate|]. discriminate.
    - apply (check_bboxes_template img foot _ timg tfoot Hin Ht). }
  rewrite E. reflexivity.
Qed.

(** X11.  [apportionFlux] whose box checks pass: a [RuntimeError] is raised
    when the caller supplies a template sum whose box does not contain the
    box of the parent footprint. *)
Theorem apportionFlux_rejects_small_tsum
        (img : MaskedImage) (foot : Footprint) (timgs : list (Image pixel))
        (tfoots : list Footprint) (tsum : Image pixel)
        (ispsf : list bool) (pkx pky : list Z) (opts : Z) (clip : dbl) :
  length timgs = length tfoots ->
  Forall2 (fun timg tfoot =>
             box_contains (im_bbox timg) (getBBox tfoot) = true) timgs tfoots ->
  box_contains (mi_bbox img) (getBBox foot) = true ->
  box_contains (im_bbox tsum) (getBBox foot) = false ->
  apportionFlux img foot timgs tfoots (Some tsum) ispsf pkx pky opts clip
  = Throw RuntimeError.
Proof.
  intros Hlen HF Hi Ht. unfold apportionFlux.
  rewrite Hlen, Nat.eqb_refl. cbn [negb].
  rewrite (check_bboxes_Ok _ _ _ _ HF Hi). cbn [bind].
  rewrite Ht. reflexivity.
Qed.

Lemma portions_Ok img foot timgs :
  box_contains (mi_bbox img) (getBBox foot) = true ->
  exists portions,
    mapM (make_portion img (sum_templates timgs (im_const (getBBox foot) p0)))
         timgs = Ok portions.
Proof.
  intros Hi.
  set (tsum := sum_templates timgs (im_const (getBBox foot) p0)).
  apply mapM_Ok. intros timg _. unfold make_portion. apply portion_fold_Ok.
  intros x y Hin. apply box_pixels_In in Hin.
  rewrite box_clip_pt in Hin. apply andb_true_iff in Hin.
  destruct Hin as (_ & Hs).
  destruct (sum_templates_spec timgs (im_const (getBBox foot) p0)) as (Hb & _).
  fold tsum in Hb. rewrite Hb in Hs. cbn [im_const im_bbox] in Hs.
  eapply box_contains_pt_sub; eauto.
Qed.

(** X12.  [apportionFlux] raises a [LengthError] when the numbers of
    templates and of template footprints differ; and, when the box checks
    pass, no template sum is supplied and [ASSIGN_STRAYFLUX] is set, when
    [ispsf] is neither empty nor of length N or when [pkx] or [pky] is not
    of length N. *)
Theorem apportionFlux_rejects_bad_lengths
        (img : MaskedImage) (foot : Footprint) (timgs : list (Image pixel))
        (tfoots : list Footprint) (tsum : option (Image pixel))
        (ispsf : list bool) (pkx pky : list Z) (opts : Z) (clip : dbl) :
  length timgs <> length tfoots \/
  (length timgs = length tfoots /\
   Forall2 (fun timg tfoot =>
              box_contains (im_bbox timg) (getBBox tfoot) = true)
           timgs tfoots /\
   box_contains (mi_bbox img) (getBBox foot) = true /\
   tsum = None /\
   flag_set opts ASSIGN_STRAYFLUX = true /\
   ((length ispsf <> 0%nat /\ length ispsf <> length timgs) \/
    length pkx <> length timgs \/ length pky <> length timgs)) ->
  apportionFlux img foot timgs tfoots tsum ispsf pkx pky opts clip
  = Throw LengthError.
Proof.
  intros [Hne|(Hlen & HF & Hi & -> & Hflag & Hbad)]; unfold apportionFlux.
  - replace (length timgs =? length tfoots)%nat with false
      by (symmetry; apply Nat.eqb_neq; exact Hne).
    reflexivity.
  - rewrite Hlen, Nat.eqb_refl. cbn [negb].
    rewrite (check_bboxes_Ok _ _ _ _ HF Hi). cbn [bind im_const im_bbox].
    rewrite box_contains_refl. cbn [negb].
    destruct (portions_Ok img foot timgs Hi) as (ps & Eps).
    rewrite Eps. cbn [bind]. rewrite Hflag. rewrite <- Hlen.
    destruct Hbad as [[H0 Hn]|Hpk].
    + replace (0 <? length ispsf)%nat with true
        by (symmetry; apply Nat.ltb_lt; lia).
      replace (length ispsf =? length timgs)%nat with false
        by (symmetry; apply Nat.eqb_neq; exact Hn).
      reflexivity.
    + destruct ((0 <? length ispsf)%nat
                && negb (length ispsf =? length timgs)%nat); [reflexivity|].
      replace (negb (length pkx =? length timgs)%nat
               || negb (length pky =? length timgs)%nat) with true;
        [reflexivity|].
      symmetry. apply orb_true_iff.
      destruct Hpk as [Hx|Hy]; [left|right]; apply negb_true_iff;
        apply Nat.eqb_neq; assumption.
Qed.

(** X13.  [apportionFlux] without a supplied template sum and without
    [ASSIGN_STRAYFLUX], when the box checks pass: the call returns; there
    is one portion per template, with the box of that template; no heavy
    footprint is produced; and the template sum is the sum of the templates
    over the box of the parent footprint. *)
Theorem apportionFlux_result
        (img : MaskedImage) (foot : Footprint) (timgs : list (Image pixel))
        (tfoots : list Footprint)
        (ispsf : list bool) (pkx pky : list Z) (opts : Z) (clip : dbl) :
  length timgs = length tfoots ->
  Forall2 (fun timg tfoot =>
             box_contains (im_bbox timg) (getBBox tfoot) = true) timgs tfoots ->
  box_contains (mi_bbox img) (getBBox foot) = true ->
  flag_set opts ASSIGN_STRAYFLUX = false ->
  exists portions,
    apportionFlux img foot timgs tfoots None ispsf pkx pky opts clip
    = Ok (portions, [], sum_templates timgs (im_const (getBBox foot) p0)) /\
    Forall2 (fun timg port => mi_bbox port = im_bbox timg) timgs portions.
Proof.
  intros Hlen HF Hi Hflag.
  destruct (apportionFlux_returns img foot timgs tfoots ispsf pkx pky opts clip
              Hlen HF Hi Hflag) as (portions & E).
  exists portions. split; [exact E|].
  destruct (apportionFlux_Ok_inv _ _ _ _ _ _ _ _ _ _ _ _ _ E)
    as (_ & _ & _ & _ & Hmap).
  apply mapM_Forall2 in Hmap. revert Hmap. apply Forall2_impl.
  intros t p Hp. apply (make_portion_spec _ _ _ _ Hp).
Qed.

(** X14.  [apportionFlux], whenever it returns: the portion of template
    [i] has the box of the template; at a pixel of that box that lies in
    the box of the template sum and where the sum is not zero, the portion
    holds [image * (max(0, t) / tsum)] together with the mask and the
    variance of the image; at every other pixel its three planes are
    zero. *)
Theorem apportionFlux_portion_pixels
        (img : MaskedImage) (foot : Footprint) (timgs : list (Image pixel))
        (tfoots : list Footprint) (tsum0 : option (Image pixel))
        (ispsf : list bool) (pkx pky : list Z) (opts : Z) (clip : dbl)
        (portions : list MaskedImage) (strays : list (option HeavyFootprint))
        (tsum : Image pixel) :
  apportionFlux img foot timgs tfoots tsum0 ispsf pkx pky opts clip
  = Ok (portions, strays, tsum) ->
  Forall2
    (fun timg port =>
       mi_bbox port = im_bbox timg /\
       forall x y,
         if box_contains_pt (box_clip (im_bbox timg) (im_bbox tsum)) x y
            && negb (peqb (im_pix tsum x y) p0)
         then
           mi_image port x y =
             pixel_of_dbl
               (dmul (dbl_of_pixel (mi_image img x y))
                     (dbl_of_pixel (pdiv (pmax p0 (im_pix timg x y))
                                         (im_pix tsum x y)))) /\
           mi_mask port x y = mi_mask img x y /\
           mi_variance port x y = mi_variance img x y
         else
           mi_image port x y = p0 /\
           mi_mask port x y = 0 /\
           mi_variance port x y = variance_of_Z 0)
    timgs portions.
Proof.
  intros H.
  destruct (apportionFlux_Ok_inv _ _ _ _ _ _ _ _ _ _ _ _ _ H)
    as (_ & _ & _ & _ & Hmap).
  apply mapM_Forall2 in Hmap. revert Hmap. apply Forall2_impl.
  intros t p Hp. unfold make_portion in Hp.
  destruct (portion_fold_spec img tsum t _ _ _ (box_pixels_NoDup _) Hp)
    as (Hb & Hpix).
  split; [exact Hb|]. intros x y. destruct (Hpix x y) as [Hin Hout].
  destruct (box_contains_pt (box_clip (im_bbox t) (im_bbox tsum)) x y) eqn:Eb;
    [destruct (peqb (im_pix tsum x y) p0) eqn:Ez|]; cbn [negb andb].
  - apply Hout. right. reflexivity.
  - apply Hin; [apply box_pixels_In; exact Eb|reflexivity].
  - apply Hout. left. intros Hc. apply box_pixels_In in Hc. congruence.
Qed.
End ApportionChecks.

Lemma apportionFlux_rejects_bad_boxes_witness :
  apportionFlux c2_img c2_foot [x_small_template] [x_wide_foot] None
                [] [] [] 0 (Qc_of_Z 0)
  = Throw RuntimeError.
Proof.
  apply (@apportionFlux_rejects_bad_boxes ExactArith).
  - reflexivity.
  - discriminate.
  - right. exists x_small_template, x_wide_foot.
    split; [left; reflexivity|reflexivity].
Defined.

Lemma apportionFlux_rejects_small_tsum_witness :
  apportionFlux x_img x_foot [] [] (Some c2_template) [] [] [] 0 (Qc_of_Z 0)
  = Throw RuntimeError.
Proof.
  apply (@apportionFlux_rejects_small_tsum ExactArith).
  - reflexivity.
  - constructor.
  - reflexivity.
  - reflexivity.
Defined.

Lemma apportionFlux_rejects_bad_lengths_witness :
  apportionFlux c2_img c2_foot [c2_template] [c2_foot] None [] [0; 0] [0]
                ASSIGN_STRAYFLUX (Qc_of_Z 0)
  = Throw LengthError.
Proof.
  apply (@apportionFlux_rejects_bad_lengths ExactArith).
  right. split; [reflexivity|]. split; [repeat constructor|].
  split; [reflexivity|]. split; [reflexivity|]. split; [reflexivity|].
  right. left. cbn [length]. lia.
Defined.

Lemma apportionFlux_result_witness :
  exists portions,
    apportionFlux c2_img c2_foot [c2_template] [c2_foot] None [] [] [] 0
                  (Qc_of_Z 0)
    = Ok (portions, [],
          sum_templates [c2_template] (im_const (getBBox c2_foot) p0)) /\
    Forall2 (fun timg port => mi_bbox port = im_bbox timg)
            [c2_template] portions.
Proof.
  apply (@apportionFlux_result ExactArith).
  - reflexivity.
  - repeat constructor.
  - reflexivity.
  - reflexivity.
Defined.

Lemma apportionFlux_portion_pixels_witness :
  exists portions,
    apportionFlux c2_img c2_foot [c2_template] [c2_foot] None [] [] [] 0
                  (Qc_of_Z 0)
    = Ok (portions, [],
          sum_templates [c2_template] (im_const (getBBox c2_foot) p0)) /\
    Forall2
      (fun timg port =>
         mi_bbox port = im_bbox timg /\
         forall x y,
           if box_contains_pt
                (box_clip (im_bbox timg)
                   (im_bbox (sum_templates [c2_template]
                               (im_const (getBBox c2_foot) p0)))) x y
              && negb (peqb (im_pix (sum_templates [c2_template]
                                       (im_const (getBBox c2_foot) p0)) x y)
                            p0)
           then
             mi_image port x y =
               pixel_of_dbl
                 (dmul (dbl_of_pixel (mi_image c2_img x y))
                       (dbl_of_pixel
                          (pdiv (pmax p0 (im_pix timg x y))
                                (im_pix (sum_templates [c2_template]
                                           (im_const (getBBox c2_foot) p0))
                                        x y)))) /\
             mi_mask port x y = mi_mask c2_img x y /\
             mi_variance port x y = mi_variance c2_img x y
           else
             mi_image port x y = p0 /\
             mi_mask port x y = 0 /\
             mi_variance port x y = variance_of_Z 0)
      [c2_template] portions.
Proof.
  destruct (@apportionFlux_returns ExactArith c2_img c2_foot [c2_template]
              [c2_foot] [] [] [] 0 (Qc_of_Z 0))
    as (portions & E);
    [reflexivity|repeat constructor|reflexivity|reflexivity|].
  exists portions. split; [exact E|].
  apply (@apportionFlux_portion_pixels ExactArith _ _ _ _ _ _ _ _ _ _ _ _ _ E).
Defined.

(** * The median filter *)

Lemma foldM_app {S X : Type} (f : S -> X -> Res S) (l1 l2 : list X) :
  forall s, foldM f (l1 ++ l2) s = (s' <- foldM f l1 s ;; foldM f l2 s').
Proof.
  induction l1 as [|x l1 IH]; intros s; [reflexivity|].
  cbn [app foldM]. destruct (f s x) as [s1| | |]; cbn [bind]; auto.
Qed.

Lemma zseq_foldM_inv {S : Type} (P : Z -> S -> Prop) (f : S -> Z -> Res S) a :
  forall n, 0 <= n -> forall s,
    P 0 s ->
    (forall k s, 0 <= k < n -> P k s ->
                 exists s', f s (a + k) = Ok s' /\ P (k + 1) s') ->
    exists s', foldM f (zseq a n) s = Ok s' /\ P n s'.
Proof.
  intros n Hn. pattern n. apply natlike_ind; [| |exact Hn].
  - intros s H0 _. exists s. split; [reflexivity|exact H0].
  - intros m Hm IH s H0 Hstep. unfold Z.succ.
    rewrite zseq_snoc by exact Hm. rewrite foldM_app.
    destruct (IH s H0) as (s1 & E1 & P1).
    { intros k s' Hk. apply Hstep. lia. }
    rewrite E1. cbn [bind foldM].
    destruct (Hstep m s1 ltac:(lia) P1) as (s2 & E2 & P2).
    rewrite E2. cbn [bind]. exists s2. split; [reflexivity|exact P2].
Qed.

Lemma mapM_map {X Y : Type} (f : X -> Res Y) (g : X -> Y) (l : list X) :
  (forall x, In x l -> f x = Ok (g x)) -> mapM f l = Ok (map g l).
Proof.
  induction l as [|x l IH]; intros H; [reflexivity|].
  cbn [mapM map]. rewrite (H x (or_introl eq_refl)). cbn [bind].
  rewrite IH by (intros z Hz; apply H; right; exact Hz). reflexivity.
Qed.

Lemma window_In h dx dy :
  In (dx, dy) (window h) -> - h <= dx <= h /\ - h <= dy <= h.
Proof.
  unfold window. intros Hin. apply in_flat_map in Hin.
  destruct Hin as (i & Hi & Hin). apply in_map_iff in Hin.
  destruct Hin as (j & E & Hj). inversion E; subst.
  apply zseq_In in Hi. apply zseq_In in Hj. lia.
Qed.

(** Case analysis on the comparisons of the goal, one at a time, closing
    the impossible cases as they appear. *)
Ltac split_test :=
  match goal with
  | |- context [(?u =? ?v)%Z] => destruct (Z.eqb_spec u v)
  | |- context [(?u <? ?v)%Z] => destruct (Z.ltb_spec u v)
  | |- context [(?u <=? ?v)%Z] => destruct (Z.leb_spec u v)
  end.

Ltac split_tests :=
  repeat (split_test; cbn [andb orb]; try lia);
  subst; try reflexivity; try lia.

Section MedianProof.
Context {A : PixelArith}.
Variables img out : Image pixel.
Variable h : Z.

Hypothesis Hh : 0 <= h.
Hypothesis HW : 2 * h <= getWidth (im_bbox img).
Hypothesis HH : 2 * h <= getHeight (im_bbox img).
Hypothesis HWo : getWidth (im_bbox img) <= getWidth (im_bbox out).
Hypothesis HHo : getHeight (im_bbox img) <= getHeight (im_bbox out).

Lemma read_local_Ok x y :
  0 <= x < getWidth (im_bbox img) -> 0 <= y < getHeight (im_bbox img) ->
  read_local img x y = Ok (get_local img x y).
Proof.
  intros Hx Hy. unfold read_local, im_read, get_local.
  unfold getWidth, getHeight in *.
  replace (box_contains_pt _ _ _) with true; [reflexivity|].
  symmetry. apply box_contains_pt_iff. lia.
Qed.

Lemma write_local_shows s g x y v :
  shows out s g ->
  0 <= x < getWidth (im_bbox img) -> 0 <= y < getHeight (im_bbox img) ->
  exists s', write_local s x y v = Ok s' /\
             shows out s' (fun x' y' => if (x' =? x) && (y' =? y) then v
                                    else g x' y').
Proof.
  intros [Hb Hg] Hx Hy. exists (set_local s x y v). split.
  - unfold write_local, im_write, set_local.
    unfold getWidth, getHeight in *.
    replace (box_contains_pt _ _ _) with true; [reflexivity|].
    symmetry. apply box_contains_pt_iff. rewrite Hb. lia.
  - split; [exact Hb|]. intros x' y'. rewrite get_set_local, Hg.
    reflexivity.
Qed.

Lemma shows_ext s g g' :
  shows out s g -> (forall x y, g x y = g' x y) -> shows out s g'.
Proof.
  intros [Hb Hg] E. split; [exact Hb|]. intros x y. rewrite Hg. apply E.
Qed.

Lemma copy_run_shows s g y x0 n :
  shows out s g ->
  0 <= y < getHeight (im_bbox img) ->
  0 <= x0 -> 0 <= n -> x0 + n <= getWidth (im_bbox img) ->
  exists s', copy_run img y x0 n s = Ok s' /\
             shows out s' (fun x' y' =>
                         if (y' =? y) && (x0 <=? x') && (x' <? x0 + n)
                         then get_local img x' y' else g x' y').
Proof.
  intros Hs Hy Hx0 Hn Hx1. unfold copy_run.
  apply (zseq_foldM_inv
           (fun k s' =>
              shows out s' (fun x' y' =>
                          if (y' =? y) && (x0 <=? x') && (x' <? x0 + k)
                          then get_local img x' y' else g x' y'))).
  - exact Hn.
  - apply (shows_ext _ _ _ Hs). intros x' y'.
    destruct (y' =? y), (Z.leb_spec x0 x'), (Z.ltb_spec x' (x0 + 0));
      cbn [andb]; try reflexivity; lia.
  - intros k s' Hk Hs'. rewrite read_local_Ok by lia. cbn [bind].
    destruct (write_local_shows s' _ (x0 + k) y (get_local img (x0 + k) y) Hs')
      as (s2 & E2 & H2); [lia|lia|].
    exists s2. split; [exact E2|]. apply (shows_ext _ _ _ H2).
    intros x' y'.
    destruct (Z.eqb_spec x' (x0 + k)), (Z.eqb_spec y' y),
      (Z.leb_spec x0 x'), (Z.ltb_spec x' (x0 + k)),
      (Z.ltb_spec x' (x0 + (k + 1)));
      cbn [andb]; subst; try reflexivity; lia.
Qed.

Lemma window_reads x y :
  h <= x < getWidth (im_bbox img) - h ->
  h <= y < getHeight (im_bbox img) - h ->
  mapM (fun o => read_local img (x + fst o) (y + snd o)) (window h)
  = Ok (window_values img h x y).
Proof.
  intros Hx Hy. unfold window_values. apply mapM_map.
  intros [dx dy] Hin. apply window_In in Hin. cbn [fst snd].
  apply read_local_Ok; lia.
Qed.

Lemma median_row_shows s g y :
  shows out s g ->
  h <= y < getHeight (im_bbox img) - h ->
  exists s',
    foldM (fun out x =>
             vals <- mapM (fun o => read_local img (x + fst o) (y + snd o))
                          (window h) ;;
             write_local out x y
               (nth_element vals
                  (Z.to_nat ((h * 2 + 1) * (h * 2 + 1) / 2))))
          (zseq h (getWidth (im_bbox img) - 2 * h)) s = Ok s' /\
    shows out s' (fun x' y' =>
                if (y' =? y) && (h <=? x')
                   && (x' <? getWidth (im_bbox img) - h)
                then median_at img h x' y' else g x' y').
Proof.
  intros Hs Hy.
  destruct (zseq_foldM_inv
           (fun k s' =>
              shows out s' (fun x' y' =>
                          if (y' =? y) && (h <=? x') && (x' <? h + k)
                          then median_at img h x' y' else g x' y'))
           (fun out x =>
             vals <- mapM (fun o => read_local img (x + fst o) (y + snd o))
                          (window h) ;;
             write_local out x y
               (nth_element vals
                  (Z.to_nat ((h * 2 + 1) * (h * 2 + 1) / 2))))
           h (getWidth (im_bbox img) - 2 * h) ltac:(lia) s)
    as (s' & E & Hs').
  - apply (shows_ext _ _ _ Hs). intros x' y'.
    destruct (y' =? y), (Z.leb_spec h x'), (Z.ltb_spec x' (h + 0));
      cbn [andb]; try reflexivity; lia.
  - intros k s' Hk Hs'. rewrite window_reads by lia. cbn [bind].
    destruct (write_local_shows s' _ (h + k) y
                (nth_element (window_values img h (h + k) y)
                   (Z.to_nat ((h * 2 + 1) * (h * 2 + 1) / 2))) Hs')
      as (s2 & E2 & H2); [lia|lia|].
    exists s2. split; [exact E2|]. apply (shows_ext _ _ _ H2).
    intros x' y'.
    destruct (Z.eqb_spec x' (h + k)), (Z.eqb_spec y' y),
      (Z.leb_spec h x'), (Z.ltb_spec x' (h + k)),
      (Z.ltb_spec x' (h + (k + 1)));
      cbn [andb]; subst; try reflexivity; lia.
  - exists s'. split; [exact E|]. apply (shows_ext _ _ _ Hs').
    intros x' y'.
    replace (h + (getWidth (im_bbox img) - 2 * h))
      with (getWidth (im_bbox img) - h) by lia.
    reflexivity.
Qed.

Lemma median_loop_shows :
  exists s,
    foldM
      (fun out y =>
         if getWidth (im_bbox img) - h <? h then Undef
         else
           foldM
             (fun out x =>
                vals <- mapM (fun o => read_local img (x + fst o)
                                                  (y + snd o))
                             (window h) ;;
                write_local out x y
                  (nth_element vals
                     (Z.to_nat ((h * 2 + 1) * (h * 2 + 1) / 2))))
             (zseq h (getWidth (im_bbox img) - 2 * h)) out)
      (zseq h (getHeight (im_bbox img) - 2 * h)) out = Ok s /\
    shows out s (after_median img out h).
Proof.
  destruct (zseq_foldM_inv
           (fun k s' =>
              shows out s' (fun x' y' =>
                          if (h <=? y') && (y' <? h + k)
                             && (h <=? x')
                             && (x' <? getWidth (im_bbox img) - h)
                          then median_at img h x' y'
                          else get_local out x' y'))
           (fun out y =>
              if getWidth (im_bbox img) - h <? h then Undef
              else
                foldM
                  (fun out x =>
                     vals <- mapM (fun o => read_local img (x + fst o)
                                                       (y + snd o))
                                  (window h) ;;
                     write_local out x y
                       (nth_element vals
                          (Z.to_nat ((h * 2 + 1) * (h * 2 + 1) / 2))))
                  (zseq h (getWidth (im_bbox img) - 2 * h)) out)
           h (getHeight (im_bbox img) - 2 * h) ltac:(lia) out)
    as (s' & E & Hs').
  - split; [reflexivity|]. intros x' y'. split_tests.
  - intros k s' Hk Hs'.
    replace (getWidth (im_bbox img) - h <? h) with false
      by (symmetry; apply Z.ltb_ge; lia).
    destruct (median_row_shows s' _ (h + k) Hs' ltac:(lia))
      as (s2 & E2 & H2).
    exists s2. split; [exact E2|]. apply (shows_ext _ _ _ H2).
    intros x' y'. split_tests.
  - exists s'. split; [exact E|]. apply (shows_ext _ _ _ Hs').
    intros x' y'. unfold after_median.
    replace (h + (getHeight (im_bbox img) - 2 * h))
      with (getHeight (im_bbox img) - h) by lia.
    reflexivity.
Qed.

Lemma margin_rows_shows s :
  shows out s (after_median img out h) ->
  exists s',
    foldM
      (fun out y =>
         copy_run img
                  (if h <=? y
                   then getHeight (im_bbox img) - 1 - (y - h) else y)
                  0 (getWidth (im_bbox img)) out)
      (zseq 0 (2 * h)) s = Ok s' /\
    shows out s' (after_rows img out h).
Proof.
  intros Hs.
  destruct (zseq_foldM_inv
           (fun k s' =>
              shows out s' (fun x' y' =>
                          if (0 <=? x') && (x' <? getWidth (im_bbox img))
                             && (((0 <=? y') && (y' <? Z.min k h))
                                 || ((getHeight (im_bbox img) - (k - h) <=? y')
                                     && (y' <? getHeight (im_bbox img))
                                     && (h <=? k)))
                          then get_local img x' y' else after_median img out h x' y'))
           (fun out y =>
              copy_run img
                       (if h <=? y
                        then getHeight (im_bbox img) - 1 - (y - h) else y)
                       0 (getWidth (im_bbox img)) out)
           0 (2 * h) ltac:(lia) s)
    as (s' & E & Hs').
  - apply (shows_ext _ _ _ Hs). intros x' y'. split_tests.
  - intros k s' Hk Hs'. cbn [Z.add].
    assert (HWn : 0 <= getWidth (im_bbox img)) by lia.
    destruct (Z.leb_spec h k) as [Hge|Hlt].
    + destruct (copy_run_shows s' _ (getHeight (im_bbox img) - 1 - (k - h))
                  0 (getWidth (im_bbox img)) Hs')
        as (s2 & E2 & H2); try lia.
      exists s2. split; [exact E2|]. apply (shows_ext _ _ _ H2).
      intros x' y'. cbn [Z.add]. split_tests.
    + destruct (copy_run_shows s' _ k 0 (getWidth (im_bbox img)) Hs')
        as (s2 & E2 & H2); try lia.
      exists s2. split; [exact E2|]. apply (shows_ext _ _ _ H2).
      intros x' y'. cbn [Z.add]. split_tests.
  - exists s'. split; [exact E|]. apply (shows_ext _ _ _ Hs').
    intros x' y'. unfold after_rows. split_tests.
Qed.

Lemma margin_columns_shows s :
  shows out s (after_rows img out h) ->
  exists s',
    foldM
      (fun out y =>
         out <- copy_run img y 0 h out ;;
         copy_run img y ((getWidth (im_bbox img) - 1) - h) h out)
      (zseq h (getHeight (im_bbox img) - 2 * h)) s = Ok s' /\
    shows out s' (after_columns img out h).
Proof.
  intros Hs.
  destruct (zseq_foldM_inv
           (fun k s' =>
              shows out s' (fun x' y' =>
                          if (h <=? y') && (y' <? h + k)
                             && (((0 <=? x') && (x' <? h))
                                 || ((getWidth (im_bbox img) - 1 - h <=? x')
                                     && (x' <? getWidth (im_bbox img) - 1)))
                          then get_local img x' y' else after_rows img out h x' y'))
           (fun out y =>
              out <- copy_run img y 0 h out ;;
              copy_run img y ((getWidth (im_bbox img) - 1) - h) h out)
           h (getHeight (im_bbox img) - 2 * h) ltac:(lia) s)
    as (s' & E & Hs').
  - apply (shows_ext _ _ _ Hs). intros x' y'. split_tests.
  - intros k s' Hk Hs'.
    destruct (copy_run_shows s' _ (h + k) 0 h Hs')
      as (s1 & E1 & H1); try lia.
    rewrite E1. cbn [bind].
    destruct (Z.eq_dec h 0) as [Hz|Hnz].
    + exists s1. split.
      * unfold copy_run. rewrite zseq_nil by lia. reflexivity.
      * apply (shows_ext _ _ _ H1). intros x' y'. split_tests.
    + destruct (copy_run_shows s1 _ (h + k)
                  (getWidth (im_bbox img) - 1 - h) h H1)
        as (s2 & E2 & H2); try lia.
      exists s2. split; [exact E2|]. apply (shows_ext _ _ _ H2).
      intros x' y'. split_tests.
  - exists s'. split; [exact E|]. apply (shows_ext _ _ _ Hs').
    intros x' y'. unfold after_columns.
    replace (h + (getHeight (im_bbox img) - 2 * h))
      with (getHeight (im_bbox img) - h) by lia.
    reflexivity.
Qed.

Lemma medianFilter_shows :
  exists out', medianFilter img out h = Ok out' /\ shows out out' (after_columns img out h).
Proof.
  unfold medianFilter. cbv zeta.
  replace (h <? 0) with false by (symmetry; apply Z.ltb_ge; lia).
  destruct median_loop_shows as (s1 & E1 & H1). rewrite E1. cbn [bind].
  destruct (margin_rows_shows s1 H1) as (s2 & E2 & H2). rewrite E2.
  cbn [bind]. apply (margin_columns_shows s2 H2).
Qed.
End MedianProof.

(** X15.  [medianFilter] on an image of W x H pixels with
    [0 <= 2 * halfsize <= W, H] and an output at least as large: the call
    returns, [out] keeps its box, and in local coordinates
    - the [halfsize] bottom and top rows, the [halfsize] left columns and
      the columns [W-1-halfsize .. W-2] hold the input;
    - the pixels further inside hold the element of rank [S*S/2] of the
      [S x S] window around them, [S = 2 * halfsize + 1];
    - when [halfsize > 0], the column [W-1] of the rows that are not
      margin rows keeps what [out] held;
    - so does everything outside the W x H area. *)
Theorem medianFilter_pixels {A : PixelArith} (img out : Image pixel) (h : Z) :
  0 <= h ->
  2 * h <= getWidth (im_bbox img) ->
  2 * h <= getHeight (im_bbox img) ->
  getWidth (im_bbox img) <= getWidth (im_bbox out) ->
  getHeight (im_bbox img) <= getHeight (im_bbox out) ->
  exists out',
    medianFilter img out h = Ok out' /\
    im_bbox out' = im_bbox out /\
    (forall x y,
       0 <= x < getWidth (im_bbox img) ->
       0 <= y < getHeight (im_bbox img) ->
       y < h \/ getHeight (im_bbox img) - h <= y \/ x < h \/
       getWidth (im_bbox img) - 1 - h <= x < getWidth (im_bbox img) - 1 ->
       get_local out' x y = get_local img x y) /\
    (forall x y,
       h <= y < getHeight (im_bbox img) - h ->
       h <= x < getWidth (im_bbox img) - h ->
       x < getWidth (im_bbox img) - 1 - h \/ h = 0 ->
       get_local out' x y = median_at img h x y) /\
    (forall y,
       0 < h ->
       h <= y < getHeight (im_bbox img) - h ->
       get_local out' (getWidth (im_bbox img) - 1) y =
       get_local out (getWidth (im_bbox img) - 1) y) /\
    (forall x y,
       ~ (0 <= x < getWidth (im_bbox img) /\
          0 <= y < getHeight (im_bbox img)) ->
       get_local out' x y = get_local out x y).
Proof.
  intros Hh HW HH HWo HHo.
  destruct (medianFilter_shows img out h Hh HW HH HWo HHo)
    as (out' & E & Hb & Hg).
  exists out'. split; [exact E|]. split; [exact Hb|].
  repeat split.
  - intros x y Hx Hy Hm. rewrite Hg.
    unfold after_columns, after_rows, after_median. split_tests.
  - intros x y Hy Hx Hm. rewrite Hg.
    unfold after_columns, after_rows, after_median. split_tests.
  - intros y H0 Hy. rewrite Hg.
    unfold after_columns, after_rows, after_median. split_tests.
  - intros x y Hout. rewrite Hg.
    unfold after_columns, after_rows, after_median. split_tests.
Qed.

Lemma medianFilter_pixels_witness :
  exists out',
    medianFilter x_median_img x_median_out 1 = Ok out' /\
    im_bbox out' = im_bbox x_median_out /\
    (forall x y,
       0 <= x < getWidth (im_bbox x_median_img) ->
       0 <= y < getHeight (im_bbox x_median_img) ->
       y < 1 \/ getHeight (im_bbox x_median_img) - 1 <= y \/ x < 1 \/
       getWidth (im_bbox x_median_img) - 1 - 1 <= x
       < getWidth (im_bbox x_median_img) - 1 ->
       get_local out' x y = get_local x_median_img x y) /\
    (forall x y,
       1 <= y < getHeight (im_bbox x_median_img) - 1 ->
       1 <= x < getWidth (im_bbox x_median_img) - 1 ->
       x < getWidth (im_bbox x_median_img) - 1 - 1 \/ 1 = 0 ->
       get_local out' x y = median_at x_median_img 1 x y) /\
    (forall y,
       0 < 1 ->
       1 <= y < getHeight (im_bbox x_median_img) - 1 ->
       get_local out' (getWidth (im_bbox x_median_img) - 1) y =
       get_local x_median_out (getWidth (im_bbox x_median_img) - 1) y) /\
    (forall x y,
       ~ (0 <= x < getWidth (im_bbox x_median_img) /\
          0 <= y < getHeight (im_bbox x_median_img)) ->
       get_local out' x y = get_local x_median_out x y).
Proof.
  apply (@medianFilter_pixels ExactArith x_median_img x_median_out 1);
    cbn; lia.
Defined.

Lemma median_at_0 {A : PixelArith} (img : Image pixel) x y :
  median_at img 0 x y = get_local img x y.
Proof.
  unfold median_at, window_values, nth_element.
  change (window 0) with [(0, 0)].
  cbn [map fst snd sort_pixels fold_right insert_pixel].
  rewrite !Z.add_0_r. reflexivity.
Qed.

(** X16.  [medianFilter] with [halfsize = 0] copies the image: the call
    returns [out] with the W x H pixels of the input, the rest of [out]
    as it was. *)
Theorem medianFilter_halfsize_0 {A : PixelArith} (img out : Image pixel) :
  0 <= getWidth (im_bbox img) ->
  0 <= getHeight (im_bbox img) ->
  getWidth (im_bbox img) <= getWidth (im_bbox out) ->
  getHeight (im_bbox img) <= getHeight (im_bbox out) ->
  exists out',
    medianFilter img out 0 = Ok out' /\
    im_bbox out' = im_bbox out /\
    forall x y,
      get_local out' x y =
      if (0 <=? x) && (x <? getWidth (im_bbox img))
         && (0 <=? y) && (y <? getHeight (im_bbox img))
      then get_local img x y else get_local out x y.
Proof.
  intros HW HH HWo HHo.
  destruct (medianFilter_shows img out 0 ltac:(lia) ltac:(lia) ltac:(lia)
              HWo HHo) as (out' & E & Hb & Hg).
  exists out'. split; [exact E|]. split; [exact Hb|].
  intros x y. rewrite Hg.
  unfold after_columns, after_rows, after_median. rewrite median_at_0.
  split_tests.
Qed.

Lemma medianFilter_halfsize_0_witness :
  exists out',
    medianFilter x_median_img x_median_out 0 = Ok out' /\
    im_bbox out' = im_bbox x_median_out /\
    forall x y,
      get_local out' x y =
      if (0 <=? x) && (x <? getWidth (im_bbox x_median_img))
         && (0 <=? y) && (y <? getHeight (im_bbox x_median_img))
      then get_local x_median_img x y else get_local x_median_out x y.
Proof.
  apply (@medianFilter_halfsize_0 ExactArith x_median_img x_median_out);
    cbn; lia.
Defined.

(** * Significant flux at the edge *)

Section EdgeProof.
Context {A : PixelArith}.
Variable img : Image pixel.
Variable thresh : pixel.

Lemma any_significant_spec :
  forall pix,
    (forall x y, In (x, y) pix -> box_contains_pt (im_bbox img) x y = true) ->
    any_significant img thresh pix =
    Ok (existsb (fun p => significant_at img thresh (fst p) (snd p)) pix).
Proof.
  induction pix as [|[x y] r IH]; intros Hin; [reflexivity|].
  cbn [any_significant existsb fst snd]. unfold im_read.
  rewrite (Hin x y (or_introl eq_refl)). cbn [bind].
  unfold significant_at at 1.
  destruct (pleb thresh (im_pix img x y)); [reflexivity|].
  cbn [orb]. apply IH. intros x' y' H'. apply Hin. right. exact H'.
Qed.

Lemma scan_pixels_spec (y x0 : Z) (tmp0 : list Span) :
  forall n, 0 <= n ->
    (forall x, x0 <= x < x0 + n -> box_contains_pt (im_bbox img) x y = true) ->
    exists on xs tmp,
      foldM (scan_pixel img thresh y) (zseq x0 n) (false, None, tmp0)
      = Ok (on, xs, tmp) /\
      on = (0 <? n) && significant_at img thresh (x0 + n - 1) y /\
      (on = true -> xs = Some (x0 + n - 1)) /\
      forall px py,
        spans_contain tmp px py =
        spans_contain tmp0 px py
        || ((py =? y) && (x0 <=? px) && (px <? x0 + n - 1)
            && significant_at img thresh px y
            && negb (significant_at img thresh (px + 1) y)).
Proof.
  intros n Hn Hin.
  destruct (zseq_foldM_inv
              (fun k (st : ScanState) =>
                 let '(on, xs, tmp) := st in
                 on = (0 <? k) && significant_at img thresh (x0 + k - 1) y /\
                 (on = true -> xs = Some (x0 + k - 1)) /\
                 forall px py,
                   spans_contain tmp px py =
                   spans_contain tmp0 px py
                   || ((py =? y) && (x0 <=? px) && (px <? x0 + k - 1)
                       && significant_at img thresh px y
                       && negb (significant_at img thresh (px + 1) y)))
              (scan_pixel img thresh y) x0 n Hn (false, None, tmp0))
    as ([[on xs] tmp] & E & H).
  - split; [reflexivity|]. split; [discriminate|]. intros px py.
    destruct (py =? y), (Z.leb_spec x0 px), (Z.ltb_spec px (x0 + 0 - 1));
      cbn [andb]; rewrite ?orb_false_r; try reflexivity; lia.
  - intros k [[on xs] tmp] Hk (Hon & Hxs & Htmp).
    unfold scan_pixel, im_read. rewrite (Hin (x0 + k)) by lia. cbn [bind].
    fold (significant_at img thresh (x0 + k) y).
    replace (x0 + (k + 1) - 1) with (x0 + k) by lia.
    replace (0 <? k + 1) with true by (symmetry; apply Z.ltb_lt; lia).
    destruct (significant_at img thresh (x0 + k) y) eqn:Es.
    + eexists. split; [reflexivity|]. cbn [andb].
      split; [reflexivity|]. split; [reflexivity|]. intros px py.
      rewrite Htmp. f_equal.
      destruct (Z.eqb_spec py y), (Z.leb_spec x0 px),
        (Z.ltb_spec px (x0 + k - 1)), (Z.ltb_spec px (x0 + k));
        cbn [andb]; try reflexivity; try lia.
      replace (px + 1) with (x0 + k) by lia. rewrite Es. cbn [negb].
      rewrite andb_false_r. reflexivity.
    + destruct on.
      * rewrite (Hxs eq_refl). eexists. split; [reflexivity|]. cbn [andb].
        split; [reflexivity|]. split; [discriminate|]. intros px py.
        rewrite spans_contain_app, Htmp. rewrite <- orb_assoc. f_equal.
        unfold spans_contain. cbn [existsb]. unfold span_contains.
        cbn [sp_x0 sp_x1 sp_y]. rewrite orb_false_r.
        symmetry in Hon. apply andb_true_iff in Hon. destruct Hon as [Hk0 Hs].
        apply Z.ltb_lt in Hk0.
        destruct (Z.eqb_spec py y), (Z.leb_spec x0 px),
          (Z.ltb_spec px (x0 + k - 1)), (Z.ltb_spec px (x0 + k)),
          (Z.leb_spec (x0 + k - 1) px), (Z.leb_spec px (x0 + k - 1));
          cbn [andb orb]; try reflexivity; try lia.
        -- destruct (significant_at img thresh px y
                     && negb (significant_at img thresh (px + 1) y));
             reflexivity.
        -- replace px with (x0 + k - 1) by lia.
           replace (x0 + k - 1 + 1) with (x0 + k) by lia.
           rewrite Hs, Es. reflexivity.
      * eexists. split; [reflexivity|]. cbn [andb].
        split; [reflexivity|]. split; [discriminate|]. intros px py.
        rewrite Htmp. f_equal.
        destruct (Z.eqb_spec py y), (Z.leb_spec x0 px),
          (Z.ltb_spec px (x0 + k - 1)), (Z.ltb_spec px (x0 + k));
          cbn [andb]; try reflexivity; try lia.
        replace px with (x0 + k - 1) by lia.
        destruct (Z.ltb_spec 0 k); cbn [andb] in Hon; [|lia].
        rewrite <- Hon. reflexivity.
  - exists on, xs, tmp. split; [exact E|]. exact H.
Qed.

Lemma scan_span_spec (tmp0 : list Span) (s : Span) :
  (forall x y, span_contains s x y = true ->
               box_contains_pt (im_bbox img) x y = true) ->
  exists tmp,
    scan_span img thresh tmp0 s = Ok tmp /\
    forall px py,
      spans_contain tmp px py =
      spans_contain tmp0 px py || last_of_run img thresh s px py.
Proof.
  intros Hin. unfold scan_span. cbv zeta.
  destruct (Z.le_gt_cases 0 (sp_x1 s - sp_x0 s + 1)) as [Hn|Hn].
  - destruct (scan_pixels_spec (sp_y s) (sp_x0 s) tmp0 _ Hn)
      as (on & xs & tmp & E & Hon & Hxs & Htmp).
    { intros x Hx. apply Hin. apply span_contains_iff. lia. }
    rewrite E. cbn [bind].
    replace (sp_x0 s + (sp_x1 s - sp_x0 s + 1) - 1) with (sp_x1 s) in *
      by lia.
    destruct on.
    + rewrite (Hxs eq_refl). eexists. split; [reflexivity|].
      intros px py. rewrite spans_contain_app, Htmp, <- orb_assoc. f_equal.
      symmetry in Hon. apply andb_true_iff in Hon. destruct Hon as [Hk0 Hs].
      apply Z.ltb_lt in Hk0.
      unfold spans_contain. cbn [existsb]. rewrite orb_false_r.
      unfold last_of_run, span_contains. cbn [sp_x0 sp_x1 sp_y].
      destruct (Z.eqb_spec py (sp_y s)), (Z.leb_spec (sp_x0 s) px),
        (Z.ltb_spec px (sp_x1 s)), (Z.leb_spec px (sp_x1 s)),
        (Z.leb_spec (sp_x1 s) px), (Z.eqb_spec px (sp_x1 s));
        cbn [andb orb]; try reflexivity; try lia.
      * subst py. rewrite ?orb_false_r, ?andb_true_r, ?andb_false_r.
        reflexivity.
      * subst. rewrite Hs. reflexivity.
    + eexists. split; [reflexivity|]. intros px py. rewrite Htmp. f_equal.
      unfold last_of_run, span_contains.
      destruct (Z.eqb_spec py (sp_y s)), (Z.leb_spec (sp_x0 s) px),
        (Z.ltb_spec px (sp_x1 s)), (Z.leb_spec px (sp_x1 s)),
        (Z.eqb_spec px (sp_x1 s));
        cbn [andb orb]; try reflexivity; try lia.
      * subst py. rewrite ?orb_false_r, ?andb_true_r, ?andb_false_r.
        reflexivity.
      * subst. destruct (Z.ltb_spec 0 (sp_x1 s - sp_x0 s + 1));
          cbn [andb] in Hon; [|lia].
        rewrite <- Hon. reflexivity.
  - rewrite zseq_nil by lia. cbn [foldM bind]. eexists.
    split; [reflexivity|]. intros px py.
    replace (last_of_run img thresh s px py) with false;
      [rewrite orb_false_r; reflexivity|].
    unfold last_of_run, span_contains.
    destruct (Z.leb_spec (sp_x0 s) px), (Z.leb_spec px (sp_x1 s));
      cbn [andb]; try reflexivity; lia.
Qed.

Lemma scan_spans_spec :
  forall edge tmp0,
    (forall x y, spans_contain edge x y = true ->
                 box_contains_pt (im_bbox img) x y = true) ->
    exists tmp,
      foldM (scan_span img thresh) edge tmp0 = Ok tmp /\
      forall px py,
        spans_contain tmp px py =
        spans_contain tmp0 px py
        || existsb (fun s => last_of_run img thresh s px py) edge.
Proof.
  induction edge as [|s r IH]; intros tmp0 Hin.
  - exists tmp0. split; [reflexivity|]. intros px py. cbn [existsb].
    rewrite orb_false_r. reflexivity.
  - cbn [foldM].
    destruct (scan_span_spec tmp0 s) as (tmp1 & E1 & H1).
    { intros x y Hc. apply Hin. unfold spans_contain. cbn [existsb].
      rewrite Hc. reflexivity. }
    rewrite E1. cbn [bind].
    destruct (IH tmp1) as (tmp & E & H).
    { intros x y Hc. apply Hin. unfold spans_contain in *. cbn [existsb].
      rewrite Hc. apply orb_true_r. }
    exists tmp. split; [exact E|]. intros px py.
    rewrite H, H1. cbn [existsb]. rewrite orb_assoc. reflexivity.
Qed.

(** A significant pixel of a span is followed, within the span, by the
    last pixel of its run. *)
Lemma run_has_last (s : Span) (y : Z) :
  forall n x,
    0 <= n -> sp_x1 s - x <= n ->
    span_contains s x y = true ->
    significant_at img thresh x y = true ->
    exists x', x <= x' /\ last_of_run img thresh s x' y = true.
Proof.
  intros n x Hn. revert x. pattern n. apply natlike_ind; [| |exact Hn].
  - intros x Hx Hc Hs. exists x. split; [lia|].
    unfold last_of_run. rewrite Hc, Hs. cbn [andb].
    apply span_contains_iff in Hc.
    replace (x =? sp_x1 s) with true by (symmetry; apply Z.eqb_eq; lia).
    reflexivity.
  - intros m Hm IH x Hx Hc Hs.
    destruct (Z.eqb_spec x (sp_x1 s)) as [Hl|Hl].
    + exists x. split; [lia|]. unfold last_of_run. rewrite Hc, Hs.
      cbn [andb]. replace (x =? sp_x1 s) with true
        by (symmetry; apply Z.eqb_eq; lia).
      reflexivity.
    + destruct (significant_at img thresh (x + 1) y) eqn:En.
      * destruct (IH (x + 1)) as (x' & Hx' & Hl'); [lia| |exact En|].
        { apply span_contains_iff in Hc. apply span_contains_iff. lia. }
        exists x'. split; [lia|exact Hl'].
      * exists x. split; [lia|]. unfold last_of_run.
        rewrite Hc, Hs, En. cbn [andb negb]. apply orb_true_r.
Qed.
End EdgeProof.

(** X17.  [hasSignificantFluxAtEdge] over edge spans that lie inside the
    image: the call returns, and the answer is true exactly when some
    pixel of an edge span holds a value at or above the threshold. *)
Theorem hasSignificantFluxAtEdge_iff {A : PixelArith}
        (img : Image pixel) (edgeSpans : SpanSet) (thresh : pixel) :
  (forall x y, spans_contain edgeSpans x y = true ->
               box_contains_pt (im_bbox img) x y = true) ->
  exists b,
    hasSignificantFluxAtEdge img edgeSpans thresh = Ok b /\
    (b = true <->
     exists x y, spans_contain edgeSpans x y = true /\
                 pleb thresh (im_pix img x y) = true).
Proof.
  intros Hin. unfold hasSignificantFluxAtEdge.
  rewrite any_significant_spec.
  - eexists. split; [reflexivity|]. rewrite existsb_exists. split.
    + intros ([x y] & Hp & Hs). exists x, y. split; [|exact Hs].
      apply spans_pixels_In. exact Hp.
    + intros (x & y & Hc & Hs). exists (x, y). split; [|exact Hs].
      apply spans_pixels_In. exact Hc.
  - intros x y Hp. apply Hin. apply spans_pixels_In. exact Hp.
Qed.

Lemma hasSignificantFluxAtEdge_iff_witness :
  exists b,
    hasSignificantFluxAtEdge x_edge_img x_edge_spans (Qc_of_Z 4) = Ok b /\
    (b = true <->
     exists x y, spans_contain x_edge_spans x y = true /\
                 pleb (Qc_of_Z 4) (im_pix x_edge_img x y) = true).
Proof.
  apply (@hasSignificantFluxAtEdge_iff ExactArith).
  intros x y H. unfold x_edge_spans, spans_contain in H.
  cbn [existsb] in H. rewrite orb_false_r in H.
  apply span_contains_iff in H. cbn [sp_x0 sp_x1 sp_y] in H.
  apply box_contains_pt_iff. cbn. lia.
Defined.

(** X18.  [getSignificantEdgePixels] over edge spans that lie inside the
    image: the call returns a footprint without peaks, and a pixel belongs
    to it exactly when it lies in an edge span, holds a value at or above
    the threshold, and is the last pixel of the span or has a right
    neighbour below the threshold.  Of a run of pixels at or above the
    threshold only the last one is kept. *)
Theorem getSignificantEdgePixels_keeps_run_ends {A : PixelArith}
        (img : Image pixel) (edgeSpans : SpanSet) (thresh : pixel) :
  (forall x y, spans_contain edgeSpans x y = true ->
               box_contains_pt (im_bbox img) x y = true) ->
  exists significant,
    getSignificantEdgePixels img edgeSpans thresh = Ok significant /\
    fp_peaks significant = [] /\
    forall x y,
      foot_contains significant x y = true <->
      exists s, In s edgeSpans /\
                span_contains s x y = true /\
                pleb thresh (im_pix img x y) = true /\
                (x = sp_x1 s \/ pleb thresh (im_pix img (x + 1) y) = false).
Proof.
  intros Hin. unfold getSignificantEdgePixels.
  destruct (scan_spans_spec img thresh edgeSpans [] Hin) as (tmp & E & H).
  rewrite E. cbn [bind]. eexists. split; [reflexivity|].
  split; [reflexivity|]. intros x y.
  unfold foot_contains. cbn [fp_spans].
  rewrite make_SpanSet_pixels, H. cbn [spans_contain existsb orb].
  rewrite existsb_exists. unfold last_of_run, significant_at.
  split.
  - intros (s & Hs & Hl). exists s. split; [exact Hs|].
    apply andb_true_iff in Hl. destruct Hl as [Hl Hend].
    apply andb_true_iff in Hl. destruct Hl as [Hc Hsig].
    split; [exact Hc|]. split; [exact Hsig|].
    apply orb_true_iff in Hend. destruct Hend as [He|He].
    + left. apply Z.eqb_eq. exact He.
    + right. apply negb_true_iff. exact He.
  - intros (s & Hs & Hc & Hsig & Hend). exists s. split; [exact Hs|].
    rewrite Hc, Hsig. cbn [andb]. apply orb_true_iff.
    destruct Hend as [He|He].
    + left. apply Z.eqb_eq. exact He.
    + right. apply negb_true_iff. exact He.
Qed.

Lemma getSignificantEdgePixels_keeps_run_ends_witness :
  exists significant,
    getSignificantEdgePixels x_edge_img x_edge_spans (Qc_of_Z 4)
    = Ok significant /\
    fp_peaks significant = [] /\
    forall x y,
      foot_contains significant x y = true <->
      exists s, In s x_edge_spans /\
                span_contains s x y = true /\
                pleb (Qc_of_Z 4) (im_pix x_edge_img x y) = true /\
                (x = sp_x1 s \/
                 pleb (Qc_of_Z 4) (im_pix x_edge_img (x + 1) y) = false).
Proof.
  apply (@getSignificantEdgePixels_keeps_run_ends ExactArith).
  intros x y H. unfold x_edge_spans, spans_contain in H.
  cbn [existsb] in H. rewrite orb_false_r in H.
  apply span_contains_iff in H. cbn [sp_x0 sp_x1 sp_y] in H.
  apply box_contains_pt_iff. cbn. lia.
Defined.

(** X19.  Over edge spans that lie inside the image the two routines
    agree: [hasSignificantFluxAtEdge] answers true exactly when the
    footprint returned by [getSignificantEdgePixels] has a pixel. *)
Theorem significant_edge_routines_agree {A : PixelArith}
        (img : Image pixel) (edgeSpans : SpanSet) (thresh : pixel) :
  (forall x y, spans_contain edgeSpans x y = true ->
               box_contains_pt (im_bbox img) x y = true) ->
  exists b significant,
    hasSignificantFluxAtEdge img edgeSpans thresh = Ok b /\
    getSignificantEdgePixels img edgeSpans thresh = Ok significant /\
    (b = true <-> exists x y, foot_contains significant x y = true).
Proof.
  intros Hin. unfold hasSignificantFluxAtEdge, getSignificantEdgePixels.
  rewrite any_significant_spec
    by (intros x y Hp; apply Hin; apply spans_pixels_In; exact Hp).
  destruct (scan_spans_spec img thresh edgeSpans [] Hin) as (tmp & E & H).
  rewrite E. cbn [bind]. eexists. eexists. split; [reflexivity|].
  split; [reflexivity|]. unfold foot_contains. cbn [fp_spans].
  rewrite existsb_exists. split.
  - intros ([x y] & Hp & Hs). cbn [fst snd] in Hs.
    apply spans_pixels_In in Hp. apply spans_contain_In in Hp.
    destruct Hp as (s & Hs_in & Hc).
    destruct (run_has_last img thresh s y (Z.max 0 (sp_x1 s - x)) x
                ltac:(lia) ltac:(lia) Hc Hs) as (x' & _ & Hl).
    exists x', y. rewrite make_SpanSet_pixels, H.
    cbn [spans_contain existsb orb]. apply existsb_exists.
    exists s. split; [exact Hs_in|exact Hl].
  - intros (x & y & Hc). rewrite make_SpanSet_pixels, H in Hc.
    cbn [spans_contain existsb orb] in Hc. apply existsb_exists in Hc.
    destruct Hc as (s & Hs_in & Hl). unfold last_of_run in Hl.
    apply andb_true_iff in Hl. destruct Hl as [Hl _].
    apply andb_true_iff in Hl. destruct Hl as [Hc Hsig].
    exists (x, y). split; [|exact Hsig].
    apply spans_pixels_In. apply spans_contain_In. exists s. auto.
Qed.

Lemma significant_edge_routines_agree_witness :
  exists b significant,
    hasSignificantFluxAtEdge x_edge_img x_edge_spans (Qc_of_Z 4) = Ok b /\
    getSignificantEdgePixels x_edge_img x_edge_spans (Qc_of_Z 4)
    = Ok significant /\
    (b = true <-> exists x y, foot_contains significant x y = true).
Proof.
  apply (@significant_edge_routines_agree ExactArith).
  intros x y H. unfold x_edge_spans, spans_contain in H.
  cbn [existsb] in H. rewrite orb_false_r in H.
  apply span_contains_iff in H. cbn [sp_x0 sp_x1 sp_y] in H.
  apply box_contains_pt_iff. cbn. lia.
Defined.

(** * The weight by distance to a footprint *)

Lemma Qc_ltb_of_Z (a b : Z) : Qc_ltb (Qc_of_Z a) (Qc_of_Z b) = (a <? b).
Proof.
  unfold Qc_ltb, Qc_of_Z, Qccompare. cbn [this Q2Qc].
  rewrite <- Qred_compare. unfold Qcompare, inject_Z. cbn [Qnum Qden].
  rewrite !Z.mul_1_r. unfold Z.ltb. reflexivity.
Qed.

Lemma get_contrib_fold (x y : Z) :
  forall spans m,
    fold_left
      (fun minr2 sp =>
         let dx := i32 (sp_x0 sp - x) in
         let mindx :=
           if 0 <=? dx then dx
           else
             let dx := i32 (x - sp_x1 sp) in
             if 0 <=? dx then dx else 0 in
         let dy := i32 (sp_y sp - y) in
         @dmin ExactArith minr2
               (dbl_of_Z (i32 (i32 (mindx * mindx) + i32 (dy * dy)))))
      spans (Qc_of_Z m)
    = Qc_of_Z (min_dist2 x y spans m).
Proof.
  induction spans as [|sp r IH]; intros m; [reflexivity|].
  cbn [fold_left]. unfold min_dist2. cbn [fold_left].
  fold (min_dist2 x y r (Z.min m (span_dist2 x y sp))).
  rewrite <- IH. f_equal. unfold span_dist2, dmin. cbv zeta.
  cbn [dltb dbl_of_Z ExactArith]. rewrite Qc_ltb_of_Z.
  match goal with
  | |- context [Z.ltb ?d m] => generalize d
  end.
  intros d.
  destruct (Z.ltb_spec d m); apply (f_equal Qc_of_Z); lia.
Qed.

(** Within 32767 pixels nothing wraps: 2 * 32767^2 < 2^31. *)
Lemma span_dist2_in_range (x y : Z) (sp : Span) :
  span_within 32767 x y sp ->
  span_dist2 x y sp =
  (if 0 <=? sp_x0 sp - x then sp_x0 sp - x
   else if 0 <=? x - sp_x1 sp then x - sp_x1 sp else 0)
  * (if 0 <=? sp_x0 sp - x then sp_x0 sp - x
     else if 0 <=? x - sp_x1 sp then x - sp_x1 sp else 0)
  + (sp_y sp - y) * (sp_y sp - y).
Proof.
  intros (H0 & H1 & Hy). unfold span_dist2. cbv zeta.
  rewrite (i32_small (sp_x0 sp - x)), (i32_small (x - sp_x1 sp)),
    (i32_small (sp_y sp - y)) by lia.
  set (mindx := if 0 <=? sp_x0 sp - x then sp_x0 sp - x
                else if 0 <=? x - sp_x1 sp then x - sp_x1 sp else 0).
  assert (Hm : 0 <= mindx <= 32767).
  { unfold mindx. destruct (Z.leb_spec 0 (sp_x0 sp - x)); [lia|].
    destruct (Z.leb_spec 0 (x - sp_x1 sp)); lia. }
  assert (Hmm : 0 <= mindx * mindx <= 32767 * 32767) by nia.
  assert (Hyy : 0 <= (sp_y sp - y) * (sp_y sp - y) <= 32767 * 32767) by nia.
  rewrite (i32_small (mindx * mindx)), (i32_small ((sp_y sp - y) * _)) by lia.
  apply i32_small. lia.
Qed.

(** Whatever the distance, the wrapped value is not -2. *)
Lemma span_dist2_sentinel (x y : Z) (sp : Span) : span_dist2 x y sp <> -2.
Proof.
  unfold span_dist2. cbv zeta. apply i32_squares_sum_wrapped.
Qed.

Lemma span_dist2_lower (x y : Z) (sp : Span) (px py : Z) :
  span_within 32767 x y sp ->
  span_contains sp px py = true ->
  span_dist2 x y sp <= (px - x) * (px - x) + (py - y) * (py - y).
Proof.
  intros Hr Hc. apply span_contains_iff in Hc. destruct Hc as (Hx & Hy).
  subst py. rewrite (span_dist2_in_range x y sp Hr).
  destruct (Z.leb_spec 0 (sp_x0 sp - x)).
  - pose proof (Z.square_le_mono_nonneg (sp_x0 sp - x) (px - x)
                  ltac:(lia) ltac:(lia)).
    lia.
  - destruct (Z.leb_spec 0 (x - sp_x1 sp)).
    + pose proof (Z.square_le_mono_nonneg (x - sp_x1 sp) (x - px)
                    ltac:(lia) ltac:(lia)).
      replace ((px - x) * (px - x)) with ((x - px) * (x - px)) by ring.
      lia.
    + pose proof (Z.square_nonneg (px - x)). lia.
Qed.

Lemma span_dist2_reached (x y : Z) (sp : Span) :
  span_within 32767 x y sp ->
  sp_x0 sp <= sp_x1 sp ->
  exists px,
    span_contains sp px (sp_y sp) = true /\
    span_dist2 x y sp = (px - x) * (px - x) + (sp_y sp - y) * (sp_y sp - y).
Proof.
  intros Hr Hok. rewrite (span_dist2_in_range x y sp Hr).
  destruct (Z.leb_spec 0 (sp_x0 sp - x)).
  - exists (sp_x0 sp). split; [apply span_contains_iff; lia|reflexivity].
  - destruct (Z.leb_spec 0 (x - sp_x1 sp)).
    + exists (sp_x1 sp). split; [apply span_contains_iff; lia|ring].
    + exists x. split; [apply span_contains_iff; lia|ring].
Qed.

Lemma min_dist2_spec (x y : Z) :
  forall spans m,
    min_dist2 x y spans m <= m /\
    (forall sp, In sp spans -> min_dist2 x y spans m <= span_dist2 x y sp) /\
    (min_dist2 x y spans m = m \/
     exists sp, In sp spans /\ min_dist2 x y spans m = span_dist2 x y sp).
Proof.
  induction spans as [|sp r IH]; intros m.
  - cbn. split; [lia|]. split; [intros sp []|left; reflexivity].
  - unfold min_dist2. cbn [fold_left].
    fold (min_dist2 x y r (Z.min m (span_dist2 x y sp))).
    destruct (IH (Z.min m (span_dist2 x y sp))) as (Hle & Hall & Hex).
    split; [lia|]. split.
    + intros s [E|Hin]; [subst; lia|apply Hall; exact Hin].
    + destruct Hex as [E|(s & Hin & E)].
      * destruct (Z.le_gt_cases m (span_dist2 x y sp)).
        -- left. lia.
        -- right. exists sp. split; [left; reflexivity|lia].
      * right. exists s. split; [right; exact Hin|exact E].
Qed.

Lemma span_dist2_nonneg (x y : Z) (sp : Span) :
  span_within 32767 x y sp -> 0 <= span_dist2 x y sp.
Proof.
  intros Hr. rewrite (span_dist2_in_range x y sp Hr).
  match goal with
  | |- 0 <= ?a * ?a + ?b * ?b =>
      pose proof (Z.square_nonneg a); pose proof (Z.square_nonneg b)
  end.
  lia.
Qed.

(** X20.  [_get_contrib_r_to_footprint] in exact arithmetic, for a
    footprint whose spans are not empty and lie within 32767 pixels of
    (x, y) along both axes, so that the 32-bit [mindx*mindx + dy*dy] does
    not overflow: the result is [1 / (1 + m)], where [m] is the smaller of
    10^12 and the least squared distance from (x, y) to a pixel of the
    footprint: no pixel of the footprint is nearer, and below 10^12 some
    pixel lies at that distance. *)
Theorem get_contrib_r_to_footprint_nearest_pixel (x y : Z) (tfoot : Footprint) :
  (forall sp, In sp (fp_spans tfoot) -> sp_x0 sp <= sp_x1 sp) ->
  (forall sp, In sp (fp_spans tfoot) -> span_within 32767 x y sp) ->
  exists m : Z,
    @get_contrib_r_to_footprint ExactArith x y tfoot
    = Qcdiv (Qc_of_Z 1) (Qcplus (Qc_of_Z 1) (Qc_of_Z m)) /\
    0 <= m <= 10 ^ 12 /\
    (forall px py,
       foot_contains tfoot px py = true ->
       m <= (px - x) * (px - x) + (py - y) * (py - y)) /\
    (m < 10 ^ 12 ->
     exists px py,
       foot_contains tfoot px py = true /\
       m = (px - x) * (px - x) + (py - y) * (py - y)).
Proof.
  intros Hok Hr. exists (min_dist2 x y (fp_spans tfoot) (10 ^ 12)).
  destruct (min_dist2_spec x y (fp_spans tfoot) (10 ^ 12))
    as (Hle & Hall & Hex).
  split.
  - unfold get_contrib_r_to_footprint.
    change (@dbl_of_Z ExactArith (10 ^ 12)) with (Qc_of_Z (10 ^ 12)).
    rewrite get_contrib_fold. reflexivity.
  - split; [|split].
    + split; [|exact Hle].
      destruct Hex as [E|(sp & Hin & E)]; rewrite E;
        [lia|apply span_dist2_nonneg; apply Hr; exact Hin].
    + intros px py Hc. apply spans_contain_In in Hc.
      destruct Hc as (sp & Hin & Hc).
      pose proof (Hall sp Hin).
      pose proof (span_dist2_lower x y sp px py (Hr sp Hin) Hc).
      lia.
    + intros Hlt. destruct Hex as [E|(sp & Hin & E)]; [lia|].
      destruct (span_dist2_reached x y sp (Hr sp Hin) (Hok sp Hin))
        as (px & Hc & Ed).
      exists px, (sp_y sp). split; [|lia].
      apply spans_contain_In. exists sp. split; [exact Hin|exact Hc].
Qed.

Lemma get_contrib_r_to_footprint_nearest_pixel_witness :
  exists m : Z,
    @get_contrib_r_to_footprint ExactArith 0 0 x_contrib_foot
    = Qcdiv (Qc_of_Z 1) (Qcplus (Qc_of_Z 1) (Qc_of_Z m)) /\
    0 <= m <= 10 ^ 12 /\
    (forall px py,
       foot_contains x_contrib_foot px py = true ->
       m <= (px - 0) * (px - 0) + (py - 0) * (py - 0)) /\
    (m < 10 ^ 12 ->
     exists px py,
       foot_contains x_contrib_foot px py = true /\
       m = (px - 0) * (px - 0) + (py - 0) * (py - 0)).
Proof.
  apply (get_contrib_r_to_footprint_nearest_pixel 0 0 x_contrib_foot).
  - intros sp [E|[E|[]]]; subst sp; cbn [sp_x0 sp_x1]; lia.
  - intros sp [E|[E|[]]]; subst sp; unfold span_within;
      cbn [sp_x0 sp_x1 sp_y]; lia.
Defined.

(** Beyond the range the squared distance wraps: for a span 50000 pixels
    away the 32-bit value is -1794967296 and the weight is negative. *)
Lemma get_contrib_r_to_footprint_far_span :
  span_dist2 0 0 (mkSpan 0 50000 50001) = -1794967296 /\
  @get_contrib_r_to_footprint ExactArith 0 0 x_far_foot
  = Qcdiv (Qc_of_Z 1) (Qc_of_Z (-1794967295)).
Proof. split; vm_compute; reflexivity. Qed.

(** * The symmetrizer when the peak lies after every span *)

Lemma upper_bound_all (target : Span) :
  forall spans,
    (forall s, In s spans -> span_compare target s = false) ->
    upper_bound spans target = Z.of_nat (length spans).
Proof.
  induction spans as [|s r IH]; intros H; [reflexivity|].
  cbn [upper_bound length]. rewrite (H s (or_introl eq_refl)).
  rewrite IH by (intros s' Hs'; apply H; right; exact Hs'). lia.
Qed.

(** X21.  [symmetrizeFootprint] with a peak outside the footprint and no
    span ordered after the pixel of the peak (an empty footprint, or a peak
    beyond the last span): the lookup of the peak span reads one position
    past the end of the span array. *)
Theorem symmetrizeFootprint_peak_after_last_span (F : Footprint) (cx cy : Z) :
  foot_contains F cx cy = false ->
  (forall s, In s (fp_spans F) -> span_compare (mkSpan cy cx cx) s = false) ->
  symmetrizeFootprint F cx cy = Undef.
Proof.
  intros Hout Hall. unfold symmetrizeFootprint.
  rewrite (find_peakspan_past_end F cx cy Hout
             (upper_bound_all _ _ Hall)).
  reflexivity.
Qed.

Lemma symmetrizeFootprint_peak_after_last_span_witness :
  symmetrizeFootprint (mkFootprint [] []) 0 0 = Undef.
Proof.
  apply (symmetrizeFootprint_peak_after_last_span (mkFootprint [] []) 0 0).
  - reflexivity.
  - intros s [].
Defined.

(** * The monotonic shader invents no value *)

Section ShaderValues.
Context {A : PixelArith}.
Variable img0 : Image pixel.
Variables cx cy : Z.

Lemma local_in_box (b : Box2I) px py :
  (px <? 0) || (getWidth b <=? px) || (py <? 0) || (getHeight b <=? py)
  = false ->
  box_contains_pt b (minX b + px) (minY b + py) = true.
Proof.
  intros H. apply orb_false_iff in H. destruct H as [H H4].
  apply orb_false_iff in H. destruct H as [H H3].
  apply orb_false_iff in H. destruct H as [H1 H2].
  apply Z.ltb_ge in H1, H3. apply Z.leb_gt in H2, H4.
  unfold getWidth, getHeight in *. apply box_contains_pt_iff. lia.
Qed.

Lemma shade_values img psx psy pix :
  values_of img0 img ->
  (exists x' y', box_contains_pt (im_bbox img0) x' y' = true /\
                 pix = im_pix img0 x' y') ->
  (psx <? 0) || (getWidth (im_bbox img0) <=? psx) = false ->
  (psy <? 0) || (getHeight (im_bbox img0) <=? psy) = false ->
  values_of img0 (shade img psx psy pix).
Proof.
  intros (Hb & Hv) Hpix Hx Hy. unfold shade, set_local, get_local.
  split; [exact Hb|]. intros x y Hin. rewrite Hb.
  assert (Hloc : box_contains_pt (im_bbox img0)
                   (minX (im_bbox img0) + psx) (minY (im_bbox img0) + psy)
                 = true).
  { apply local_in_box. apply orb_false_iff in Hx, Hy.
    destruct Hx as [-> ->], Hy as [-> ->]. reflexivity. }
  assert (Hd : (x, y) = (minX (im_bbox img0) + psx,
                         minY (im_bbox img0) + psy) \/
               (x, y) <> (minX (im_bbox img0) + psx,
                          minY (im_bbox img0) + psy)).
  { destruct (Z.eq_dec x (minX (im_bbox img0) + psx)) as [->|];
      [destruct (Z.eq_dec y (minY (im_bbox img0) + psy)) as [->|]|];
      [left; reflexivity|right; congruence|right; congruence]. }
  destruct Hd as [E|E].
  - inversion E; subst. rewrite im_set_same. unfold pmin.
    destruct (pltb pix _); [exact Hpix|apply Hv; exact Hloc].
  - rewrite im_set_other by exact E. apply Hv. exact Hin.
Qed.

Lemma cast_vertical_values x y pix img :
  values_of img0 img ->
  (exists x' y', box_contains_pt (im_bbox img0) x' y' = true /\
                 pix = im_pix img0 x' y') ->
  values_of img0
    (cast_vertical cx cy (minX (im_bbox img0)) (minY (im_bbox img0))
                   (getWidth (im_bbox img0)) (getHeight (im_bbox img0))
                   x y pix img).
Proof.
  intros HI Hpix. unfold cast_vertical. apply fold_left_inv; [|exact HI].
  intros im shx _ HI1.
  destruct ((_ <? 0) || (getWidth (im_bbox img0) <=? _)) eqn:Ex;
    [exact HI1|].
  apply fold_left_inv; [|exact HI1].
  intros im2 shy _ HI2.
  destruct ((_ <? 0) || (getHeight (im_bbox img0) <=? _)) eqn:Ey;
    [exact HI2|].
  apply shade_values; assumption.
Qed.

Lemma cast_horizontal_values x y pix img :
  values_of img0 img ->
  (exists x' y', box_contains_pt (im_bbox img0) x' y' = true /\
                 pix = im_pix img0 x' y') ->
  values_of img0
    (cast_horizontal cx cy (minX (im_bbox img0)) (minY (im_bbox img0))
                     (getWidth (im_bbox img0)) (getHeight (im_bbox img0))
                     x y pix img).
Proof.
  intros HI Hpix. unfold cast_horizontal. apply fold_left_inv; [|exact HI].
  intros im shy _ HI1.
  destruct ((_ <? 0) || (getHeight (im_bbox img0) <=? _)) eqn:Ey;
    [exact HI1|].
  apply fold_left_inv; [|exact HI1].
  intros im2 shx _ HI2.
  destruct ((_ <? 0) || (getWidth (im_bbox img0) <=? _)) eqn:Ex;
    [exact HI2|].
  apply shade_values; assumption.
Qed.

Lemma ring_walk_values shadowing L :
  values_of img0 shadowing ->
  forall n i x y dx dy img,
    values_of img0 img ->
    values_of img0
      (ring_walk cx cy (minX (im_bbox img0)) (minY (im_bbox img0))
                 (getWidth (im_bbox img0)) (getHeight (im_bbox img0))
                 shadowing L n i x y dx dy img).
Proof.
  intros (Hsb & Hsv).
  induction n as [|n IH]; intros i x y dx dy img HI; [exact HI|].
  cbn [ring_walk]. apply IH.
  destruct (_ || _ || _ || _) eqn:Ein; [exact HI|].
  assert (Hpix : exists x' y',
             box_contains_pt (im_bbox img0) x' y' = true /\
             get_local shadowing (cx + x - minX (im_bbox img0))
                       (cy + y - minY (im_bbox img0)) = im_pix img0 x' y').
  { unfold get_local. rewrite Hsb. apply Hsv. apply local_in_box.
    exact Ein. }
  destruct (_ =? 0).
  - apply cast_vertical_values; assumption.
  - apply cast_horizontal_values; assumption.
Qed.

Lemma chunk_values shadowing s img :
  values_of img0 shadowing ->
  values_of img0 img ->
  values_of img0
    (chunk cx cy (minX (im_bbox img0)) (minY (im_bbox img0))
           (getWidth (im_bbox img0)) (getHeight (im_bbox img0))
           shadowing s img).
Proof.
  intros Hs HI. unfold chunk. apply fold_left_inv; [|exact HI].
  intros im p _ HI1. apply ring_walk_values; assumption.
Qed.

Lemma chunks_values M :
  forall k s shadowing img,
    values_of img0 shadowing ->
    values_of img0 img ->
    values_of img0
      (chunks cx cy (minX (im_bbox img0)) (minY (im_bbox img0))
              (getWidth (im_bbox img0)) (getHeight (im_bbox img0))
              k s M shadowing img).
Proof.
  induction k as [|k IH]; intros s shadowing img Hs HI; [exact HI|].
  cbn [chunks]. destruct (s <? M); [|exact HI].
  assert (H1 := chunk_values shadowing s img Hs HI).
  apply IH; exact H1.
Qed.

(** X22.  [makeMonotonic] invents no value: the image keeps its box, and
    every pixel of the result holds the value that some pixel of the input
    held. *)
Theorem makeMonotonic_takes_input_values :
  im_bbox (makeMonotonic img0 cx cy) = im_bbox img0 /\
  forall x y,
    box_contains_pt (im_bbox img0) x y = true ->
    exists x' y',
      box_contains_pt (im_bbox img0) x' y' = true /\
      im_pix (makeMonotonic img0 cx cy) x y = im_pix img0 x' y'.
Proof.
  assert (H0 : values_of img0 img0).
  { split; [reflexivity|]. intros x y Hin. exists x, y. auto. }
  unfold makeMonotonic. cbv zeta.
  apply (chunks_values _ _ _ _ _ H0 H0).
Qed.
End ShaderValues.

(** * The symmetric template *)

(** ** Span lists in canonical form *)

Lemma le0_refl a : le0 a a.
Proof. unfold le0. lia. Qed.

Lemma sort_spans_Forall (P : Span -> Prop) l :
  Forall P l -> Forall P (sort_spans l).
Proof.
  rewrite !Forall_forall. intros H s Hs. apply H. apply sort_spans_In.
  exact Hs.
Qed.

Lemma coalesce_canonical :
  forall l cur,
    sp_x0 cur <= sp_x1 cur ->
    Forall (fun s => sp_x0 s <= sp_x1 s) l ->
    Forall (le0 cur) l -> StronglySorted le0 l ->
    canonical (coalesce cur l) /\ Forall (le0 cur) (coalesce cur l).
Proof.
  induction l as [|s r IH]; intros cur Hc Hok Hle Hs.
  - cbn [coalesce]. split.
    + split; [constructor; [exact Hc|constructor]|].
      constructor; constructor.
    + constructor; [apply le0_refl|constructor].
  - inversion Hok as [|? ? Hsok Hrok]; subst.
    inversion Hle as [|? ? Hcs Hcr]; subst.
    inversion Hs as [|? ? Hsr0 Hsr]; subst.
    cbn [coalesce].
    destruct ((sp_y s =? sp_y cur) && (sp_x0 s <=? sp_x1 cur + 1)) eqn:E.
    + apply andb_true_iff in E. destruct E as [Ey Ex].
      apply Z.eqb_eq in Ey. apply Z.leb_le in Ex.
      assert (Hc' : sp_x0 cur <= Z.max (sp_x1 cur) (sp_x1 s)) by lia.
      assert (Hle' : Forall (le0 (mkSpan (sp_y cur) (sp_x0 cur)
                                         (Z.max (sp_x1 cur) (sp_x1 s)))) r).
      { eapply Forall_impl; [|exact Hcr]. intros t Ht.
        unfold le0 in *. cbn [sp_y sp_x0]. exact Ht. }
      destruct (IH (mkSpan (sp_y cur) (sp_x0 cur)
                           (Z.max (sp_x1 cur) (sp_x1 s)))
                   Hc' Hrok Hle' Hsr0) as (Hcan & Hall).
      split; [exact Hcan|]. eapply Forall_impl; [|exact Hall].
      intros t Ht. unfold le0 in *. cbn [sp_y sp_x0] in Ht. exact Ht.
    + destruct (IH s Hsok Hrok Hsr Hsr0) as ((Hok' & Hsort) & Hall).
      assert (Hap : apart cur s).
      { unfold apart, le0 in *. apply andb_false_iff in E.
        destruct E as [E|E]; [apply Z.eqb_neq in E|apply Z.leb_gt in E];
          lia. }
      split.
      * split; [constructor; assumption|].
        constructor; [exact Hsort|].
        eapply Forall_impl; [|exact Hall]. intros t Ht.
        unfold apart, le0 in *. lia.
      * constructor; [apply le0_refl|].
        eapply Forall_impl; [|exact Hall]. intros t Ht.
        eapply le0_trans; eauto.
Qed.

Lemma make_SpanSet_canonical l :
  Forall (fun s => sp_x0 s <= sp_x1 s) l -> canonical (make_SpanSet l).
Proof.
  intros Hok. unfold make_SpanSet.
  pose proof (sort_spans_sorted l) as Hs.
  pose proof (sort_spans_Forall _ l Hok) as Hso.
  destruct (sort_spans l) as [|a r].
  - split; constructor.
  - inversion Hs; subst. inversion Hso; subst.
    apply coalesce_canonical; auto.
Qed.

Lemma canonical_tail a r : canonical (a :: r) -> canonical r.
Proof.
  intros [Hok Hs]. inversion Hok; subst. inversion Hs; subst.
  split; assumption.
Qed.

Lemma canonical_head_pixel a r x y :
  canonical (a :: r) ->
  spans_contain r x y = true ->
  sp_y a < y \/ (sp_y a = y /\ sp_x1 a + 1 < x).
Proof.
  intros [Hok Hs] Hc. inversion Hs as [|? ? _ Hall]; subst.
  apply spans_contain_In in Hc. destruct Hc as (s & Hin & Hc).
  apply span_contains_iff in Hc. rewrite Forall_forall in Hall.
  pose proof (Hall s Hin) as Hap. unfold apart in Hap. lia.
Qed.

Lemma spans_contain_cons a r x y :
  spans_contain (a :: r) x y = span_contains a x y || spans_contain r x y.
Proof. reflexivity. Qed.

Lemma canonical_heads a r1 b r2 :
  canonical (a :: r1) -> canonical (b :: r2) ->
  (forall x y, spans_contain (a :: r1) x y = spans_contain (b :: r2) x y) ->
  sp_y b < sp_y a \/ (sp_y b = sp_y a /\ sp_x0 b <= sp_x0 a).
Proof.
  intros Ha Hb Heq.
  assert (Hoka : sp_x0 a <= sp_x1 a) by (destruct Ha as [H _]; inversion H; auto).
  assert (Hokb : sp_x0 b <= sp_x1 b) by (destruct Hb as [H _]; inversion H; auto).
  assert (Hp : spans_contain (b :: r2) (sp_x0 a) (sp_y a) = true).
  { rewrite <- Heq, spans_contain_cons.
    replace (span_contains a (sp_x0 a) (sp_y a)) with true; [reflexivity|].
    symmetry. apply span_contains_iff. lia. }
  rewrite spans_contain_cons in Hp. apply orb_true_iff in Hp.
  destruct Hp as [Hp|Hp].
  - apply span_contains_iff in Hp. lia.
  - pose proof (canonical_head_pixel b r2 _ _ Hb Hp). lia.
Qed.

Lemma canonical_ends a r1 b r2 :
  canonical (a :: r1) -> canonical (b :: r2) ->
  (forall x y, spans_contain (a :: r1) x y = spans_contain (b :: r2) x y) ->
  sp_y a = sp_y b -> sp_x0 a = sp_x0 b ->
  sp_x1 b <= sp_x1 a.
Proof.
  intros Ha Hb Heq Hy Hx.
  assert (Hoka : sp_x0 a <= sp_x1 a) by (destruct Ha as [H _]; inversion H; auto).
  destruct (Z.le_gt_cases (sp_x1 b) (sp_x1 a)) as [|Hlt]; [assumption|].
  exfalso.
  assert (Hp : spans_contain (a :: r1) (sp_x1 a + 1) (sp_y a) = true).
  { rewrite Heq, spans_contain_cons.
    replace (span_contains b (sp_x1 a + 1) (sp_y a)) with true;
      [reflexivity|].
    symmetry. apply span_contains_iff. lia. }
  rewrite spans_contain_cons in Hp. apply orb_true_iff in Hp.
  destruct Hp as [Hp|Hp].
  - apply span_contains_iff in Hp. lia.
  - pose proof (canonical_head_pixel a r1 _ _ Ha Hp). lia.
Qed.

Lemma canonical_unique :
  forall l1 l2,
    canonical l1 -> canonical l2 ->
    (forall x y, spans_contain l1 x y = spans_contain l2 x y) ->
    l1 = l2.
Proof.
  induction l1 as [|a r1 IH]; intros [|b r2] H1 H2 Heq.
  - reflexivity.
  - exfalso. destruct H2 as [Hok _]. inversion Hok; subst.
    specialize (Heq (sp_x0 b) (sp_y b)). rewrite spans_contain_cons in Heq.
    replace (span_contains b (sp_x0 b) (sp_y b)) with true in Heq;
      [discriminate|].
    symmetry. apply span_contains_iff. lia.
  - exfalso. destruct H1 as [Hok _]. inversion Hok; subst.
    specialize (Heq (sp_x0 a) (sp_y a)). rewrite spans_contain_cons in Heq.
    replace (span_contains a (sp_x0 a) (sp_y a)) with true in Heq;
      [discriminate|].
    symmetry. apply span_contains_iff. lia.
  - pose proof (canonical_heads a r1 b r2 H1 H2 Heq) as Hab.
    pose proof (canonical_heads b r2 a r1 H2 H1
                  (fun x y => eq_sym (Heq x y))) as Hba.
    assert (Hy : sp_y a = sp_y b) by lia.
    assert (Hx : sp_x0 a = sp_x0 b) by lia.
    pose proof (canonical_ends a r1 b r2 H1 H2 Heq Hy Hx).
    pose proof (canonical_ends b r2 a r1 H2 H1
                  (fun x y => eq_sym (Heq x y)) (eq_sym Hy) (eq_sym Hx)).
    assert (E : a = b).
    { destruct a as [ay ax0 ax1], b as [by_ bx0 bx1].
      cbn [sp_y sp_x0 sp_x1] in *. f_equal; lia. }
    subst b. f_equal.
    apply IH; [eapply canonical_tail; eauto|eapply canonical_tail; eauto|].
    intros x y. specialize (Heq x y). rewrite !spans_contain_cons in Heq.
    destruct (span_contains a x y) eqn:Ea; [|exact Heq].
    apply span_contains_iff in Ea.
    destruct (spans_contain r1 x y) eqn:E1.
    { pose proof (canonical_head_pixel a r1 _ _ H1 E1). lia. }
    destruct (spans_contain r2 x y) eqn:E2; [|reflexivity].
    pose proof (canonical_head_pixel a r2 _ _ H2 E2). lia.
Qed.

(** ** The mirror image of a span list *)

Lemma StronglySorted_snoc {T : Type} (R : T -> T -> Prop) (l : list T) x :
  StronglySorted R l -> Forall (fun y => R y x) l ->
  StronglySorted R (l ++ [x]).
Proof.
  induction l as [|a l IH]; intros Hs Hall.
  - repeat constructor.
  - inversion Hs; subst. inversion Hall; subst. cbn [app].
    constructor; [apply IH; assumption|].
    apply Forall_app. split; [assumption|repeat constructor; assumption].
Qed.

Lemma StronglySorted_rev_map {T : Type} (R : T -> T -> Prop) (f : T -> T)
      (l : list T) :
  (forall a b, R a b -> R (f b) (f a)) ->
  StronglySorted R l -> StronglySorted R (rev (map f l)).
Proof.
  intros Hf. induction l as [|a l IH]; intros Hs; [constructor|].
  inversion Hs as [|? ? Hl Hall]; subst. cbn [map rev].
  apply StronglySorted_snoc; [apply IH; exact Hl|].
  rewrite Forall_forall in *. intros y Hy.
  apply in_rev in Hy. apply in_map_iff in Hy.
  destruct Hy as (b & <- & Hb). apply Hf. apply Hall. exact Hb.
Qed.

Lemma mirror_span_contains cx cy s x y :
  span_contains (mirror_span cx cy s) x y
  = span_contains s (2 * cx - x) (2 * cy - y).
Proof.
  apply eq_true_iff_eq. rewrite !span_contains_iff.
  unfold mirror_span. cbn [sp_y sp_x0 sp_x1]. lia.
Qed.

Lemma mirror_rev_contains cx cy l x y :
  spans_contain (rev (map (mirror_span cx cy) l)) x y
  = spans_contain l (2 * cx - x) (2 * cy - y).
Proof.
  apply eq_true_iff_eq. rewrite !spans_contain_In. split.
  - intros (s & Hin & Hc). apply in_rev in Hin. apply in_map_iff in Hin.
    destruct Hin as (t & <- & Ht). exists t. split; [exact Ht|].
    rewrite <- mirror_span_contains. exact Hc.
  - intros (t & Ht & Hc). exists (mirror_span cx cy t). split.
    + apply -> in_rev. apply in_map. exact Ht.
    + rewrite mirror_span_contains. exact Hc.
Qed.

Lemma mirror_rev_canonical cx cy l :
  canonical l -> canonical (rev (map (mirror_span cx cy) l)).
Proof.
  intros [Hok Hs]. split.
  - rewrite Forall_forall in *. intros s Hin. apply in_rev in Hin.
    apply in_map_iff in Hin. destruct Hin as (t & <- & Ht).
    pose proof (Hok t Ht). unfold mirror_span. cbn [sp_x0 sp_x1]. lia.
  - apply StronglySorted_rev_map; [|exact Hs].
    intros a b Hab. unfold apart, mirror_span in *.
    cbn [sp_y sp_x0 sp_x1]. lia.
Qed.

(** A canonical span list whose pixels are symmetric about (cx, cy) reads
    the same backwards, span by span mirrored. *)
Lemma symmetric_spans_mirrored cx cy l :
  canonical l ->
  (forall x y, spans_contain l x y
               = spans_contain l (2 * cx - x) (2 * cy - y)) ->
  forall i, 0 <= i < Z.of_nat (length l) ->
    spanZ l (Z.of_nat (length l) - 1 - i) = mirror_span cx cy (spanZ l i).
Proof.
  intros Hcan Hsym i Hi.
  assert (E : rev (map (mirror_span cx cy) l) = l).
  { apply canonical_unique; [apply mirror_rev_canonical; exact Hcan
                            |exact Hcan|].
    intros x y. rewrite mirror_rev_contains. symmetry. apply Hsym. }
  unfold spanZ.
  remember (Z.to_nat (Z.of_nat (length l) - 1 - i)) as k eqn:Ek.
  transitivity (nth k (rev (map (mirror_span cx cy) l)) dflt_span);
    [rewrite E; reflexivity|].
  rewrite rev_nth by (rewrite length_map; lia).
  rewrite length_map.
  replace (length l - S k)%nat with (Z.to_nat i) by lia.
  rewrite (nth_indep _ dflt_span (mirror_span cx cy dflt_span))
    by (rewrite length_map; lia).
  apply map_nth.
Qed.

(** ** The spans emitted by the symmetrizer are not empty *)

Ltac open_bind H :=
  match type of H with
  | bind ?m _ = Ok _ =>
      let E := fresh "E" in
      destruct m eqn:E; cbn [bind] in H; [|discriminate H ..]
  end.

Lemma sym_loop_spans_ok spans cx cy :
  forall fuel fwd back dy tmp out,
    sym_loop spans cx cy fuel fwd back dy tmp = Ok out ->
    Forall (fun s => sp_x0 s <= sp_x1 s) tmp ->
    Forall (fun s => sp_x0 s <= sp_x1 s) out.
Proof.
  induction fuel as [|fuel IH]; intros fwd back dy tmp out H Hok;
    [discriminate|].
  cbn [sym_loop] in H.
  destruct (notDone spans fwd && notDone spans back);
    [|inversion H; subst; exact Hok].
  do 5 open_bind H. cbv zeta in H.
  destruct (it_eqb (snd a3) a2 || it_eqb (fst a3) a1);
    [apply (IH _ _ _ _ _ H Hok)|].
  do 4 open_bind H.
  assert (Hok' : Forall (fun s => sp_x0 s <= sp_x1 s)
                   (if Z.max a4 a5 <=? Z.min a6 a7
                    then tmp ++ [mkSpan (cy + dy) (cx + Z.max a4 a5)
                                        (cx + Z.min a6 a7);
                                 mkSpan (cy - dy) (cx - Z.min a6 a7)
                                        (cx - Z.max a4 a5)]
                    else tmp)).
  { destruct (Z.leb_spec (Z.max a4 a5) (Z.min a6 a7)); [|exact Hok].
    apply Forall_app. split; [exact Hok|].
    repeat constructor; cbn [sp_x0 sp_x1]; lia. }
  destruct (it_eqb _ _ || it_eqb _ _); apply (IH _ _ _ _ _ H Hok').
Qed.

(** ** The bounding box of a span list inside a box *)

Lemma box_include_inside B b x y :
  box_contains B b = true -> box_contains_pt B x y = true ->
  box_contains B (box_include b x y) = true.
Proof.
  intros Hb Hp. apply box_contains_pt_iff in Hp.
  unfold box_contains, box_include in *.
  destruct (isEmpty b) eqn:Eb.
  - unfold isEmpty. cbn [minX minY maxX maxY].
    apply orb_true_iff. right. rewrite !andb_true_iff, !Z.leb_le. lia.
  - cbn [orb] in Hb. rewrite !andb_true_iff, !Z.leb_le in Hb.
    apply orb_true_iff. right. cbn [minX minY maxX maxY].
    rewrite !andb_true_iff, !Z.leb_le. lia.
Qed.

Lemma spans_bbox_inside B l :
  (forall s, In s l ->
     box_contains_pt B (sp_x0 s) (sp_y s) = true /\
     box_contains_pt B (sp_x1 s) (sp_y s) = true) ->
  box_contains B (spans_bbox l) = true.
Proof.
  intros H. unfold spans_bbox.
  apply (fold_left_inv (fun b => box_contains B b = true)).
  - intros b s Hin Hb. destruct (H s Hin) as [H0 H1].
    apply box_include_inside; [apply box_include_inside|]; assumption.
  - reflexivity.
Qed.

(** ** The loop over the span pairs *)

Section TemplateProof.
Context {A : PixelArith}.
Variable img : MaskedImage.
Variable minZero : bool.
Variables cx cy : Z.
Variable spans : SpanSet.
Variable Tb : Box2I.

Hypothesis Hcan : canonical spans.
Hypothesis Hmir :
  forall i, 0 <= i < Z.of_nat (length spans) ->
    spanZ spans (Z.of_nat (length spans) - 1 - i)
    = mirror_span cx cy (spanZ spans i).
Hypothesis Himg :
  forall x y, spans_contain spans x y = true ->
              box_contains_pt (mi_bbox img) x y = true.
Hypothesis HTb :
  forall x y, spans_contain spans x y = true ->
              box_contains_pt Tb x y = true.

Lemma mirror_min_mirror T x y :
  mirror_min img minZero cx cy T x y ->
  mirror_min img minZero cx cy T (2 * cx - x) (2 * cy - y).
Proof.
  unfold mirror_min.
  replace (2 * cx - (2 * cx - x)) with x by lia.
  replace (2 * cy - (2 * cy - y)) with y by lia.
  intros [E [H|H]]; (split; [symmetry; exact E|]); rewrite <- E;
    [right|left]; exact H.
Qed.

Lemma im_set_bbox {T : Type} (im : Image T) x y v :
  im_bbox (im_set im x y v) = im_bbox im.
Proof. reflexivity. Qed.

(** The two stores of one step of the inner loop. *)
Lemma write_pair_spec T fx fy :
  let pix := template_value minZero (mi_image img fx fy)
               (mi_image img (2 * cx - fx) (2 * cy - fy)) in
  let T' := im_set (im_set T fx fy pix) (2 * cx - fx) (2 * cy - fy) pix in
  mirror_min img minZero cx cy T' fx fy /\
  (forall x y, mirror_min img minZero cx cy T x y ->
               mirror_min img minZero cx cy T' x y) /\
  (forall x y, x <> fx \/ y <> fy ->
               x <> 2 * cx - fx \/ y <> 2 * cy - fy ->
               im_pix T' x y = im_pix T x y).
Proof.
  intros pix T'.
  assert (Hf : im_pix T' fx fy = pix).
  { unfold T', im_set. cbn [im_pix]. rewrite !Z.eqb_refl. cbn [andb].
    destruct ((fx =? 2 * cx - fx) && (fy =? 2 * cy - fy)); reflexivity. }
  assert (Hb : im_pix T' (2 * cx - fx) (2 * cy - fy) = pix)
    by apply im_set_same.
  assert (Ho : forall x y, x <> fx \/ y <> fy ->
                 x <> 2 * cx - fx \/ y <> 2 * cy - fy ->
                 im_pix T' x y = im_pix T x y).
  { intros x y H1 H2. unfold T'.
    rewrite !im_set_other by (apply pair_neq; assumption). reflexivity. }
  assert (Hw : mirror_min img minZero cx cy T' fx fy).
  { split; [rewrite Hf, Hb; reflexivity|]. left. exact Hf. }
  split; [exact Hw|]. split; [|exact Ho].
  intros x y HW.
  destruct (pixel_eq_dec x y fx fy) as [[-> ->]|E1]; [exact Hw|].
  destruct (pixel_eq_dec x y (2 * cx - fx) (2 * cy - fy)) as [[-> ->]|E2];
    [apply mirror_min_mirror; exact Hw|].
  unfold mirror_min in *. rewrite !Ho by lia. exact HW.
Qed.

Lemma template_row_spec (s : Span) T :
  In s spans ->
  In (mirror_span cx cy s) spans ->
  im_bbox T = Tb ->
  (forall x y, spans_contain spans x y = false -> im_pix T x y = p0) ->
  exists T',
    template_row (getImage img) minZero s (mirror_span cx cy s) T = Ok T' /\
    im_bbox T' = Tb /\
    (forall x y, spans_contain spans x y = false -> im_pix T' x y = p0) /\
    (forall x y, mirror_min img minZero cx cy T x y ->
                 mirror_min img minZero cx cy T' x y) /\
    (forall x y, span_contains s x y = true ->
                 mirror_min img minZero cx cy T' x y).
Proof.
  intros Hs Hm Hbox Hzero. unfold template_row. cbv zeta.
  assert (Hok : sp_x0 s <= sp_x1 s).
  { destruct Hcan as [Hok _]. rewrite Forall_forall in Hok. auto. }
  assert (Hfin : forall x, sp_x0 s <= x <= sp_x1 s ->
                   spans_contain spans x (sp_y s) = true).
  { intros x Hx. apply spans_contain_In. exists s. split; [exact Hs|].
    apply span_contains_iff. lia. }
  assert (Hbin : forall x, sp_x0 s <= x <= sp_x1 s ->
                   spans_contain spans (2 * cx - x) (2 * cy - sp_y s) = true).
  { intros x Hx. apply spans_contain_In. exists (mirror_span cx cy s).
    split; [exact Hm|]. rewrite mirror_span_contains.
    apply span_contains_iff. lia. }
  destruct (zseq_foldM_inv
              (fun k T' =>
                 im_bbox T' = Tb /\
                 (forall x y, spans_contain spans x y = false ->
                              im_pix T' x y = p0) /\
                 (forall x y, mirror_min img minZero cx cy T x y ->
                              mirror_min img minZero cx cy T' x y) /\
                 (forall x, sp_x0 s <= x < sp_x0 s + k ->
                            mirror_min img minZero cx cy T' x (sp_y s)))
              (fun target k =>
                 pixf <- im_read (getImage img) (sp_x0 s + k) (sp_y s) ;;
                 pixb <- im_read (getImage img)
                           (sp_x1 (mirror_span cx cy s) - k)
                           (sp_y (mirror_span cx cy s)) ;;
                 target <- im_write target (sp_x0 s + k) (sp_y s)
                             (if minZero then pmax (pmin pixf pixb) p0
                              else pmin pixf pixb) ;;
                 im_write target (sp_x1 (mirror_span cx cy s) - k)
                          (sp_y (mirror_span cx cy s))
                          (if minZero then pmax (pmin pixf pixb) p0
                           else pmin pixf pixb))
              0 (sp_x1 s - sp_x0 s + 1) ltac:(lia) T)
    as (T' & E & Hb' & Hz' & Hold & Hnew).
  - split; [exact Hbox|]. split; [exact Hzero|]. split; [auto|].
    intros x Hx. lia.
  - intros k T1 Hk (Hb1 & Hz1 & Hold1 & Hnew1). cbn [Z.add].
    unfold mirror_span. cbn [sp_y sp_x0 sp_x1].
    replace (2 * cx - sp_x0 s - k) with (2 * cx - (sp_x0 s + k)) by lia.
    set (fx := sp_x0 s + k).
    assert (Hfx : sp_x0 s <= fx <= sp_x1 s) by (unfold fx; lia).
    unfold im_read, im_write. cbn [getImage im_bbox im_pix].
    rewrite (Himg _ _ (Hfin fx Hfx)), (Himg _ _ (Hbin fx Hfx)).
    cbn [bind]. rewrite Hb1, (HTb _ _ (Hfin fx Hfx)). cbn [bind].
    rewrite im_set_bbox, Hb1, (HTb _ _ (Hbin fx Hfx)).
    fold (template_value minZero (mi_image img fx (sp_y s))
            (mi_image img (2 * cx - fx) (2 * cy - sp_y s))).
    destruct (write_pair_spec T1 fx (sp_y s)) as (Hw & Hkeep & Hother).
    eexists. split; [reflexivity|].
    split; [rewrite !im_set_bbox; exact Hb1|]. split; [|split].
    + intros x y Hout.
      destruct (pixel_eq_dec x y fx (sp_y s)) as [[-> ->]|E1];
        [rewrite (Hfin fx Hfx) in Hout; discriminate|].
      destruct (pixel_eq_dec x y (2 * cx - fx) (2 * cy - sp_y s))
        as [[-> ->]|E2];
        [rewrite (Hbin fx Hfx) in Hout; discriminate|].
      rewrite Hother by assumption. apply Hz1. exact Hout.
    + intros x y HW. apply Hkeep. apply Hold1. exact HW.
    + intros x Hx. destruct (Z.eq_dec x fx) as [->|Hne].
      * exact Hw.
      * apply Hkeep. apply Hnew1. unfold fx in Hne. lia.
  - exists T'. split; [exact E|]. split; [exact Hb'|].
    split; [exact Hz'|]. split; [exact Hold|].
    intros x y Hc. apply span_contains_iff in Hc. destruct Hc as [Hx ->].
    apply Hnew. lia.
Qed.

Lemma spanZ_In i :
  0 <= i < Z.of_nat (length spans) -> In (spanZ spans i) spans.
Proof. intros Hi. unfold spanZ. apply nth_In. lia. Qed.

Lemma template_loop_spec :
  forall fuel i T,
    0 <= i ->
    Z.of_nat (length spans) - 2 * i <= Z.of_nat fuel ->
    template_inv img minZero cx cy spans Tb i T ->
    exists T',
      template_loop fuel (getImage img) minZero spans i
                    (Z.of_nat (length spans) - 1 - i) T = Ok T' /\
      im_bbox T' = Tb /\
      (forall x y, spans_contain spans x y = false -> im_pix T' x y = p0) /\
      (forall x y, spans_contain spans x y = true ->
                   mirror_min img minZero cx cy T' x y).
Proof.
  assert (Hdone : forall i T,
             0 <= i -> Z.of_nat (length spans) - 1 - i < i ->
             template_inv img minZero cx cy spans Tb i T ->
             im_bbox T = Tb /\
             (forall x y, spans_contain spans x y = false ->
                          im_pix T x y = p0) /\
             (forall x y, spans_contain spans x y = true ->
                          mirror_min img minZero cx cy T x y)).
  { intros i T Hi Hlt (Hb & Hz & Hw). split; [exact Hb|].
    split; [exact Hz|]. intros x y Hc.
    apply spans_contain_iff in Hc. destruct Hc as (a & Ha & Hc).
    apply (Hw a x y); [lia|exact Hc]. }
  induction fuel as [|fuel IH]; intros i T Hi Hfuel HI.
  - exists T. split; [reflexivity|]. apply (Hdone i T Hi); [lia|exact HI].
  - cbn [template_loop].
    destruct (Z.leb_spec i (Z.of_nat (length spans) - 1 - i)) as [Hle|Hgt].
    + rewrite !span_at_ok by lia. cbn [bind].
      rewrite (Hmir i) by lia.
      destruct HI as (Hb & Hz & Hw).
      destruct (template_row_spec (spanZ spans i) T)
        as (T1 & E1 & Hb1 & Hz1 & Hold & Hnew).
      * apply spanZ_In. lia.
      * rewrite <- (Hmir i) by lia. apply spanZ_In. lia.
      * exact Hb.
      * exact Hz.
      * rewrite E1. cbn [bind].
        replace (Z.of_nat (length spans) - 1 - i - 1)
          with (Z.of_nat (length spans) - 1 - (i + 1)) by lia.
        apply IH; [lia|lia|].
        split; [exact Hb1|]. split; [exact Hz1|].
        intros a x y Ha Hc.
        destruct (Z.eq_dec a i) as [->|Hai]; [apply Hnew; exact Hc|].
        destruct (Z.eq_dec a (Z.of_nat (length spans) - 1 - i)) as [->|Haj].
        -- rewrite (Hmir i) in Hc by lia.
           rewrite mirror_span_contains in Hc.
           apply Hnew in Hc. apply mirror_min_mirror in Hc.
           replace (2 * cx - (2 * cx - x)) with x in Hc by lia.
           replace (2 * cy - (2 * cy - y)) with y in Hc by lia.
           exact Hc.
        -- apply Hold. apply (Hw a x y); [lia|exact Hc].
    + exists T. split; [reflexivity|]. apply (Hdone i T Hi); [lia|exact HI].
Qed.
End TemplateProof.

(** ** The template of a peak inside the footprint *)

Lemma symmetrize_canonical F cx cy G :
  symmetrizeFootprint F cx cy = Ok (Some G) ->
  canonical (fp_spans G) /\ fp_peaks G = [].
Proof.
  unfold symmetrizeFootprint.
  destruct (find_peakspan (fp_spans F) cx cy) as [[pk|]| | |];
    cbn [bind]; try discriminate.
  destruct (sym_loop _ _ _ _ _ _ _ _) as [tmp| | |] eqn:E; cbn [bind];
    try discriminate.
  intros H. inversion H; subst. cbn [fp_spans fp_peaks].
  split; [|reflexivity]. apply make_SpanSet_canonical.
  apply (sym_loop_spans_ok _ _ _ _ _ _ _ _ _ E). constructor.
Qed.

Lemma any_edge_none (mask : Image Z) (edgebit : Z) :
  forall pix,
    (forall x y, In (x, y) pix ->
       box_contains_pt (im_bbox mask) x y = true /\
       Z.land (im_pix mask x y) edgebit = 0) ->
    any_edge mask edgebit pix = Ok false.
Proof.
  induction pix as [|[x y] r IH]; intros H; [reflexivity|].
  cbn [any_edge]. destruct (H x y (or_introl eq_refl)) as [Hin Hz].
  unfold im_read. rewrite Hin. cbn [bind]. rewrite Hz. cbn [Z.eqb negb].
  apply IH. intros x' y' H'. apply H. right. exact H'.
Qed.

(** The symmetric footprint of a peak inside [F] and the template the
    loop over its span pairs builds. *)
Lemma symmetric_template_loop {A : PixelArith}
      (img : MaskedImage) (F : Footprint) (cx cy : Z) (minZero : bool) :
  spanset_ok (fp_spans F) = true ->
  foot_contains F cx cy = true ->
  box_contains (mi_bbox img) (getBBox F) = true ->
  exists T G,
    symmetrizeFootprint F cx cy = Ok (Some G) /\
    (forall x y, foot_contains G x y = true <->
       (foot_contains F x y = true /\
        foot_contains F (2 * cx - x) (2 * cy - y) = true)) /\
    box_contains (mi_bbox img) (getBBox G) = true /\
    template_loop (length (fp_spans G)) (getImage img) minZero (fp_spans G)
                  0 (Z.of_nat (length (fp_spans G)) - 1)
                  (im_const (getBBox G) p0) = Ok T /\
    im_bbox T = getBBox G /\
    (forall x y, foot_contains G x y = false -> im_pix T x y = p0) /\
    (forall x y, foot_contains G x y = true ->
                 mirror_min img minZero cx cy T x y).
Proof.
  intros Hok Hpk Hbox.
  destruct (symmetrize_inside F cx cy Hok Hpk) as (G & EG & Hexact).
  destruct (symmetrize_canonical F cx cy G EG) as (Hcan & Hpeaks).
  assert (HGF : forall x y, foot_contains G x y = true ->
                            foot_contains F x y = true).
  { intros x y H. apply Hexact in H. tauto. }
  assert (HGimg : forall x y, spans_contain (fp_spans G) x y = true ->
                              box_contains_pt (mi_bbox img) x y = true).
  { intros x y H. eapply box_contains_pt_sub; [exact Hbox|].
    apply foot_contains_bbox. apply HGF. exact H. }
  assert (HGbox : box_contains (mi_bbox img) (getBBox G) = true).
  { apply spans_bbox_inside. intros s Hs.
    assert (Hsok : sp_x0 s <= sp_x1 s).
    { destruct Hcan as [H _]. rewrite Forall_forall in H. auto. }
    split; apply HGimg; apply spans_contain_In; exists s;
      (split; [exact Hs|]); apply span_contains_iff; lia. }
  assert (Hsym : forall x y,
             spans_contain (fp_spans G) x y
             = spans_contain (fp_spans G) (2 * cx - x) (2 * cy - y)).
  { intros x y. apply eq_true_iff_eq.
    change (foot_contains G x y = true <->
            foot_contains G (2 * cx - x) (2 * cy - y) = true).
    rewrite !Hexact.
    replace (2 * cx - (2 * cx - x)) with x by lia.
    replace (2 * cy - (2 * cy - y)) with y by lia. tauto. }
  pose proof (symmetric_spans_mirrored cx cy (fp_spans G) Hcan Hsym) as Hmir.
  destruct (template_loop_spec img minZero cx cy (fp_spans G) (getBBox G)
              Hcan Hmir HGimg
              (fun x y H => foot_contains_bbox G x y H)
              (length (fp_spans G)) 0 (im_const (getBBox G) p0))
    as (T & ET & HTb & HTz & HTw).
  { lia. }
  { lia. }
  { split; [reflexivity|]. split; [reflexivity|].
    intros a x y Ha. lia. }
  exists T, G. split; [exact EG|]. split; [exact Hexact|].
  split; [exact HGbox|]. split.
  - replace (Z.of_nat (length (fp_spans G)) - 1)
      with (Z.of_nat (length (fp_spans G)) - 1 - 0) by lia.
    exact ET.
  - split; [exact HTb|]. split; [exact HTz|exact HTw].
Qed.

(** X23.  [buildSymmetricTemplate] for a footprint [F] (a valid span set)
    inside the image and a peak inside [F], when the edge is not patched
    ([patchEdge] is false, or no pixel of [F] carries the EDGE bit): the
    call returns the footprint [G] of [symmetrizeFootprint] and a template
    over the bounding box of [G], [patchedEdges] cleared.  Every pixel of
    [G] and its mirror image about the peak hold the same value, the
    minimum of the two input pixels (raised to 0 under [minZero]), the two
    taken in one order or the other; the pixels outside [G] are 0.  The
    second [LengthError] is not raised. *)
Theorem buildSymmetricTemplate_min_of_mirror {A : PixelArith}
        (img : MaskedImage) (F : Footprint) (cx cy : Z) (sigma1 : dbl)
        (minZero patchEdge : bool) (edgebit : Z) :
  spanset_ok (fp_spans F) = true ->
  foot_contains F cx cy = true ->
  box_contains (mi_bbox img) (getBBox F) = true ->
  (patchEdge = true ->
   forall x y, foot_contains F x y = true ->
               Z.land (mi_mask img x y) edgebit = 0) ->
  exists T G,
    buildSymmetricTemplate img F cx cy sigma1 minZero patchEdge edgebit
    = Ok (Some T, Some G, false) /\
    symmetrizeFootprint F cx cy = Ok (Some G) /\
    im_bbox T = getBBox G /\
    (forall x y,
       foot_contains G x y = true ->
       im_pix T x y = im_pix T (2 * cx - x) (2 * cy - y) /\
       (im_pix T x y
        = template_value minZero (mi_image img x y)
                         (mi_image img (2 * cx - x) (2 * cy - y)) \/
        im_pix T x y
        = template_value minZero (mi_image img (2 * cx - x) (2 * cy - y))
                         (mi_image img x y))) /\
    (forall x y, foot_contains G x y = false -> im_pix T x y = p0).
Proof.
  intros Hok Hpk Hbox Hedge.
  destruct (symmetric_template_loop img F cx cy minZero Hok Hpk Hbox)
    as (T & G & EG & Hexact & HGbox & ET & HTb & HTz & HTw).
  exists T, G. split.
  - unfold buildSymmetricTemplate. rewrite Hbox. cbn [negb].
    rewrite EG. cbn [bind]. rewrite HGbox. cbn [negb].
    assert (Etouch : (if patchEdge
                      then any_edge (getMask img) edgebit
                             (spans_pixels (fp_spans G))
                      else Ok false) = Ok false).
    { destruct patchEdge; [|reflexivity]. apply any_edge_none.
      intros x y Hin. apply spans_pixels_In in Hin. split.
      - eapply box_contains_pt_sub; [exact HGbox|].
        apply foot_contains_bbox. exact Hin.
      - apply (Hedge eq_refl). apply Hexact. exact Hin. }
    rewrite Etouch. cbn [bind]. rewrite ET. reflexivity.
  - split; [exact EG|]. split; [exact HTb|]. split.
    + intros x y Hin. apply (HTw x y Hin).
    + exact HTz.
Qed.

Lemma buildSymmetricTemplate_min_of_mirror_witness :
  exists T G,
    buildSymmetricTemplate x_template_img x_template_foot 1 0 (Qc_of_Z 0)
                           true false 16
    = Ok (Some T, Some G, false) /\
    symmetrizeFootprint x_template_foot 1 0 = Ok (Some G) /\
    im_bbox T = getBBox G /\
    (forall x y,
       foot_contains G x y = true ->
       im_pix T x y = im_pix T (2 * 1 - x) (2 * 0 - y) /\
       (im_pix T x y
        = template_value true (mi_image x_template_img x y)
                         (mi_image x_template_img (2 * 1 - x) (2 * 0 - y)) \/
        im_pix T x y
        = template_value true
                         (mi_image x_template_img (2 * 1 - x) (2 * 0 - y))
                         (mi_image x_template_img x y))) /\
    (forall x y, foot_contains G x y = false -> im_pix T x y = p0).
Proof.
  apply (@buildSymmetricTemplate_min_of_mirror ExactArith x_template_img
           x_template_foot 1 0 (Qc_of_Z 0) true false 16).
  - reflexivity.
  - reflexivity.
  - reflexivity.
  - discriminate.
Defined.

(** ** The patched edge *)

Lemma any_edge_spec (mask : Image Z) (edgebit : Z) :
  forall pix,
    (forall x y, In (x, y) pix ->
                 box_contains_pt (im_bbox mask) x y = true) ->
    any_edge mask edgebit pix
    = Ok (existsb (fun p => negb (Z.land (im_pix mask (fst p) (snd p))
                                         edgebit =? 0)) pix).
Proof.
  induction pix as [|[x y] r IH]; intros H; [reflexivity|].
  cbn [any_edge existsb fst snd]. unfold im_read.
  rewrite (H x y (or_introl eq_refl)). cbn [bind].
  destruct (negb (Z.land (im_pix mask x y) edgebit =? 0)); [reflexivity|].
  cbn [orb]. apply IH. intros x' y' H'. apply H. right. exact H'.
Qed.

Lemma grow_bbox_spec (cx cy : Z) (imbb : Box2I) :
  forall ospans bb,
    (forall x y, box_contains_pt bb x y = true ->
                 box_contains_pt (grow_bbox cx cy imbb ospans bb) x y = true) /\
    (forall sp, In sp ospans ->
       (box_contains_pt imbb (cx + (cx - sp_x0 sp)) (cy + (cy - sp_y sp))
        = false ->
        box_contains_pt (grow_bbox cx cy imbb ospans bb)
                        (sp_x0 sp) (sp_y sp) = true) /\
       (box_contains_pt imbb (cx + (cx - sp_x1 sp)) (cy + (cy - sp_y sp))
        = false ->
        box_contains_pt (grow_bbox cx cy imbb ospans bb)
                        (sp_x1 sp) (sp_y sp) = true)).
Proof.
  unfold grow_bbox.
  induction ospans as [|a l IH]; intros bb; cbn [fold_left].
  - split; [auto|intros sp []].
  - cbv zeta.
    match goal with
    | |- context [fold_left ?f l ?b1] =>
        destruct (IH b1) as (Hm & Hs); set (b' := b1) in *
    end.
    assert (Hbb : forall x y, box_contains_pt bb x y = true ->
                              box_contains_pt b' x y = true).
    { intros x y H. unfold b'.
      destruct (negb (box_contains_pt imbb (cx + (cx - sp_x1 a)) _));
        [apply box_include_mono|];
        (destruct (negb (box_contains_pt imbb (cx + (cx - sp_x0 a)) _));
         [apply box_include_mono|]); exact H. }
    split.
    + intros x y H. apply Hm. apply Hbb. exact H.
    + intros sp [<-|Hin]; [|apply Hs; exact Hin].
      split; intros Hout; apply Hm; unfold b'.
      * rewrite Hout. cbn [negb].
        destruct (negb (box_contains_pt imbb (cx + (cx - sp_x1 a)) _));
          [apply box_include_mono|]; apply box_include_self.
      * rewrite Hout. cbn [negb]. apply box_include_self.
Qed.

Lemma patched_part_pixels cx cy imbb sp x y :
  spans_contain (patched_part cx cy imbb sp) x y
  = patched_pixel cx cy imbb sp x y.
Proof.
  unfold patched_part, patched_pixel. cbv zeta.
  replace (cx + (cx - sp_x0 sp)) with (2 * cx - sp_x0 sp) by lia.
  replace (cx + (cx - sp_x1 sp)) with (2 * cx - sp_x1 sp) by lia.
  replace (cy + (cy - sp_y sp)) with (2 * cy - sp_y sp) by lia.
  destruct (box_contains_pt imbb (2 * cx - sp_x0 sp) (2 * cy - sp_y sp))
    eqn:E0;
    destruct (box_contains_pt imbb (2 * cx - sp_x1 sp) (2 * cy - sp_y sp))
      eqn:E1; cbn [andb negb orb].
  - (* both ends mirrored inside *)
    symmetry. apply not_true_is_false. intros H.
    apply andb_true_iff in H. destruct H as [Hc Hm].
    apply span_contains_iff in Hc. destruct Hc as [Hx ->].
    rewrite orb_false_r in Hm. apply negb_true_iff in Hm.
    apply box_contains_pt_iff in E0, E1.
    apply not_true_iff_false in Hm. apply Hm.
    apply box_contains_pt_iff. lia.
  - unfold spans_contain. cbn [existsb]. rewrite orb_false_r.
    apply eq_true_iff_eq. rewrite andb_true_iff, orb_false_r.
    rewrite negb_true_iff, !span_contains_iff. cbn [sp_y sp_x0 sp_x1].
    apply box_contains_pt_iff in E0. apply not_true_iff_false in E1.
    rewrite box_contains_pt_iff in E1.
    rewrite <- not_true_iff_false, box_contains_pt_iff.
    split; intros H.
    + destruct H as [Hx ->]. lia.
    + destruct H as [[Hx ->] Hm]. lia.
  - unfold spans_contain. cbn [existsb]. rewrite orb_false_r.
    apply eq_true_iff_eq. rewrite andb_true_iff, orb_false_r.
    rewrite negb_true_iff, !span_contains_iff. cbn [sp_y sp_x0 sp_x1].
    apply box_contains_pt_iff in E1. apply not_true_iff_false in E0.
    rewrite box_contains_pt_iff in E0.
    rewrite <- not_true_iff_false, box_contains_pt_iff.
    split; intros H.
    + destruct H as [Hx ->]. lia.
    + destruct H as [[Hx ->] Hm]. lia.
  - unfold spans_contain. cbn [existsb]. rewrite orb_false_r, orb_true_r.
    rewrite andb_true_r. destruct sp; reflexivity.
Qed.

Section PatchProof.
Context {A : PixelArith}.
Variable img : MaskedImage.
Variables cx cy : Z.
Variable F : Footprint.
Variable bb : Box2I.

Hypothesis HFimg :
  forall x y, foot_contains F x y = true ->
              box_contains_pt (mi_bbox img) x y = true.
Hypothesis Hpeak_F : box_contains_pt (getBBox F) cx cy = true.
Hypothesis Hpeak_bb : box_contains_pt bb cx cy = true.
Hypothesis Hgrown :
  forall sp, In sp (fp_spans F) ->
    (box_contains_pt (getBBox F) (cx + (cx - sp_x0 sp)) (cy + (cy - sp_y sp))
     = false ->
     box_contains_pt bb (sp_x0 sp) (sp_y sp) = true) /\
    (box_contains_pt (getBBox F) (cx + (cx - sp_x1 sp)) (cy + (cy - sp_y sp))
     = false ->
     box_contains_pt bb (sp_x1 sp) (sp_y sp) = true).

(** The columns of a patched part lie in the span it comes from and in
    the grown box. *)
Lemma patched_part_inside sp s' x :
  In sp (fp_spans F) ->
  In s' (patched_part cx cy (getBBox F) sp) ->
  sp_x0 s' <= x <= sp_x1 s' ->
  sp_y s' = sp_y sp /\ sp_x0 sp <= x <= sp_x1 sp /\
  box_contains_pt bb x (sp_y sp) = true.
Proof.
  intros Hsp Hs' Hx. destruct (Hgrown sp Hsp) as [Hg0 Hg1].
  unfold patched_part in Hs'. cbv zeta in Hs'.
  apply box_contains_pt_iff in Hpeak_F, Hpeak_bb.
  destruct (box_contains_pt (getBBox F) (cx + (cx - sp_x0 sp))
                            (cy + (cy - sp_y sp))) eqn:E0;
    destruct (box_contains_pt (getBBox F) (cx + (cx - sp_x1 sp))
                              (cy + (cy - sp_y sp))) eqn:E1;
    cbn [andb] in Hs'; [destruct Hs'| | |];
    (destruct Hs' as [<-|[]]); cbn [sp_y sp_x0 sp_x1] in *.
  - specialize (Hg1 eq_refl). apply box_contains_pt_iff in E0, Hg1.
    apply not_true_iff_false in E1. rewrite box_contains_pt_iff in E1.
    split; [reflexivity|]. split; [lia|]. apply box_contains_pt_iff. lia.
  - specialize (Hg0 eq_refl). apply box_contains_pt_iff in E1, Hg0.
    apply not_true_iff_false in E0. rewrite box_contains_pt_iff in E0.
    split; [reflexivity|]. split; [lia|]. apply box_contains_pt_iff. lia.
  - specialize (Hg0 eq_refl). specialize (Hg1 eq_refl).
    apply box_contains_pt_iff in Hg0, Hg1.
    split; [reflexivity|]. split; [lia|]. apply box_contains_pt_iff. lia.
Qed.

(** The copy of one patched part. *)
Lemma patch_copy_spec (y x0 x1 : Z) (t : Image pixel) :
  im_bbox t = bb ->
  (forall x, x0 <= x <= x1 ->
     box_contains_pt (mi_bbox img) x y = true /\
     box_contains_pt bb x y = true) ->
  exists t',
    foldM (fun t x => v <- mi_read img x y ;; im_write t x y (fst (fst v)))
          (zseq x0 (x1 - x0 + 1)) t = Ok t' /\
    im_bbox t' = bb /\
    forall px py,
      im_pix t' px py =
      if span_contains (mkSpan y x0 x1) px py then mi_image img px py
      else im_pix t px py.
Proof.
  intros Hb Hin.
  destruct (Z.le_gt_cases 0 (x1 - x0 + 1)) as [Hn|Hn].
  - destruct (zseq_foldM_inv
                (fun k t' =>
                   im_bbox t' = bb /\
                   forall px py,
                     im_pix t' px py =
                     if (py =? y) && (x0 <=? px) && (px <? x0 + k)
                     then mi_image img px py else im_pix t px py)
                (fun t x => v <- mi_read img x y ;;
                            im_write t x y (fst (fst v)))
                x0 (x1 - x0 + 1) Hn t) as (t' & E & Hb' & Hp').
    + split; [exact Hb|]. intros px py.
      destruct (py =? y), (Z.leb_spec x0 px), (Z.ltb_spec px (x0 + 0));
        cbn [andb]; try reflexivity; lia.
    + intros k t1 Hk (Hb1 & Hp1).
      destruct (Hin (x0 + k) ltac:(lia)) as [Hi Ho].
      unfold mi_read, im_write. rewrite Hi. cbn [bind fst]. rewrite Hb1, Ho.
      eexists. split; [reflexivity|]. split; [exact Hb1|].
      intros px py. unfold im_set. cbn [im_pix]. rewrite Hp1.
      destruct (Z.eqb_spec px (x0 + k)), (Z.eqb_spec py y),
        (Z.leb_spec x0 px), (Z.ltb_spec px (x0 + k)),
        (Z.ltb_spec px (x0 + (k + 1)));
        cbn [andb]; subst; try reflexivity; lia.
    + exists t'. split; [exact E|]. split; [exact Hb'|].
      intros px py. rewrite Hp'. unfold span_contains.
      cbn [sp_y sp_x0 sp_x1].
      destruct (Z.eqb_spec py y), (Z.leb_spec x0 px),
        (Z.ltb_spec px (x0 + (x1 - x0 + 1))), (Z.leb_spec px x1);
        cbn [andb]; try reflexivity; lia.
  - rewrite zseq_nil by lia. exists t. split; [reflexivity|].
    split; [exact Hb|]. intros px py. unfold span_contains.
    cbn [sp_y sp_x0 sp_x1].
    destruct (Z.leb_spec x0 px), (Z.leb_spec px x1); cbn [andb];
      try reflexivity; lia.
Qed.

Lemma patch_span_spec (t : Image pixel) (l : list Span) (sp : Span) :
  In sp (fp_spans F) ->
  im_bbox t = bb ->
  exists t',
    patch_span cx cy (getBBox F) img (t, l) sp
    = Ok (t', l ++ patched_part cx cy (getBBox F) sp) /\
    im_bbox t' = bb /\
    forall px py,
      im_pix t' px py =
      if patched_pixel cx cy (getBBox F) sp px py then mi_image img px py
      else im_pix t px py.
Proof.
  intros Hsp Hb.
  pose proof (patched_part_inside sp) as Hinside.
  pose proof (patched_part_pixels cx cy (getBBox F) sp) as Hpix.
  unfold patch_span, patched_part in *. cbv zeta in *. cbn [fst snd].
  destruct (box_contains_pt (getBBox F) (cx + (cx - sp_x0 sp))
                            (cy + (cy - sp_y sp))
            && box_contains_pt (getBBox F) (cx + (cx - sp_x1 sp))
                               (cy + (cy - sp_y sp))) eqn:Eboth.
  - exists t. rewrite app_nil_r. split; [reflexivity|]. split; [exact Hb|].
    intros px py. rewrite <- Hpix. reflexivity.
  - match type of Hpix with
    | forall x y, spans_contain [mkSpan _ ?a ?b] x y = _ =>
        set (x0' := a) in *; set (x1' := b) in *
    end.
    destruct (patch_copy_spec (sp_y sp) x0' x1' t Hb)
      as (t' & E & Hb' & Hp').
    + intros x Hx.
      destruct (Hinside (mkSpan (sp_y sp) x0' x1') x Hsp
                        (or_introl eq_refl) Hx) as (_ & Hxs & Hbbx).
      split; [|exact Hbbx]. apply HFimg. apply spans_contain_In.
      exists sp. split; [exact Hsp|]. apply span_contains_iff. lia.
    + exists t'. rewrite E. cbn [bind]. split; [reflexivity|].
      split; [exact Hb'|]. intros px py. rewrite Hp', <- Hpix.
      unfold spans_contain. cbn [existsb]. rewrite orb_false_r.
      reflexivity.
Qed.

Lemma patch_spans_spec :
  forall ospans (t : Image pixel) (l : list Span),
    (forall sp, In sp ospans -> In sp (fp_spans F)) ->
    im_bbox t = bb ->
    exists t',
      foldM (patch_span cx cy (getBBox F) img) ospans (t, l)
      = Ok (t', l ++ flat_map (patched_part cx cy (getBBox F)) ospans) /\
      im_bbox t' = bb /\
      forall px py,
        im_pix t' px py =
        if existsb (fun sp => patched_pixel cx cy (getBBox F) sp px py) ospans
        then mi_image img px py else im_pix t px py.
Proof.
  induction ospans as [|sp r IH]; intros t l Hsub Hb.
  - exists t. cbn [foldM flat_map existsb]. rewrite app_nil_r. auto.
  - cbn [foldM flat_map existsb].
    destruct (patch_span_spec t l sp (Hsub sp (or_introl eq_refl)) Hb)
      as (t1 & E1 & Hb1 & Hp1).
    rewrite E1. cbn [bind].
    destruct (IH t1 (l ++ patched_part cx cy (getBBox F) sp)
                 (fun s H => Hsub s (or_intror H)) Hb1)
      as (t' & E & Hb' & Hp').
    exists t'. rewrite E, <- app_assoc. split; [reflexivity|].
    split; [exact Hb'|]. intros px py. rewrite Hp', Hp1.
    destruct (patched_pixel cx cy (getBBox F) sp px py); cbn [orb];
      [|reflexivity].
    destruct (existsb _ r); reflexivity.
Qed.
End PatchProof.

Lemma patched_parts_pixels cx cy imbb x y :
  forall l,
    spans_contain (flat_map (patched_part cx cy imbb) l) x y
    = existsb (fun sp => patched_pixel cx cy imbb sp x y) l.
Proof.
  induction l as [|sp r IH]; [reflexivity|].
  cbn [flat_map existsb].
  rewrite spans_contain_app, IH, patched_part_pixels. reflexivity.
Qed.

(** X25.  [buildSymmetricTemplate] with [patchEdge] set, for a footprint
    [F] (a valid span set) inside the image and a peak inside [F], when
    some pixel of the symmetric footprint [G] carries the EDGE bit: the
    call returns with [patchedEdges] set.  The pixels copied from the image
    are the pixels of [F] whose mirror image lies outside the bounding box
    of [F], and all pixels of a span of [F] both ends of which have their
    mirror image outside.  The footprint returned holds the pixels of [G]
    and the copied ones, all inside the box of the template; the template
    holds the image value at a copied pixel, the minimum of pixel and
    mirror pixel at the other pixels of [G], and 0 elsewhere. *)
Theorem buildSymmetricTemplate_patches_edge {A : PixelArith}
        (img : MaskedImage) (F : Footprint) (cx cy : Z) (sigma1 : dbl)
        (minZero : bool) (edgebit : Z) :
  spanset_ok (fp_spans F) = true ->
  foot_contains F cx cy = true ->
  box_contains (mi_bbox img) (getBBox F) = true ->
  (exists x y, foot_contains F x y = true /\
               foot_contains F (2 * cx - x) (2 * cy - y) = true /\
               Z.land (mi_mask img x y) edgebit <> 0) ->
  exists T G G',
    symmetrizeFootprint F cx cy = Ok (Some G) /\
    buildSymmetricTemplate img F cx cy sigma1 minZero true edgebit
    = Ok (Some T, Some G', true) /\
    (forall x y,
       foot_contains G' x y = foot_contains G x y || patched_by F cx cy x y) /\
    (forall x y, foot_contains G' x y = true ->
                 box_contains_pt (im_bbox T) x y = true) /\
    (forall x y, patched_by F cx cy x y = true ->
                 im_pix T x y = mi_image img x y) /\
    (forall x y, patched_by F cx cy x y = false ->
                 foot_contains G x y = false -> im_pix T x y = p0) /\
    (forall x y,
       patched_by F cx cy x y = false ->
       foot_contains G x y = true ->
       im_pix T x y
       = template_value minZero (mi_image img x y)
                        (mi_image img (2 * cx - x) (2 * cy - y)) \/
       im_pix T x y
       = template_value minZero (mi_image img (2 * cx - x) (2 * cy - y))
                        (mi_image img x y)).
Proof.
  intros Hok Hpk Hbox (ex & ey & He1 & He2 & Hebit).
  destruct (symmetric_template_loop img F cx cy minZero Hok Hpk Hbox)
    as (T & G & EG & Hexact & HGbox & ET & HTb & HTz & HTw).
  set (bb := grow_bbox cx cy (getBBox F) (fp_spans F) (getBBox G)).
  destruct (grow_bbox_spec cx cy (getBBox F) (fp_spans F) (getBBox G))
    as (Hmono & Hgrown).
  fold bb in Hmono, Hgrown.
  assert (HFimg : forall x y, foot_contains F x y = true ->
                              box_contains_pt (mi_bbox img) x y = true).
  { intros x y H. eapply box_contains_pt_sub; [exact Hbox|].
    apply foot_contains_bbox. exact H. }
  assert (HpkG : foot_contains G cx cy = true).
  { apply Hexact. replace (2 * cx - cx) with cx by lia.
    replace (2 * cy - cy) with cy by lia. auto. }
  assert (HGbb : forall x y, foot_contains G x y = true ->
                             box_contains_pt bb x y = true).
  { intros x y H. apply Hmono. apply foot_contains_bbox. exact H. }
  set (t2 := copyImage (fp_spans G) T (im_const bb p0)).
  assert (Ht2 : forall x y, im_pix t2 x y = im_pix T x y).
  { intros x y. unfold t2, copyImage. cbn [im_pix im_bbox im_const].
    destruct (spans_contain (fp_spans G) x y) eqn:EGc; cbn [andb].
    - rewrite HTb, (foot_contains_bbox G x y EGc), (HGbb x y EGc).
      reflexivity.
    - symmetry. apply HTz. exact EGc. }
  destruct (patch_spans_spec img cx cy F bb HFimg
              (foot_contains_bbox F cx cy Hpk) (HGbb cx cy HpkG) Hgrown
              (fp_spans F) t2 (fp_spans G) (fun sp H => H) eq_refl)
    as (T' & EP & HbP & HpP).
  assert (HG' : forall x y,
             spans_contain
               (make_SpanSet
                  (fp_spans G
                   ++ flat_map (patched_part cx cy (getBBox F)) (fp_spans F)))
               x y
             = foot_contains G x y || patched_by F cx cy x y).
  { intros x y.
    rewrite make_SpanSet_pixels, spans_contain_app, patched_parts_pixels.
    reflexivity. }
  exists T', G, (mkFootprint
                   (make_SpanSet
                      (fp_spans G
                       ++ flat_map (patched_part cx cy (getBBox F))
                                   (fp_spans F)))
                   (fp_peaks G)).
  split; [exact EG|]. split.
  - unfold buildSymmetricTemplate. rewrite Hbox. cbn [negb].
    rewrite EG. cbn [bind]. rewrite HGbox. cbn [negb].
    assert (Emask : forall x y,
               In (x, y) (spans_pixels (fp_spans G)) ->
               box_contains_pt (im_bbox (getMask img)) x y = true).
    { intros x y Hin. apply spans_pixels_In in Hin.
      cbn [getMask im_bbox].
      eapply box_contains_pt_sub; [exact HGbox|].
      apply foot_contains_bbox. exact Hin. }
    rewrite (any_edge_spec _ _ _ Emask).
    assert (Ebit : existsb
                     (fun p => negb (Z.land (im_pix (getMask img)
                                               (fst p) (snd p)) edgebit
                                     =? 0))
                     (spans_pixels (fp_spans G)) = true).
    { apply existsb_exists. exists (ex, ey). split.
      - apply spans_pixels_In. apply Hexact. auto.
      - cbn [fst snd getMask im_pix]. apply negb_true_iff.
        apply Z.eqb_neq. exact Hebit. }
    rewrite Ebit.
    cbn [bind]. rewrite ET. cbn [bind]. cbv zeta. fold bb. fold t2.
    match goal with
    | |- bind ?m _ = _ =>
        replace m
          with (Ok (T', fp_spans G
                        ++ flat_map (patched_part cx cy (getBBox F))
                                    (fp_spans F)) : Res (Image pixel * list Span))
          by (symmetry; exact EP)
    end.
    reflexivity.
  - split; [|split; [|split; [|split]]].
    + intros x y. unfold foot_contains at 1. cbn [fp_spans]. apply HG'.
    + intros x y Hin. unfold foot_contains in Hin. cbn [fp_spans] in Hin.
      rewrite HG' in Hin. rewrite HbP.
      apply orb_true_iff in Hin. destruct Hin as [Hin|Hin].
      * apply HGbb. exact Hin.
      * unfold patched_by in Hin. apply existsb_exists in Hin.
        destruct Hin as (sp & Hsp & Hpp).
        rewrite <- patched_part_pixels in Hpp.
        apply spans_contain_In in Hpp. destruct Hpp as (s' & Hs' & Hc).
        apply span_contains_iff in Hc. destruct Hc as [Hx Hy].
        destruct (patched_part_inside cx cy F bb
                    (foot_contains_bbox F cx cy Hpk) (HGbb cx cy HpkG)
                    Hgrown sp s' x Hsp Hs' Hx) as (Hys & _ & Hb).
        rewrite Hy, Hys. exact Hb.
    + intros x y Hp. rewrite HpP. fold (patched_by F cx cy x y).
      rewrite Hp. reflexivity.
    + intros x y Hnp HnG. rewrite HpP. fold (patched_by F cx cy x y).
      rewrite Hnp, Ht2. apply HTz. exact HnG.
    + intros x y Hnp Hin. rewrite HpP. fold (patched_by F cx cy x y).
      rewrite Hnp, Ht2. apply (HTw x y Hin).
Qed.

Lemma buildSymmetricTemplate_patches_edge_witness :
  exists T G G',
    symmetrizeFootprint x_template_foot 1 0 = Ok (Some G) /\
    buildSymmetricTemplate x_edge_masked_img x_template_foot 1 0 (Qc_of_Z 0)
                           true true 16
    = Ok (Some T, Some G', true) /\
    (forall x y,
       foot_contains G' x y
       = foot_contains G x y || patched_by x_template_foot 1 0 x y) /\
    (forall x y, foot_contains G' x y = true ->
                 box_contains_pt (im_bbox T) x y = true) /\
    (forall x y, patched_by x_template_foot 1 0 x y = true ->
                 im_pix T x y = mi_image x_edge_masked_img x y) /\
    (forall x y, patched_by x_template_foot 1 0 x y = false ->
                 foot_contains G x y = false -> im_pix T x y = p0) /\
    (forall x y,
       patched_by x_template_foot 1 0 x y = false ->
       foot_contains G x y = true ->
       im_pix T x y
       = template_value true (mi_image x_edge_masked_img x y)
                        (mi_image x_edge_masked_img (2 * 1 - x) (2 * 0 - y)) \/
       im_pix T x y
       = template_value true
                        (mi_image x_edge_masked_img (2 * 1 - x) (2 * 0 - y))
                        (mi_image x_edge_masked_img x y)).
Proof.
  apply (@buildSymmetricTemplate_patches_edge ExactArith x_edge_masked_img
           x_template_foot 1 0 (Qc_of_Z 0) true 16).
  - reflexivity.
  - reflexivity.
  - reflexivity.
  - exists 1, 0. split; [reflexivity|]. split; [reflexivity|].
    cbn. discriminate.
Defined.

(** * Flux conservation with stray flux *)

Open Scope Qc_scope.

Lemma Qc_pmax_0_nonneg (v : Qc) : 0 <= @pmax ExactArith p0 v.
Proof.
  unfold pmax. change (@pltb ExactArith) with Qc_ltb.
  change (@p0 ExactArith) with (Q2Qc 0).
  destruct (Qc_ltb (Q2Qc 0) v) eqn:E.
  - apply Qclt_le_weak. apply Qc_ltb_lt. exact E.
  - apply Qcle_refl.
Qed.

Lemma Qc_template_terms_nonneg sumbb
      (timgs : list (Image (@pixel ExactArith))) x y :
  0 <= fold_right
         (fun timg s =>
            (if box_contains_pt (box_clip (im_bbox timg) sumbb) x y
             then @pmax ExactArith p0 (im_pix timg x y) else 0) + s)
         0 timgs.
Proof.
  induction timgs as [|t r IH]; cbn [fold_right]; [apply Qcle_refl|].
  replace 0 with (0 + 0) at 1 by ring.
  apply Qcplus_le_compat; [|exact IH].
  destruct (box_contains_pt _ x y);
    [apply Qc_pmax_0_nonneg|apply Qcle_refl].
Qed.

Lemma Qc_not_pos_nonneg (t : Qc) :
  Qc_ltb (Q2Qc 0) t = false -> 0 <= t -> t = 0.
Proof.
  intros Hn Hge. apply Qcle_antisym; [|exact Hge].
  apply Qcnot_lt_le. intros Hlt. apply Qc_ltb_lt in Hlt. congruence.
Qed.

Close Scope Qc_scope.

Section TotalFlux.
Variable img : @MaskedImage ExactArith.
Variable timgs : list (Image (@pixel ExactArith)).
Variable tsum0 : Image (@pixel ExactArith).
Variables x y : Z.

Hypothesis Hclear : im_pix tsum0 x y = Q2Qc 0.
Hypothesis Hin : box_contains_pt (im_bbox tsum0) x y = true.

(** Where the template sum is positive the portions share out the
    image. *)
Lemma portions_sum_where_covered portions :
  mapM (make_portion img (sum_templates timgs tsum0)) timgs = Ok portions ->
  im_pix (sum_templates timgs tsum0) x y <> Q2Qc 0 ->
  sum_portions portions x y = mi_image img x y.
Proof.
  intros Hmap HT0. set (tsum := sum_templates timgs tsum0) in *.
  destruct (sum_templates_spec timgs tsum0) as (Hbb & Hpix).
  fold tsum in Hbb, Hpix.
  assert (Hsum : box_contains_pt (im_bbox tsum) x y = true)
    by (rewrite Hbb; exact Hin).
  assert (Hz : peqb (im_pix tsum x y) p0 = false)
    by (apply Qc_eq_bool_false; exact HT0).
  pose proof (Hpix x y) as HTsum.
  rewrite Qc_template_sum_at, Hclear in HTsum.
  apply mapM_Forall2 in Hmap.
  set (c := fun timg : Image (@pixel ExactArith) =>
              if box_contains_pt (box_clip (im_bbox timg) (im_bbox tsum0)) x y
              then pmax p0 (im_pix timg x y) else 0%Qc) in *.
  assert (Hshare : forall ts ps,
            Forall2 (fun t p => make_portion img tsum t = Ok p) ts ps ->
            sum_portions ps x y =
            fold_right (fun cv acc =>
                          (mi_image img x y * (cv / im_pix tsum x y) + acc)%Qc)
                       0%Qc (map c ts)).
  { intros ts ps HF.
    induction HF as [|timg port ts' ps' Hmk _ IH]; [reflexivity|].
    assert (Hhead : portion_value port x y =
                    (mi_image img x y * (c timg / im_pix tsum x y))%Qc).
    { destruct (make_portion_spec _ _ _ _ Hmk) as (_ & Hv).
      rewrite (Hv x y Hsum Hz). unfold c.
      rewrite box_clip_pt, <- Hbb, Hsum, andb_true_r.
      destruct (box_contains_pt (im_bbox timg) x y).
      - reflexivity.
      - exact_arith. field. exact HT0. }
    change (sum_portions (port :: ps') x y)
      with (portion_value port x y + sum_portions ps' x y)%Qc.
    rewrite Hhead, IH. reflexivity. }
  rewrite (Hshare _ _ Hmap).
  rewrite Qc_share_sum by exact HT0.
  assert (HS : fold_right Qcplus 0%Qc (map c timgs) = im_pix tsum x y).
  { rewrite HTsum. clear. induction timgs as [|t r IH]; cbn [map fold_right].
    - exact_arith. ring.
    - rewrite IH. unfold c. exact_arith. ring. }
  rewrite HS. exact_arith. field. exact HT0.
Qed.

(** Where the template sum is zero the portions are empty. *)
Lemma portions_sum_where_uncovered portions :
  mapM (make_portion img (sum_templates timgs tsum0)) timgs = Ok portions ->
  im_pix (sum_templates timgs tsum0) x y = Q2Qc 0 ->
  sum_portions portions x y = Q2Qc 0.
Proof.
  intros Hmap HT0. set (tsum := sum_templates timgs tsum0) in *.
  apply mapM_Forall2 in Hmap.
  assert (Hz : peqb (im_pix tsum x y) p0 = true).
  { rewrite HT0. reflexivity. }
  revert Hmap. generalize timgs at 1. intros ts Hmap.
  induction Hmap as [|timg port ts' ps' Hmk _ IH]; [reflexivity|].
  change (sum_portions (port :: ps') x y)
    with (portion_value port x y + sum_portions ps' x y)%Qc.
  rewrite IH. unfold make_portion in Hmk.
  destruct (portion_fold_spec img tsum timg _ _ _ (box_pixels_NoDup _) Hmk)
    as (_ & Hp).
  destruct (Hp x y) as (_ & Hkeep).
  destruct (Hkeep (or_intror Hz)) as (Ev & _).
  unfold portion_value. rewrite Ev. cbn [mi_zero mi_image].
  destruct (box_contains_pt (mi_bbox port) x y); exact_arith; ring.
Qed.

Lemma tsum_not_pos_zero :
  pltb p0 (im_pix (sum_templates timgs tsum0) x y) = false ->
  im_pix (sum_templates timgs tsum0) x y = Q2Qc 0.
Proof.
  intros Hn. destruct (sum_templates_spec timgs tsum0) as (_ & Hpix).
  apply Qc_not_pos_nonneg; [exact Hn|].
  rewrite Hpix, Qc_template_sum_at, Hclear.
  change (Q2Qc 0) with 0%Qc. rewrite Qcplus_0_l.
  apply Qc_template_terms_nonneg.
Qed.
End TotalFlux.

(** X24.  [apportionFlux] in exact arithmetic with [ASSIGN_STRAYFLUX] in
    its default mode, no template sum supplied, the lengths and the boxes
    as required and a parent footprint that lists no pixel twice: the call
    returns, and at a pixel of the parent footprint the portions and the
    stray flux of all templates add up to the image value, wherever the
    template sum is positive, or the image is positive, the peaks of all
    templates are at most 46340 pixels away along each axis (no 32-bit
    product of the weights overflows) and some template keeps a share of
    the stray pixel. *)
Theorem apportionFlux_conserves_total_flux
        (img : @MaskedImage ExactArith) (foot : Footprint)
        (timgs : list (Image (@pixel ExactArith))) (tfoots : list Footprint)
        (ispsf : list bool) (pkx pky : list Z)
        (opts : Z) (clip : @dbl ExactArith) :
  length timgs = length tfoots ->
  Forall2 (fun timg tfoot =>
             box_contains (im_bbox timg) (getBBox tfoot) = true) timgs tfoots ->
  box_contains (mi_bbox img) (getBBox foot) = true ->
  flag_set opts ASSIGN_STRAYFLUX = true ->
  flag_set opts STRAYFLUX_R_TO_FOOTPRINT = false ->
  flag_set opts STRAYFLUX_NEAREST_FOOTPRINT = false ->
  length pkx = length tfoots ->
  length pky = length tfoots ->
  length ispsf = 0%nat \/ length ispsf = length tfoots ->
  NoDup (spans_pixels (fp_spans foot)) ->
  exists portions strays tsum,
    apportionFlux img foot timgs tfoots None ispsf pkx pky opts clip
    = Ok (portions, strays, tsum) /\
    forall x y,
      foot_contains foot x y = true ->
      pltb p0 (im_pix tsum x y) = true \/
      (pleb (mi_image img x y) p0 = false /\
       (forall i, (i < length tfoots)%nat ->
          Z.abs (nth i pkx 0 - x) <= 46340 /\
          Z.abs (nth i pky 0 - y) <= 46340) /\
       exists i0, (i0 < length tfoots)%nat /\
                  stray_keep opts (length tfoots) ispsf pkx pky clip x y i0
                  = true) ->
      Qcplus (sum_portions portions x y) (stray_flux_at strays x y)
      = mi_image img x y.
Proof.
  intros Hlen HF Hi Hflag Hm1 Hm2 Hpkx Hpky Hpsf Hnd.
  set (tsum := sum_templates timgs (im_const (getBBox foot) p0)).
  destruct (portions_Ok img foot timgs Hi) as (portions & Eps).
  fold tsum in Eps.
  assert (Hbb : im_bbox tsum = getBBox foot).
  { destruct (sum_templates_spec timgs (im_const (getBBox foot) p0))
      as (Hb & _). exact Hb. }
  assert (Hbox : forall x y, foot_contains foot x y = true ->
             box_contains_pt (im_bbox tsum) x y = true /\
             box_contains_pt (mi_bbox img) x y = true).
  { intros x y Hin. pose proof (foot_contains_bbox foot x y Hin) as Hb.
    split; [rewrite Hbb; exact Hb|].
    eapply box_contains_pt_sub; eauto. }
  pose proof (find_stray_flux_default foot tsum img opts tfoots ispsf pkx pky
                clip Hpkx Hpky Hpsf Hm1 Hm2 Qc_peak_weight_sentinel Hbox)
    as Estray.
  eexists portions, _, tsum. split.
  - unfold apportionFlux. rewrite Hlen, Nat.eqb_refl. cbn [negb].
    rewrite (check_bboxes_Ok _ _ _ _ HF Hi). cbn [bind im_const im_bbox].
    rewrite box_contains_refl. cbn [negb]. fold tsum.
    rewrite Eps. cbn [bind]. rewrite Hflag.
    assert (Epsf : (0 <? length ispsf)%nat
                   && negb (length ispsf =? length tfoots)%nat = false).
    { destruct Hpsf as [E|E]; rewrite E; [reflexivity|].
      rewrite Nat.eqb_refl. apply andb_false_r. }
    rewrite Epsf.
    rewrite Hpkx, Hpky, Nat.eqb_refl. cbn [negb orb].
    rewrite Estray. reflexivity.
  - intros x y Hin Hcase.
    destruct (Hbox x y Hin) as (Hts & _). rewrite Hbb in Hts.
    rewrite (stray_flux_at_map
               (fun i => stray_records_for tsum img opts (length tfoots)
                           ispsf pkx pky clip i
                           (spans_pixels (fp_spans foot)))).
    assert (Hrec : forall i,
               recs_flux_at
                 (stray_records_for tsum img opts (length tfoots) ispsf
                    pkx pky clip i (spans_pixels (fp_spans foot))) x y
               = if is_stray tsum img x y
                    && negb (deqb (stray_contrib opts (length tfoots) ispsf
                                     pkx pky clip x y i) d0)
                 then st_image (stray_record img opts (length tfoots) ispsf
                                  pkx pky clip x y i)
                 else Q2Qc 0).
    { intros i. apply recs_flux_here; [exact Hnd|].
      apply spans_pixels_In. exact Hin. }
    destruct (pltb p0 (im_pix tsum x y)) eqn:Epos.
    + rewrite (portions_sum_where_covered img timgs
                 (im_const (getBBox foot) p0) x y eq_refl Hts portions Eps)
        by (apply Qc_ltb_0_neq; exact Epos).
      rewrite (fold_right_ext_in _ (fun _ a => a)).
      * assert (E0 : forall l : list nat,
                  fold_right (fun (_ : nat) (a : Qc) => a) (Q2Qc 0) l
                  = Q2Qc 0)
          by (induction l; auto).
        rewrite E0. apply Qcplus_0_r.
      * intros i a _. rewrite Hrec. unfold is_stray. rewrite Epos.
        cbn [negb andb]. apply Qcplus_0_l.
    + destruct Hcase as [Hc|(Himg & Hnear & i0 & Hi0 & Hk)]; [discriminate|].
      pose proof (tsum_not_pos_zero timgs (im_const (getBBox foot) p0) x y
                    eq_refl Epos) as Hzero.
      rewrite (portions_sum_where_uncovered img timgs
                 (im_const (getBBox foot) p0) x y portions Eps Hzero).
      rewrite Qcplus_0_l.
      rewrite <- (stray_shares_sum img opts (length tfoots) ispsf pkx pky
                    clip x y Hnear i0 Hi0 Hk).
      apply fold_right_ext_in. intros i a _. f_equal.
      rewrite Hrec. unfold is_stray. rewrite Epos, Himg. reflexivity.
Qed.

Lemma x_total_foot_NoDup : NoDup (spans_pixels (fp_spans x_total_foot)).
Proof.
  change (spans_pixels (fp_spans x_total_foot)) with [(0, 0); (1, 0)].
  constructor; [intros [H|[]]; discriminate H|].
  constructor; [intros []|constructor].
Qed.

Lemma apportionFlux_conserves_total_flux_witness :
  exists portions strays tsum,
    apportionFlux x_total_img x_total_foot [x_total_template] [x_total_tfoot]
                  None [] [0] [0] ASSIGN_STRAYFLUX (Qc_of_Z 0)
    = Ok (portions, strays, tsum) /\
    forall x y,
      foot_contains x_total_foot x y = true ->
      pltb p0 (im_pix tsum x y) = true \/
      (pleb (mi_image x_total_img x y) p0 = false /\
       (forall i, (i < length [x_total_tfoot])%nat ->
          Z.abs (nth i [0] 0 - x) <= 46340 /\
          Z.abs (nth i [0] 0 - y) <= 46340) /\
       exists i0, (i0 < length [x_total_tfoot])%nat /\
                  stray_keep ASSIGN_STRAYFLUX (length [x_total_tfoot]) []
                             [0] [0] (Qc_of_Z 0) x y i0 = true) ->
      Qcplus (sum_portions portions x y) (stray_flux_at strays x y)
      = mi_image x_total_img x y.
Proof.
  apply (apportionFlux_conserves_total_flux x_total_img x_total_foot
           [x_total_template] [x_total_tfoot] [] [0] [0] ASSIGN_STRAYFLUX
           (Qc_of_Z 0)).
  - reflexivity.
  - repeat constructor.
  - reflexivity.
  - reflexivity.
  - reflexivity.
  - reflexivity.
  - reflexivity.
  - reflexivity.
  - left. reflexivity.
  - exact x_total_foot_NoDup.
Defined.

(** * The stray-flux pass in its other modes *)

Section ModePixel.
Context {A : PixelArith}.
Variable tsum : Image pixel.
Variable img : MaskedImage.
Variable opts : Z.
Variable tfoots : list Footprint.
Variable ispsf : list bool.
Variables pkx pky : list Z.
Variable clip : dbl.

Hypothesis Hpsf : length ispsf = 0%nat \/ length ispsf = length tfoots.

Variables x y : Z.
Variable c0 : list dbl.
Variable wt : nat -> dbl.

Hypothesis Hc0 : length c0 = length tfoots.
Hypothesis Hwt :
  forall i, (i < length tfoots)%nat ->
    wt i = if deqb (nth i c0 d0) (dbl_of_Z (-1))
           then get_contrib_r_to_footprint x y
                  (nth i tfoots (mkFootprint [] []))
           else nth i c0 d0.
Hypothesis Hres :
  forall i, (i < length tfoots)%nat -> deqb (wt i) (dbl_of_Z (-1)) = false.

Lemma skip_ptsrc_mode ptsrcs i :
  (i < length tfoots)%nat ->
  skip_ptsrc ispsf ptsrcs i = Ok (stray_skipped ispsf ptsrcs i).
Proof.
  apply (skip_ptsrc_ok tfoots ispsf (repeat 0 (length tfoots))
           (repeat 0 (length tfoots)) (repeat_length _ _)
           (repeat_length _ _) Hpsf).
Qed.

Lemma just_in_time_mode c i :
  on_the_way tfoots c0 wt c -> (i < length tfoots)%nat ->
  exists c',
    just_in_time tfoots x y c i = Ok c' /\
    on_the_way tfoots c0 wt c' /\
    nth i c' d0 = wt i /\
    forall j, j <> i -> nth j c' d0 = nth j c d0.
Proof.
  intros [Hl Hc] Hi. unfold just_in_time.
  rewrite (vec_get_nth c i d0) by lia. cbn [bind].
  destruct (deqb (nth i c d0) (dbl_of_Z (-1))) eqn:Em.
  - rewrite (vec_get_nth tfoots i (mkFootprint [] [])) by lia. cbn [bind].
    rewrite vec_set_ok by lia.
    assert (Ew : wt i = get_contrib_r_to_footprint x y
                          (nth i tfoots (mkFootprint [] []))).
    { rewrite (Hwt i Hi). destruct (Hc i Hi) as [E|E].
      - rewrite <- E, Em. reflexivity.
      - rewrite E, (Hres i Hi) in Em. discriminate. }
    eexists. split; [reflexivity|]. split; [|split].
    + split; [rewrite upd_nth_length; exact Hl|]. intros j Hj.
      rewrite upd_nth_nth by lia.
      destruct (Nat.eqb_spec j i) as [->|Hne];
        [right; symmetry; exact Ew|apply Hc; exact Hj].
    + rewrite upd_nth_nth by lia. rewrite Nat.eqb_refl. symmetry. exact Ew.
    + intros j Hne. rewrite upd_nth_nth by lia.
      destruct (Nat.eqb_spec j i); [contradiction|reflexivity].
  - exists c. split; [reflexivity|]. split; [split; assumption|].
    split; [|reflexivity].
    destruct (Hc i Hi) as [E|E]; [|exact E].
    rewrite (Hwt i Hi), <- E, Em. reflexivity.
Qed.

Lemma round1_mode ptsrcs :
  forall n k c csum, (k + n = length tfoots)%nat ->
    on_the_way tfoots c0 wt c ->
    exists c',
      round1 tfoots ispsf ptsrcs x y (seq k n) c csum =
      Ok (c', fold_left
                (fun s i => if negb (stray_skipped ispsf ptsrcs i)
                            then dadd s (wt i) else s)
                (seq k n) csum) /\
      on_the_way tfoots c0 wt c' /\
      (forall i, nth i c d0 = wt i -> nth i c' d0 = wt i) /\
      (forall i, (k <= i < length tfoots)%nat ->
                 stray_skipped ispsf ptsrcs i = false ->
                 nth i c' d0 = wt i).
Proof.
  induction n as [|n IH]; intros k c csum Hk Hc.
  - exists c. split; [reflexivity|]. split; [exact Hc|].
    split; [auto|]. intros i Hi. lia.
  - cbn [seq round1 fold_left]. rewrite skip_ptsrc_mode by lia.
    cbn [bind].
    destruct (stray_skipped ispsf ptsrcs k) eqn:Esk; cbn [negb].
    + destruct (IH (S k) c csum ltac:(lia) Hc) as (c' & E & Hc' & Hk1 & Hk2).
      exists c'. split; [exact E|]. split; [exact Hc'|].
      split; [exact Hk1|]. intros i Hi Hs.
      apply Hk2; [|exact Hs].
      destruct (Nat.eq_dec i k) as [->|]; [congruence|lia].
    + destruct (just_in_time_mode c k Hc ltac:(lia))
        as (c1 & E1 & Hc1 & Hk' & Ho).
      rewrite E1. cbn [bind].
      rewrite (vec_get_nth c1 k d0) by (destruct Hc1 as [-> _]; lia).
      cbn [bind]. rewrite Hk'.
      destruct (IH (S k) c1 (dadd csum (wt k)) ltac:(lia) Hc1)
        as (c' & E & Hc' & Hk1 & Hk2).
      exists c'. split; [exact E|]. split; [exact Hc'|]. split.
      * intros i Hi. apply Hk1.
        destruct (Nat.eq_dec i k) as [->|Hne]; [exact Hk'|].
        rewrite (Ho i Hne). exact Hi.
      * intros i Hi Hs.
        destruct (Nat.eq_dec i k) as [->|Hne];
          [apply Hk1; exact Hk'|apply Hk2; [lia|exact Hs]].
Qed.

Lemma round2_mode :
  forall n k c csum, (k + n = length tfoots)%nat ->
    on_the_way tfoots c0 wt c ->
    exists c',
      round2 tfoots x y (seq k n) c csum =
      Ok (c', fold_left (fun s i => if true then dadd s (wt i) else s)
                        (seq k n) csum) /\
      on_the_way tfoots c0 wt c' /\
      (forall i, nth i c d0 = wt i -> nth i c' d0 = wt i) /\
      (forall i, (k <= i < length tfoots)%nat -> nth i c' d0 = wt i).
Proof.
  induction n as [|n IH]; intros k c csum Hk Hc.
  - exists c. split; [reflexivity|]. split; [exact Hc|].
    split; [auto|]. intros i Hi. lia.
  - cbn [seq round2 fold_left].
    destruct (just_in_time_mode c k Hc ltac:(lia))
      as (c1 & E1 & Hc1 & Hk' & Ho).
    rewrite E1. cbn [bind].
    rewrite (vec_get_nth c1 k d0) by (destruct Hc1 as [-> _]; lia).
    cbn [bind]. rewrite Hk'.
    destruct (IH (S k) c1 (dadd csum (wt k)) ltac:(lia) Hc1)
      as (c' & E & Hc' & Hk1 & Hk2).
    exists c'. split; [exact E|]. split; [exact Hc'|]. split.
    + intros i Hi. apply Hk1.
      destruct (Nat.eq_dec i k) as [->|Hne]; [exact Hk'|].
      rewrite (Ho i Hne). exact Hi.
    + intros i Hi.
      destruct (Nat.eq_dec i k) as [->|Hne];
        [apply Hk1; exact Hk'|apply Hk2; lia].
Qed.

Lemma leb_succ_other (k i : nat) :
  i <> k -> (S k <=? i)%nat = (k <=? i)%nat.
Proof.
  intros Hne. destruct (k <=? i)%nat eqn:E.
  - apply Nat.leb_le in E. apply Nat.leb_le. lia.
  - apply Nat.leb_gt in E. apply Nat.leb_gt. lia.
Qed.

Lemma clip_loop_mode ptsrcs strayclip :
  forall n k c csum, (k + n = length tfoots)%nat ->
    length c = length tfoots ->
    (forall i, (k <= i < length tfoots)%nat ->
               stray_skipped ispsf ptsrcs i = false ->
               nth i c d0 = wt i) ->
    exists c',
      clip_loop ispsf ptsrcs strayclip (seq k n) c csum =
      Ok (c', fold_left
                (fun s i => if negb (stray_skipped ispsf ptsrcs i)
                               && negb (dltb (wt i) strayclip)
                            then dadd s (wt i) else s)
                (seq k n) csum) /\
      length c' = length tfoots /\
      forall i, (i < length tfoots)%nat ->
        nth i c' d0 =
        if (k <=? i)%nat then
          (if negb (stray_skipped ispsf ptsrcs i)
              && negb (dltb (wt i) strayclip)
           then wt i else d0)
        else nth i c d0.
Proof.
  induction n as [|n IH]; intros k c csum Hk Hlen Hc.
  - exists c. split; [reflexivity|]. split; [exact Hlen|]. intros i Hi.
    replace (k <=? i)%nat with false by (symmetry; apply Nat.leb_gt; lia).
    reflexivity.
  - cbn [seq clip_loop fold_left]. rewrite skip_ptsrc_mode by lia.
    cbn [bind].
    assert (Hzero : forall csum',
              negb (stray_skipped ispsf ptsrcs k)
              && negb (dltb (wt k) strayclip) = false ->
              exists c',
                clip_loop ispsf ptsrcs strayclip (seq (S k) n)
                          (upd_nth c k d0) csum' =
                Ok (c', fold_left
                          (fun s i => if negb (stray_skipped ispsf ptsrcs i)
                                         && negb (dltb (wt i) strayclip)
                                      then dadd s (wt i) else s)
                          (seq (S k) n) csum') /\
                length c' = length tfoots /\
                forall i, (i < length tfoots)%nat ->
                  nth i c' d0 =
                  if (k <=? i)%nat then
                    (if negb (stray_skipped ispsf ptsrcs i)
                        && negb (dltb (wt i) strayclip)
                     then wt i else d0)
                  else nth i c d0).
    { intros csum' Hkeep.
      destruct (IH (S k) (upd_nth c k d0) csum') as (c' & E & Hl & Hn).
      - lia.
      - rewrite upd_nth_length. exact Hlen.
      - intros i Hi Hs. rewrite upd_nth_nth by lia.
        replace (i =? k)%nat with false
          by (symmetry; apply Nat.eqb_neq; lia).
        apply Hc; [lia|exact Hs].
      - exists c'. split; [exact E|]. split; [exact Hl|].
        intros i Hi. rewrite (Hn i Hi).
        destruct (Nat.eq_dec i k) as [->|Hne].
        + replace (S k <=? k)%nat with false
            by (symmetry; apply Nat.leb_gt; lia).
          rewrite upd_nth_nth by lia. rewrite Nat.eqb_refl, Nat.leb_refl.
          rewrite Hkeep. reflexivity.
        + rewrite (leb_succ_other k i Hne).
          destruct (k <=? i)%nat; [reflexivity|].
          rewrite upd_nth_nth by lia.
          replace (i =? k)%nat with false
            by (symmetry; apply Nat.eqb_neq; lia).
          reflexivity. }
    destruct (stray_skipped ispsf ptsrcs k) eqn:Esk; cbn [negb andb].
    + rewrite vec_set_ok by lia. cbn [bind]. apply Hzero. reflexivity.
    + rewrite (vec_get_nth c k d0) by lia. cbn [bind].
      rewrite (Hc k ltac:(lia) Esk).
      destruct (dltb (wt k) strayclip) eqn:Elt; cbn [negb].
      * rewrite vec_set_ok by lia. cbn [bind]. apply Hzero.
        rewrite ?Esk, ?Elt. reflexivity.
      * destruct (IH (S k) c (dadd csum (wt k))) as (c' & E & Hl & Hn).
        -- lia.
        -- exact Hlen.
        -- intros i Hi Hs. apply Hc; [lia|exact Hs].
        -- exists c'. split; [exact E|]. split; [exact Hl|].
           intros i Hi. rewrite (Hn i Hi).
           destruct (Nat.eq_dec i k) as [->|Hne].
           ++ replace (S k <=? k)%nat with false
                by (symmetry; apply Nat.leb_gt; lia).
              rewrite Nat.leb_refl, ?Esk, ?Elt. cbn [negb andb].
              apply Hc; [lia|exact Esk].
           ++ rewrite (leb_succ_other k i Hne). reflexivity.
Qed.

Lemma stray_pixel_mode nearest strays :
  init_contrib opts tfoots pkx pky nearest x y = Ok c0 ->
  length strays = length tfoots ->
  box_contains_pt (im_bbox tsum) x y = true ->
  box_contains_pt (mi_bbox img) x y = true ->
  pltb p0 (im_pix tsum x y) = false ->
  pleb (mi_image img x y) p0 = false ->
  exists strays',
    stray_pixel tsum img opts tfoots ispsf pkx pky clip nearest strays (x, y)
    = Ok strays' /\
    length strays' = length tfoots /\
    forall i, (i < length tfoots)%nat ->
      nth i strays' [] =
      if negb (deqb (mode_contrib opts (length tfoots) ispsf clip wt i) d0)
      then nth i strays []
           ++ [mode_record img opts (length tfoots) ispsf clip x y wt i]
      else nth i strays [].
Proof.
  intros Hinit Hlen Ht Hi Hs1 Hs2. unfold stray_pixel, im_read, mi_read.
  rewrite Ht. cbn [bind]. rewrite Hs1, Hi. cbn [bind fst snd]. rewrite Hs2.
  rewrite Hinit. cbn [bind]. unfold templates.
  assert (H0 : on_the_way tfoots c0 wt c0) by (split; [exact Hc0|auto]).
  destruct (round1_mode (always opts) (length tfoots) 0 c0 d0 eq_refl H0)
    as (c1 & E1 & Hc1 & Hk1 & Hr1).
  rewrite E1. cbn [bind fst snd].
  change (fold_left
            (fun s i => if negb (stray_skipped ispsf (always opts) i)
                        then dadd s (wt i) else s)
            (seq 0 (length tfoots)) d0)
    with (mode_csum1 opts (length tfoots) ispsf wt).
  assert (Hclip : forall ptsrcs cs c,
            ptsrcs = mode_ptsrcs opts (length tfoots) ispsf wt ->
            cs = mode_csum0 opts (length tfoots) ispsf wt ->
            length c = length tfoots ->
            (forall i, (0 <= i < length tfoots)%nat ->
                       stray_skipped ispsf ptsrcs i = false ->
                       nth i c d0 = wt i) ->
            exists strays',
              (r3 <- clip_loop ispsf ptsrcs (dmul clip cs)
                               (seq 0 (length tfoots)) c d0 ;;
               assign_loop x y
                 (mi_image img x y, mi_mask img x y, mi_variance img x y)
                 (snd r3) (seq 0 (length tfoots)) (fst r3) strays)
              = Ok strays' /\
              length strays' = length tfoots /\
              forall i, (i < length tfoots)%nat ->
                nth i strays' [] =
                if negb (deqb (mode_contrib opts (length tfoots) ispsf clip
                                            wt i) d0)
                then nth i strays []
                     ++ [mode_record img opts (length tfoots) ispsf clip
                                     x y wt i]
                else nth i strays []).
  { intros ptsrcs cs c -> -> Hlc Hcw.
    destruct (clip_loop_mode (mode_ptsrcs opts (length tfoots) ispsf wt)
                (dmul clip (mode_csum0 opts (length tfoots) ispsf wt))
                (length tfoots) 0 c d0 eq_refl Hlc Hcw)
      as (c' & E & Hl & Hn).
    rewrite E. cbn [bind fst snd].
    destruct (assign_loop_peak tfoots ispsf (repeat 0 (length tfoots))
                (repeat 0 (length tfoots)) (repeat_length _ _)
                (repeat_length _ _) Hpsf x y
                (mi_image img x y, mi_mask img x y, mi_variance img x y)
                (fold_left
                   (fun s i =>
                      if negb (stray_skipped ispsf
                                 (mode_ptsrcs opts (length tfoots) ispsf wt) i)
                         && negb (dltb (wt i)
                                    (dmul clip
                                       (mode_csum0 opts (length tfoots)
                                                   ispsf wt)))
                      then dadd s (wt i) else s)
                   (seq 0 (length tfoots)) d0)
                c' Hl (length tfoots) 0%nat strays eq_refl Hlen)
      as (s' & E' & Hl' & Hn').
    exists s'. split; [exact E'|]. split; [exact Hl'|].
    intros i Hi'. rewrite (Hn' i Hi'). rewrite (Hn i Hi').
    cbn [Nat.leb andb fst snd]. reflexivity. }
  destruct (deqb (mode_csum1 opts (length tfoots) ispsf wt) d0
            && flag_set opts STRAYFLUX_TO_POINT_SOURCES_WHEN_NECESSARY)
    eqn:Enec.
  - destruct (round2_mode (length tfoots) 0 c1
                (mode_csum1 opts (length tfoots) ispsf wt) eq_refl Hc1)
      as (c2 & E2 & Hc2 & _ & Hr2).
    rewrite E2. cbn [bind fst snd]. apply Hclip.
    + unfold mode_ptsrcs, mode_necessary. rewrite Enec. reflexivity.
    + unfold mode_csum0, mode_necessary. rewrite Enec. reflexivity.
    + destruct Hc2 as [H _]. exact H.
    + intros i Hi' _. apply Hr2. exact Hi'.
  - cbn [bind fst snd]. apply Hclip.
    + unfold mode_ptsrcs, mode_necessary. rewrite Enec. reflexivity.
    + unfold mode_csum0, mode_necessary. rewrite Enec. reflexivity.
    + destruct Hc1 as [H _]. exact H.
    + intros i Hi' Hs. apply Hr1; assumption.
Qed.
End ModePixel.

Section ModeFold.
Context {A : PixelArith}.
Variable foot : Footprint.
Variable tsum : Image pixel.
Variable img : MaskedImage.
Variable opts : Z.
Variable tfoots : list Footprint.
Variable ispsf : list bool.
Variables pkx pky : list Z.
Variable clip : dbl.
Variable nearest : option (Image Z).
Variable wt : Z -> Z -> nat -> dbl.

Hypothesis Hpsf : length ispsf = 0%nat \/ length ispsf = length tfoots.
Hypothesis Hmode :
  forall x y, box_contains_pt (im_bbox tsum) x y = true ->
    exists c0,
      init_contrib opts tfoots pkx pky nearest x y = Ok c0 /\
      length c0 = length tfoots /\
      (forall i, (i < length tfoots)%nat ->
         wt x y i = if deqb (nth i c0 d0) (dbl_of_Z (-1))
                    then get_contrib_r_to_footprint x y
                           (nth i tfoots (mkFootprint [] []))
                    else nth i c0 d0) /\
      (forall i, (i < length tfoots)%nat ->
         deqb (wt x y i) (dbl_of_Z (-1)) = false).

Lemma mode_fold :
  forall l strays,
    length strays = length tfoots ->
    (forall x y, In (x, y) l ->
       box_contains_pt (im_bbox tsum) x y = true /\
       box_contains_pt (mi_bbox img) x y = true) ->
    exists strays',
      foldM (stray_pixel tsum img opts tfoots ispsf pkx pky clip nearest)
            l strays = Ok strays' /\
      length strays' = length tfoots /\
      forall i, (i < length tfoots)%nat ->
        nth i strays' [] =
        nth i strays []
        ++ mode_records_for tsum img opts (length tfoots) ispsf clip wt i l.
Proof.
  induction l as [|[x y] l IH]; intros strays Hlen Hin.
  - exists strays. split; [reflexivity|]. split; [exact Hlen|].
    intros i _. cbn [mode_records_for flat_map]. rewrite app_nil_r.
    reflexivity.
  - cbn [foldM]. destruct (Hin x y (or_introl eq_refl)) as [Ht Hi].
    assert (Hstep : exists s1,
               stray_pixel tsum img opts tfoots ispsf pkx pky clip nearest
                           strays (x, y) = Ok s1 /\
               length s1 = length tfoots /\
               forall i, (i < length tfoots)%nat ->
                 nth i s1 [] =
                 nth i strays []
                 ++ mode_records_for tsum img opts (length tfoots) ispsf
                                     clip wt i [(x, y)]).
    { unfold mode_records_for. cbn [flat_map fst snd]. unfold is_stray.
      destruct (pltb p0 (im_pix tsum x y)) eqn:E1;
        [|destruct (pleb (mi_image img x y) p0) eqn:E2].
      - exists strays. rewrite stray_pixel_skip by auto.
        split; [reflexivity|]. split; [exact Hlen|].
        intros i _. cbn [negb andb app]. rewrite app_nil_r. reflexivity.
      - exists strays. rewrite stray_pixel_skip by auto.
        split; [reflexivity|]. split; [exact Hlen|].
        intros i _. cbn [negb andb app]. rewrite app_nil_r. reflexivity.
      - destruct (Hmode x y Ht) as (c0 & Einit & Hc0 & Hwt & Hres).
        destruct (stray_pixel_mode tsum img opts tfoots ispsf pkx pky clip
                    Hpsf x y c0 (wt x y) Hc0 Hwt Hres nearest strays
                    Einit Hlen Ht Hi E1 E2) as (s1 & E & Hl & Hn).
        exists s1. split; [exact E|]. split; [exact Hl|].
        intros i Hi'. rewrite (Hn i Hi'). cbn [negb andb].
        destruct (negb _); cbn [app]; rewrite ?app_nil_r; reflexivity. }
    destruct Hstep as (s1 & E1 & Hl1 & Hn1). rewrite E1. cbn [bind].
    destruct (IH s1 Hl1 (fun x' y' H => Hin x' y' (or_intror H)))
      as (s2 & E2 & Hl2 & Hn2).
    exists s2. split; [exact E2|]. split; [exact Hl2|].
    intros i Hi'. rewrite (Hn2 i Hi'), (Hn1 i Hi'), <- app_assoc.
    unfold mode_records_for. cbn [flat_map]. rewrite app_nil_r.
    reflexivity.
Qed.

Lemma mode_find :
  nearest_image tsum opts tfoots ispsf = Ok nearest ->
  (forall x y, foot_contains foot x y = true ->
     box_contains_pt (im_bbox tsum) x y = true /\
     box_contains_pt (mi_bbox img) x y = true) ->
  find_stray_flux foot tsum img opts tfoots ispsf pkx pky clip =
  Ok (map (fun i =>
             heavy_of (mode_records_for tsum img opts (length tfoots) ispsf
                         clip wt i (spans_pixels (fp_spans foot))))
          (seq 0 (length tfoots))).
Proof.
  intros Hnear Hbox. unfold find_stray_flux. rewrite Hnear. cbn [bind].
  destruct (mode_fold (spans_pixels (fp_spans foot))
              (repeat [] (length tfoots)))
    as (acc & E & Hl & Hn).
  - apply repeat_length.
  - intros x y Hin. apply Hbox. unfold foot_contains.
    apply spans_pixels_In. exact Hin.
  - rewrite E. cbn [bind]. f_equal.
    rewrite (list_eq_map_seq
               (fun i => mode_records_for tsum img opts (length tfoots)
                           ispsf clip wt i
                           (spans_pixels (fp_spans foot))) [] acc).
    + rewrite Hl, map_map. reflexivity.
    + intros i Hi. rewrite Hl in Hi. rewrite (Hn i Hi).
      rewrite nth_repeat. reflexivity.
Qed.
End ModeFold.

Lemma nth_repeat_lt {T : Type} (a d : T) (n i : nat) :
  (i < n)%nat -> nth i (repeat a n) d = a.
Proof.
  intros Hi. rewrite (nth_indep _ d a) by (rewrite repeat_length; exact Hi).
  apply nth_repeat.
Qed.

(** X26.  [_find_stray_flux] under [STRAYFLUX_R_TO_FOOTPRINT] (without
    [STRAYFLUX_NEAREST_FOOTPRINT]), with [ispsf] of length 0 or N and the
    parent footprint inside the boxes of [tsum] and of the image, in an
    arithmetic in which -1 equals itself and no weight
    [1 / (1 + minr2)] equals -1: the routine returns one entry per
    template; the heavy footprint of template [i] holds, in the order of
    the parent footprint, the stray pixels at which its weight by distance
    to its footprint survives the skipping of point sources and the
    clipping, each with the share [weight / csum] of the image value; the
    weights are computed on demand, and the result is the same as if all
    had been computed.  The weights are those the code computes,
    [_get_contrib_r_to_footprint] with its 32-bit squared distance,
    whatever the distance of the footprints. *)
Theorem find_stray_flux_r_to_footprint {A : PixelArith}
        (foot : Footprint) (tsum : Image pixel) (img : MaskedImage)
        (opts : Z) (tfoots : list Footprint) (ispsf : list bool)
        (pkx pky : list Z) (clip : dbl) :
  length ispsf = 0%nat \/ length ispsf = length tfoots ->
  flag_set opts STRAYFLUX_R_TO_FOOTPRINT = true ->
  flag_set opts STRAYFLUX_NEAREST_FOOTPRINT = false ->
  deqb (dbl_of_Z (-1)) (dbl_of_Z (-1)) = true ->
  (forall x y t,
     deqb (get_contrib_r_to_footprint x y t) (dbl_of_Z (-1)) = false) ->
  (forall x y, foot_contains foot x y = true ->
     box_contains_pt (im_bbox tsum) x y = true /\
     box_contains_pt (mi_bbox img) x y = true) ->
  find_stray_flux foot tsum img opts tfoots ispsf pkx pky clip =
  Ok (map (fun i =>
             heavy_of (mode_records_for tsum img opts (length tfoots) ispsf
                         clip (weight_r_to_footprint tfoots) i
                         (spans_pixels (fp_spans foot))))
          (seq 0 (length tfoots))).
Proof.
  intros Hpsf Hr Hn Hself Hsen Hbox.
  apply (mode_find foot tsum img opts tfoots ispsf pkx pky clip None
           (weight_r_to_footprint tfoots) Hpsf).
  - intros x y _. exists (repeat (dbl_of_Z (-1)) (length tfoots)).
    split; [unfold init_contrib; rewrite Hr; reflexivity|].
    split; [apply repeat_length|]. split.
    + intros i Hi. rewrite nth_repeat_lt by exact Hi. rewrite Hself.
      reflexivity.
    + intros i _. apply Hsen.
  - unfold nearest_image. rewrite Hn. reflexivity.
  - exact Hbox.
Qed.

Lemma Qc_of_Z_nonneg (m : Z) : 0 <= m -> (0 <= Qc_of_Z m)%Qc.
Proof.
  intros Hm. apply Qcnot_lt_le. intros Hlt.
  change 0%Qc with (Qc_of_Z 0) in Hlt. apply Qc_ltb_lt in Hlt.
  rewrite Qc_ltb_of_Z in Hlt. apply Z.ltb_lt in Hlt. lia.
Qed.

Lemma min_dist2_sentinel x y spans : min_dist2 x y spans (10 ^ 12) <> -2.
Proof.
  destruct (min_dist2_spec x y spans (10 ^ 12)) as (_ & _ & [E|(sp & _ & E)]);
    rewrite E; [discriminate|apply span_dist2_sentinel].
Qed.

Lemma Qc_contrib_sentinel (x y : Z) (t : Footprint) :
  @deqb ExactArith (get_contrib_r_to_footprint x y t) (dbl_of_Z (-1)) = false.
Proof.
  apply Qc_eq_bool_false. unfold get_contrib_r_to_footprint.
  change (@dbl_of_Z ExactArith (10 ^ 12)) with (Qc_of_Z (10 ^ 12)).
  rewrite get_contrib_fold.
  change (@ddiv ExactArith) with Qcdiv. change (@dadd ExactArith) with Qcplus.
  change (@d1 ExactArith) with (Qc_of_Z 1).
  change (@dbl_of_Z ExactArith (-1)) with (Qc_of_Z (-1)).
  rewrite <- Qc_of_Z_add. change (Qc_of_Z 1) with 1%Qc.
  apply Qc_recip_sentinel.
  pose proof (min_dist2_sentinel x y (fp_spans t)). lia.
Qed.

Lemma find_stray_flux_r_to_footprint_witness :
  find_stray_flux x_foot c3_tsum x_img
                  (ASSIGN_STRAYFLUX + STRAYFLUX_R_TO_FOOTPRINT) c3_tfoots
                  [] [] [] (Qc_of_Z 0) =
  Ok (map (fun i =>
             heavy_of (mode_records_for c3_tsum x_img
                         (ASSIGN_STRAYFLUX + STRAYFLUX_R_TO_FOOTPRINT)
                         (length c3_tfoots) [] (Qc_of_Z 0)
                         (weight_r_to_footprint c3_tfoots) i
                         (spans_pixels (fp_spans x_foot))))
          (seq 0 (length c3_tfoots))).
Proof.
  apply (@find_stray_flux_r_to_footprint ExactArith).
  - left. reflexivity.
  - reflexivity.
  - reflexivity.
  - reflexivity.
  - exact Qc_contrib_sentinel.
  - exact x_foot_boxes.
Defined.

(** The run with a template footprint 50000 pixels from the stray pixel
    (0, 0): its negative weight is clipped and nothing is recorded. *)
Lemma find_stray_flux_far_footprint_run :
  find_stray_flux c3_foot c3_tsum c3_img
                  (ASSIGN_STRAYFLUX + STRAYFLUX_R_TO_FOOTPRINT) [x_far_foot]
                  [] [] [] (Qc_of_Z 0) = Ok [None] /\
  @get_contrib_r_to_footprint IEEEArith 0 0 x_far_foot
  = S754_finite true 5388068397601101 (-83) /\
  null_entries x_ieee_far_run = Some [true].
Proof.
  split; [vm_compute; reflexivity|].
  split; [vm_compute; reflexivity|].
  vm_compute. reflexivity.
Qed.

(** X27.  [_find_stray_flux] under [STRAYFLUX_NEAREST_FOOTPRINT]
    (without [STRAYFLUX_R_TO_FOOTPRINT]), with [ispsf] of length 0 or N,
    at most 65536 templates, a template sum whose width and height add up
    to at most 65534, some footprint of the effective list [fl] with a
    pixel in the box of [tsum], and the parent footprint inside the boxes
    of [tsum] and of the image, in an arithmetic in which neither 0 nor 1
    equals -1: the routine returns one entry per template; a stray pixel
    is weighed 1 for the template whose index the label image of
    [nearestFootprint] holds there and 0 for the others, and the heavy
    footprints are those these weights give after the skipping of point
    sources and the clipping. *)
Theorem find_stray_flux_nearest_footprint {A : PixelArith}
        (foot : Footprint) (tsum : Image pixel) (img : MaskedImage)
        (opts : Z) (tfoots : list Footprint) (ispsf : list bool)
        (pkx pky : list Z) (clip : dbl) (fl : list Footprint) :
  length ispsf = 0%nat \/ length ispsf = length tfoots ->
  flag_set opts STRAYFLUX_NEAREST_FOOTPRINT = true ->
  flag_set opts STRAYFLUX_R_TO_FOOTPRINT = false ->
  footlist opts tfoots ispsf = Ok fl ->
  getWidth (im_bbox tsum) + getHeight (im_bbox tsum) <= 65534 ->
  (exists f x y, In f fl /\ foot_contains f x y = true /\
                 box_contains_pt (im_bbox tsum) x y = true) ->
  Z.of_nat (length tfoots) <= 65536 ->
  deqb d0 (dbl_of_Z (-1)) = false ->
  deqb d1 (dbl_of_Z (-1)) = false ->
  (forall x y, foot_contains foot x y = true ->
     box_contains_pt (im_bbox tsum) x y = true /\
     box_contains_pt (mi_bbox img) x y = true) ->
  find_stray_flux foot tsum img opts tfoots ispsf pkx pky clip =
  Ok (map (fun i =>
             heavy_of
               (mode_records_for tsum img opts (length tfoots) ispsf clip
                  (weight_nearest
                     (snd (nearestFootprint fl (im_const (im_bbox tsum) 0)
                                            (im_const (im_bbox tsum) 0))))
                  i (spans_pixels (fp_spans foot))))
          (seq 0 (length tfoots))).
Proof.
  intros Hpsf Hn Hr Hfl Hwrap Hpix HN H0 H1 Hbox.
  destruct (stray_nearest_in_bounds tsum opts tfoots ispsf pkx pky fl
              Hn Hr Hfl Hwrap Hpix HN) as (nr & Enr & Hlab).
  assert (Enr' : nr = snd (nearestFootprint fl (im_const (im_bbox tsum) 0)
                                            (im_const (im_bbox tsum) 0))).
  { unfold nearest_image in Enr. rewrite Hn, Hfl in Enr. cbn [bind] in Enr.
    inversion Enr. reflexivity. }
  rewrite <- Enr'.
  apply (mode_find foot tsum img opts tfoots ispsf pkx pky clip (Some nr)
           (weight_nearest nr) Hpsf).
  - intros x y Hin. destruct (Hlab x y Hin) as (i & Hi & Eread & Einit).
    assert (Elab : im_pix nr x y = Z.of_nat i).
    { unfold im_read in Eread.
      destruct (box_contains_pt (im_bbox nr) x y); [|discriminate].
      inversion Eread. reflexivity. }
    exists (upd_nth (repeat d0 (length tfoots)) i d1).
    split; [exact Einit|].
    split; [rewrite upd_nth_length; apply repeat_length|].
    assert (Hnth : forall j, (j < length tfoots)%nat ->
               nth j (upd_nth (repeat d0 (length tfoots)) i d1) d0
               = weight_nearest nr x y j).
    { intros j Hj. rewrite upd_nth_nth by (rewrite repeat_length; exact Hi).
      rewrite nth_repeat_lt by exact Hj. unfold weight_nearest.
      rewrite Elab.
      destruct (Nat.eqb_spec j i) as [->|Hne].
      - rewrite Z.eqb_refl. reflexivity.
      - replace (Z.of_nat j =? Z.of_nat i) with false; [reflexivity|].
        symmetry. apply Z.eqb_neq. lia. }
    split.
    + intros j Hj. rewrite (Hnth j Hj). unfold weight_nearest.
      destruct (Z.of_nat j =? im_pix nr x y); [rewrite H1|rewrite H0];
        reflexivity.
    + intros j Hj. unfold weight_nearest.
      destruct (Z.of_nat j =? im_pix nr x y); assumption.
  - exact Enr.
  - exact Hbox.
Qed.

Lemma find_stray_flux_nearest_footprint_witness :
  find_stray_flux x_foot c3_tsum x_img
                  (ASSIGN_STRAYFLUX + STRAYFLUX_NEAREST_FOOTPRINT) c3_tfoots
                  [] [] [] (Qc_of_Z 0) =
  Ok (map (fun i =>
             heavy_of
               (mode_records_for c3_tsum x_img
                  (ASSIGN_STRAYFLUX + STRAYFLUX_NEAREST_FOOTPRINT)
                  (length c3_tfoots) [] (Qc_of_Z 0)
                  (weight_nearest
                     (snd (nearestFootprint c3_tfoots
                             (im_const (im_bbox c3_tsum) 0)
                             (im_const (im_bbox c3_tsum) 0))))
                  i (spans_pixels (fp_spans x_foot))))
          (seq 0 (length c3_tfoots))).
Proof.
  apply (@find_stray_flux_nearest_footprint ExactArith x_foot c3_tsum x_img
           (ASSIGN_STRAYFLUX + STRAYFLUX_NEAREST_FOOTPRINT) c3_tfoots
           [] [] [] (Qc_of_Z 0) c3_tfoots).
  - left. reflexivity.
  - reflexivity.
  - reflexivity.
  - reflexivity.
  - cbn. lia.
  - exists (mkFootprint [mkSpan 0 1 1] []), 1, 0.
    split; [left; reflexivity|]. split; reflexivity.
  - cbn. lia.
  - reflexivity.
  - reflexivity.
  - exact x_foot_boxes.
Defined.
